(** * semantic-find: text chunking, similarity ranking and highlight mapping

    A shallow embedding of
      - [src/content/text-chunker.ts]  (extractPageText, chunkText),
      - [src/shared/similarity.ts]     (cosineSimilarity, findTopKSimilar),
      - the highlighter, [src/content/highlighter.ts], whose text follows
        the summary panel in [src/content/summary-panel.ts]
        (highlightText, removeHighlight, setActiveHighlight,
        clearAllHighlights, getHighlightCount and the location algorithm),
      - the overlay, [src/content/overlay.ts], whose text follows the
        chunker in [src/content/text-chunker.ts], and the summary panel,
      - [src/content/content-script.ts], as a machine that is moved by the
        user and by the answers of the service worker,
      - the message handlers of the service worker, whose text follows
        [src/background/llm-loader.ts] (handleGetEmbeddings,
        handleSearchQuery), and [src/background/embedding-cache.ts],
    together with the properties of these functions.

    Conventions.  A JavaScript string is a [string] of 8-bit code units
    (the Latin-1 range of UTF-16); a JavaScript number that is used as an
    index, a length or a size is a [Z]; a number that is used as a score or
    a vector component is a binary64 [float], which is what a JavaScript
    number is. *)

From Stdlib Require Import ZArith List String Ascii Bool Lia DecimalString.
From Stdlib Require Import Floats Sorted.
From Stdlib Require DecimalPos DecimalZ.
From stdpp Require Import base gmap strings.
Import ListNotations.

Local Open Scope Z_scope.

(* ===================================================================== *)
(** * JavaScript strings *)
(* ===================================================================== *)

Module JsString.

(** [/\s/] on one code unit: TAB, LF, VT, FF, CR, SPACE and NBSP are the
    white space and line terminator code points below 256. *)
Definition isSpace (c : ascii) : bool :=
  let n := nat_of_ascii c in
  ((9 <=? n)%nat && (n <=? 13)%nat) || (n =? 32)%nat || (n =? 160)%nat.

(** [String.prototype.toLowerCase] on one code unit of the Latin-1 range:
    A-Z, and U+00C0-U+00DE except the multiplication sign U+00D7. *)
Definition toLowerChar (c : ascii) : ascii :=
  let n := nat_of_ascii c in
  if ((65 <=? n)%nat && (n <=? 90)%nat)
     || ((192 <=? n)%nat && (n <=? 222)%nat && negb (n =? 215)%nat)
  then ascii_of_nat (n + 32) else c.

Fixpoint toLowerCase (s : string) : string :=
  match s with
  | EmptyString => EmptyString
  | String c s' => String (toLowerChar c) (toLowerCase s')
  end.

(** [s.length] *)
Definition len (s : string) : Z := Z.of_nat (String.length s).

Fixpoint trimStart (s : string) : string :=
  match s with
  | EmptyString => EmptyString
  | String c s' => if isSpace c then trimStart s' else s
  end.

Fixpoint trimEnd (s : string) : string :=
  match s with
  | EmptyString => EmptyString
  | String c s' =>
      match trimEnd s' with
      | EmptyString => if isSpace c then EmptyString else String c EmptyString
      | t => String c t
      end
  end.

(** [s.trim()] *)
Definition trim (s : string) : string := trimEnd (trimStart s).

(** [s.replace(/\s+/g, ' ')]: every maximal run of white space becomes one
    space.  [inRun] tells that the previous code unit was white space. *)
Fixpoint replaceSpaceRuns (inRun : bool) (s : string) : string :=
  match s with
  | EmptyString => EmptyString
  | String c s' =>
      if isSpace c
      then if inRun then replaceSpaceRuns true s'
           else String " "%char (replaceSpaceRuns true s')
      else String c (replaceSpaceRuns false s')
  end.

(** [a.join(' ')] *)
Definition join (l : list string) : string := String.concat " " l.

(** [s.substring(0, n)] for [0 <= n] *)
Fixpoint take (n : nat) (s : string) : string :=
  match n, s with
  | S n', String c s' => String c (take n' s')
  | _, _ => EmptyString
  end.

(** [s.split(/\s+/)]: the pieces between the maximal runs of white space;
    a leading or a trailing run leaves an empty piece, and the empty string
    splits into one empty piece.  [cur] is the piece being read. *)
Fixpoint splitSpacesFrom (inRun : bool) (cur : string) (s : string)
  : list string :=
  match s with
  | EmptyString => [cur]
  | String c s' =>
      if isSpace c
      then if inRun then splitSpacesFrom true cur s'
           else cur :: splitSpacesFrom true EmptyString s'
      else splitSpacesFrom false (cur +:+ String c EmptyString) s'
  end.

Definition splitSpaces (s : string) : list string :=
  splitSpacesFrom false EmptyString s.

(** [s.indexOf(t)]: the first position at which [t] occurs, [-1] if none. *)
Fixpoint indexOfFrom (i : Z) (s t : string) : Z :=
  if String.prefix t s then i
  else match s with
       | EmptyString => -1
       | String _ s' => indexOfFrom (i + 1) s' t
       end.

Definition indexOf (s t : string) : Z := indexOfFrom 0 s t.

(** [`${n}`] for an integer *)
Definition ofZ (n : Z) : string := NilZero.string_of_int (Z.to_int n).

End JsString.

(* ===================================================================== *)
(** * The document *)
(* ===================================================================== *)

Module Dom.
Import JsString.

(** An element, with what the code reads of it.  [display] and
    [visibility] are the two properties of [window.getComputedStyle(e)]
    that the code looks at; [nodeId] is the identity of the node. *)
Record Element := {
  nodeId : nat;
  tagName : string;
  role : option string;          (* getAttribute('role') *)
  className : string;
  idAttr : string;               (* e.id *)
  display : string;
  visibility : string;
  chunkIdData : option string    (* e.dataset.chunkId *)
}.

#[warnings="-register-all"]
Inductive Node :=
| Text (nid : nat) (data : string)
| Elem (e : Element) (children : list Node).

(** A document that has its [<html>], [<head>] and [<body>] elements. *)
Record Document := {
  html : Element;
  head : Element;
  headChildren : list Node;
  body : Element;
  bodyChildren : list Node
}.

Definition documentElement (d : Document) : Node :=
  Elem (html d) [Elem (head d) (headChildren d); Elem (body d) (bodyChildren d)].

(** A text node as a [TreeWalker] hands it over: its identity, its
    [parentElement] chain (the parent first, [<html>] last) and its
    [textContent]. *)
Record TextEntry := {
  t_node : nat;
  t_ancestors : list Element;
  t_data : string
}.

(** The text nodes of a subtree in document order, what a [TreeWalker] with
    [NodeFilter.SHOW_TEXT] visits; [anc] is the chain above the subtree. *)
Fixpoint textNodesOf (anc : list Element) (n : Node) : list TextEntry :=
  match n with
  | Text nid d => [ {| t_node := nid; t_ancestors := anc; t_data := d |} ]
  | Elem e cs => flat_map (textNodesOf (e :: anc)) cs
  end.

(** The text nodes below an element (the walker's root is not visited). *)
Definition textNodesUnder (anc : list Element) (e : Element)
    (cs : list Node) : list TextEntry :=
  flat_map (textNodesOf (e :: anc)) cs.

Definition bodyTextNodes (d : Document) : list TextEntry :=
  textNodesUnder [html d] (body d) (bodyChildren d).

(** [document.querySelector]: the first element in document order that
    satisfies [p], with its ancestor chain and its children. *)
Fixpoint findElement (p : Element -> bool) (anc : list Element) (n : Node)
  : option (Element * list Element * list Node) :=
  match n with
  | Text _ _ => None
  | Elem e cs =>
      if p e then Some (e, anc, cs)
      else (fix first (l : list Node) :=
              match l with
              | [] => None
              | c :: l' =>
                  match findElement p (e :: anc) c with
                  | Some r => Some r
                  | None => first l'
                  end
              end) cs
  end.

Definition querySelector (p : Element -> bool) (d : Document)
  : option (Element * list Element * list Node) :=
  findElement p [] (documentElement d).

(** Class tokens are separated by ASCII white space. *)
Definition isAsciiSpace (c : ascii) : bool :=
  let n := nat_of_ascii c in
  (n =? 9)%nat || (n =? 10)%nat || (n =? 12)%nat || (n =? 13)%nat
  || (n =? 32)%nat.

Fixpoint tokensFrom (cur : string) (s : string) : list string :=
  match s with
  | EmptyString => match cur with EmptyString => [] | _ => [cur] end
  | String c s' =>
      if isAsciiSpace c
      then match cur with
           | EmptyString => tokensFrom EmptyString s'
           | _ => cur :: tokensFrom EmptyString s'
           end
      else tokensFrom (cur +:+ String c EmptyString) s'
  end.

Definition classList (e : Element) : list string :=
  tokensFrom EmptyString (className e).

Definition hasClass (c : string) (e : Element) : bool :=
  existsb (String.eqb c) (classList e).

Definition includes (l : list string) (s : string) : bool :=
  existsb (String.eqb s) l.

(** Every node identity of a subtree, to allocate a fresh one. *)
Fixpoint maxNodeId (n : Node) : nat :=
  match n with
  | Text nid _ => nid
  | Elem e cs => fold_right (fun c m => Nat.max (maxNodeId c) m) (nodeId e) cs
  end.

Definition freshNodeId (d : Document) : nat := S (maxNodeId (documentElement d)).

Fixpoint anyElement (p : Element -> bool) (n : Node) : bool :=
  match n with
  | Text _ _ => false
  | Elem e cs => p e || existsb (anyElement p) cs
  end.

End Dom.

(* ===================================================================== *)
(** * src/shared/types.ts *)
(* ===================================================================== *)

Module Types.

Record TextChunk := {
  id : string;
  text : string;
  startOffset : Z;
  endOffset : Z;
  embedding : option (list float)
}.

End Types.

(* ===================================================================== *)
(** * src/content/text-chunker.ts *)
(* ===================================================================== *)

Module TextChunker.
Import JsString Dom Types.

Definition SKIP_TAGS : list string :=
  [ "SCRIPT"; "STYLE"; "NOSCRIPT"; "IFRAME"; "OBJECT"; "EMBED";
    "SVG"; "CANVAS"; "VIDEO"; "AUDIO"; "MAP"; "TEMPLATE";
    "NAV"; "HEADER"; "FOOTER"; "ASIDE" ]%string.

(** The patterns are plain words matched anywhere, ignoring case. *)
Definition SKIP_PATTERNS : list string :=
  [ "nav"; "menu"; "sidebar"; "footer"; "header";
    "breadcrumb"; "advertisement"; "social"; "share";
    "comment"; "related"; "recommend"; "popular";
    "widget"; "banner"; "promo"; "sponsor" ]%string.

(** The [i] flag of a regular expression folds A-Z only onto a-z. *)
Definition foldCaseChar (c : ascii) : ascii :=
  let n := nat_of_ascii c in
  if ((65 <=? n)%nat && (n <=? 90)%nat) then ascii_of_nat (n + 32) else c.

Fixpoint foldCase (s : string) : string :=
  match s with
  | EmptyString => EmptyString
  | String c s' => String (foldCaseChar c) (foldCase s')
  end.

(** [/word/i.test(s)] *)
Definition testIgnoreCase (word s : string) : bool :=
  0 <=? indexOf (foldCase s) word.

(** One turn of the loop of [shouldSkipElement], on [current]. *)
Definition skipHere (current : Element) : bool :=
  if includes SKIP_TAGS (tagName current) then true
  else if match role current with
          | Some r =>
              negb (String.eqb r "")
              && includes ["navigation"; "banner"; "contentinfo";
                           "complementary"]%string r
          | None => false
          end then true
  else let classAndId := className current +:+ " " +:+ idAttr current in
       existsb (fun pattern => testIgnoreCase pattern classAndId) SKIP_PATTERNS.

(** [while (current && depth < 5)]: [chain] is [current] and its
    [parentElement]s, [remaining] is [5 - depth]. *)
Fixpoint shouldSkipLoop (remaining : nat) (chain : list Element) : bool :=
  match remaining, chain with
  | S r, current :: parents =>
      if skipHere current then true else shouldSkipLoop r parents
  | _, _ => false
  end.

Definition shouldSkipElement (chain : list Element) : bool :=
  shouldSkipLoop 5 chain.

(** [chunkIdCounter] is the state of [generateChunkId]; [now c] is what
    [Date.now()] reads at the call that finds the counter at [c]. *)
Definition generateChunkId (now : nat -> Z) (chunkIdCounter : nat)
  : string * nat :=
  ("chunk-" +:+ ofZ (now chunkIdCounter) +:+ "-"
     +:+ ofZ (Z.of_nat chunkIdCounter),
   S chunkIdCounter).

Record TextNode := {
  tn_text : string;
  tn_node : nat;
  tn_startOffset : Z
}.

(** The selector list of [extractPageText]. *)
Definition isMainContent (e : Element) : bool :=
  String.eqb (tagName e) "MAIN" || String.eqb (tagName e) "ARTICLE"
  || match role e with Some r => String.eqb r "main" | None => false end
  || hasClass "content" e || hasClass "post" e || hasClass "entry" e
  || String.eqb (idAttr e) "content" || String.eqb (idAttr e) "main"
  || hasClass "mw-body-content" e.

(** [mainContent || document.body], with the chain above it. *)
Definition searchRoot (d : Document) : Element * list Element * list Node :=
  match querySelector isMainContent d with
  | Some r => r
  | None => (body d, [html d], bodyChildren d)
  end.

(** The [acceptNode] filter of [extractPageText]. *)
Definition acceptNode (t : TextEntry) : bool :=
  match t_ancestors t with
  | [] => false
  | parent :: _ =>
      if String.eqb (display parent) "none"
         || String.eqb (visibility parent) "hidden" then false
      else if shouldSkipElement (t_ancestors t) then false
      else let text := trim (t_data t) in
           if String.eqb text "" then false
           else if len text <? 3 then false
           else true
  end.

(** The text nodes that the walker of [extractPageText] returns. *)
Definition acceptedTextNodes (d : Document) : list TextEntry :=
  let '(root, anc, cs) := searchRoot d in
  List.filter acceptNode (textNodesUnder anc root cs).

(** The [while] loop of [extractPageText]. *)
Fixpoint collectFrom (currentOffset : Z) (nodes : list TextEntry)
  : list TextNode :=
  match nodes with
  | [] => []
  | n :: rest =>
      let text := trim (t_data n) in
      if String.eqb text "" then collectFrom currentOffset rest
      else {| tn_text := text; tn_node := t_node n;
              tn_startOffset := currentOffset |}
           :: collectFrom (currentOffset + len text + 1) rest
  end.

Definition extractPageText (d : Document) : list TextNode :=
  collectFrom 0 (acceptedTextNodes d).

(** The variables of the loop of [chunkText]. *)
Record ChunkLoop := {
  chunks : list TextChunk;
  currentChunkText : string;
  currentChunkStart : Z;
  lastOffset : Z;
  chunkIdCounter : nat
}.

Definition pushChunk (now : nat -> Z) (st : ChunkLoop) : ChunkLoop :=
  let '(newId, counter) := generateChunkId now (chunkIdCounter st) in
  {| chunks := chunks st ++
               [ {| id := newId;
                    text := trim (currentChunkText st);
                    startOffset := currentChunkStart st;
                    endOffset := lastOffset st;
                    embedding := None |} ];
     currentChunkText := currentChunkText st;
     currentChunkStart := currentChunkStart st;
     lastOffset := lastOffset st;
     chunkIdCounter := counter |}.

(** The body of [for (const { text, startOffset } of textNodes)]. *)
Definition chunkStep (now : nat -> Z) (targetSize : Z)
    (st : ChunkLoop) (n : TextNode) : ChunkLoop :=
  let st1 :=
    if (0 <? len (currentChunkText st))
       && (targetSize <? len (currentChunkText st) + len (tn_text n))
    then let p := pushChunk now st in
         {| chunks := chunks p;
            currentChunkText := "";
            currentChunkStart := tn_startOffset n;
            lastOffset := lastOffset p;
            chunkIdCounter := chunkIdCounter p |}
    else st in
  let start :=
    if len (currentChunkText st1) =? 0 then tn_startOffset n
    else currentChunkStart st1 in
  {| chunks := chunks st1;
     currentChunkText :=
       currentChunkText st1
       +:+ (if 0 <? len (currentChunkText st1) then " " else "")
       +:+ tn_text n;
     currentChunkStart := start;
     lastOffset := tn_startOffset n + len (tn_text n);
     chunkIdCounter := chunkIdCounter st1 |}.

(** [chunkText(textNodes, targetSize)], from the counter [counter]; the
    result is the list of chunks and the counter afterwards. *)
Definition chunkTextFrom (now : nat -> Z) (counter : nat)
    (textNodes : list TextNode) (targetSize : Z) : list TextChunk * nat :=
  let st := fold_left (chunkStep now targetSize) textNodes
              {| chunks := []; currentChunkText := "";
                 currentChunkStart := 0; lastOffset := 0;
                 chunkIdCounter := counter |} in
  let final :=
    if 0 <? len (trim (currentChunkText st)) then pushChunk now st else st in
  (chunks final, chunkIdCounter final).

Definition chunkText (now : nat -> Z) (counter : nat)
    (textNodes : list TextNode) (targetSize : Z) : list TextChunk :=
  fst (chunkTextFrom now counter textNodes targetSize).

(** [getFullPageText()] *)
Definition getFullPageText (d : Document) : string :=
  join (map tn_text (extractPageText d)).

End TextChunker.

(* ===================================================================== *)
(** * src/shared/similarity.ts *)
(* ===================================================================== *)

Module Similarity.

(** A call returns a value or throws an [Error] with a message. *)
Inductive Outcome (A : Type) :=
| Returns (a : A)
| Throws (message : string).
Arguments Returns {A} a.
Arguments Throws {A} message.

Local Open Scope float_scope.

(** The [for] loop of [cosineSimilarity], on the components that are left;
    the three sums are [dotProduct], [normA] and [normB]. *)
Fixpoint sums (a b : list float) (acc : float * float * float)
  : float * float * float :=
  match a, b with
  | x :: a', y :: b' =>
      let '(dotProduct, normA, normB) := acc in
      sums a' b' (dotProduct + x * y, normA + x * x, normB + y * y)
  | _, _ => acc
  end.

Definition cosineSimilarity (a b : list float) : Outcome float :=
  if negb (length a =? length b)%nat
  then Throws "Vectors must have the same length"
  else
    let '(dotProduct, normA, normB) := sums a b (0, 0, 0) in
    let normA := sqrt normA in
    let normB := sqrt normB in
    if (normA =? 0) || (normB =? 0) then Returns 0
    else Returns (dotProduct / (normA * normB)).

Record Scored := {
  index : Z;
  score : float
}.

(** [chunks.map((chunk, index) => ...)]: the first call that throws ends
    the whole call; [chunks] is given by the embeddings of the chunks. *)
Fixpoint scoresFrom (index : Z) (queryEmbedding : list float)
    (chunks : list (list float)) : Outcome (list Scored) :=
  match chunks with
  | [] => Returns []
  | embedding :: rest =>
      match cosineSimilarity queryEmbedding embedding with
      | Throws m => Throws m
      | Returns s =>
          match scoresFrom (index + 1)%Z queryEmbedding rest with
          | Throws m => Throws m
          | Returns l => Returns ({| index := index; score := s |} :: l)
          end
      end
  end.

(** [Array.prototype.sort(compare)] is stable: an element moves behind
    another one only when [compare] is positive on them (a [NaN] counts as
    0).  The result is computed by insertion from the right. *)
Fixpoint insertSorted {A} (compare : A -> A -> float) (x : A) (l : list A)
  : list A :=
  match l with
  | [] => [x]
  | y :: l' =>
      if 0 <? compare x y then y :: insertSorted compare x l'
      else x :: y :: l'
  end.

Definition sort {A} (compare : A -> A -> float) (l : list A) : list A :=
  fold_right (insertSorted compare) [] l.

(** [a.slice(0, k)] for an integer [k]; a negative [k] counts from the
    end of the array. *)
Definition slice0 {A} (k : Z) (l : list A) : list A :=
  let len := Z.of_nat (length l) in
  let final := if (k <? 0)%Z then Z.max (len + k) 0 else Z.min k len in
  firstn (Z.to_nat final) l.

(** The comparator [(a, b) => b.score - a.score]. *)
Definition byScore (a b : Scored) : float := score b - score a.

Definition findTopKSimilar (queryEmbedding : list float)
    (chunks : list (list float)) (k : Z) (threshold : float)
  : Outcome (list Scored) :=
  match scoresFrom 0 queryEmbedding chunks with
  | Throws m => Throws m
  | Returns scores =>
      Returns
        (slice0 k
           (sort byScore
              (List.filter (fun item => threshold <=? score item) scores)))
  end.

End Similarity.

(* ===================================================================== *)
(** * src/content/highlighter.ts (in src/content/summary-panel.ts) *)
(* ===================================================================== *)

Module Highlighter.
Import JsString Dom.

Definition HIGHLIGHT_NAME : string := "semantic-find-highlight".
Definition ACTIVE_HIGHLIGHT_NAME : string := "semantic-find-highlight-active".

(** A DOM [Range]: two boundary points, each a node and an offset.  A
    value gives the boundary points at the time the range is made.  A
    range of the DOM is live: when nodes are inserted later in the parent
    of a boundary point, as the fallback does, the offsets of
    a range that is held somewhere move with them.  The model does not
    follow this; a property that compares what is held before and after a
    call of the fallback speaks of the ranges as objects, not of where
    their boundary points are after the call. *)
Record Range := {
  startContainer : nat;
  startOffset : Z;
  endContainer : nat;
  endOffset : Z
}.

(** What [setActiveHighlight] asks the window to do. *)
Inductive Scroll :=
| ScrollIntoView (element : nat)      (* element.scrollIntoView(...) *)
| ScrollTo (range : Range).           (* window.scrollTo(...) *)

(** The state that the module reads and writes: its two variables, the
    registry [CSS.highlights], the live document and the scroll requests
    issued so far. *)
Record Page := {
  highlightedChunks : gmap string (list Range);
  activeHighlightId : option string;
  highlights : gmap string (list Range);
  document : Document;
  scrolls : list Scroll
}.

Definition withChunks (p : Page) (m : gmap string (list Range)) : Page :=
  {| highlightedChunks := m; activeHighlightId := activeHighlightId p;
     highlights := highlights p; document := document p;
     scrolls := scrolls p |}.

Definition withActive (p : Page) (a : option string) : Page :=
  {| highlightedChunks := highlightedChunks p; activeHighlightId := a;
     highlights := highlights p; document := document p;
     scrolls := scrolls p |}.

Definition withHighlights (p : Page) (h : gmap string (list Range)) : Page :=
  {| highlightedChunks := highlightedChunks p;
     activeHighlightId := activeHighlightId p;
     highlights := h; document := document p; scrolls := scrolls p |}.

Definition withDocument (p : Page) (d : Document) : Page :=
  {| highlightedChunks := highlightedChunks p;
     activeHighlightId := activeHighlightId p;
     highlights := highlights p; document := d; scrolls := scrolls p |}.

Definition withScroll (p : Page) (s : Scroll) : Page :=
  {| highlightedChunks := highlightedChunks p;
     activeHighlightId := activeHighlightId p;
     highlights := highlights p; document := document p;
     scrolls := scrolls p ++ [s] |}.

(** ** Text location *)

Definition normalizeText (text : string) : string :=
  trim (replaceSpaceRuns false (toLowerCase text)).

(** The loop of [mapNormalizedToActual]: [rest] is [text] from [i] on. *)
Fixpoint mapLoop (text : string) (normalizedPos : Z) (i normIndex : Z)
    (inWhitespace : bool) (rest : string) : Z :=
  match rest with
  | EmptyString => len text
  | String char rest' =>
      if normalizedPos <=? normIndex then i
      else if isSpace char
      then if negb inWhitespace
           then mapLoop text normalizedPos (i + 1) (normIndex + 1) true rest'
           else mapLoop text normalizedPos (i + 1) normIndex true rest'
      else mapLoop text normalizedPos (i + 1) (normIndex + 1) false rest'
  end.

Definition mapNormalizedToActual (text : string) (normalizedPos : Z) : Z :=
  mapLoop text normalizedPos 0 0 false text.

Definition getFirstWords (text : string) (count : nat) : string :=
  join (firstn count (splitSpaces text)).

(** The [acceptNode] filter of [findRangeForText]. *)
Definition acceptNode (t : TextEntry) : bool :=
  match t_ancestors t with
  | [] => false
  | parent :: _ =>
      if String.eqb (display parent) "none"
         || String.eqb (visibility parent) "hidden" then false
      else if includes ["SCRIPT"; "STYLE"; "NOSCRIPT"; "TEMPLATE"]%string
                (tagName parent) then false
      else true
  end.

(** An entry of the array [textNodes] of [findRangeForText]. *)
Record Located := {
  node : nat;
  start : Z;
  text : string
}.

(** The first loop of [findRangeForText], over the nodes that the walker
    returns: the array [textNodes] and the string [fullText]. *)
Fixpoint flatten (nodes : list TextEntry) (textNodes : list Located)
    (fullText : string) : list Located * string :=
  match nodes with
  | [] => (textNodes, fullText)
  | n :: rest =>
      let nodeText := t_data n in
      if len (trim nodeText) =? 0 then flatten rest textNodes fullText
      else flatten rest
             (textNodes ++
              [ {| node := t_node n; start := len fullText;
                   text := nodeText |} ])
             (fullText +:+ nodeText +:+ " ")
  end.

Definition flattened (d : Document) : list Located * string :=
  flatten (List.filter acceptNode (bodyTextNodes d)) [] "".

(** The variables of the second loop of [findRangeForText]. *)
Record Anchor := {
  startNode : option Located;
  a_startOffset : Z;
  endNode : option Located;
  a_endOffset : Z
}.

Definition isSome {A} (o : option A) : bool :=
  match o with Some _ => true | None => false end.

(** The second loop: [normalizedPos] is the position of the next node in
    the normalized text; the loop ends at the first node that holds the
    end of the match. *)
Fixpoint anchor (matchIndex matchEnd : Z) (startNode : option Located)
    (startOffset : Z) (normalizedPos : Z) (textNodes : list Located)
  : Anchor :=
  match textNodes with
  | [] => {| startNode := startNode; a_startOffset := startOffset;
             endNode := None; a_endOffset := 0 |}
  | n :: rest =>
      let normalizedNodeText := normalizeText (text n) in
      let nodeStartNorm := normalizedPos in
      let nodeEndNorm := normalizedPos + len normalizedNodeText in
      let '(startNode, startOffset) :=
        if negb (isSome startNode) && (nodeStartNorm <=? matchIndex)
           && (matchIndex <? nodeEndNorm)
        then (Some n, mapNormalizedToActual (text n) (matchIndex - nodeStartNorm))
        else (startNode, startOffset) in
      if isSome startNode && (nodeStartNorm <? matchEnd)
         && (matchEnd <=? nodeEndNorm)
      then {| startNode := startNode; a_startOffset := startOffset;
              endNode := Some n;
              a_endOffset :=
                mapNormalizedToActual (text n) (matchEnd - nodeStartNorm) |}
      else if isSome startNode && (matchEnd =? nodeEndNorm)
      then {| startNode := startNode; a_startOffset := startOffset;
              endNode := Some n; a_endOffset := len (text n) |}
      else anchor matchIndex matchEnd startNode startOffset
             (nodeEndNorm + 1) rest
  end.

(** [range.setStart(node, offset)] and [range.setEnd(node, offset)] throw
    an [IndexSizeError] when the offset is not within the node. *)
Definition validOffset (n : Located) (offset : Z) : bool :=
  (0 <=? offset) && (offset <=? len (text n)).

(** The four arguments of [range.setStart] and [range.setEnd] in
    [findRangeForText], when the search text is found and both ends of the
    match have a node. *)
Definition boundaryPoints (d : Document) (searchText : string)
  : option (Located * Z * Located * Z) :=
  let '(textNodes, fullText) := flattened d in
  let normalizedFull := normalizeText fullText in
  let matchIndex := indexOf normalizedFull searchText in
  if matchIndex =? -1 then None
  else
    let matchEnd := matchIndex + len searchText in
    let a := anchor matchIndex matchEnd None 0 0 textNodes in
    match startNode a, endNode a with
    | Some startNode, Some endNode =>
        Some (startNode, Z.min (a_startOffset a) (len (text startNode)),
              endNode, Z.min (a_endOffset a) (len (text endNode)))
    | _, _ => None
    end.

Definition findRangeForText (d : Document) (searchText : string)
  : option Range :=
  match boundaryPoints d searchText with
  | Some (startNode, startOffset, endNode, endOffset) =>
      if validOffset startNode startOffset && validOffset endNode endOffset
      then Some {| startContainer := node startNode;
                   startOffset := startOffset;
                   endContainer := node endNode;
                   endOffset := endOffset |}
      else None                                   (* catch *)
  | None => None
  end.

(** The loop of [findTextRanges] over the search strategies. *)
Fixpoint firstFound (d : Document) (searchStrategies : list string)
  : list Range :=
  match searchStrategies with
  | [] => []
  | searchStr :: rest =>
      if String.eqb searchStr "" || (len searchStr <? 3)
      then firstFound d rest
      else match findRangeForText d searchStr with
           | Some range => [range]
           | None => firstFound d rest
           end
  end.

Definition findTextRanges (d : Document) (searchText : string)
  : list Range :=
  let normalizedSearch := normalizeText searchText in
  if len normalizedSearch <? 3 then []
  else firstFound d
         [ normalizedSearch;
           take 100 normalizedSearch;
           take 60 normalizedSearch;
           take 40 normalizedSearch;
           getFirstWords normalizedSearch 8;
           getFirstWords normalizedSearch 5;
           getFirstWords normalizedSearch 3 ].

(** ** The nodes of the document and their parents *)

Fixpoint nodesWithParent (parent : option Element) (n : Node)
  : list (nat * option Element) :=
  match n with
  | Text nid _ => [(nid, parent)]
  | Elem e cs => (nodeId e, parent) :: flat_map (nodesWithParent (Some e)) cs
  end.

(** [node.parentElement], for the node of identity [nid]; a node that is
    not in the document has none. *)
Definition parentElement (d : Document) (nid : nat) : option Element :=
  match List.find (fun x => (fst x =? nid)%nat)
          (nodesWithParent None (documentElement d)) with
  | Some (_, parent) => parent
  | None => None
  end.

(** The position of a child in [parent.childNodes]. *)
Fixpoint childIndex (nid : nat) (k : nat) (cs : list Node) : option nat :=
  match cs with
  | [] => None
  | Text i _ :: cs' => if (i =? nid)%nat then Some k else childIndex nid (S k) cs'
  | Elem _ _ :: cs' => childIndex nid (S k) cs'
  end.

(** The parent of the text node [nid] and the position of the node in it. *)
Fixpoint locateText (nid : nat) (n : Node) : option (Element * nat) :=
  match n with
  | Text _ _ => None
  | Elem e cs =>
      match childIndex nid 0 cs with
      | Some k => Some (e, k)
      | None =>
          (fix first (l : list Node) :=
             match l with
             | [] => None
             | c :: l' =>
                 match locateText nid c with
                 | Some r => Some r
                 | None => first l'
                 end
             end) cs
      end
  end.

(** ** The DOM-mutating fallback *)

(** [document.createElement('span')] with its class name and its
    [data-chunk-id]; a new element is displayed inline. *)
Definition createSpan (d : Document) (chunkId : string) : Element :=
  {| nodeId := freshNodeId d; tagName := "SPAN"; role := None;
     className := "semantic-find-highlight"; idAttr := "";
     display := "inline"; visibility := "visible";
     chunkIdData := Some chunkId |}.

(** [range.surroundContents(span)] for a range from [s] to [e] inside the
    text node [target]: the node keeps its data before [s], the span takes
    a new text node with the data from [s] to [e], and a new text node with
    the data after [e] follows the span. *)
Fixpoint surroundIn (target : nat) (s e : nat) (span : Element) (n : Node)
  : list Node :=
  match n with
  | Text nid data =>
      if (nid =? target)%nat
      then [ Text nid (take s data);
             Elem span [Text (nodeId span + 1)
                          (String.substring s (e - s) data)];
             Text (nodeId span + 2)
               (String.substring e (String.length data - e) data) ]
      else [n]
  | Elem el cs => [Elem el (flat_map (surroundIn target s e span) cs)]
  end.

(** The range is left around the span ([range.selectNode(span)]); the call
    throws when the text node is not in the document. *)
Definition surroundContents (d : Document) (range : Range) (span : Element)
  : option (Document * Range) :=
  let target := startContainer range in
  match locateText target (documentElement d) with
  | None => None
  | Some (parent, k) =>
      let wrap := flat_map (surroundIn target (Z.to_nat (startOffset range))
                              (Z.to_nat (endOffset range)) span) in
      Some ({| html := html d; head := head d;
               headChildren := wrap (headChildren d);
               body := body d;
               bodyChildren := wrap (bodyChildren d) |},
            {| startContainer := nodeId parent;
               startOffset := Z.of_nat k + 1;
               endContainer := nodeId parent;
               endOffset := Z.of_nat k + 2 |})
  end.

(** An entry of the result of [getTextNodesInRange]. *)
Record Piece := {
  p_node : nat;
  p_start : Z;
  p_end : Z
}.

Fixpoint positionOf (nid : nat) (k : nat) (l : list TextEntry) : option nat :=
  match l with
  | [] => None
  | t :: l' => if (t_node t =? nid)%nat then Some k else positionOf nid (S k) l'
  end.

(** [range.commonAncestorContainer] for two text nodes: the nearest element
    above the first that is also above the second. *)
Definition commonAncestor (a b : TextEntry) : option Element :=
  List.find (fun e => existsb (fun e' => (nodeId e' =? nodeId e)%nat)
                        (t_ancestors b))
    (t_ancestors a).

(** The loop of [getTextNodesInRange], over the text nodes below the
    common ancestor; [k] is the position of the next node in the document,
    and a text node intersects the range when it is not before the start
    node and not after the end node. *)
Fixpoint pieces (range : Range) (first last : nat) (root : Element)
    (k : nat) (l : list TextEntry) : list Piece :=
  match l with
  | [] => []
  | t :: l' =>
      let rest := pieces range first last root (S k) l' in
      if existsb (fun e => (nodeId e =? nodeId root)%nat) (t_ancestors t)
         && (first <=? k)%nat && (k <=? last)%nat
      then
        let start := if (t_node t =? startContainer range)%nat
                     then startOffset range else 0 in
        let end_ := if (t_node t =? endContainer range)%nat
                    then endOffset range else len (t_data t) in
        if start <? end_
        then {| p_node := t_node t; p_start := start; p_end := end_ |} :: rest
        else rest
      else rest
  end.

Definition getTextNodesInRange (d : Document) (range : Range)
  : list Piece :=
  let all := textNodesOf [] (documentElement d) in
  match positionOf (startContainer range) 0 all,
        positionOf (endContainer range) 0 all with
  | Some first, Some last =>
      match nth_error all first, nth_error all last with
      | Some a, Some b =>
          match commonAncestor a b with
          | Some root => pieces range first last root 0 all
          | None => []
          end
      | _, _ => []
      end
  | _, _ => []
  end.

(** The loop of [highlightTextFallback] over the pieces: a piece whose
    wrapping throws is skipped. *)
Fixpoint wrapPieces (chunkId : string) (d : Document) (ranges : list Range)
    (l : list Piece) : Document * list Range :=
  match l with
  | [] => (d, ranges)
  | piece :: l' =>
      let nodeRange := {| startContainer := p_node piece;
                          startOffset := p_start piece;
                          endContainer := p_node piece;
                          endOffset := p_end piece |} in
      match surroundContents d nodeRange (createSpan d chunkId) with
      | Some (d', wrapped) => wrapPieces chunkId d' (ranges ++ [wrapped]) l'
      | None => wrapPieces chunkId d ranges l'
      end
  end.

Definition highlightTextFallback (p : Page) (chunkId searchText : string)
  : bool * Page :=
  match findRangeForText (document p) (normalizeText searchText) with
  | None => (false, p)
  | Some range =>
      let span := createSpan (document p) chunkId in
      if (startContainer range =? endContainer range)%nat
      then match surroundContents (document p) range span with
           | Some (d, wrapped) =>
               (true,
                withChunks (withDocument p d)
                  (<[chunkId := [wrapped]]> (highlightedChunks p)))
           | None => (false, p)                        (* catch *)
           end
      else
        let textNodes := getTextNodesInRange (document p) range in
        let '(d, ranges) := wrapPieces chunkId (document p) [] textNodes in
        if (0 <? length ranges)%nat
        then (true,
              withChunks (withDocument p d)
                (<[chunkId := ranges]> (highlightedChunks p)))
        else (false, withDocument p d)
  end.

(** The loop of [clearAllHighlights] over
    [querySelectorAll('.semantic-find-highlight')]: each such element
    below [<head>] and [<body>] is replaced by its children. *)
Fixpoint unwrapHighlight (n : Node) : list Node :=
  match n with
  | Text _ _ => [n]
  | Elem e cs =>
      let cs' := flat_map unwrapHighlight cs in
      if hasClass "semantic-find-highlight" e then cs' else [Elem e cs']
  end.

Definition unwrapHighlights (d : Document) : Document :=
  {| html := html d; head := head d;
     headChildren := flat_map unwrapHighlight (headChildren d);
     body := body d;
     bodyChildren := flat_map unwrapHighlight (bodyChildren d) |}.

(** ** The CSS Custom Highlight API backend *)

Definition highlightStyles : string :=
  "
    ::highlight(semantic-find-highlight) {
      background-color: #ffff00;
    }
    ::highlight(semantic-find-highlight-active) {
      background-color: #ff9632;
    }
  ".

(** A [<style>] element is not displayed. *)
Definition injectHighlightStyles (p : Page) : Page :=
  let d := document p in
  if anyElement (fun e => String.eqb (idAttr e) "semantic-find-highlight-styles")
       (documentElement d)
  then p
  else
    let style := {| nodeId := freshNodeId d; tagName := "STYLE";
                    role := None; className := "";
                    idAttr := "semantic-find-highlight-styles";
                    display := "none"; visibility := "visible";
                    chunkIdData := None |} in
    withDocument p
      {| html := html d; head := head d;
         headChildren := headChildren d ++
           [Elem style [Text (freshNodeId d + 1) highlightStyles]];
         body := body d; bodyChildren := bodyChildren d |}.

Section Backend.

(** [typeof CSS !== 'undefined' && 'highlights' in CSS], fixed when the
    module is loaded. *)
Variable supportsHighlightAPI : bool.

(** [chunkId === activeHighlightId] *)
Definition isActive (p : Page) (chunkId : string) : bool :=
  match activeHighlightId p with
  | Some a => String.eqb chunkId a
  | None => false
  end.

(** The ranges of the entries go to the two highlights of
    [CSS.highlights]; a [Highlight] is a set of ranges, so the order in
    which the entries of the registry are read does not show. *)
Definition updateHighlights (p : Page) : Page :=
  if negb supportsHighlightAPI then p
  else
    let entries := map_to_list (highlightedChunks p) in
    let allRanges :=
      flat_map snd
        (List.filter (fun kv => negb (isActive p (fst kv))) entries) in
    let activeRanges :=
      flat_map snd (List.filter (fun kv => isActive p (fst kv)) entries) in
    let h := delete ACTIVE_HIGHLIGHT_NAME
               (delete HIGHLIGHT_NAME (highlights p)) in
    let h := if (0 <? length allRanges)%nat
             then <[HIGHLIGHT_NAME := allRanges]> h else h in
    let h := if (0 <? length activeRanges)%nat
             then <[ACTIVE_HIGHLIGHT_NAME := activeRanges]> h else h in
    withHighlights p h.

Definition removeHighlight (p : Page) (chunkId : string) : Page :=
  let p := withChunks p (delete chunkId (highlightedChunks p)) in
  let p := if isActive p chunkId then withActive p None else p in
  updateHighlights p.

Definition highlightText (p : Page) (chunkId searchText : string)
  : bool * Page :=
  let p := removeHighlight p chunkId in
  if negb supportsHighlightAPI
  then highlightTextFallback p chunkId searchText
  else
    let p := injectHighlightStyles p in
    let ranges := findTextRanges (document p) searchText in
    if (length ranges =? 0)%nat then (false, p)
    else (true,
          updateHighlights
            (withChunks p (<[chunkId := ranges]> (highlightedChunks p)))).

Definition clearAllHighlights (p : Page) : Page :=
  let p := withActive (withChunks p ∅) None in
  if supportsHighlightAPI
  then withHighlights p
         (delete ACTIVE_HIGHLIGHT_NAME (delete HIGHLIGHT_NAME (highlights p)))
  else withDocument p (unwrapHighlights (document p)).

Definition setActiveHighlight (p : Page) (chunkId : string) : Page :=
  let p := updateHighlights (withActive p (Some chunkId)) in
  match highlightedChunks p !! chunkId with
  | Some (range :: _) =>
      match parentElement (document p) (startContainer range) with
      | Some element => withScroll p (ScrollIntoView (nodeId element))
      | None => withScroll p (ScrollTo range)
      end
  | _ => p
  end.

Definition getHighlightCount (p : Page) : Z :=
  Z.of_nat (size (highlightedChunks p)).

(** ** Sequences of calls *)

(** A call of one of the four operations, or a change that the page makes
    to its document between two calls. *)
Inductive Call :=
| HighlightText (chunkId searchText : string)
| RemoveHighlight (chunkId : string)
| SetActiveHighlight (chunkId : string)
| ClearAllHighlights
| PageChanges (d : Document).

Definition run (p : Page) (c : Call) : Page :=
  match c with
  | HighlightText chunkId searchText => snd (highlightText p chunkId searchText)
  | RemoveHighlight chunkId => removeHighlight p chunkId
  | SetActiveHighlight chunkId => setActiveHighlight p chunkId
  | ClearAllHighlights => clearAllHighlights p
  | PageChanges d => withDocument p d
  end.

Definition runAll (p : Page) (calls : list Call) : Page :=
  fold_left run calls p.

(** Every [setActiveHighlight] of the sequence is called on an id that has
    an entry in the registry at the time of the call. *)
Fixpoint activatesKnown (p : Page) (calls : list Call) : Prop :=
  match calls with
  | [] => True
  | c :: rest =>
      match c with
      | SetActiveHighlight chunkId =>
          is_Some (highlightedChunks p !! chunkId)
      | _ => True
      end
      /\ activatesKnown (run p c) rest
  end.

End Backend.

(** The state when the module is loaded: an empty registry, no active id. *)
Definition initialPage (h : gmap string (list Range)) (d : Document) : Page :=
  {| highlightedChunks := ∅; activeHighlightId := None;
     highlights := h; document := d; scrolls := [] |}.

End Highlighter.

(* ===================================================================== *)
(** * src/content/text-chunker.ts: findChunkInDOM *)
(* ===================================================================== *)

Module ChunkLocation.
Import JsString Dom Highlighter.

(** The [while] loop of [findChunkInDOM] on the text nodes that are left.
    [setStart] and [setEnd] get offsets between 0 and the length of the
    node, which they accept, so that the [catch] is never entered. *)
Fixpoint findChunkIn (chunkText searchText : string)
    (nodes : list TextEntry) : option Range :=
  match nodes with
  | [] => None
  | node :: rest =>
      let nodeText := t_data node in
      let index := indexOf nodeText searchText in
      if negb (index =? -1)
      then Some {| startContainer := t_node node;
                   startOffset := index;
                   endContainer := t_node node;
                   endOffset := Z.min (index + len chunkText) (len nodeText) |}
      else findChunkIn chunkText searchText rest
  end.

(** [findChunkInDOM(chunkText)]: the walker visits every text node below
    [document.body]. *)
Definition findChunkInDOM (d : Document) (chunkText : string)
  : option Range :=
  let searchText := take 50 chunkText in
  findChunkIn chunkText searchText (bodyTextNodes d).

End ChunkLocation.

(* ===================================================================== *)
(** * src/shared/types.ts: results and settings *)
(* ===================================================================== *)

Module Messages.
Import Types.

Record SearchResult := {
  chunk : TextChunk;
  score : float;
  highlighted : bool
}.

Record Settings := {
  chunkSize : Z;
  similarityThreshold : float;
  aiSummaryEnabled : bool;
  llmModelDownloaded : bool
}.

(** [similarityThreshold: 0.3] is the binary64 number next to 0.3. *)
Definition DEFAULT_SETTINGS : Settings :=
  {| chunkSize := 200;
     similarityThreshold := 0x1.3333333333333p-2%float;
     aiSummaryEnabled := false;
     llmModelDownloaded := false |}.

(** The answer to a message: [{ success: true, ... }] or
    [{ success: false, error }]. *)
Inductive Response (A : Type) :=
| Success (a : A)
| Failure (error : string).
Arguments Success {A} a.
Arguments Failure {A} error.

End Messages.

(* ===================================================================== *)
(** * src/background/service-worker.ts (in src/background/llm-loader.ts) *)
(* ===================================================================== *)

Module ServiceWorker.
Import Types Similarity Messages.
Local Open Scope float_scope.

(** [chunks.filter((chunk) => chunk.embedding)], each chunk with the
    embedding that [chunk.embedding!] reads; an array is truthy, also the
    empty one. *)
Fixpoint withEmbedding (chunks : list TextChunk)
  : list (TextChunk * list float) :=
  match chunks with
  | [] => []
  | c :: rest =>
      match embedding c with
      | Some e => (c, e) :: withEmbedding rest
      | None => withEmbedding rest
      end
  end.

(** [.map((chunk) => ({ chunk, score: cosineSimilarity(...), highlighted:
    false }))]: the first call that throws ends the whole chain. *)
Fixpoint scored (queryEmbedding : list float)
    (chunks : list (TextChunk * list float)) : Outcome (list SearchResult) :=
  match chunks with
  | [] => Returns []
  | (c, e) :: rest =>
      match cosineSimilarity queryEmbedding e with
      | Throws m => Throws m
      | Returns s =>
          match scored queryEmbedding rest with
          | Throws m => Throws m
          | Returns l =>
              Returns ({| chunk := c; score := s; highlighted := false |} :: l)
          end
      end
  end.

(** The comparator [(a, b) => b.score - a.score] on results. *)
Definition byScore (a b : SearchResult) : float := score b - score a.

(** The chain of [handleSearchQuery] from [chunks] to [results]. *)
Definition rank (queryEmbedding : list float) (settings : Settings)
    (chunks : list TextChunk) : Outcome (list SearchResult) :=
  match scored queryEmbedding (withEmbedding chunks) with
  | Throws m => Throws m
  | Returns results =>
      Returns
        (slice0 20
           (sort byScore
              (List.filter
                 (fun result => similarityThreshold settings <=? score result)
                 results)))
  end.

(** [String(error)] of an [Error] with the message [m]. *)
Definition errorString (m : string) : string := ("Error: " ++ m)%string.

(** [handleSearchQuery(query, chunks)].  The offscreen document answers
    the query with its embedding or with [null], or the message fails;
    [settings] is what [getSettings()] resolves to. *)
Definition handleSearchQuery (offscreen : Outcome (option (list float)))
    (settings : Settings) (chunks : list TextChunk)
  : Response (list SearchResult) :=
  match offscreen with
  | Throws m => Failure (errorString m)
  | Returns None => Failure "Failed to generate query embedding"
  | Returns (Some queryEmbedding) =>
      match rank queryEmbedding settings chunks with
      | Throws m => Failure (errorString m)
      | Returns results => Success results
      end
  end.

(** [chunks.every((chunk, i) => chunk.text === cached[i].text)], for
    arrays of the same length. *)
Fixpoint textsMatch (chunks cached : list TextChunk) : bool :=
  match chunks, cached with
  | c :: chunks', c' :: cached' =>
      String.eqb (text c) (text c') && textsMatch chunks' cached'
  | [], _ => true
  | _ :: _, [] => false
  end.

(** [chunks.map((chunk, i) => ({ ...chunk, embedding:
    response.embeddings[i] || undefined }))]. *)
Fixpoint attach (chunks : list TextChunk)
    (embeddings : list (option (list float))) : list TextChunk :=
  match chunks with
  | [] => []
  | c :: chunks' =>
      {| id := id c; text := text c; startOffset := startOffset c;
         endOffset := endOffset c;
         embedding := match embeddings with e :: _ => e | [] => None end |}
      :: attach chunks' (tl embeddings)
  end.

(** [handleGetEmbeddings(chunks, url)]: [cached] is what
    [getCachedEmbeddings(url)] resolves to, [offscreen] the embeddings that
    the offscreen document answers with when it is asked, [stored] how the
    call of [cacheEmbeddings] ends.  The second component is the entry that
    [cacheEmbeddings] is called with. *)
Definition handleGetEmbeddings (cached : Outcome (option (list TextChunk)))
    (offscreen : Outcome (list (option (list float))))
    (stored : Outcome unit) (chunks : list TextChunk)
  : Response (list TextChunk) * option (list TextChunk) :=
  match cached with
  | Throws m => (Failure (errorString m), None)
  | Returns cache =>
      let hit :=
        match cache with
        | Some cached =>
            if (length cached =? length chunks)%nat
               && textsMatch chunks cached
            then Some cached else None
        | None => None
        end in
      match hit with
      | Some cached => (Success cached, None)
      | None =>
          match offscreen with
          | Throws m => (Failure (errorString m), None)
          | Returns embeddings =>
              let chunksWithEmbeddings := attach chunks embeddings in
              match stored with
              | Throws m => (Failure (errorString m), Some chunksWithEmbeddings)
              | Returns _ =>
                  (Success chunksWithEmbeddings, Some chunksWithEmbeddings)
              end
          end
      end
  end.

End ServiceWorker.

(* ===================================================================== *)
(** * src/content/summary-panel.ts: the summary panel *)
(* ===================================================================== *)

Module SummaryPanel.

(** What the element [.sf-summary-text] holds. *)
Inductive PanelContent :=
| Blank
| Summary (text : string)     (* textContent = text *)
| Loading.                    (* the [sf-summary-loading] span *)

(** The panel element: its content and whether it has the class
    [visible].  The module variable [summaryPanel] is [null] until the
    panel is created. *)
Record Panel := {
  content : PanelContent;
  visible : bool
}.

Definition createSummaryPanel (summaryPanel : option Panel) : option Panel :=
  match summaryPanel with
  | Some _ => summaryPanel
  | None => Some {| content := Blank; visible := false |}
  end.

Definition showSummary (summaryPanel : option Panel) (text : string)
  : option Panel :=
  match summaryPanel with
  | None => None
  | Some _ => Some {| content := Summary text; visible := true |}
  end.

Definition showSummaryLoading (summaryPanel : option Panel) : option Panel :=
  match summaryPanel with
  | None => None
  | Some _ => Some {| content := Loading; visible := true |}
  end.

Definition hideSummary (summaryPanel : option Panel) : option Panel :=
  match summaryPanel with
  | None => None
  | Some panel => Some {| content := content panel; visible := false |}
  end.

Definition getSummaryPanel (summaryPanel : option Panel) : option Panel :=
  summaryPanel.

End SummaryPanel.

(* ===================================================================== *)
(** * src/content/overlay.ts (in src/content/text-chunker.ts) *)
(* ===================================================================== *)

Module Overlay.
Import JsString Types Messages SummaryPanel.

(** The variables of the module and what its elements show: [overlay]
    tells that the overlay element exists, [inputValue], [resultCount] and
    [status] are the value of [#sf-search-input] and the text of
    [#sf-result-count] and [#sf-status]; a callback is registered or
    [null]. *)
Record State := {
  overlay : bool;
  isVisible : bool;
  currentResults : list SearchResult;
  currentIndex : Z;
  settings : option Settings;
  inputValue : string;
  resultCount : string;
  status : string;
  summaryPanel : option Panel;
  onSearch : bool;
  onNavigate : bool;
  onClose : bool;
  onRequestSummary : bool
}.

(** A call of a registered callback. *)
Inductive Callback :=
| Search (query : string)
| Navigate (index : Z)
| Close
| RequestSummary (query : string) (results : list SearchResult).

Definition initial : State :=
  {| overlay := false; isVisible := false; currentResults := [];
     currentIndex := 0; settings := None; inputValue := "";
     resultCount := ""; status := ""; summaryPanel := None;
     onSearch := false; onNavigate := false; onClose := false;
     onRequestSummary := false |}.

Definition withPanel (o : State) (panel : option Panel) : State :=
  {| overlay := overlay o; isVisible := isVisible o;
     currentResults := currentResults o; currentIndex := currentIndex o;
     settings := settings o; inputValue := inputValue o;
     resultCount := resultCount o; status := status o;
     summaryPanel := panel;
     onSearch := onSearch o; onNavigate := onNavigate o;
     onClose := onClose o; onRequestSummary := onRequestSummary o |}.

Definition withVisible (o : State) (v : bool) : State :=
  {| overlay := overlay o; isVisible := v;
     currentResults := currentResults o; currentIndex := currentIndex o;
     settings := settings o; inputValue := inputValue o;
     resultCount := resultCount o; status := status o;
     summaryPanel := summaryPanel o;
     onSearch := onSearch o; onNavigate := onNavigate o;
     onClose := onClose o; onRequestSummary := onRequestSummary o |}.

Definition withCount (o : State) (text : string) : State :=
  {| overlay := overlay o; isVisible := isVisible o;
     currentResults := currentResults o; currentIndex := currentIndex o;
     settings := settings o; inputValue := inputValue o;
     resultCount := text; status := status o;
     summaryPanel := summaryPanel o;
     onSearch := onSearch o; onNavigate := onNavigate o;
     onClose := onClose o; onRequestSummary := onRequestSummary o |}.

Definition withIndex (o : State) (index : Z) : State :=
  {| overlay := overlay o; isVisible := isVisible o;
     currentResults := currentResults o; currentIndex := index;
     settings := settings o; inputValue := inputValue o;
     resultCount := resultCount o; status := status o;
     summaryPanel := summaryPanel o;
     onSearch := onSearch o; onNavigate := onNavigate o;
     onClose := onClose o; onRequestSummary := onRequestSummary o |}.

(** [createOverlay()]: the new element has an empty input, an empty count
    and an empty status, and it holds the summary panel. *)
Definition createOverlay (o : State) : State :=
  if overlay o then o
  else {| overlay := true; isVisible := isVisible o;
          currentResults := currentResults o;
          currentIndex := currentIndex o;
          settings := settings o; inputValue := "";
          resultCount := ""; status := "";
          summaryPanel := createSummaryPanel (summaryPanel o);
          onSearch := onSearch o; onNavigate := onNavigate o;
          onClose := onClose o; onRequestSummary := onRequestSummary o |}.

Definition show (o : State) : State :=
  withVisible (if overlay o then o else createOverlay o) true.

Definition hide (o : State) : State * list Callback :=
  if negb (overlay o) then (o, [])
  else
    let o := withVisible o false in
    let o := withPanel o (hideSummary (summaryPanel o)) in
    (o, if onClose o then [Close] else []).

Definition toggle (o : State) : State * list Callback :=
  if isVisible o then hide o else (show o, []).

Definition isOverlayVisible (o : State) : bool := isVisible o.

(** [`${i} of ${n}`] *)
Definition countText (i n : Z) : string := ofZ i +:+ " of " +:+ ofZ n.

Definition updateResults (o : State) (results : list SearchResult)
  : State * list Callback :=
  let n := Z.of_nat (length results) in
  let o :=
    {| overlay := overlay o; isVisible := isVisible o;
       currentResults := results; currentIndex := 0;
       settings := settings o; inputValue := inputValue o;
       resultCount :=
         if overlay o
         then (if 0 <? n then countText 1 n else "")
         else resultCount o;
       status := if overlay o then "" else status o;
       summaryPanel := summaryPanel o;
       onSearch := onSearch o; onNavigate := onNavigate o;
       onClose := onClose o; onRequestSummary := onRequestSummary o |} in
  let enabled :=
    match settings o with
    | Some s => aiSummaryEnabled s
    | None => false
    end in
  let '(o, summary) :=
    if enabled && (0 <? n) && onRequestSummary o
    then
      let query := if overlay o then trim (inputValue o) else "" in
      if negb (String.eqb query "")
      then (withPanel o (showSummaryLoading (summaryPanel o)),
            [RequestSummary query results])
      else (o, [])
    else (withPanel o (hideSummary (summaryPanel o)), []) in
  (o, summary ++ (if (0 <? n) && onNavigate o then [Navigate 0] else [])).

Definition updateSummary (o : State) (summary : string) : State :=
  withPanel o (showSummary (summaryPanel o) summary).

Definition setStatus (o : State) (text : string) : State :=
  if overlay o
  then {| overlay := overlay o; isVisible := isVisible o;
          currentResults := currentResults o;
          currentIndex := currentIndex o;
          settings := settings o; inputValue := inputValue o;
          resultCount := resultCount o; status := text;
          summaryPanel := summaryPanel o;
          onSearch := onSearch o; onNavigate := onNavigate o;
          onClose := onClose o; onRequestSummary := onRequestSummary o |}
  else o.

Definition setSettings (o : State) (newSettings : Settings) : State :=
  {| overlay := overlay o; isVisible := isVisible o;
     currentResults := currentResults o; currentIndex := currentIndex o;
     settings := Some newSettings; inputValue := inputValue o;
     resultCount := resultCount o; status := status o;
     summaryPanel := summaryPanel o;
     onSearch := onSearch o; onNavigate := onNavigate o;
     onClose := onClose o; onRequestSummary := onRequestSummary o |}.

Definition updateNavigationUI (o : State) : State :=
  let n := Z.of_nat (length (currentResults o)) in
  if overlay o && (0 <? n)
  then withCount o (countText (currentIndex o + 1) n)
  else o.

(** [%] is the remainder of the truncating division. *)
Definition navigateNext (o : State) : State * list Callback :=
  let n := Z.of_nat (length (currentResults o)) in
  if n =? 0 then (o, [])
  else
    let o := withIndex o (Z.rem (currentIndex o + 1) n) in
    let o := updateNavigationUI o in
    (o, if onNavigate o then [Navigate (currentIndex o)] else []).

Definition navigatePrev (o : State) : State * list Callback :=
  let n := Z.of_nat (length (currentResults o)) in
  if n =? 0 then (o, [])
  else
    let o := withIndex o (Z.rem (currentIndex o - 1 + n) n) in
    let o := updateNavigationUI o in
    (o, if onNavigate o then [Navigate (currentIndex o)] else []).

(** The four callback setters, with the callbacks of the content
    script. *)
Definition setCallbacks (o : State) : State :=
  {| overlay := overlay o; isVisible := isVisible o;
     currentResults := currentResults o; currentIndex := currentIndex o;
     settings := settings o; inputValue := inputValue o;
     resultCount := resultCount o; status := status o;
     summaryPanel := summaryPanel o;
     onSearch := true; onNavigate := true; onClose := true;
     onRequestSummary := true |}.

(** What the user does to the overlay, and the timer of the input. *)
Inductive Action :=
| TypeText (value : string)   (* the input gets a new value *)
| InputSettles                (* the 300 ms after the last input are over *)
| PressEnter (shiftKey : bool)
| PressEscape
| ClickPrev
| ClickNext
| ClickClose.

Definition act (o : State) (a : Action) : State * list Callback :=
  if negb (overlay o) then (o, [])
  else
    match a with
    | TypeText value =>
        ({| overlay := overlay o; isVisible := isVisible o;
            currentResults := currentResults o;
            currentIndex := currentIndex o;
            settings := settings o; inputValue := value;
            resultCount := resultCount o; status := status o;
            summaryPanel := summaryPanel o;
            onSearch := onSearch o; onNavigate := onNavigate o;
            onClose := onClose o;
            onRequestSummary := onRequestSummary o |}, [])
    | InputSettles =>
        let query := trim (inputValue o) in
        if (2 <=? len query) && onSearch o then (o, [Search query])
        else if len query <? 2 then updateResults o []
        else (o, [])
    | PressEnter shiftKey => if shiftKey then navigatePrev o else navigateNext o
    | PressEscape => hide o
    | ClickPrev => navigatePrev o
    | ClickNext => navigateNext o
    | ClickClose => hide o
    end.

End Overlay.

(* ===================================================================== *)
(** * src/content/content-script.ts *)
(* ===================================================================== *)

Module ContentScript.
Import JsString Dom Types Messages TextChunker Highlighter.

(** A message to the service worker that is not answered yet, with what
    waits for the answer: [indexPage] waits for the embeddings, on behalf
    of [handleSearch(query)] or of the message listener; [handleSearch]
    waits for the results; [handleRequestSummary] waits for the summary of
    the top results. *)
Inductive Pending :=
| Embeddings (query : option string)
| SearchQuery (query : string)
| SummaryRequest (query : string) (topResults : list (TextChunk * float)).

(** The variables of the content script, with the state of the modules
    that it drives: the overlay, the highlighter with the page, and the
    counter of the chunk ids.  [page] holds the document without the
    element of the overlay, which [createOverlay] appends to [<body>]: the
    text of the overlay is not part of what [extractPageText] and the
    highlighter read here. *)
Record State := {
  pageChunks : list TextChunk;
  isIndexed : bool;
  currentResults : list SearchResult;
  settings : option Settings;
  ui : Overlay.State;
  page : Page;
  chunkIdCounter : nat;
  pending : list Pending
}.

Definition withUi (s : State) (o : Overlay.State) : State :=
  {| pageChunks := pageChunks s; isIndexed := isIndexed s;
     currentResults := currentResults s; settings := settings s;
     ui := o; page := page s; chunkIdCounter := chunkIdCounter s;
     pending := pending s |}.

Definition withPage (s : State) (p : Page) : State :=
  {| pageChunks := pageChunks s; isIndexed := isIndexed s;
     currentResults := currentResults s; settings := settings s;
     ui := ui s; page := p; chunkIdCounter := chunkIdCounter s;
     pending := pending s |}.

Definition withPending (s : State) (l : list Pending) : State :=
  {| pageChunks := pageChunks s; isIndexed := isIndexed s;
     currentResults := currentResults s; settings := settings s;
     ui := ui s; page := page s; chunkIdCounter := chunkIdCounter s;
     pending := l |}.

Definition setStatus (s : State) (text : string) : State :=
  withUi s (Overlay.setStatus (ui s) text).

Section Environment.

Variable supportsHighlightAPI : bool.

(** [now c] is what [Date.now()] reads when the chunk counter is [c]. *)
Variable now : nat -> Z.

(** The state when the script is loaded. *)
Definition loaded (h : gmap string (list Range)) (d : Document) : State :=
  {| pageChunks := []; isIndexed := false; currentResults := [];
     settings := None; ui := Overlay.initial; page := initialPage h d;
     chunkIdCounter := 0; pending := [] |}.

Definition handleNavigate (s : State) (index : Z) : State :=
  if (index <? 0) || (Z.of_nat (length (currentResults s)) <=? index) then s
  else match nth_error (currentResults s) (Z.to_nat index) with
       | Some result =>
           withPage s
             (setActiveHighlight supportsHighlightAPI (page s)
                (id (chunk result)))
       | None => s
       end.

Definition handleClose (s : State) : State :=
  withPage s (clearAllHighlights supportsHighlightAPI (page s)).

(** [handleRequestSummary], up to the message [GENERATE_SUMMARY]. *)
Definition handleRequestSummary (s : State) (query : string)
    (results : list SearchResult) : State :=
  match settings s with
  | Some st =>
      if aiSummaryEnabled st
      then withPending s
             (pending s ++
              [SummaryRequest query
                 (map (fun r => (chunk r, score r)) (firstn 5 results))])
      else s
  | None => s
  end.

(** The callbacks that [updateResults] calls: [onNavigate] and
    [onRequestSummary], never the two others. *)
Definition afterUpdate (s : State) (c : Overlay.Callback) : State :=
  match c with
  | Overlay.Navigate index => handleNavigate s index
  | Overlay.RequestSummary query results =>
      handleRequestSummary s query results
  | _ => s
  end.

Definition updateResults (s : State) (results : list SearchResult)
  : State :=
  let '(o, callbacks) := Overlay.updateResults (ui s) results in
  fold_left afterUpdate callbacks (withUi s o).

(** [handleSearch], from [setStatus('Searching...')] to the message
    [SEARCH_QUERY]. *)
Definition sendQuery (s : State) (query : string) : State :=
  let s := setStatus s "Searching..." in
  withPending s (pending s ++ [SearchQuery query]).

(** What follows [await indexPage()], for [handleSearch(query)] or for
    the message listener, which ignores the result. *)
Definition indexed (s : State) (result : bool) (query : option string)
  : State :=
  match query with
  | Some q => if result then sendQuery s q else updateResults s []
  | None => s
  end.

(** [settings?.chunkSize || 200] *)
Definition chunkSizeOf (s : State) : Z :=
  match settings s with
  | Some st => if chunkSize st =? 0 then 200 else chunkSize st
  | None => 200
  end.

(** [indexPage()], up to the message [GET_EMBEDDINGS]. *)
Definition indexPage (s : State) (query : option string) : State :=
  if isIndexed s && (0 <? length (pageChunks s))%nat
  then indexed s true query
  else
    let s := setStatus s "Indexing..." in
    let textNodes := extractPageText (document (page s)) in
    let '(chunks, counter) :=
      chunkTextFrom now (chunkIdCounter s) textNodes (chunkSizeOf s) in
    let s := {| pageChunks := chunks; isIndexed := isIndexed s;
                currentResults := currentResults s; settings := settings s;
                ui := ui s; page := page s; chunkIdCounter := counter;
                pending := pending s |} in
    if (length chunks =? 0)%nat
    then indexed (setStatus s "No text found") false query
    else withPending s (pending s ++ [Embeddings query]).

(** [indexPage()], from the answer to [GET_EMBEDDINGS] on. *)
Definition embeddingsAnswered (s : State)
    (response : Similarity.Outcome (Response (list TextChunk)))
    (query : option string) : State :=
  match response with
  | Similarity.Returns (Success chunks) =>
      let s := {| pageChunks := chunks; isIndexed := true;
                  currentResults := currentResults s;
                  settings := settings s; ui := ui s; page := page s;
                  chunkIdCounter := chunkIdCounter s;
                  pending := pending s |} in
      indexed (setStatus s "") true query
  | Similarity.Returns (Failure _) => indexed (setStatus s "Indexing failed") false query
  | Similarity.Throws _ => indexed (setStatus s "Error") false query
  end.

Definition handleSearch (s : State) (query : string) : State :=
  if negb (isIndexed s) then indexPage s (Some query)
  else sendQuery s query.

(** The loop of [handleSearch] over the results. *)
Definition highlightAll (p : Page) (results : list SearchResult) : Page :=
  fold_left
    (fun p result =>
       snd (highlightText supportsHighlightAPI p (id (chunk result))
              (Types.text (chunk result))))
    results p.

(** [handleSearch], from the answer to [SEARCH_QUERY] on. *)
Definition searchAnswered (s : State)
    (response : Similarity.Outcome (Response (list SearchResult))) : State :=
  match response with
  | Similarity.Returns (Success results) =>
      let s := {| pageChunks := pageChunks s; isIndexed := isIndexed s;
                  currentResults := results; settings := settings s;
                  ui := ui s;
                  page := highlightAll
                            (clearAllHighlights supportsHighlightAPI (page s))
                            results;
                  chunkIdCounter := chunkIdCounter s;
                  pending := pending s |} in
      updateResults (setStatus s "") results
  | Similarity.Returns (Failure _) => updateResults (setStatus s "Search failed") []
  | Similarity.Throws _ => updateResults (setStatus s "Error") []
  end.

(** [handleRequestSummary], from the answer to [GENERATE_SUMMARY] on. *)
Definition summaryAnswered (s : State) (response : Similarity.Outcome (Response string))
  : State :=
  match response with
  | Similarity.Returns (Success summary) =>
      if String.eqb summary "" then s
      else withUi s (Overlay.updateSummary (ui s) summary)
  | _ => s
  end.

(** The callbacks as [init] registers them. *)
Definition callback (s : State) (c : Overlay.Callback) : State :=
  match c with
  | Overlay.Search query => handleSearch s query
  | Overlay.Navigate index => handleNavigate s index
  | Overlay.Close => handleClose s
  | Overlay.RequestSummary query results =>
      handleRequestSummary s query results
  end.

(** [init()], from the answer to [GET_SETTINGS] on. *)
Definition init (s : State) (st : Settings) : State :=
  {| pageChunks := pageChunks s; isIndexed := isIndexed s;
     currentResults := currentResults s; settings := Some st;
     ui := Overlay.setCallbacks
             (Overlay.setSettings (Overlay.createOverlay (ui s)) st);
     page := page s; chunkIdCounter := chunkIdCounter s;
     pending := pending s |}.

(** The listener of [TOGGLE_OVERLAY]. *)
Definition toggleOverlay (s : State) : State :=
  let '(o, callbacks) := Overlay.toggle (ui s) in
  let s := fold_left callback callbacks (withUi s o) in
  if Overlay.overlay (ui s) && Overlay.isVisible (ui s)
  then indexPage s None else s.

(** What happens to the content script: the settings arrive, the user
    acts on the overlay, the service worker toggles the overlay or answers
    the pending message at a position, the page changes its document. *)
Inductive Event :=
| SettingsAnswer (st : Settings)
| User (a : Overlay.Action)
| ToggleOverlay
| EmbeddingsAnswer (i : nat) (response : Similarity.Outcome (Response (list TextChunk)))
| SearchAnswer (i : nat) (response : Similarity.Outcome (Response (list SearchResult)))
| SummaryAnswer (i : nat) (response : Similarity.Outcome (Response string))
| PageChange (d : Document).

Definition without (i : nat) (l : list Pending) : list Pending :=
  firstn i l ++ skipn (S i) l.

Definition step (s : State) (e : Event) : State :=
  match e with
  | SettingsAnswer st => init s st
  | User a =>
      let '(o, callbacks) := Overlay.act (ui s) a in
      fold_left callback callbacks (withUi s o)
  | ToggleOverlay => toggleOverlay s
  | EmbeddingsAnswer i response =>
      match nth_error (pending s) i with
      | Some (Embeddings query) =>
          embeddingsAnswered (withPending s (without i (pending s)))
            response query
      | _ => s
      end
  | SearchAnswer i response =>
      match nth_error (pending s) i with
      | Some (SearchQuery _) =>
          searchAnswered (withPending s (without i (pending s))) response
      | _ => s
      end
  | SummaryAnswer i response =>
      match nth_error (pending s) i with
      | Some (SummaryRequest _ _) =>
          summaryAnswered (withPending s (without i (pending s))) response
      | _ => s
      end
  | PageChange d => withPage s (withDocument (page s) d)
  end.

Definition steps (s : State) (events : list Event) : State :=
  fold_left step events s.

End Environment.

End ContentScript.

(* ===================================================================== *)
(** * src/background/embedding-cache.ts *)
(* ===================================================================== *)

Module EmbeddingCache.
Import Types.
Import Similarity (Outcome, Returns, Throws).

Definition CACHE_MAX_AGE : Z := 24 * 60 * 60 * 1000.

(** [PageCache] of src/shared/types.ts. *)
Record PageCache := {
  url : string;
  timestamp : Z;
  chunks : list TextChunk
}.

(** The variable [db] of the module, which is set once the database is
    open, and the object store [pageEmbeddings], a map from the [url] of
    an entry to the entry. *)
Record Database := {
  db : bool;
  pageEmbeddings : gmap string PageCache
}.

Definition withStore (d : Database) (store : gmap string PageCache)
  : Database :=
  {| db := db d; pageEmbeddings := store |}.

(** [openDB()]: [opens] is what [indexedDB.open] does, which is asked only
    while [db] is not set; [Throws error] stands for [request.onerror]. *)
Definition openDB (opens : Outcome unit) (d : Database)
  : Outcome unit * Database :=
  if db d then (Returns tt, d)
  else match opens with
       | Returns _ =>
           (Returns tt, {| db := true; pageEmbeddings := pageEmbeddings d |})
       | Throws error => (Throws error, d)
       end.

(** Each function gives what its promise settles to, [Throws error] for a
    rejection, and the database afterwards.  A rejection of [openDB] is
    caught by the [try] of the function.  [request] is what the
    transaction and its request do: [Throws error] when
    [database.transaction] throws or the request ends in [onerror], which
    rejects the promise that the function returns; the transaction is then
    aborted and the store is as before.  [now] is what [Date.now()]
    reads. *)
Definition deleteCache (opens request : Outcome unit) (d : Database)
    (url : string) : Outcome unit * Database :=
  let '(opened, d) := openDB opens d in
  match opened with
  | Throws _ => (Returns tt, d)                             (* catch *)
  | Returns _ =>
      match request with
      | Throws error => (Throws error, d)
      | Returns _ =>
          (Returns tt, withStore d (delete url (pageEmbeddings d)))
      end
  end.

(** [getCachedEmbeddings(url)].  The [deleteCache] that an expired entry
    sets off is not awaited; [deletes] is what its request does, and the
    database is given once it is done. *)
Definition getCachedEmbeddings (opens request deletes : Outcome unit)
    (d : Database) (now : Z) (url : string)
  : Outcome (option (list TextChunk)) * Database :=
  let '(opened, d) := openDB opens d in
  match opened with
  | Throws _ => (Returns None, d)                           (* catch *)
  | Returns _ =>
      match request with
      | Throws error => (Throws error, d)
      | Returns _ =>
          match pageEmbeddings d !! url with
          | None => (Returns None, d)
          | Some result =>
              if CACHE_MAX_AGE <? now - timestamp result
              then (Returns None, snd (deleteCache opens deletes d url))
              else (Returns (Some (chunks result)), d)
          end
      end
  end.

Definition cacheEmbeddings (opens request : Outcome unit) (d : Database)
    (now : Z) (url : string) (chunks : list TextChunk)
  : Outcome unit * Database :=
  let '(opened, d) := openDB opens d in
  match opened with
  | Throws _ => (Returns tt, d)                             (* catch *)
  | Returns _ =>
      let cache := {| url := url; timestamp := now; chunks := chunks |} in
      match request with
      | Throws error => (Throws error, d)
      | Returns _ =>
          (Returns tt, withStore d (<[url := cache]> (pageEmbeddings d)))
      end
  end.

(** [clearOldCache()]: the cursor over [IDBKeyRange.upperBound(cutoff)]
    deletes the entries whose timestamp is at most [cutoff]. *)
Definition clearOldCache (opens request : Outcome unit) (d : Database)
    (now : Z) : Outcome unit * Database :=
  let '(opened, d) := openDB opens d in
  match opened with
  | Throws _ => (Returns tt, d)                             (* catch *)
  | Returns _ =>
      let cutoff := now - CACHE_MAX_AGE in
      match request with
      | Throws error => (Throws error, d)
      | Returns _ =>
          (Returns tt,
           withStore d
             (filter (fun entry => ~ timestamp (snd entry) <= cutoff)
                (pageEmbeddings d)))
      end
  end.

End EmbeddingCache.

(* ===================================================================== *)
(** * Sample inputs *)
(* ===================================================================== *)

Module Samples.
Import Dom Highlighter.

Definition element (i : nat) (tag : string) : Element :=
  {| nodeId := i; tagName := tag; role := None; className := "";
     idAttr := ""; display := "block"; visibility := "visible";
     chunkIdData := None |}.

Definition page (bodyChildren : list Node) : Document :=
  {| html := element 0 "HTML"; head := element 1 "HEAD"; headChildren := [];
     body := element 2 "BODY"; bodyChildren := bodyChildren |}.

(** [<p>Hello world</p>] *)
Definition helloWorld : Document :=
  page [Elem (element 3 "P") [Text 4 "Hello world"]].

(** [<p>First test content here</p><p>Second test content here</p>] *)
Definition twoParagraphs : Document :=
  page [ Elem (element 3 "P") [Text 4 "First test content here"];
         Elem (element 5 "P") [Text 6 "Second test content here"] ].

(** [<p>This is a  test paragraph<b> with </b>some content</p>] *)
Definition mixedParagraph : Document :=
  page [ Elem (element 3 "P")
           [ Text 4 "This is a  test paragraph";
             Elem (element 5 "B") [Text 6 " with "];
             Text 7 "some content" ] ].

(** [<nav>Home page links</nav><p>ok</p>
     <main><p>Hello world</p></main><div>Outside main</div>] *)
Definition navAndMain : Document :=
  page [ Elem (element 3 "NAV") [Text 4 "Home page links"];
         Elem (element 5 "P") [Text 6 "ok"];
         Elem (element 7 "MAIN") [Elem (element 8 "P") [Text 9 "Hello world"]];
         Elem (element 10 "DIV") [Text 11 "Outside main"] ].

End Samples.

(* ===================================================================== *)
(** * The vocabulary of the properties *)
(* ===================================================================== *)

Section StringSpec.
Import JsString.

(** The first and the last code unit of a string, as white space. *)
Definition startsWithSpace (s : string) : bool :=
  match s with
  | EmptyString => false
  | String c _ => isSpace c
  end.

Fixpoint endsWithSpace (s : string) : bool :=
  match s with
  | EmptyString => false
  | String c EmptyString => isSpace c
  | String _ s' => endsWithSpace s'
  end.

(** A text that is not empty and has no white space at either end. *)
Definition cleanText (s : string) : bool :=
  negb (String.eqb s "") && negb (startsWithSpace s) && negb (endsWithSpace s).

End StringSpec.

Section ChunkerSpec.
Import JsString Types TextChunker.

(** The text of a group of fragments that share a chunk. *)
Definition joinTexts (g : list TextNode) : string := join (map tn_text g).

Definition cleanNode (n : TextNode) : Prop := cleanText (tn_text n) = true.

(** What the loop has done when it has read [processed]: the chunks that
    are closed hold the groups [gs], and the open chunk holds [g]. *)
Definition grouped (processed : list TextNode) (st : ChunkLoop) : Prop :=
  exists (gs : list (list TextNode)) (g : list TextNode),
    processed = concat gs ++ g
    /\ Forall (fun g => g <> []) gs
    /\ map text (chunks st) = map joinTexts gs
    /\ currentChunkText st = joinTexts g.

(** A text of white space only. *)
Definition blank (s : string) : Prop := trim s = "".

(** The text that the open chunk leaves when it is closed; with a
    [targetSize <= 0] every fragment closes the chunk before it. *)
Definition pending (st : ChunkLoop) : list string :=
  if String.eqb (currentChunkText st) "" then []
  else [trim (currentChunkText st)].

Definition oneEach (processed : list TextNode) (st : ChunkLoop) : Prop :=
  map text (chunks st) ++ pending st
  = map (fun n => trim (tn_text n)) processed
  /\ (currentChunkText st = "" \/ ~ blank (currentChunkText st)).

End ChunkerSpec.

Section LocatorSpec.
Import JsString Dom Highlighter.

(** The text nodes that contribute to the flattened string of
    [findRangeForText]: accepted by its filter, and not blank. *)
Definition locatorNodes (d : Document) : list TextEntry :=
  List.filter (fun t => negb (len (trim (t_data t)) =? 0))
    (List.filter Highlighter.acceptNode (bodyTextNodes d)).

End LocatorSpec.

Section RegistrySpec.
Import JsString Dom Highlighter.

(** The location algorithm of the backend in use finds the text. *)
Definition locates (api : bool) (d : Document) (searchText : string) : bool :=
  if api then negb (length (findTextRanges d searchText) =? 0)%nat
  else isSome (findRangeForText d (normalizeText searchText)).

(** The ranges of every entry of the registry. *)
Definition allRanges (p : Page) : list Range :=
  flat_map snd (map_to_list (highlightedChunks p)).

(** The active id, when it is set, has an entry in the registry. *)
Definition activeHasEntry (p : Page) : Prop :=
  forall chunkId : string,
    activeHighlightId p = Some chunkId ->
    is_Some (highlightedChunks p !! chunkId).

End RegistrySpec.

Section FloatSpec.

(** The sign of a number that is rounded above the least exponent. *)
Definition hasSign (s : bool) (x : spec_float) : Prop :=
  match x with
  | S754_finite s' _ _ | S754_infinity s' => s' = s
  | _ => False
  end.

End FloatSpec.

Section SimilaritySpec.
Import Similarity.
Local Open Scope float_scope.

(** A component that is zero, as [x === 0] tells. *)
Definition isZero (x : float) : Prop := (x =? 0) = true.

(** The norm of a vector as [cosineSimilarity] computes it: the square
    root of the sum of the squares, added from the left to 0. *)
Fixpoint squaresFrom (acc : float) (v : list float) : float :=
  match v with
  | [] => acc
  | x :: v' => squaresFrom (acc + x * x) v'
  end.

Definition norm (v : list float) : float := sqrt (squaresFrom 0 v).

End SimilaritySpec.

Section RankingSpec.
Import Similarity.

(** The scores come with the indices of the chunks, in order. *)
Definition byIndex (a b : Scored) : Prop := index a < index b.

(** Entries of equal score keep the order of their indices. *)
Definition tiesByIndex (a b : Scored) : Prop :=
  (score a =? score b)%float = true -> index a < index b.

(** The later of two neighbours has no greater score. *)
Definition descending (a b : Scored) : Prop :=
  (score b <=? score a)%float = true.

Definition atLeast (threshold : float) (item : Scored) : Prop :=
  (threshold <=? score item)%float = true.

End RankingSpec.

Section ServiceWorkerSpec.
Import Types Similarity Messages ServiceWorker.

(** A result of [handleSearchQuery] and an entry of [findTopKSimilar] that
    stand for the same chunk of [embedded], with the same score. *)
Definition ranked (embedded : list TextChunk) (result : SearchResult)
    (item : Scored) : Prop :=
  nth_error embedded (Z.to_nat (index item)) = Some (chunk result)
  /\ Messages.score result = Similarity.score item
  /\ highlighted result = false.

(** A chunk whose embedding has another length than the query's. *)
Definition mismatched (queryEmbedding : list float) (c : TextChunk) : Prop :=
  exists e, embedding c = Some e /\ length e <> length queryEmbedding.

End ServiceWorkerSpec.

Section ChunkerLayout.
Import JsString Types TextChunker.

(** The offsets of a group of fragments: where its first fragment starts
    and where its last fragment ends. *)
Definition startOf (g : list TextNode) : Z :=
  match g with
  | n :: _ => tn_startOffset n
  | [] => 0
  end.

Fixpoint endOf (g : list TextNode) : Z :=
  match g with
  | [] => 0
  | [n] => tn_startOffset n + len (tn_text n)
  | _ :: g' => endOf g'
  end.

(** The chunk [c] is the group [g]. *)
Definition holds (c : TextChunk) (g : list TextNode) : Prop :=
  text c = joinTexts g
  /\ startOffset c = startOf g
  /\ endOffset c = endOf g
  /\ embedding c = None.

(** A group is one fragment, or its text has at most [targetSize + 1]
    code units. *)
Definition fits (targetSize : Z) (g : list TextNode) : Prop :=
  (exists n, g = [n]) \/ len (joinTexts g) <= targetSize + 1.

(** The first fragment of [next] did not fit behind [g]. *)
Definition closes (targetSize : Z) (g next : list TextNode) : Prop :=
  match next with
  | n :: _ => targetSize < len (joinTexts g) + len (tn_text n)
  | [] => False
  end.

(** The ids that [generateChunkId] gives from the counter [counter] on. *)
Definition idsFrom (now : nat -> Z) (counter count : nat) : list string :=
  map (fun i => fst (generateChunkId now i)) (seq counter count).

(** What the loop of [chunkText] has done when it has read [processed],
    which is not empty: the closed chunks are the groups [gs], the open
    chunk is the group [g]. *)
Definition laidOut (now : nat -> Z) (targetSize : Z) (counter : nat)
    (processed : list TextNode) (st : ChunkLoop) : Prop :=
  exists (gs : list (list TextNode)) (g : list TextNode),
    g <> []
    /\ processed = concat gs ++ g
    /\ Forall (fun g => g <> []) gs
    /\ Forall2 holds (chunks st) gs
    /\ map id (chunks st) = idsFrom now counter (length gs)
    /\ chunkIdCounter st = (counter + length gs)%nat
    /\ currentChunkText st = joinTexts g
    /\ currentChunkStart st = startOf g
    /\ lastOffset st = endOf g
    /\ Forall (fits targetSize) (gs ++ [g])
    /\ Sorted (closes targetSize) (gs ++ [g]).

(** The ids of the chunks that the loop has pushed, whatever the
    fragments are. *)
Definition numbered (now : nat -> Z) (counter : nat) (st : ChunkLoop)
  : Prop :=
  map id (chunks st) = idsFrom now counter (length (chunks st))
  /\ chunkIdCounter st = (counter + length (chunks st))%nat.

(** A code unit that occurs in a string. *)
Fixpoint occurs (c : ascii) (s : string) : bool :=
  match s with
  | EmptyString => false
  | String c' s' => Ascii.eqb c c' || occurs c s'
  end.

End ChunkerLayout.

Section OffsetSpec.
Import JsString Dom TextChunker.

(** [s.substring(start, end)] for [0 <= start <= end]. *)
Definition textBetween (start finish : Z) (s : string) : string :=
  String.substring (Z.to_nat start) (Z.to_nat (finish - start)) s.

(** The width of texts that are joined, each with the space behind it. *)
Fixpoint widthOf (l : list string) : nat :=
  match l with
  | [] => 0
  | x :: rest => String.length x + 1 + widthOf rest
  end.

(** [t] occurs in [s] at the position [i]. *)
Definition occursAt (i : Z) (t s : string) : Prop :=
  0 <= i /\ textBetween i (i + len t) s = t.

(** A text node whose data contains [t]. *)
Definition containsText (t : string) (node : TextEntry) : Prop :=
  exists i : Z, occursAt i t (t_data node).

(** Fragments that follow one another in the full text, from the offset
    [offset] on, with one space between two of them. *)
Fixpoint contiguous (offset : Z) (l : list TextNode) : Prop :=
  match l with
  | [] => True
  | n :: rest =>
      tn_startOffset n = offset
      /\ contiguous (offset + len (tn_text n) + 1) rest
  end.

End OffsetSpec.

Section RenderingSpec.
Import JsString Dom Highlighter.

(** A range that [CSS.highlights] holds under [name]. *)
Definition shown (name : string) (p : Page) (r : Range) : Prop :=
  exists l, highlights p !! name = Some l /\ In r l.

(** A range of an entry of the registry that is the active one
    ([active] is true) or is not. *)
Definition registered (active : bool) (p : Page) (r : Range) : Prop :=
  exists (chunkId : string) (l : list Range),
    highlightedChunks p !! chunkId = Some l
    /\ isActive p chunkId = active
    /\ In r l.

(** [CSS.highlights] shows the registry: the ranges of the active entry
    under the active name, the ranges of the others under the other, and
    neither name is registered with no range. *)
Definition rendered (p : Page) : Prop :=
  (forall r : Range,
      (shown HIGHLIGHT_NAME p r <-> registered false p r)
      /\ (shown ACTIVE_HIGHLIGHT_NAME p r <-> registered true p r))
  /\ highlights p !! HIGHLIGHT_NAME <> Some []
  /\ highlights p !! ACTIVE_HIGHLIGHT_NAME <> Some [].

(** A call of the module, not a change of the page. *)
Definition isOperation (c : Call) : bool :=
  match c with
  | PageChanges _ => false
  | _ => true
  end.

End RenderingSpec.

Section DocumentSpec.
Import JsString Dom Highlighter.

(** [node.textContent]: the data of the text nodes of a subtree, in
    document order. *)
Fixpoint textContent (n : Node) : string :=
  match n with
  | Text _ data => data
  | Elem _ cs => fold_right (fun c acc => textContent c +:+ acc) "" cs
  end.

Definition textOf (l : list Node) : string :=
  fold_right (fun c acc => textContent c +:+ acc) "" l.

Definition documentText (d : Document) : string :=
  textContent (documentElement d).



(** The [<style>] element of [injectHighlightStyles]. *)
Definition isHighlightStyle (n : Node) : Prop :=
  match n with
  | Elem e [Text _ data] =>
      tagName e = "STYLE"
      /\ idAttr e = "semantic-find-highlight-styles"
      /\ data = highlightStyles
  | _ => False
  end.

(** The document [d'] is [d], but for the [<style>] element of the
    highlights at the end of [<head>]. *)
Definition sameButStyle (d d' : Document) : Prop :=
  html d' = html d /\ head d' = head d /\ body d' = body d
  /\ bodyChildren d' = bodyChildren d
  /\ (headChildren d' = headChildren d
      \/ exists style,
           headChildren d' = headChildren d ++ [style]
           /\ isHighlightStyle style).

End DocumentSpec.

Section SessionSpec.
Import JsString Dom Types Messages Highlighter.

(** The index of the overlay is a position of its results, 0 when there
    is none. *)
Definition inRange (o : Overlay.State) : Prop :=
  let n := Z.of_nat (length (Overlay.currentResults o)) in
  if n =? 0 then Overlay.currentIndex o = 0
  else 0 <= Overlay.currentIndex o < n.




(** The ids of the chunks of some results. *)
Definition resultIds (results : list SearchResult) : list string :=
  map (fun r => id (chunk r)) results.

(** The highlights of the page belong to the results of the last search
    that succeeded: every entry of the registry and the active id are ids
    of these results, the overlay holds these results or none, and its
    index is a position of them. *)
Definition consistent (s : ContentScript.State) : Prop :=
  (forall chunkId : string,
      is_Some (highlightedChunks (ContentScript.page s) !! chunkId) ->
      In chunkId (resultIds (ContentScript.currentResults s)))
  /\ (forall a : string,
         activeHighlightId (ContentScript.page s) = Some a ->
         In a (resultIds (ContentScript.currentResults s)))
  /\ (Overlay.currentResults (ContentScript.ui s) = []
      \/ Overlay.currentResults (ContentScript.ui s)
         = ContentScript.currentResults s)
  /\ inRange (ContentScript.ui s).

(** An action that moves to another result. *)
Definition moves (a : Overlay.Action) : bool :=
  match a with
  | Overlay.PressEnter _ | Overlay.ClickPrev | Overlay.ClickNext => true
  | _ => false
  end.

End SessionSpec.

Section NormalizedSpec.
Import JsString Dom Highlighter.

(** A string of white space only. *)
Fixpoint allSpaces (s : string) : bool :=
  match s with
  | EmptyString => true
  | String c s' => isSpace c && allSpaces s'
  end.

(** Texts that are put one behind the other, each with a space behind it:
    the string [fullText] of [findRangeForText]. *)
Fixpoint spaced (l : list string) : string :=
  match l with
  | [] => EmptyString
  | x :: rest => x +:+ " " +:+ spaced rest
  end.

(** The code unit of [s] at the position [i] is not white space. *)
Definition nonSpaceAt (i : Z) (s : string) : Prop :=
  0 <= i
  /\ exists c, String.get (Z.to_nat i) s = Some c /\ isSpace c = false.

(** The normalized text of the page, as [findRangeForText] searches it: the
    normalized data of the text nodes of the locator, with one space
    between two of them. *)
Definition normalizedPage (d : Document) : string :=
  join (map (fun t => normalizeText (t_data t)) (locatorNodes d)).

End NormalizedSpec.

(* ===================================================================== *)
(** * Properties *)
(* ===================================================================== *)

(** ** Strings *)

Section StringFacts.
Import JsString.

Lemma append_cons (c : ascii) (a b : string) :
  String c a +:+ b = String c (a +:+ b).
Proof. reflexivity. Qed.

Lemma append_nil_l (s : string) : "" +:+ s = s.
Proof. reflexivity. Qed.

Lemma append_nil_r (s : string) : s +:+ "" = s.
Proof.
  induction s as [|c s IH]; [reflexivity|]. now rewrite append_cons, IH.
Qed.

Lemma append_assoc (a b c : string) : (a +:+ b) +:+ c = a +:+ (b +:+ c).
Proof.
  induction a as [|x a IH]; [reflexivity|]. now rewrite !append_cons, IH.
Qed.

Lemma len_cons (c : ascii) (s : string) : len (String c s) = len s + 1.
Proof. unfold len. simpl String.length. lia. Qed.

Lemma len_append (a b : string) : len (a +:+ b) = len a + len b.
Proof.
  induction a as [|x a IH]; [reflexivity|].
  rewrite append_cons, !len_cons, IH. lia.
Qed.

Lemma len_nonneg (s : string) : 0 <= len s.
Proof. unfold len. lia. Qed.

Lemma len_zero (s : string) : len s = 0 <-> s = "".
Proof.
  destruct s as [|c s]; [tauto|]. rewrite len_cons.
  pose proof (len_nonneg s). split; [lia | discriminate].
Qed.

Lemma len_pos (s : string) : (0 <? len s) = negb (String.eqb s "").
Proof.
  destruct s as [|c s]; [reflexivity|]. rewrite len_cons.
  pose proof (len_nonneg s). simpl. apply Z.ltb_lt. lia.
Qed.

Lemma trimEnd_clean (s : string) :
  s <> "" -> endsWithSpace s = false -> trimEnd s = s.
Proof.
  induction s as [|c s IH]; intros Hne Hend; [congruence|].
  destruct s as [|c' s'].
  - simpl in *. now rewrite Hend.
  - assert (E : trimEnd (String c' s') = String c' s')
      by (apply IH; [discriminate | exact Hend]).
    change (trimEnd (String c (String c' s')))
      with (match trimEnd (String c' s') with
            | EmptyString => if isSpace c then EmptyString else String c EmptyString
            | t => String c t
            end).
    now rewrite E.
Qed.

Lemma trim_clean (s : string) : cleanText s = true -> trim s = s.
Proof.
  unfold cleanText. intros H.
  apply andb_true_iff in H as [H Hend]. apply andb_true_iff in H as [Hne Hst].
  apply negb_true_iff in Hend, Hst, Hne. apply String.eqb_neq in Hne.
  unfold trim. destruct s as [|c s]; [congruence|]. simpl in Hst.
  simpl trimStart. rewrite Hst. now apply trimEnd_clean.
Qed.

Lemma endsWithSpace_append (a b : string) :
  b <> "" -> endsWithSpace (a +:+ b) = endsWithSpace b.
Proof.
  intros Hb. induction a as [|c a IH]; [reflexivity|].
  rewrite append_cons. destruct (a +:+ b) eqn:E.
  - destruct a; [rewrite append_nil_l in E; congruence|].
    rewrite append_cons in E. discriminate.
  - exact IH.
Qed.

Lemma cleanText_glue (a b : string) :
  cleanText a = true -> cleanText b = true ->
  cleanText (a +:+ " " +:+ b) = true.
Proof.
  unfold cleanText. intros Ha Hb.
  apply andb_true_iff in Ha as [Ha _]. apply andb_true_iff in Ha as [Hane Hast].
  apply andb_true_iff in Hb as [Hb Hbend]. apply andb_true_iff in Hb as [Hbne _].
  apply negb_true_iff in Hane, Hbne. apply String.eqb_neq in Hane, Hbne.
  destruct a as [|c a]; [congruence|].
  rewrite endsWithSpace_append by (destruct b; discriminate).
  change (" " +:+ b) with (String " "%char b).
  destruct b as [|c' b]; [congruence|].
  rewrite append_cons. simpl in Hast |- *. rewrite Hast. simpl. exact Hbend.
Qed.

Lemma cleanText_nonempty (s : string) : cleanText s = true -> s <> "".
Proof. destruct s; [discriminate | discriminate]. Qed.

Lemma join_snoc (l : list string) (x : string) :
  l <> [] -> join (l ++ [x]) = join l +:+ " " +:+ x.
Proof.
  unfold join. induction l as [|y l IH]; [congruence|]. intros _.
  destruct l as [|z l].
  - reflexivity.
  - change (String.concat " " ((y :: z :: l) ++ [x]))
      with (y +:+ " " +:+ String.concat " " ((z :: l) ++ [x])).
    rewrite IH by discriminate.
    change (String.concat " " (y :: z :: l))
      with (y +:+ " " +:+ String.concat " " (z :: l)).
    now rewrite !append_assoc.
Qed.

Lemma join_app (l1 l2 : list string) :
  l1 <> [] -> l2 <> [] -> join (l1 ++ l2) = join l1 +:+ " " +:+ join l2.
Proof.
  intros H1 H2. revert l1 H1.
  induction l2 as [|x l2 IH] using rev_ind; [congruence|]. intros l1 H1.
  destruct l2 as [|y l2].
  - simpl. now apply join_snoc.
  - rewrite app_assoc, join_snoc by (destruct l1; discriminate).
    rewrite IH by (discriminate || assumption).
    rewrite (join_snoc (y :: l2)) by discriminate.
    now rewrite !append_assoc.
Qed.

Lemma cleanText_join (l : list string) :
  l <> [] -> Forall (fun s => cleanText s = true) l ->
  cleanText (join l) = true.
Proof.
  induction l as [|x l IH] using rev_ind; [congruence|]. intros _ H.
  apply Forall_app in H as [Hl Hx]. inversion Hx; subst.
  destruct l as [|y l]; [assumption|].
  rewrite join_snoc by discriminate.
  apply cleanText_glue; [apply IH; [discriminate | assumption] | assumption].
Qed.

End StringFacts.

(** ** chunkText *)

Section ChunkerFacts.
Import JsString Types TextChunker.

Variable now : nat -> Z.
Variable targetSize : Z.

Lemma joinTexts_clean (g : list TextNode) :
  g <> [] -> Forall cleanNode g -> cleanText (joinTexts g) = true.
Proof.
  intros Hne Hg. apply cleanText_join.
  - destruct g; [congruence | discriminate].
  - apply Forall_map. exact Hg.
Qed.

Lemma joinTexts_snoc (g : list TextNode) (n : TextNode) :
  g <> [] -> joinTexts (g ++ [n]) = joinTexts g +:+ " " +:+ tn_text n.
Proof.
  intros Hne. unfold joinTexts. rewrite map_app. apply join_snoc.
  destruct g; [congruence | discriminate].
Qed.

Lemma chunks_pushChunk (st : ChunkLoop) :
  map text (chunks (pushChunk now st))
  = map text (chunks st) ++ [trim (currentChunkText st)].
Proof. unfold pushChunk. simpl. now rewrite map_app. Qed.

Lemma grouped_step (processed : list TextNode) (st : ChunkLoop) (n : TextNode) :
  Forall cleanNode (processed ++ [n]) ->
  grouped processed st ->
  grouped (processed ++ [n]) (chunkStep now targetSize st n).
Proof.
  intros Hclean (gs & g & HP & Hgs & Hch & Hcur).
  apply Forall_app in Hclean as [HcP Hcn].
  assert (Hg : Forall cleanNode g)
    by (rewrite HP in HcP; now apply Forall_app in HcP as [_ ?]).
  assert (Hempty : g = [] -> currentChunkText st = "")
    by (intros ->; exact Hcur).
  assert (Hfull : g <> [] -> cleanText (currentChunkText st) = true)
    by (intros ?; rewrite Hcur; now apply joinTexts_clean).
  unfold chunkStep.
  destruct ((0 <? len (currentChunkText st))
            && (targetSize <? len (currentChunkText st) + len (tn_text n)))
    eqn:Hclose.
  - (* the open chunk is closed, [n] opens the next one *)
    apply andb_true_iff in Hclose as [Hpos _].
    assert (Hne : g <> []).
    { intros ->. rewrite (Hempty eq_refl) in Hpos. discriminate. }
    exists (gs ++ [g]), [n]. cbn [chunks currentChunkText].
    repeat split.
    + rewrite concat_app. simpl. rewrite app_nil_r, HP. reflexivity.
    + apply Forall_app. split; [assumption | now constructor].
    + rewrite chunks_pushChunk, map_app, Hch. simpl.
      rewrite trim_clean by auto. now rewrite Hcur.
  - (* [n] joins the open chunk *)
    destruct g as [|n0 g'].
    + exists gs, [n]. cbn [chunks currentChunkText].
      rewrite (Hempty eq_refl). repeat split; try assumption.
      rewrite HP. now rewrite !app_nil_r.
    + exists gs, ((n0 :: g') ++ [n]). cbn [chunks currentChunkText].
      repeat split; try assumption.
      * rewrite HP. now rewrite app_assoc.
      * rewrite joinTexts_snoc by discriminate. rewrite <- Hcur.
        assert (Hc : cleanText (currentChunkText st) = true)
          by (apply Hfull; discriminate).
        rewrite len_pos.
        apply cleanText_nonempty, String.eqb_neq in Hc. rewrite Hc. simpl.
        reflexivity.
Qed.

Lemma grouped_fold (l processed : list TextNode) (st : ChunkLoop) :
  Forall cleanNode (processed ++ l) ->
  grouped processed st ->
  grouped (processed ++ l) (fold_left (chunkStep now targetSize) l st).
Proof.
  revert processed st. induction l as [|n l IH]; intros processed st Hc Hg.
  - now rewrite app_nil_r.
  - simpl fold_left.
    replace (processed ++ n :: l) with ((processed ++ [n]) ++ l) in *
      by now rewrite <- app_assoc.
    apply IH; [assumption|]. apply grouped_step; [|assumption].
    now apply Forall_app in Hc as [? _].
Qed.

Lemma join_groups (gs : list (list TextNode)) :
  Forall (fun g => g <> []) gs ->
  join (map joinTexts gs) = joinTexts (concat gs).
Proof.
  induction gs as [|g gs IH]; [reflexivity|]. intros H.
  inversion H as [|? ? Hg Hgs]; subst.
  destruct gs as [|g' gs'].
  - simpl. now rewrite app_nil_r.
  - change (map joinTexts (g :: g' :: gs'))
      with ([joinTexts g] ++ map joinTexts (g' :: gs')).
    rewrite join_app by discriminate. rewrite (IH Hgs).
    change (concat (g :: g' :: gs')) with (g ++ concat (g' :: gs')).
    unfold joinTexts at 3. rewrite map_app, join_app.
    + reflexivity.
    + destruct g; [congruence | discriminate].
    + inversion Hgs; subst. destruct g'; [congruence | discriminate].
Qed.

(** The groups behind the chunks of [chunkText]. *)
Lemma chunkText_groups (counter : nat) (textNodes : list TextNode) :
  Forall cleanNode textNodes ->
  exists gs : list (list TextNode),
    concat gs = textNodes
    /\ Forall (fun g => g <> []) gs
    /\ map text (chunkText now counter textNodes targetSize)
       = map joinTexts gs.
Proof.
  intros Hclean. unfold chunkText, chunkTextFrom.
  set (st0 := {| chunks := []; currentChunkText := ""; currentChunkStart := 0;
                 lastOffset := 0; chunkIdCounter := counter |}).
  assert (H0 : grouped [] st0) by (exists [], []; repeat split; constructor).
  pose proof (grouped_fold textNodes [] st0 Hclean H0) as (gs & g & HP & Hgs & Hch & Hcur).
  simpl app in HP.
  set (st := fold_left (chunkStep now targetSize) textNodes st0) in *.
  destruct g as [|n0 g'].
  - exists gs. rewrite Hcur. simpl.
    repeat split; [now rewrite HP, app_nil_r | assumption | assumption].
  - assert (Hg : Forall cleanNode (n0 :: g'))
      by (rewrite HP in Hclean; now apply Forall_app in Hclean as [_ ?]).
    assert (Hc : cleanText (currentChunkText st) = true)
      by (rewrite Hcur; now apply joinTexts_clean).
    rewrite (trim_clean _ Hc), len_pos.
    pose proof Hc as Hne. apply cleanText_nonempty, String.eqb_neq in Hne.
    rewrite Hne. simpl fst.
    exists (gs ++ [n0 :: g']). repeat split.
    + rewrite concat_app. simpl. now rewrite app_nil_r, HP.
    + apply Forall_app. split; [assumption | now constructor].
    + rewrite !map_app, Hch. simpl. now rewrite (trim_clean _ Hc), Hcur.
Qed.

Lemma chunkStep_first (st : ChunkLoop) (n : TextNode) :
  currentChunkText st = "" ->
  chunks (chunkStep now targetSize st n) = chunks st
  /\ currentChunkText (chunkStep now targetSize st n) = tn_text n.
Proof.
  intros E. unfold chunkStep. rewrite E. change (len "") with 0.
  cbn [Z.ltb Z.compare andb Z.eqb]. rewrite E. change (len "") with 0.
  cbn [Z.ltb Z.compare andb Z.eqb chunks currentChunkText].
  split; reflexivity.
Qed.

Lemma chunkStep_close (st : ChunkLoop) (n : TextNode) :
  (0 <? len (currentChunkText st)) = true ->
  (targetSize <? len (currentChunkText st) + len (tn_text n)) = true ->
  map text (chunks (chunkStep now targetSize st n))
  = map text (chunks st) ++ [trim (currentChunkText st)]
  /\ currentChunkText (chunkStep now targetSize st n) = tn_text n.
Proof.
  intros E1 E2. unfold chunkStep. rewrite E1, E2.
  cbn [andb chunks currentChunkText]. rewrite chunks_pushChunk.
  split; reflexivity.
Qed.

Lemma oneEach_step (processed : list TextNode) (st : ChunkLoop) (n : TextNode) :
  targetSize <= 0 ->
  ~ blank (tn_text n) ->
  oneEach processed st ->
  oneEach (processed ++ [n]) (chunkStep now targetSize st n).
Proof.
  intros Ht Hn [Hmap Hcur].
  assert (Hne : tn_text n <> "") by (intros E; apply Hn; now rewrite E).
  assert (Hneb : String.eqb (tn_text n) "" = false) by now apply String.eqb_neq.
  unfold oneEach, pending in *. rewrite map_app. cbn [map].
  destruct Hcur as [Hcur | Hcur].
  - destruct (chunkStep_first st n Hcur) as [-> ->].
    rewrite Hcur in Hmap. cbn [String.eqb] in Hmap.
    rewrite Hneb, <- Hmap, app_nil_r. split; [reflexivity | now right].
  - assert (Hc : currentChunkText st <> "")
      by (intros E; apply Hcur; now rewrite E).
    pose proof (proj2 (String.eqb_neq _ _) Hc) as Hcb. rewrite Hcb in Hmap.
    assert (Hpos : (0 <? len (currentChunkText st)) = true)
      by (rewrite len_pos, Hcb; reflexivity).
    assert (Hlt : (targetSize <? len (currentChunkText st) + len (tn_text n)) = true).
    { apply Z.ltb_lt. pose proof (len_nonneg (tn_text n)).
      apply Z.ltb_lt in Hpos. lia. }
    destruct (chunkStep_close st n Hpos Hlt) as [-> ->].
    rewrite Hneb, <- Hmap.
    split; [rewrite <- app_assoc; reflexivity | now right].
Qed.

Lemma oneEach_fold (l processed : list TextNode) (st : ChunkLoop) :
  targetSize <= 0 ->
  Forall (fun n => ~ blank (tn_text n)) l ->
  oneEach processed st ->
  oneEach (processed ++ l) (fold_left (chunkStep now targetSize) l st).
Proof.
  intros Ht. revert processed st.
  induction l as [|n l IH]; intros processed st Hl Hst.
  - now rewrite app_nil_r.
  - inversion Hl; subst. simpl fold_left.
    replace (processed ++ n :: l) with ((processed ++ [n]) ++ l)
      by now rewrite <- app_assoc.
    apply IH; [assumption|]. now apply oneEach_step.
Qed.

Lemma chunkText_oneEach (counter : nat) (textNodes : list TextNode) :
  targetSize <= 0 ->
  Forall (fun n => ~ blank (tn_text n)) textNodes ->
  map text (chunkText now counter textNodes targetSize)
  = map (fun n => trim (tn_text n)) textNodes.
Proof.
  intros Ht Hl. unfold chunkText, chunkTextFrom.
  set (st0 := {| chunks := []; currentChunkText := ""; currentChunkStart := 0;
                 lastOffset := 0; chunkIdCounter := counter |}).
  assert (H0 : oneEach [] st0) by (split; [reflexivity | now left]).
  pose proof (oneEach_fold textNodes [] st0 Ht Hl H0) as [Hmap Hcur].
  simpl app in Hmap.
  set (st := fold_left (chunkStep now targetSize) textNodes st0) in *.
  unfold pending in Hmap. destruct Hcur as [Hcur | Hcur].
  - rewrite Hcur in *. simpl in *. now rewrite app_nil_r in Hmap.
  - assert (Hc : currentChunkText st <> "")
      by (intros E; apply Hcur; now rewrite E).
    rewrite (proj2 (String.eqb_neq _ _) Hc) in Hmap.
    rewrite len_pos. unfold blank in Hcur.
    rewrite (proj2 (String.eqb_neq _ _) Hcur).
    cbv beta iota delta [negb fst]. now rewrite chunks_pushChunk.
Qed.

End ChunkerFacts.

Section ChunkerClaims.
Import JsString Types TextChunker.

(** C4, as stated, fails: with [targetSize = 0] the one fragment "Hello"
    comes back as one chunk, not as the empty list. *)
Lemma chunkText_nonpositive_target_counterexample :
  0 <= 0
  /\ chunkText (fun _ => 0) 0
       [ {| tn_text := "Hello"; tn_node := 0; tn_startOffset := 0 |} ] 0
     = [ {| id := "chunk-0-0"; text := "Hello"; startOffset := 0;
            endOffset := 5; embedding := None |} ]
  /\ chunkText (fun _ => 0) 0
       [ {| tn_text := "Hello"; tn_node := 0; tn_startOffset := 0 |} ] 0
     <> [].
Proof. split; [lia|]. split; [reflexivity | discriminate]. Qed.

(** C4, amended: on a degenerate input ([targetSize <= 0], or no fragment)
    [chunkText] returns, without an error, one chunk for each fragment,
    with the trimmed text of that fragment, when no fragment is blank; so
    the result is the empty list exactly when there is no fragment, whatever
    [targetSize] is. *)
Theorem chunkText_degenerate_input :
  forall (now : nat -> Z) (counter : nat) (textNodes : list TextNode)
         (targetSize : Z),
    targetSize <= 0 \/ textNodes = [] ->
    Forall (fun n => trim (tn_text n) <> "") textNodes ->
    map text (chunkText now counter textNodes targetSize)
    = map (fun n => trim (tn_text n)) textNodes
    /\ (chunkText now counter textNodes targetSize = [] <-> textNodes = []).
Proof.
  intros now counter textNodes targetSize Hdeg Hblank.
  assert (Hmap : map text (chunkText now counter textNodes targetSize)
                 = map (fun n => trim (tn_text n)) textNodes).
  { destruct Hdeg as [Ht | ->]; [|reflexivity].
    now apply chunkText_oneEach. }
  split; [exact Hmap|]. split; intros E.
  - rewrite E in Hmap. destruct textNodes; [reflexivity | discriminate].
  - subst. reflexivity.
Qed.

Lemma chunkText_degenerate_input_witness :
  let textNodes :=
    [ {| tn_text := "Hello"; tn_node := 1; tn_startOffset := 0 |};
      {| tn_text := "world"; tn_node := 2; tn_startOffset := 6 |} ] in
  (-1 <= 0 \/ textNodes = [])
  /\ Forall (fun n => trim (tn_text n) <> "") textNodes
  /\ (map text (chunkText (fun _ => 0) 0 textNodes (-1))
      = map (fun n => trim (tn_text n)) textNodes
      /\ (chunkText (fun _ => 0) 0 textNodes (-1) = [] <-> textNodes = [])).
Proof.
  intros textNodes.
  assert (H1 : -1 <= 0 \/ textNodes = []) by (left; lia).
  assert (H2 : Forall (fun n => trim (tn_text n) <> "") textNodes)
    by (repeat constructor; discriminate).
  split; [exact H1|]. split; [exact H2|].
  exact (chunkText_degenerate_input (fun _ => 0) 0 textNodes (-1) H1 H2).
Defined.

(** C7: for a non-empty list of fragments whose texts are not empty and
    have no white space at either end, and a positive [targetSize], the
    texts of the chunks joined by single spaces are the texts of the
    fragments joined by single spaces, and the fragments fall, in order and
    each one whole, into consecutive non-empty groups, one group for each
    chunk, the text of a chunk being the joined texts of its group. *)
Theorem chunkText_keeps_fragments_whole :
  forall (now : nat -> Z) (counter : nat) (textNodes : list TextNode)
         (targetSize : Z),
    textNodes <> [] ->
    Forall (fun n => cleanText (tn_text n) = true) textNodes ->
    0 < targetSize ->
    join (map text (chunkText now counter textNodes targetSize))
    = join (map tn_text textNodes)
    /\ exists groups : list (list TextNode),
         concat groups = textNodes
         /\ Forall (fun g => g <> []) groups
         /\ map text (chunkText now counter textNodes targetSize)
            = map (fun g => join (map tn_text g)) groups.
Proof.
  intros now counter textNodes targetSize _ Hclean _.
  destruct (chunkText_groups now targetSize counter textNodes Hclean)
    as (gs & Hcat & Hgs & Hmap).
  split.
  - rewrite Hmap, join_groups by assumption. now rewrite Hcat.
  - exists gs. repeat split; assumption.
Qed.

Lemma chunkText_keeps_fragments_whole_witness :
  let textNodes :=
    [ {| tn_text := "Hello"; tn_node := 1; tn_startOffset := 0 |};
      {| tn_text := "beautiful"; tn_node := 2; tn_startOffset := 6 |};
      {| tn_text := "world"; tn_node := 3; tn_startOffset := 16 |} ] in
  textNodes <> []
  /\ Forall (fun n => cleanText (tn_text n) = true) textNodes
  /\ 0 < 15
  /\ (join (map text (chunkText (fun _ => 0) 0 textNodes 15))
      = join (map tn_text textNodes)
      /\ exists groups : list (list TextNode),
           concat groups = textNodes
           /\ Forall (fun g => g <> []) groups
           /\ map text (chunkText (fun _ => 0) 0 textNodes 15)
              = map (fun g => join (map tn_text g)) groups).
Proof.
  intros textNodes.
  assert (H1 : textNodes <> []) by discriminate.
  assert (H2 : Forall (fun n => cleanText (tn_text n) = true) textNodes)
    by (repeat constructor).
  assert (H3 : 0 < 15) by lia.
  split; [exact H1|]. split; [exact H2|]. split; [exact H3|].
  exact (chunkText_keeps_fragments_whole (fun _ => 0) 0 textNodes 15 H1 H2 H3).
Defined.

End ChunkerClaims.

(** ** mapNormalizedToActual and the offsets of a range *)

Section LocationFacts.
Import JsString Dom Highlighter.

Lemma mapLoop_bounds (text : string) (normalizedPos : Z) (rest : string) :
  forall (i normIndex : Z) (inWhitespace : bool),
    0 <= i -> i + len rest = len text ->
    0 <= mapLoop text normalizedPos i normIndex inWhitespace rest <= len text.
Proof.
  induction rest as [|c rest IH]; intros i normIndex inWhitespace Hi Hlen.
  - simpl. pose proof (len_nonneg text). lia.
  - rewrite len_cons in Hlen. pose proof (len_nonneg rest).
    simpl mapLoop. destruct (normalizedPos <=? normIndex); [lia|].
    destruct (isSpace c); [destruct (negb inWhitespace)|]; apply IH; lia.
Qed.

Lemma mapNormalizedToActual_bounds (text : string) (normalizedPos : Z) :
  0 <= mapNormalizedToActual text normalizedPos <= len text.
Proof. unfold mapNormalizedToActual. apply mapLoop_bounds; lia. Qed.

Lemma anchor_offsets (matchIndex matchEnd : Z) (textNodes : list Located) :
  forall (startNode0 : option Located) (startOffset normalizedPos : Z),
    0 <= startOffset ->
    let a := anchor matchIndex matchEnd startNode0 startOffset normalizedPos
               textNodes in
    0 <= a_startOffset a /\ 0 <= a_endOffset a.
Proof.
  induction textNodes as [|n rest IH];
    intros startNode0 startOffset normalizedPos Hs.
  - simpl. lia.
  - cbn [anchor].
    set (nodeEndNorm := normalizedPos + len (normalizeText (text n))).
    pose proof (mapNormalizedToActual_bounds (text n) (matchIndex - normalizedPos)).
    pose proof (mapNormalizedToActual_bounds (text n) (matchEnd - normalizedPos)).
    pose proof (len_nonneg (text n)).
    destruct (negb (isSome startNode0) && (normalizedPos <=? matchIndex)
              && (matchIndex <? nodeEndNorm)).
    + destruct (isSome (Some n) && (normalizedPos <? matchEnd)
                && (matchEnd <=? nodeEndNorm)); [simpl; lia|].
      destruct (isSome (Some n) && (matchEnd =? nodeEndNorm)); [simpl; lia|].
      apply IH. lia.
    + destruct (isSome startNode0 && (normalizedPos <? matchEnd)
                && (matchEnd <=? nodeEndNorm)); [simpl; lia|].
      destruct (isSome startNode0 && (matchEnd =? nodeEndNorm)); [simpl; lia|].
      apply IH. lia.
Qed.

Lemma mapNormalizedToActual_bounds_offsets :
  (forall (text : string) (normalizedPos : Z),
      0 <= mapNormalizedToActual text normalizedPos <= len text)
  /\ (forall (d : Document) (searchText : string)
             (startNode endNode : Located) (startOffset endOffset : Z),
         boundaryPoints d searchText
         = Some (startNode, startOffset, endNode, endOffset) ->
         0 <= startOffset <= len (Highlighter.text startNode)
         /\ 0 <= endOffset <= len (Highlighter.text endNode)).
Proof.
  split.
  - apply mapNormalizedToActual_bounds.
  - intros d searchText sn en so eo. unfold boundaryPoints.
    destruct (flattened d) as [textNodes fullText].
    set (matchIndex := indexOf (normalizeText fullText) searchText).
    destruct (matchIndex =? -1); [discriminate|].
    pose proof (anchor_offsets matchIndex (matchIndex + len searchText)
                  textNodes None 0 0 (Z.le_refl 0)) as [Hs He].
    cbv zeta in Hs, He.
    destruct (Highlighter.startNode _) as [sn'|]; [|discriminate].
    destruct (Highlighter.endNode _) as [en'|]; [|discriminate].
    intros E. inversion E; subst.
    pose proof (len_nonneg (Highlighter.text sn)).
    pose proof (len_nonneg (Highlighter.text en)). lia.
Qed.

(** C10: [mapNormalizedToActual(text, normalizedPos)] lies in
    [[0, text.length]] for every [normalizedPos >= 0]; and the offsets that
    [findRangeForText] passes to [range.setStart] and to [range.setEnd],
    after the [Math.min] clamp, lie within their text nodes. *)
Theorem mapNormalizedToActual_in_bounds :
  (forall (text : string) (normalizedPos : Z),
      0 <= normalizedPos ->
      0 <= mapNormalizedToActual text normalizedPos <= len text)
  /\ (forall (d : Document) (searchText : string)
             (startNode endNode : Located) (startOffset endOffset : Z),
         boundaryPoints d searchText
         = Some (startNode, startOffset, endNode, endOffset) ->
         0 <= startOffset <= len (Highlighter.text startNode)
         /\ 0 <= endOffset <= len (Highlighter.text endNode)).
Proof.
  split.
  - intros text normalizedPos _.
    apply (proj1 mapNormalizedToActual_bounds_offsets).
  - apply (proj2 mapNormalizedToActual_bounds_offsets).
Qed.

End LocationFacts.

Section LocationClaims.
Import JsString Dom Highlighter Samples.

(** The [catch] of [findRangeForText] is never taken. *)
Lemma findRangeForText_boundaryPoints (d : Document) (searchText : string)
    (startNode endNode : Located) (startOffset endOffset : Z) :
  boundaryPoints d searchText
  = Some (startNode, startOffset, endNode, endOffset) ->
  findRangeForText d searchText
  = Some {| startContainer := node startNode; startOffset := startOffset;
            endContainer := node endNode; endOffset := endOffset |}.
Proof.
  intros E. unfold findRangeForText. rewrite E.
  destruct (proj2 mapNormalizedToActual_bounds_offsets _ _ _ _ _ _ E)
    as [[? ?] [? ?]].
  unfold validOffset.
  rewrite !(proj2 (Z.leb_le _ _)) by assumption. reflexivity.
Qed.

Lemma mapNormalizedToActual_in_bounds_witness :
  0 <= 2
  /\ 0 <= mapNormalizedToActual "a  b" 2 <= len "a  b"
  /\ boundaryPoints mixedParagraph "test paragraph with"
     = Some ({| node := 4; start := 0; text := "This is a  test paragraph" |},
             10,
             {| node := 6; start := 26; text := " with " |}, 4)
  /\ (0 <= 10 <= len "This is a  test paragraph" /\ 0 <= 4 <= len " with ").
Proof.
  assert (H0 : 0 <= 2) by lia.
  assert (E : boundaryPoints mixedParagraph "test paragraph with"
              = Some ({| node := 4; start := 0;
                         text := "This is a  test paragraph" |}, 10,
                      {| node := 6; start := 26; text := " with " |}, 4))
    by (vm_compute; reflexivity).
  split; [exact H0|]. split.
  - exact (proj1 mapNormalizedToActual_in_bounds "a  b" 2 H0).
  - split; [exact E|].
    exact (proj2 mapNormalizedToActual_in_bounds mixedParagraph
             "test paragraph with" _ _ _ _ E).
Defined.

End LocationClaims.

(** ** The text nodes of the locator and of the extractor *)

Section EligibilityFacts.
Import JsString Dom Highlighter Samples.

Lemma flatten_nodes (nodes : list TextEntry) :
  forall (textNodes : list Located) (fullText : string),
    map node (fst (flatten nodes textNodes fullText))
    = map node textNodes
      ++ map t_node
           (List.filter (fun t => negb (len (trim (t_data t)) =? 0)) nodes).
Proof.
  induction nodes as [|n rest IH]; intros textNodes fullText.
  - simpl. now rewrite app_nil_r.
  - simpl flatten. simpl List.filter.
    destruct (len (trim (t_data n)) =? 0); simpl negb; cbv iota.
    + apply IH.
    + rewrite IH, map_app. simpl. now rewrite <- app_assoc.
Qed.

(** The array [textNodes] of [findRangeForText] holds these nodes. *)
Lemma flattened_nodes (d : Document) :
  map node (fst (flattened d)) = map t_node (locatorNodes d).
Proof. unfold flattened, locatorNodes. now rewrite flatten_nodes. Qed.

Lemma collectFrom_nodes (nodes : list TextEntry) :
  Forall (fun t => TextChunker.acceptNode t = true) nodes ->
  forall currentOffset : Z,
    map TextChunker.tn_node (TextChunker.collectFrom currentOffset nodes)
    = map t_node nodes.
Proof.
  induction 1 as [|n rest Hn _ IH]; intros currentOffset; [reflexivity|].
  simpl. unfold TextChunker.acceptNode in Hn.
  destruct (t_ancestors n) as [|parent ?]; [discriminate|].
  destruct (_ || _); [discriminate|].
  destruct (TextChunker.shouldSkipElement _); [discriminate|].
  destruct (String.eqb (trim (t_data n)) ""); [discriminate|].
  simpl. now rewrite IH.
Qed.

(** [extractPageText] returns the nodes that its filter accepts. *)
Lemma extractPageText_nodes (d : Document) :
  map TextChunker.tn_node (TextChunker.extractPageText d)
  = map t_node (TextChunker.acceptedTextNodes d).
Proof.
  unfold TextChunker.extractPageText. apply collectFrom_nodes.
  unfold TextChunker.acceptedTextNodes.
  destruct (TextChunker.searchRoot d) as [[root anc] cs].
  apply List.Forall_forall. intros t Ht. now apply filter_In in Ht.
Qed.

Lemma includes_skip_tags (tag : string) :
  includes TextChunker.SKIP_TAGS tag = false ->
  includes ["SCRIPT"; "STYLE"; "NOSCRIPT"; "TEMPLATE"]%string tag = false.
Proof.
  unfold includes, TextChunker.SKIP_TAGS. cbn [existsb]. intros H.
  repeat (apply orb_false_iff in H as [? H]).
  repeat (apply orb_false_iff; split; try assumption).
Qed.

(** What the filter of the extractor accepts, the filter of the locator
    accepts, and it is not blank. *)
Lemma shouldSkipElement_parent (parent : Element) (parents : list Element) :
  TextChunker.shouldSkipElement (parent :: parents) = false ->
  TextChunker.skipHere parent = false.
Proof.
  unfold TextChunker.shouldSkipElement.
  change (TextChunker.shouldSkipLoop 5 (parent :: parents))
    with (if TextChunker.skipHere parent then true
          else TextChunker.shouldSkipLoop 4 parents).
  destruct (TextChunker.skipHere parent); [discriminate | reflexivity].
Qed.

Lemma acceptNode_weaker (t : TextEntry) :
  TextChunker.acceptNode t = true ->
  Highlighter.acceptNode t = true /\ negb (len (trim (t_data t)) =? 0) = true.
Proof.
  unfold TextChunker.acceptNode, Highlighter.acceptNode.
  destruct (t_ancestors t) as [|parent parents]; [discriminate|].
  destruct (_ || _); [discriminate|].
  destruct (TextChunker.shouldSkipElement (parent :: parents)) eqn:Hskip;
    [discriminate|].
  apply shouldSkipElement_parent in Hskip.
  unfold TextChunker.skipHere in Hskip.
  destruct (includes TextChunker.SKIP_TAGS (tagName parent)) eqn:Htag;
    [discriminate|].
  rewrite (includes_skip_tags _ Htag).
  destruct (String.eqb (trim (t_data t)) "") eqn:He; [discriminate|].
  intros _. split; [reflexivity|].
  apply String.eqb_neq in He. apply negb_true_iff, Z.eqb_neq.
  now rewrite len_zero.
Qed.

(** C5, as stated, fails: the text of a [<nav>] below [<body>] contributes
    to the flattened string of the locator, and the extractor rejects it.
    On this document the locator uses the nodes 4, 6, 9 and 11, the
    extractor only the node 9 of [<main>]. *)
Lemma locator_eligibility_counterexample :
  let t := {| t_node := 4;
              t_ancestors := [element 3 "NAV"; element 2 "BODY";
                              element 0 "HTML"];
              t_data := "Home page links" |} in
  In t (bodyTextNodes navAndMain)
  /\ map t_node (locatorNodes navAndMain) = [4; 6; 9; 11]%nat
  /\ map node (fst (flattened navAndMain)) = [4; 6; 9; 11]%nat
  /\ map TextChunker.tn_node (TextChunker.extractPageText navAndMain) = [9]%nat
  /\ In t (locatorNodes navAndMain)
  /\ ~ In t (TextChunker.acceptedTextNodes navAndMain).
Proof.
  intros t.
  assert (E : map t_node (TextChunker.acceptedTextNodes navAndMain) = [9]%nat)
    by (vm_compute; reflexivity).
  split; [vm_compute; auto|].
  split; [vm_compute; reflexivity|].
  split; [vm_compute; reflexivity|].
  split; [vm_compute; reflexivity|].
  split; [vm_compute; auto|].
  intros H. apply (in_map t_node) in H. rewrite E in H.
  destruct H as [H | []]. discriminate.
Qed.

(** C5, amended: the locator is less strict than the extractor.  Every
    text node below [document.body] that [extractPageText] accepts
    contributes to the flattened string of the locator. *)
Theorem extractor_nodes_reach_locator :
  forall (d : Document) (t : TextEntry),
    In t (bodyTextNodes d) ->
    In t (TextChunker.acceptedTextNodes d) ->
    In t (locatorNodes d)
    /\ In (t_node t) (map node (fst (flattened d))).
Proof.
  intros d t Hbody Hacc.
  assert (Ht : TextChunker.acceptNode t = true).
  { unfold TextChunker.acceptedTextNodes in Hacc.
    destruct (TextChunker.searchRoot d) as [[root anc] cs].
    now apply filter_In in Hacc. }
  destruct (acceptNode_weaker t Ht) as [Hloc Hblank].
  assert (Hin : In t (locatorNodes d)).
  { unfold locatorNodes. apply filter_In. split; [|assumption].
    apply filter_In. split; assumption. }
  split; [assumption|]. rewrite flattened_nodes. now apply in_map.
Qed.

Lemma extractor_nodes_reach_locator_witness :
  let t := {| t_node := 9;
              t_ancestors := [element 8 "P"; element 7 "MAIN";
                              element 2 "BODY"; element 0 "HTML"];
              t_data := "Hello world" |} in
  In t (bodyTextNodes navAndMain)
  /\ In t (TextChunker.acceptedTextNodes navAndMain)
  /\ (In t (locatorNodes navAndMain)
      /\ In (t_node t) (map node (fst (flattened navAndMain)))).
Proof.
  intros t.
  assert (H1 : In t (bodyTextNodes navAndMain)) by (vm_compute; auto).
  assert (H2 : In t (TextChunker.acceptedTextNodes navAndMain))
    by (vm_compute; auto).
  split; [exact H1|]. split; [exact H2|].
  exact (extractor_nodes_reach_locator navAndMain t H1 H2).
Defined.

End EligibilityFacts.

(** ** The highlight registry *)

Section RegistryFacts.
Import JsString Dom Highlighter.

Variable api : bool.

Lemma isActive_true (p : Page) (chunkId : string) :
  isActive p chunkId = true <-> activeHighlightId p = Some chunkId.
Proof.
  unfold isActive. destruct (activeHighlightId p) as [a|].
  - rewrite String.eqb_eq. split; [now intros -> | now intros [= ->]].
  - split; discriminate.
Qed.

Lemma updateHighlights_same (p : Page) :
  highlightedChunks (updateHighlights api p) = highlightedChunks p
  /\ activeHighlightId (updateHighlights api p) = activeHighlightId p
  /\ document (updateHighlights api p) = document p
  /\ scrolls (updateHighlights api p) = scrolls p.
Proof. unfold updateHighlights. destruct api; simpl; auto. Qed.

Lemma removeHighlight_registry (p : Page) (chunkId : string) :
  highlightedChunks (removeHighlight api p chunkId)
  = delete chunkId (highlightedChunks p)
  /\ activeHighlightId (removeHighlight api p chunkId)
     = (if isActive p chunkId then None else activeHighlightId p)
  /\ document (removeHighlight api p chunkId) = document p
  /\ scrolls (removeHighlight api p chunkId) = scrolls p.
Proof.
  unfold removeHighlight.
  destruct (updateHighlights_same
              (if isActive (withChunks p (delete chunkId (highlightedChunks p)))
                    chunkId
               then withActive
                      (withChunks p (delete chunkId (highlightedChunks p))) None
               else withChunks p (delete chunkId (highlightedChunks p))))
    as (-> & -> & -> & ->).
  change (isActive (withChunks p (delete chunkId (highlightedChunks p))) chunkId)
    with (isActive p chunkId).
  destruct (isActive p chunkId); simpl; auto.
Qed.

Lemma injectHighlightStyles_same (p : Page) :
  highlightedChunks (injectHighlightStyles p) = highlightedChunks p
  /\ activeHighlightId (injectHighlightStyles p) = activeHighlightId p
  /\ highlights (injectHighlightStyles p) = highlights p
  /\ scrolls (injectHighlightStyles p) = scrolls p
  /\ flattened (document (injectHighlightStyles p)) = flattened (document p).
Proof.
  unfold injectHighlightStyles. destruct (anyElement _ _); simpl; auto.
Qed.

(** The location algorithm reads the text nodes below [<body>] only. *)
Lemma findRangeForText_flattened (d d' : Document) (searchText : string) :
  flattened d' = flattened d ->
  findRangeForText d' searchText = findRangeForText d searchText.
Proof.
  intros E. unfold findRangeForText, boundaryPoints. now rewrite E.
Qed.

Lemma firstFound_flattened (d d' : Document) (l : list string) :
  flattened d' = flattened d -> firstFound d' l = firstFound d l.
Proof.
  intros E. induction l as [|s l IH]; [reflexivity|].
  simpl. now rewrite IH, (findRangeForText_flattened d d' s E).
Qed.

Lemma findTextRanges_flattened (d d' : Document) (searchText : string) :
  flattened d' = flattened d ->
  findTextRanges d' searchText = findTextRanges d searchText.
Proof.
  intros E. unfold findTextRanges. now rewrite (firstFound_flattened d d' _ E).
Qed.

Lemma findTextRanges_short (d : Document) (searchText : string) :
  len (normalizeText searchText) < 3 -> findTextRanges d searchText = [].
Proof.
  intros H. unfold findTextRanges.
  now rewrite (proj2 (Z.ltb_lt _ _) H).
Qed.


(** The fallback leaves the active id alone; it adds the entry of
    [chunkId] when it returns [true] and leaves the registry alone when it
    returns [false]. *)
Lemma highlightTextFallback_registry (p : Page) (chunkId searchText : string) :
  let r := highlightTextFallback p chunkId searchText in
  activeHighlightId (snd r) = activeHighlightId p
  /\ highlights (snd r) = highlights p
  /\ scrolls (snd r) = scrolls p
  /\ (if fst r
      then exists ranges,
             highlightedChunks (snd r)
             = <[chunkId := ranges]> (highlightedChunks p)
      else highlightedChunks (snd r) = highlightedChunks p).
Proof.
  unfold highlightTextFallback.
  destruct (findRangeForText (document p) (normalizeText searchText))
    as [range|]; [|simpl; auto].
  destruct (startContainer range =? endContainer range)%nat.
  - destruct (surroundContents _ _ _) as [[d wrapped]|]; simpl; eauto 6.
  - destruct (wrapPieces chunkId (document p) []
                (getTextNodesInRange (document p) range)) as [d ranges].
    destruct (0 <? length ranges)%nat; simpl; eauto 6.
Qed.

Lemma highlightTextFallback_none (p : Page) (chunkId searchText : string) :
  findRangeForText (document p) (normalizeText searchText) = None ->
  highlightTextFallback p chunkId searchText = (false, p).
Proof. intros E. unfold highlightTextFallback. now rewrite E. Qed.

(** The shape of a call of [highlightText]: the entry of [chunkId] is
    removed first, with the active id when it is [chunkId]; then the entry
    is set when the call returns [true]. *)
Lemma highlightText_registry (p : Page) (chunkId searchText : string) :
  let r := highlightText api p chunkId searchText in
  activeHighlightId (snd r)
  = (if isActive p chunkId then None else activeHighlightId p)
  /\ scrolls (snd r) = scrolls p
  /\ (if fst r
      then exists ranges,
             highlightedChunks (snd r)
             = <[chunkId := ranges]> (delete chunkId (highlightedChunks p))
      else highlightedChunks (snd r) = delete chunkId (highlightedChunks p)).
Proof.
  destruct (removeHighlight_registry p chunkId) as (Hc & Ha & Hd & Hs).
  unfold highlightText.
  set (p1 := removeHighlight api p chunkId) in *.
  destruct api eqn:Hapi; cbn [negb].
  - destruct (injectHighlightStyles_same p1) as (Hc2 & Ha2 & _ & Hs2 & _).
    set (p2 := injectHighlightStyles p1) in *.
    destruct (length (findTextRanges (document p2) searchText) =? 0)%nat.
    + cbn [fst snd]. rewrite Ha2, Ha, Hs2, Hs, Hc2, Hc. auto.
    + cbn [fst snd].
      destruct (updateHighlights_same
                  (withChunks p2
                     (<[chunkId := findTextRanges (document p2) searchText]>
                        (highlightedChunks p2))))
        as (Hc3 & Ha3 & _ & Hs3).
      rewrite Hapi in Hc3, Ha3, Hs3. rewrite Ha3, Hs3, Hc3. simpl.
      rewrite Ha2, Ha, Hs2, Hs, Hc2, Hc. eauto.
  - destruct (highlightTextFallback_registry p1 chunkId searchText)
      as (Ha2 & _ & Hs2 & Hr).
    cbv zeta in Ha2, Hs2, Hr. rewrite Ha2, Hs2, Ha, Hs.
    split; [reflexivity|]. split; [reflexivity|].
    destruct (fst (highlightTextFallback p1 chunkId searchText)).
    + destruct Hr as [ranges Hr]. exists ranges. now rewrite Hr, Hc.
    + now rewrite Hr, Hc.
Qed.

End RegistryFacts.

Section RegistryClaims.
Import JsString Dom Highlighter Samples.

(** C1, as stated, fails: a failing call removes the entry that the id had.
    After [highlightText('chunk-1', 'hello world')] on [<p>Hello world</p>]
    the count is 1; [highlightText('chunk-1', 'nonexistent text')] then
    returns [false] and the count is 0. *)
Lemma highlightText_failure_counterexample :
  let p := snd (highlightText true (initialPage ∅ helloWorld)
                  "chunk-1" "hello world") in
  let r := highlightText true p "chunk-1" "nonexistent text" in
  findTextRanges (document p) "nonexistent text" = []
  /\ fst r = false
  /\ getHighlightCount p = 1
  /\ getHighlightCount (snd r) = 0
  /\ highlightedChunks (snd r) <> highlightedChunks p.
Proof.
  intros p r.
  assert (E1 : getHighlightCount p = 1) by (vm_compute; reflexivity).
  assert (E2 : getHighlightCount (snd r) = 0) by (vm_compute; reflexivity).
  split; [vm_compute; reflexivity|]. split; [vm_compute; reflexivity|].
  split; [exact E1|]. split; [exact E2|].
  intros E. unfold getHighlightCount in E1, E2. rewrite E in E2. lia.
Qed.

(** C1, amended: when the location algorithm finds no match in the live
    document (with the Highlight API: also when the normalized search text
    is shorter than 3 characters), [highlightText(id, text)] returns
    [false] and leaves the registry as [removeHighlight(id)] leaves it: no
    entry is added and the entries of the other ids are untouched, but the
    entry of [id] is removed and the active id is cleared when it is [id].
    When [id] has no entry and is not the active id, the entries, the
    active id and [getHighlightCount()] are unchanged. *)
Theorem highlightText_failure_removes_only :
  forall (api : bool) (p : Page) (chunkId searchText : string),
    (api = true /\ len (normalizeText searchText) < 3)
    \/ locates api (document p) searchText = false ->
    let r := highlightText api p chunkId searchText in
    fst r = false
    /\ highlightedChunks (snd r)
       = highlightedChunks (removeHighlight api p chunkId)
    /\ activeHighlightId (snd r)
       = activeHighlightId (removeHighlight api p chunkId)
    /\ highlightedChunks (snd r) !! chunkId = None
    /\ (forall other : string,
          other <> chunkId ->
          highlightedChunks (snd r) !! other = highlightedChunks p !! other)
    /\ (highlightedChunks p !! chunkId = None ->
        activeHighlightId p <> Some chunkId ->
        highlightedChunks (snd r) = highlightedChunks p
        /\ activeHighlightId (snd r) = activeHighlightId p
        /\ getHighlightCount (snd r) = getHighlightCount p).
Proof.
  intros api p chunkId searchText Hfail r.
  destruct (removeHighlight_registry api p chunkId) as (Hc & Ha & Hd & _).
  assert (Hr : fst r = false
               /\ highlightedChunks (snd r)
                  = highlightedChunks (removeHighlight api p chunkId)
               /\ activeHighlightId (snd r)
                  = activeHighlightId (removeHighlight api p chunkId)).
  { subst r. unfold highlightText.
    set (p1 := removeHighlight api p chunkId) in *.
    destruct api; cbn [negb].
    - destruct (injectHighlightStyles_same p1) as (Hc2 & Ha2 & _ & _ & Hf).
      rewrite (findTextRanges_flattened _ _ searchText Hf), Hd.
      assert (E : findTextRanges (document p) searchText = []).
      { destruct Hfail as [[_ Hshort] | Hnone].
        - now apply findTextRanges_short.
        - unfold locates in Hnone. apply negb_false_iff in Hnone.
          apply Nat.eqb_eq in Hnone.
          now destruct (findTextRanges (document p) searchText). }
      rewrite E. cbn. auto.
    - destruct Hfail as [[Habs _] | Hnone]; [discriminate|].
      unfold locates in Hnone. rewrite <- Hd in Hnone.
      rewrite highlightTextFallback_none; [cbn; auto|].
      now destruct (findRangeForText (document p1) (normalizeText searchText)). }
  destruct Hr as (Hf & Hrc & Hra).
  split; [exact Hf|]. split; [exact Hrc|]. split; [exact Hra|].
  rewrite Hrc, Hra, Hc, Ha. split; [apply lookup_delete_eq|].
  split; [intros other Hne; now apply lookup_delete_ne|].
  intros Hnone Hact.
  assert (Hi : isActive p chunkId = false).
  { destruct (isActive p chunkId) eqn:E; [|reflexivity].
    apply isActive_true in E. contradiction. }
  rewrite Hi. unfold getHighlightCount. rewrite Hrc, Hc.
  rewrite (delete_id _ _ Hnone). auto.
Qed.

Lemma highlightText_failure_removes_only_witness :
  let p := snd (highlightText true (initialPage ∅ helloWorld)
                  "chunk-1" "hello world") in
  let r := highlightText true p "chunk-2" "nonexistent text" in
  ((true = true /\ len (normalizeText "nonexistent text") < 3)
   \/ locates true (document p) "nonexistent text" = false)
  /\ fst r = false
  /\ highlightedChunks p !! "chunk-2" = None
  /\ activeHighlightId p <> Some "chunk-2"
  /\ getHighlightCount (snd r) = getHighlightCount p.
Proof.
  intros p r.
  assert (H : (true = true /\ len (normalizeText "nonexistent text") < 3)
              \/ locates true (document p) "nonexistent text" = false)
    by (right; vm_compute; reflexivity).
  assert (H1 : highlightedChunks p !! "chunk-2" = None)
    by (vm_compute; reflexivity).
  assert (H2 : activeHighlightId p <> Some "chunk-2")
    by (vm_compute; discriminate).
  pose proof (highlightText_failure_removes_only true p "chunk-2"
                "nonexistent text" H) as (Hf & _ & _ & _ & _ & Hsame).
  split; [exact H|]. split; [exact Hf|]. split; [exact H1|].
  split; [exact H2|]. exact (proj2 (proj2 (Hsame H1 H2))).
Defined.

(** Without the Highlight API the floor of 3 characters is not applied:
    [highlightText('chunk-1', 'ab')] on [<p>ab</p>] returns [true]. *)
Lemma highlightText_fallback_short_text :
  let d := page [Elem (element 3 "P") [Text 4 "ab"]] in
  len (normalizeText "ab") < 3
  /\ fst (highlightText false (initialPage ∅ d) "chunk-1" "ab") = true
  /\ fst (highlightText true (initialPage ∅ d) "chunk-1" "ab") = false.
Proof. intros d. repeat split; vm_compute; reflexivity. Qed.

Lemma filter_all {A} (f : A -> bool) (l : list A) :
  (forall x, In x l -> f x = true) -> List.filter f l = l.
Proof.
  induction l as [|x l IH]; intros H; [reflexivity|]. simpl.
  rewrite (H x (or_introl eq_refl)), IH; [reflexivity|].
  intros y Hy. apply H. now right.
Qed.

Lemma filter_none {A} (f : A -> bool) (l : list A) :
  (forall x, In x l -> f x = false) -> List.filter f l = [].
Proof.
  induction l as [|x l IH]; intros H; [reflexivity|]. simpl.
  rewrite (H x (or_introl eq_refl)). apply IH.
  intros y Hy. apply H. now right.
Qed.

(** With the Highlight API, when the active id has no entry, nothing is
    rendered active and the normal highlight holds every range. *)
Lemma updateHighlights_dangling (p : Page) (chunkId : string) :
  activeHighlightId p = Some chunkId ->
  highlightedChunks p !! chunkId = None ->
  highlights (updateHighlights true p) !! ACTIVE_HIGHLIGHT_NAME = None
  /\ highlights (updateHighlights true p) !! HIGHLIGHT_NAME
     = (if (0 <? length (allRanges p))%nat then Some (allRanges p) else None).
Proof.
  intros Ha Hnone. unfold updateHighlights, allRanges. cbn [negb].
  assert (Hkeys : forall kv, In kv (map_to_list (highlightedChunks p)) ->
                             isActive p (fst kv) = false).
  { intros [k v] Hin. simpl. destruct (isActive p k) eqn:E; [|reflexivity].
    apply isActive_true in E. rewrite Ha in E. injection E as <-.
    apply list_elem_of_In, elem_of_map_to_list in Hin. congruence. }
  rewrite (filter_none (fun kv => isActive p (fst kv))) by exact Hkeys.
  rewrite (filter_all (fun kv => negb (isActive p (fst kv))))
    by (intros kv Hin; now rewrite (Hkeys kv Hin)).
  cbn [flat_map length Nat.ltb Nat.leb highlights withHighlights].
  assert (Hne : HIGHLIGHT_NAME <> ACTIVE_HIGHLIGHT_NAME) by discriminate.
  destruct (length (flat_map snd (map_to_list (highlightedChunks p)))).
  - rewrite lookup_delete_eq.
    rewrite lookup_delete_ne by (intros E; now apply Hne).
    rewrite lookup_delete_eq. auto.
  - rewrite lookup_insert_ne by exact Hne.
    rewrite lookup_delete_eq, lookup_insert_eq. auto.
Qed.

(** C2, as stated, fails: [setActiveHighlight] on an id without entry
    moves the active id to it and demotes the entry that was active.  On
    two highlighted paragraphs with 'chunk-1' active, the call on
    'non-existent' leaves no range rendered active. *)
Lemma setActiveHighlight_unknown_counterexample :
  let p0 := initialPage ∅ twoParagraphs in
  let p1 := snd (highlightText true p0 "chunk-1" "first test content") in
  let p2 := snd (highlightText true p1 "chunk-2" "second test content") in
  let p := setActiveHighlight true p2 "chunk-1" in
  let p' := setActiveHighlight true p "non-existent" in
  highlightedChunks p !! "non-existent" = None
  /\ activeHighlightId p = Some "chunk-1"
  /\ activeHighlightId p' = Some "non-existent"
  /\ highlights p !! ACTIVE_HIGHLIGHT_NAME
     = Some [ {| startContainer := 4; startOffset := 0;
                 endContainer := 4; endOffset := 18 |} ]
  /\ highlights p' !! ACTIVE_HIGHLIGHT_NAME = None
  /\ p' <> p.
Proof.
  intros p0 p1 p2 p p'.
  assert (E : activeHighlightId p = Some "chunk-1") by (vm_compute; reflexivity).
  assert (E' : activeHighlightId p' = Some "non-existent")
    by (vm_compute; reflexivity).
  split; [vm_compute; reflexivity|]. split; [exact E|]. split; [exact E'|].
  split; [vm_compute; reflexivity|]. split; [vm_compute; reflexivity|].
  intros H. apply (f_equal activeHighlightId) in H.
  rewrite E, E' in H. discriminate.
Qed.

(** C2, amended: for an id that has no entry in the registry,
    [setActiveHighlight(id)] does not throw, leaves the entries of the
    registry and the document as they are and scrolls nothing; but it sets
    the active id to [id], and with the Highlight API it renders again: no
    range is rendered active, and the normal highlight holds the ranges of
    every entry, also of the entry that was active.  Without the Highlight
    API nothing is rendered again. *)
Theorem setActiveHighlight_unknown_id :
  forall (api : bool) (p : Page) (chunkId : string),
    highlightedChunks p !! chunkId = None ->
    let p' := setActiveHighlight api p chunkId in
    highlightedChunks p' = highlightedChunks p
    /\ activeHighlightId p' = Some chunkId
    /\ document p' = document p
    /\ scrolls p' = scrolls p
    /\ (if api
        then highlights p' !! ACTIVE_HIGHLIGHT_NAME = None
             /\ highlights p' !! HIGHLIGHT_NAME
                = (if (0 <? length (allRanges p))%nat
                   then Some (allRanges p) else None)
        else highlights p' = highlights p).
Proof.
  intros api p chunkId Hnone p'. subst p'. unfold setActiveHighlight.
  destruct (updateHighlights_same api (withActive p (Some chunkId)))
    as (Hc & Ha & Hd & Hs).
  rewrite Hc. cbn [highlightedChunks withActive]. rewrite Hnone.
  rewrite Hc, Ha, Hd, Hs. cbn [highlightedChunks activeHighlightId document
                                 scrolls withActive].
  repeat (split; [reflexivity|]).
  destruct api; [|reflexivity].
  apply (updateHighlights_dangling (withActive p (Some chunkId)) chunkId);
    [reflexivity | exact Hnone].
Qed.

Lemma setActiveHighlight_unknown_id_witness :
  let p0 := initialPage ∅ twoParagraphs in
  let p1 := snd (highlightText true p0 "chunk-1" "first test content") in
  let p := setActiveHighlight true p1 "chunk-1" in
  let p' := setActiveHighlight true p "non-existent" in
  highlightedChunks p !! "non-existent" = None
  /\ (highlightedChunks p' = highlightedChunks p
      /\ activeHighlightId p' = Some "non-existent"
      /\ document p' = document p
      /\ scrolls p' = scrolls p
      /\ highlights p' !! ACTIVE_HIGHLIGHT_NAME = None
         /\ highlights p' !! HIGHLIGHT_NAME
            = (if (0 <? length (allRanges p))%nat
               then Some (allRanges p) else None)).
Proof.
  intros p0 p1 p p'.
  assert (H : highlightedChunks p !! "non-existent" = None)
    by (vm_compute; reflexivity).
  split; [exact H|].
  exact (setActiveHighlight_unknown_id true p "non-existent" H).
Defined.

(** C3, as stated, fails: from the empty registry, one call of
    [setActiveHighlight] on any id leaves an active id without entry. *)
Lemma active_id_dangles_counterexample :
  let p := runAll true (initialPage ∅ helloWorld)
             [SetActiveHighlight "chunk-9"] in
  activeHighlightId p = Some "chunk-9"
  /\ highlightedChunks p !! "chunk-9" = None
  /\ ~ activeHasEntry p.
Proof.
  intros p.
  assert (E1 : activeHighlightId p = Some "chunk-9") by (vm_compute; reflexivity).
  assert (E2 : highlightedChunks p !! "chunk-9" = None)
    by (vm_compute; reflexivity).
  split; [exact E1|]. split; [exact E2|].
  intros H. destruct (H "chunk-9" E1) as [x Hx]. rewrite E2 in Hx. discriminate.
Qed.

Lemma run_keeps_activeHasEntry (api : bool) (p : Page) (c : Call) :
  match c with
  | SetActiveHighlight chunkId => is_Some (highlightedChunks p !! chunkId)
  | _ => True
  end ->
  activeHasEntry p -> activeHasEntry (run api p c).
Proof.
  intros Hknown Hinv. unfold activeHasEntry in *.
  destruct c as [chunkId searchText | chunkId | chunkId | | d];
    cbn [run]; intros a Hact.
  - (* highlightText *)
    destruct (highlightText_registry api p chunkId searchText)
      as (Ha & _ & Hc).
    cbv zeta in Ha, Hc. rewrite Ha in Hact.
    destruct (isActive p chunkId) eqn:Hi; [discriminate|].
    assert (Hne : chunkId <> a).
    { intros ->. apply isActive_true in Hact. congruence. }
    destruct (fst (highlightText api p chunkId searchText)).
    + destruct Hc as [ranges ->].
      rewrite lookup_insert_ne, lookup_delete_ne by exact Hne. now apply Hinv.
    + rewrite Hc, lookup_delete_ne by exact Hne. now apply Hinv.
  - (* removeHighlight *)
    destruct (removeHighlight_registry api p chunkId) as (Hc & Ha & _).
    rewrite Ha in Hact. rewrite Hc.
    destruct (isActive p chunkId) eqn:Hi; [discriminate|].
    assert (Hne : chunkId <> a).
    { intros ->. apply isActive_true in Hact. congruence. }
    rewrite lookup_delete_ne by exact Hne. now apply Hinv.
  - (* setActiveHighlight, on an id that has an entry *)
    unfold setActiveHighlight in *.
    destruct (updateHighlights_same api (withActive p (Some chunkId)))
      as (Hc & Ha & _).
    assert (E : activeHighlightId (setActiveHighlight api p chunkId)
                = Some chunkId
                /\ highlightedChunks (setActiveHighlight api p chunkId)
                   = highlightedChunks p).
    { unfold setActiveHighlight. rewrite Hc.
      cbn [highlightedChunks withActive].
      destruct (highlightedChunks p !! chunkId) as [[|range ?]|];
        [| destruct (parentElement _ _) |]; cbn; rewrite ?Ha, ?Hc; auto. }
    unfold setActiveHighlight in E. destruct E as [Ea Ec].
    rewrite Ea in Hact. injection Hact as <-. rewrite Ec. exact Hknown.
  - (* clearAllHighlights *)
    unfold clearAllHighlights in Hact. destruct api; discriminate.
  - (* the page changes its document *)
    now apply Hinv.
Qed.

(** C3, amended: in every state reached from the empty registry by a
    sequence of calls of [highlightText], [removeHighlight],
    [clearAllHighlights], and of [setActiveHighlight] on ids that have an
    entry at the time of the call, the active id, when it is set, has an
    entry in the registry. *)
Theorem active_id_has_entry :
  forall (api : bool) (h : gmap string (list Range)) (d : Document)
         (calls : list Call),
    activatesKnown api (initialPage h d) calls ->
    activeHasEntry (runAll api (initialPage h d) calls).
Proof.
  intros api h d calls.
  assert (H0 : activeHasEntry (initialPage h d)) by (intros a; discriminate).
  revert H0. generalize (initialPage h d) as p.
  induction calls as [|c calls IH]; intros p Hinv Hknown; [exact Hinv|].
  destruct Hknown as [Hc Hrest]. cbn [runAll fold_left].
  apply IH; [|exact Hrest]. now apply run_keeps_activeHasEntry.
Qed.

Lemma active_id_has_entry_witness :
  let calls := [ HighlightText "chunk-1" "hello world";
                 SetActiveHighlight "chunk-1";
                 HighlightText "chunk-2" "nonexistent text" ] in
  activatesKnown true (initialPage ∅ helloWorld) calls
  /\ activeHighlightId (runAll true (initialPage ∅ helloWorld) calls)
     = Some "chunk-1"
  /\ activeHasEntry (runAll true (initialPage ∅ helloWorld) calls).
Proof.
  intros calls.
  assert (H : activatesKnown true (initialPage ∅ helloWorld) calls).
  { cbn [calls activatesKnown]. split; [exact I|]. split; [|split; exact I].
    vm_compute. eexists. reflexivity. }
  split; [exact H|]. split; [vm_compute; reflexivity|].
  exact (active_id_has_entry true ∅ helloWorld calls H).
Defined.

End RegistryClaims.

(** ** Binary64 numbers *)

Section FloatFacts.

Lemma digits2_pos_bounds (m : positive) :
  2 ^ (Zpos (digits2_pos m) - 1) <= Zpos m < 2 ^ Zpos (digits2_pos m).
Proof.
  induction m as [m IH | m IH |]; cbn [digits2_pos].
  - rewrite Pos2Z.inj_succ.
    replace (Z.succ (Zpos (digits2_pos m)) - 1)
      with (Z.succ (Zpos (digits2_pos m) - 1)) by lia.
    rewrite !Z.pow_succ_r by lia. lia.
  - rewrite Pos2Z.inj_succ.
    replace (Z.succ (Zpos (digits2_pos m)) - 1)
      with (Z.succ (Zpos (digits2_pos m) - 1)) by lia.
    rewrite !Z.pow_succ_r by lia. lia.
  - simpl. lia.
Qed.

(** One shift to the right halves the mantissa. *)
Lemma shr_1_lower (mrs : shr_record) (k : Z) :
  0 <= k -> 2 ^ (k + 1) <= shr_m mrs -> 2 ^ k <= shr_m (shr_1 mrs).
Proof.
  intros Hk. destruct mrs as [m r s]. cbn [shr_m].
  rewrite Z.pow_add_r by lia. change (2 ^ 1) with 2.
  pose proof (Z.pow_pos_nonneg 2 k ltac:(lia) Hk).
  destruct m as [|[p|p|]|p]; cbn [shr_1 shr_m]; lia.
Qed.

Lemma iter_shr_1_lower (n : positive) :
  forall (mrs : shr_record) (k : Z),
    0 <= k -> 2 ^ (Zpos n + k) <= shr_m mrs ->
    2 ^ k <= shr_m (SpecFloat.iter_pos shr_1 n mrs).
Proof.
  induction n as [n IH | n IH |]; intros mrs k Hk H; cbn [SpecFloat.iter_pos].
  - apply IH; [lia|]. apply IH; [lia|]. apply shr_1_lower; [lia|].
    replace (Zpos n + (Zpos n + k) + 1) with (Zpos n~1 + k) by lia. exact H.
  - apply IH; [lia|]. apply IH; [lia|].
    replace (Zpos n + (Zpos n + k)) with (Zpos n~0 + k) by lia. exact H.
  - apply shr_1_lower; [lia|]. now rewrite Z.add_comm.
Qed.

Lemma shr_m_of_loc (m : Z) (l : location) : shr_m (shr_record_of_loc m l) = m.
Proof. destruct l as [|[]]; reflexivity. Qed.

(** The least exponent of binary64, [3 - emax - prec]. *)
Local Abbreviation emin64 := (-1074).

(** Above the least exponent, rounding to the format keeps a positive
    mantissa positive. *)
Lemma shr_fexp_positive (m e : Z) (l : location) :
  0 < m -> emin64 <= e ->
  0 < shr_m (fst (shr_fexp prec emax m e l))
  /\ emin64 <= snd (shr_fexp prec emax m e l).
Proof.
  intros Hm He. unfold shr_fexp, shr.
  destruct m as [|p|p]; try lia. cbn [Zdigits2].
  pose proof (digits2_pos_bounds p) as [Hlo _].
  set (D := Zpos (digits2_pos p)) in *.
  unfold fexp, SpecFloat.emin, prec, emax.
  destruct (Z.max (D + e - 53) (3 - 1024 - 53) - e) as [|n|n] eqn:En;
    cbn [fst snd]; rewrite ?shr_m_of_loc; try (split; lia).
  assert (Hn : Zpos n = D - 53) by lia.
  split; [|lia].
  assert (2 ^ 0 <= shr_m (SpecFloat.iter_pos shr_1 n (shr_record_of_loc (Zpos p) l))).
  { apply iter_shr_1_lower; [lia|]. rewrite shr_m_of_loc.
    etransitivity; [|exact Hlo]. apply Z.pow_le_mono_r; lia. }
  simpl in H. lia.
Qed.

Lemma round_nearest_even_positive (m : Z) (l : location) :
  0 < m -> 0 < round_nearest_even m l.
Proof.
  intros H. destruct l as [|[]]; cbn [round_nearest_even]; try lia.
  destruct (Z.even m); lia.
Qed.

Lemma binary_round_aux_sign (s : bool) (m e : Z) (l : location) :
  0 < m -> emin64 <= e -> hasSign s (binary_round_aux prec emax s m e l).
Proof.
  intros Hm He. unfold binary_round_aux.
  pose proof (shr_fexp_positive m e l Hm He) as [H1 H2].
  destruct (shr_fexp prec emax m e l) as [mrs' e'] eqn:E1. cbn [fst snd] in *.
  pose proof (round_nearest_even_positive (shr_m mrs') (loc_of_shr_record mrs') H1) as Hr.
  pose proof (shr_fexp_positive _ e' loc_Exact Hr H2) as [H3 _].
  destruct (shr_fexp prec emax _ e' loc_Exact) as [mrs'' e''] eqn:E2.
  cbn [fst] in H3.
  destruct (shr_m mrs'') as [|q|q]; try lia.
  destruct (e'' <=? emax - prec); reflexivity.
Qed.

Lemma binary_round_sign (s : bool) (m : positive) (e : Z) :
  emin64 <= e -> hasSign s (binary_round prec emax s m e).
Proof.
  intros He. unfold binary_round.
  destruct (shl_align m e _) as [mz ez] eqn:E.
  apply binary_round_aux_sign; [lia|].
  unfold shl_align in E.
  destruct (fexp prec emax (Zpos (digits2_pos m) + e) - e) as [|d|d] eqn:Ed;
    inversion E; subst; try lia.
  unfold fexp, SpecFloat.emin, prec, emax. lia.
Qed.


Lemma pos_iter_xO (m d : positive) :
  Zpos (Pos.iter xO m d) = Zpos m * 2 ^ Zpos d.
Proof.
  induction d as [|d IH] using Pos.peano_ind.
  - simpl. lia.
  - rewrite Pos.iter_succ, Pos2Z.inj_succ, Z.pow_succ_r by lia.
    rewrite Pos2Z.inj_xO, IH. lia.
Qed.

Lemma shl_align_value (m : positive) (e e' : Z) :
  e' <= e -> Zpos (fst (shl_align m e e')) = Zpos m * 2 ^ (e - e').
Proof.
  intros H. unfold shl_align.
  destruct (e' - e) as [|d|d] eqn:E; cbn [fst]; try lia.
  - replace (e - e') with 0 by lia. lia.
  - rewrite pos_iter_xO. f_equal. f_equal. lia.
Qed.

(** A mantissa of the format has at most 53 bits, and exactly 53 above the
    least exponent. *)
Lemma bounded_canonical (m : positive) (e : Z) :
  bounded prec emax m e = true ->
  emin64 <= e
  /\ Zpos m < 2 ^ 53
  /\ (emin64 < e -> 2 ^ 52 <= Zpos m).
Proof.
  unfold bounded, canonical_mantissa, fexp, SpecFloat.emin, prec, emax.
  intros H. apply andb_true_iff in H as [H _]. apply Z.eqb_eq in H.
  pose proof (digits2_pos_bounds m) as [Hlo Hhi].
  set (D := Zpos (digits2_pos m)) in *.
  assert (HD : D <= 53) by lia.
  split; [lia|]. split.
  - eapply Z.lt_le_trans; [exact Hhi|]. apply Z.pow_le_mono_r; lia.
  - intros He. assert (D = 53) by lia.
    replace (D - 1) with 52 in Hlo by lia. exact Hlo.
Qed.

Lemma SFltb_zero_normalize (d e : Z) :
  emin64 <= e ->
  SFltb (S754_zero false) (binary_normalize prec emax d e false) = (0 <? d).
Proof.
  intros He. destruct d as [|m|m]; cbn [binary_normalize]; [reflexivity| |].
  - pose proof (binary_round_sign false m e He) as H.
    destruct (binary_round prec emax false m e) as [| s | | s ? ?];
      cbn in H; try contradiction; subst; reflexivity.
  - pose proof (binary_round_sign true m e He) as H.
    destruct (binary_round prec emax true m e) as [| s | | s ? ?];
      cbn in H; try contradiction; subst; reflexivity.
Qed.

(** The difference of two numbers of the format is positive exactly when
    the first is the greater one: no difference is rounded to zero. *)
Lemma SFsub_finite_positive (sx : bool) (mx : positive) (ex : Z)
    (sy : bool) (my : positive) (ey : Z) :
  bounded prec emax mx ex = true -> bounded prec emax my ey = true ->
  SFltb (S754_zero false)
    (SFsub prec emax (S754_finite sx mx ex) (S754_finite sy my ey))
  = SFltb (S754_finite sy my ey) (S754_finite sx mx ex).
Proof.
  intros Hx Hy.
  apply bounded_canonical in Hx as (Hex & Hxhi & Hxlo).
  apply bounded_canonical in Hy as (Hey & Hyhi & Hylo).
  cbn [SFsub]. cbv zeta.
  rewrite SFltb_zero_normalize by lia.
  rewrite (shl_align_value mx ex (Z.min ex ey)) by lia.
  rewrite (shl_align_value my ey (Z.min ex ey)) by lia.
  assert (Hpow : forall k, 1 <= k -> 2 <= 2 ^ k).
  { intros k Hk. change 2 with (2 ^ 1) at 1. apply Z.pow_le_mono_r; lia. }
  unfold SFltb, SFcompare, cond_Zopp.
  destruct (Z.compare_spec ey ex) as [E | E | E].
  - subst ey. rewrite Z.min_id, Z.sub_diag. change (2 ^ 0) with 1.
    rewrite !Z.mul_1_r, Pos.compare_cont_spec. cbn [Pos.switch_Eq].
    destruct sx, sy; destruct (Pos.compare_spec my mx); cbn; lia.
  - rewrite Z.min_r, Z.sub_diag by lia. change (2 ^ 0) with 1.
    rewrite Z.mul_1_r.
    pose proof (Hpow (ex - ey) ltac:(lia)). specialize (Hxlo ltac:(lia)).
    change (2 ^ 53) with 9007199254740992 in *.
    change (2 ^ 52) with 4503599627370496 in *.
    destruct sx, sy; cbn; nia.
  - rewrite Z.min_l, Z.sub_diag by lia. change (2 ^ 0) with 1.
    rewrite Z.mul_1_r.
    pose proof (Hpow (ey - ex) ltac:(lia)). specialize (Hylo ltac:(lia)).
    change (2 ^ 53) with 9007199254740992 in *.
    change (2 ^ 52) with 4503599627370496 in *.
    destruct sx, sy; cbn; nia.
Qed.

Lemma SFsub_positive (x y : spec_float) :
  valid_binary x = true -> valid_binary y = true ->
  SFltb (S754_zero false) (SF64sub x y) = SFltb y x.
Proof.
  intros Hx Hy. unfold SF64sub.
  destruct x as [sx | sx | | sx mx ex], y as [sy | sy | | sy my ey];
    try (now apply SFsub_finite_positive);
    try (destruct sx; reflexivity);
    try (destruct sy; reflexivity);
    try (destruct sx, sy; reflexivity);
    reflexivity.
Qed.

(** [b - a] is positive exactly when [a < b]. *)
Lemma sub_positive (a b : float) : (0 <? b - a)%float = (a <? b)%float.
Proof.
  rewrite !FloatAxioms.ltb_spec, FloatAxioms.sub_spec.
  change (Prim2SF 0) with (S754_zero false).
  apply SFsub_positive; apply Prim2SF_valid.
Qed.

Lemma SFcompare_antisym (x y : spec_float) :
  SFcompare y x = option_map CompOpp (SFcompare x y).
Proof.
  destruct x as [sx | sx | | sx mx ex], y as [sy | sy | | sy my ey];
    try reflexivity;
    try (destruct sx; reflexivity);
    try (destruct sy; reflexivity);
    try (destruct sx, sy; reflexivity).
  cbn [SFcompare option_map].
  rewrite (Z.compare_antisym ex ey), !Pos.compare_cont_spec.
  cbn [Pos.switch_Eq]. rewrite (Pos.compare_antisym mx my).
  destruct sx, sy, (ex ?= ey), (mx ?= my)%positive; reflexivity.
Qed.

Lemma ltb_leb (a b : float) : (a <? b)%float = true -> (a <=? b)%float = true.
Proof.
  rewrite FloatAxioms.ltb_spec, FloatAxioms.leb_spec. unfold SFltb, SFleb.
  destruct (SFcompare _ _) as [[]|]; congruence.
Qed.

Lemma SFleb_not_nan (t x : spec_float) :
  SFleb t x = true -> x <> S754_nan.
Proof.
  intros H ->. unfold SFleb in H. destruct t; discriminate.
Qed.

Lemma SFcompare_defined (x y : spec_float) :
  x <> S754_nan -> y <> S754_nan -> exists c, SFcompare x y = Some c.
Proof.
  intros Hx Hy.
  destruct x as [sx | sx | | sx mx ex], y as [sy | sy | | sy my ey];
    try congruence; cbn [SFcompare]; eauto.
Qed.

(** Two numbers that are not below a third are comparable. *)
Lemma not_ltb_leb (t a b : float) :
  (t <=? a)%float = true -> (t <=? b)%float = true ->
  (a <? b)%float = false -> (b <=? a)%float = true.
Proof.
  rewrite FloatAxioms.ltb_spec, !FloatAxioms.leb_spec. intros Ha Hb.
  apply SFleb_not_nan in Ha, Hb.
  destruct (SFcompare_defined _ _ Ha Hb) as [c Hc].
  unfold SFltb, SFleb.
  rewrite (SFcompare_antisym (Prim2SF a) (Prim2SF b)), Hc.
  destruct c; cbn; congruence.
Qed.

Lemma eqb_not_ltb (a b : float) :
  (a =? b)%float = true -> (b <? a)%float = false.
Proof.
  rewrite FloatAxioms.eqb_spec, FloatAxioms.ltb_spec. unfold SFeqb, SFltb.
  rewrite (SFcompare_antisym (Prim2SF a) (Prim2SF b)).
  destruct (SFcompare _ _) as [[]|]; cbn; congruence.
Qed.

(** A number that equals zero is one of the two zeros. *)
Lemma eqb_zero (x : float) :
  (x =? 0)%float = true -> x = 0%float \/ x = (-0)%float.
Proof.
  rewrite FloatAxioms.eqb_spec. change (Prim2SF 0) with (S754_zero false).
  intros H. rewrite <- (SF2Prim_Prim2SF x).
  destruct (Prim2SF x) as [s | s | | s m e]; cbn in H;
    try discriminate; try (destruct s; discriminate).
  destruct s; [right | left]; reflexivity.
Qed.

End FloatFacts.

(** ** cosineSimilarity *)

Section SimilarityFacts.
Import Similarity.
Local Open Scope float_scope.

Lemma square_zero (x : float) : isZero x -> x * x = 0.
Proof. intros H. destruct (eqb_zero x H) as [-> | ->]; reflexivity. Qed.

Lemma cosineSimilarity_returns (a b : list float) :
  length a = length b -> exists s, cosineSimilarity a b = Returns s.
Proof.
  intros H. unfold cosineSimilarity.
  rewrite (proj2 (Nat.eqb_eq _ _) H). cbn [negb].
  destruct (sums a b (0, 0, 0)) as [[dotProduct normA] normB].
  destruct ((sqrt normA =? 0) || (sqrt normB =? 0)); eauto.
Qed.

(** The loop computes the two sums of squares. *)
Lemma sums_squares (a : list float) :
  forall (b : list float) (dotProduct normA normB : float),
    length a = length b ->
    snd (fst (sums a b (dotProduct, normA, normB))) = squaresFrom normA a
    /\ snd (sums a b (dotProduct, normA, normB)) = squaresFrom normB b.
Proof.
  induction a as [|x a IH]; intros [|y b] dotProduct normA normB Hlen;
    try discriminate; [split; reflexivity|].
  cbn [sums squaresFrom]. apply IH. now injection Hlen.
Qed.

Lemma squaresFrom_zero (v : list float) :
  Forall isZero v -> squaresFrom 0 v = 0.
Proof.
  induction 1 as [|x v Hx _ IH]; [reflexivity|]. cbn [squaresFrom].
  rewrite (square_zero x Hx). exact IH.
Qed.

Lemma cosineSimilarity_zero_norm (a b : list float) :
  length a = length b ->
  (norm a =? 0) = true \/ (norm b =? 0) = true ->
  cosineSimilarity a b = Returns 0.
Proof.
  intros Hlen Hzero. unfold cosineSimilarity.
  rewrite (proj2 (Nat.eqb_eq _ _) Hlen). cbn [negb].
  destruct (sums_squares a b 0 0 0 Hlen) as [Ea Eb].
  destruct (sums a b (0, 0, 0)) as [[dotProduct normA] normB].
  cbn [fst snd] in Ea, Eb. subst normA normB. fold (norm a) (norm b).
  destruct Hzero as [-> | ->]; [reflexivity | now rewrite orb_true_r].
Qed.

(** C9: [cosineSimilarity(a, b)] throws the length-mismatch error exactly
    when [a.length != b.length]; and for vectors of one length, when the
    norm of [a] or of [b] is 0, as it is when every component is zero, it
    returns exactly 0, and divides nothing by zero. *)
Theorem cosineSimilarity_mismatch_and_zero :
  forall a b : list float,
    ((exists message, cosineSimilarity a b = Throws message)
     <-> length a <> length b)
    /\ (length a <> length b ->
        cosineSimilarity a b = Throws "Vectors must have the same length")
    /\ (length a = length b ->
        (norm a =? 0) = true \/ (norm b =? 0) = true ->
        cosineSimilarity a b = Returns 0)
    /\ (length a = length b ->
        Forall isZero a \/ Forall isZero b ->
        cosineSimilarity a b = Returns 0).
Proof.
  intros a b.
  assert (Hthrow : length a <> length b ->
                   cosineSimilarity a b
                   = Throws "Vectors must have the same length").
  { intros H. unfold cosineSimilarity.
    now rewrite (proj2 (Nat.eqb_neq _ _) H). }
  split; [|split; [exact Hthrow|split]].
  - split; [|eauto]. intros [message E] H.
    destruct (cosineSimilarity_returns a b H) as [s Hs]. congruence.
  - apply cosineSimilarity_zero_norm.
  - intros Hlen Hzero. apply cosineSimilarity_zero_norm; [exact Hlen|].
    unfold norm.
    destruct Hzero as [H | H]; [left | right];
      now rewrite (squaresFrom_zero _ H).
Qed.

Lemma cosineSimilarity_mismatch_and_zero_witness :
  length [1; 2; 3] <> length [1; 2]
  /\ cosineSimilarity [1; 2; 3] [1; 2]
     = Throws "Vectors must have the same length"
  /\ length [1; 2; 3] = length [0; -0; 0]
  /\ (Forall isZero [1; 2; 3] \/ Forall isZero [0; -0; 0])
  /\ cosineSimilarity [1; 2; 3] [0; -0; 0] = Returns 0.
Proof.
  assert (H1 : length [1; 2; 3] <> length [1; 2]) by discriminate.
  assert (H2 : length [1; 2; 3] = length [0; -0; 0]) by reflexivity.
  assert (H3 : Forall isZero [1; 2; 3] \/ Forall isZero [0; -0; 0])
    by (right; repeat constructor).
  split; [exact H1|]. split.
  - exact (proj1 (proj2 (cosineSimilarity_mismatch_and_zero [1; 2; 3] [1; 2]))
             H1).
  - split; [exact H2|]. split; [exact H3|].
    exact (proj2 (proj2 (proj2 (cosineSimilarity_mismatch_and_zero
                                  [1; 2; 3] [0; -0; 0]))) H2 H3).
Defined.

End SimilarityFacts.

(** ** findTopKSimilar *)

Section RankingFacts.
Import Similarity.

Lemma In_insertSorted {A} (compare : A -> A -> float) (x y : A) (l : list A) :
  In y (insertSorted compare x l) <-> y = x \/ In y l.
Proof.
  induction l as [|z l IH]; cbn [insertSorted].
  - simpl. intuition.
  - destruct (0 <? compare x z)%float; simpl; rewrite ?IH; intuition.
Qed.

Lemma Forall_insertSorted {A} (P : A -> Prop) (compare : A -> A -> float)
    (x : A) (l : list A) :
  P x -> Forall P l -> Forall P (insertSorted compare x l).
Proof.
  intros Hx Hl. apply List.Forall_forall. intros y Hy.
  apply In_insertSorted in Hy as [-> | Hy]; [assumption|].
  now apply (proj1 (List.Forall_forall P l) Hl).
Qed.

Lemma Forall_sort {A} (P : A -> Prop) (compare : A -> A -> float) (l : list A) :
  Forall P l -> Forall P (sort compare l).
Proof.
  induction 1 as [|x l Hx _ IH]; [constructor|].
  cbn [sort fold_right]. now apply Forall_insertSorted.
Qed.

Lemma length_insertSorted {A} (compare : A -> A -> float) (x : A) (l : list A) :
  length (insertSorted compare x l) = S (length l).
Proof.
  induction l as [|z l IH]; [reflexivity|]. cbn [insertSorted].
  destruct (0 <? compare x z)%float; simpl; now rewrite ?IH.
Qed.

Lemma length_sort {A} (compare : A -> A -> float) (l : list A) :
  length (sort compare l) = length l.
Proof.
  induction l as [|x l IH]; [reflexivity|]. unfold sort in *.
  cbn [fold_right]. rewrite length_insertSorted, IH. reflexivity.
Qed.

Lemma StronglySorted_filter {A} (R : A -> A -> Prop) (f : A -> bool)
    (l : list A) :
  StronglySorted R l -> StronglySorted R (List.filter f l).
Proof.
  induction 1 as [|x l _ IH Hx]; [constructor|]. simpl.
  destruct (f x); [|assumption]. constructor; [assumption|].
  apply List.Forall_forall. intros y Hy. apply filter_In in Hy as [Hy _].
  now apply (proj1 (List.Forall_forall _ l) Hx).
Qed.

Lemma StronglySorted_firstn {A} (R : A -> A -> Prop) (n : nat) (l : list A) :
  StronglySorted R l -> StronglySorted R (firstn n l).
Proof.
  intros H. revert n. induction H as [|x l _ IH Hx]; intros n.
  - rewrite firstn_nil. constructor.
  - destruct n as [|n]; [constructor|]. cbn [firstn].
    constructor; [apply IH|].
    apply List.Forall_forall. intros y Hy.
    apply (proj1 (List.Forall_forall _ l) Hx).
    rewrite <- (firstn_skipn n l). apply in_or_app. now left.
Qed.

Lemma StronglySorted_nth {A} (R : A -> A -> Prop) (l : list A) :
  StronglySorted R l ->
  forall (i j : nat) (a b : A),
    (i < j)%nat -> nth_error l i = Some a -> nth_error l j = Some b -> R a b.
Proof.
  induction 1 as [|x l _ IH Hx]; intros i j a b Hij Ha Hb.
  - destruct i; discriminate.
  - destruct j as [|j]; [lia|]. cbn [nth_error] in Hb.
    destruct i as [|i].
    + injection Ha as <-. apply (proj1 (List.Forall_forall _ l) Hx).
      eapply nth_error_In. exact Hb.
    + apply (IH i j); [lia | exact Ha | exact Hb].
Qed.

Lemma Sorted_firstn {A} (R : A -> A -> Prop) (n : nat) (l : list A) :
  Sorted R l -> Sorted R (firstn n l).
Proof.
  intros H. revert n. induction H as [|x l _ IH Hx]; intros n.
  - rewrite firstn_nil. constructor.
  - destruct n as [|n]; [constructor|]. cbn [firstn].
    constructor; [apply IH|].
    destruct Hx as [|y l Hy]; [rewrite firstn_nil; constructor|].
    destruct n; constructor. exact Hy.
Qed.

Lemma Sorted_adjacent {A} (R : A -> A -> Prop) (l : list A) :
  Sorted R l ->
  forall (i : nat) (a b : A),
    nth_error l i = Some a -> nth_error l (S i) = Some b -> R a b.
Proof.
  induction 1 as [|x l _ IH Hx]; intros i a b Ha Hb.
  - destruct i; discriminate.
  - destruct i as [|i].
    + injection Ha as <-. cbn [nth_error] in Hb.
      destruct Hx as [|y l Hy]; [discriminate|]. now injection Hb as <-.
    + apply (IH i); assumption.
Qed.

Lemma scoresFrom_indices (queryEmbedding : list float)
    (chunks : list (list float)) :
  forall (i : Z) (scores : list Scored),
    scoresFrom i queryEmbedding chunks = Returns scores ->
    StronglySorted byIndex scores
    /\ Forall (fun a => i <= index a) scores
    /\ length scores = length chunks.
Proof.
  induction chunks as [|embedding rest IH]; intros i scores E.
  - injection E as <-. repeat constructor.
  - cbn [scoresFrom] in E.
    destruct (cosineSimilarity queryEmbedding embedding) as [s|]; [|discriminate].
    destruct (scoresFrom (i + 1) queryEmbedding rest) as [l|] eqn:El;
      [|discriminate].
    injection E as <-. destruct (IH (i + 1) l El) as (Hs & Hi & Hl).
    split; [|split].
    + constructor; [assumption|].
      eapply Forall_impl; [exact Hi|]. unfold byIndex. simpl. intros; lia.
    + constructor; [simpl; lia|].
      eapply Forall_impl; [exact Hi|]. simpl. intros; lia.
    + simpl. now f_equal.
Qed.

Lemma scoresFrom_returns (queryEmbedding : list float)
    (chunks : list (list float)) :
  Forall (fun embedding => length embedding = length queryEmbedding) chunks ->
  forall i : Z, exists scores, scoresFrom i queryEmbedding chunks = Returns scores.
Proof.
  induction 1 as [|embedding rest He _ IH]; intros i; [now exists []|].
  cbn [scoresFrom].
  destruct (cosineSimilarity_returns queryEmbedding embedding (eq_sym He))
    as [s ->].
  destruct (IH (i + 1)) as [l ->]. eauto.
Qed.

Lemma insertSorted_ties (x : Scored) (l : list Scored) :
  Forall (byIndex x) l ->
  StronglySorted tiesByIndex l ->
  StronglySorted tiesByIndex (insertSorted byScore x l).
Proof.
  intros Hx Hl. induction Hl as [|y l Hl IH Hy]; cbn [insertSorted].
  - repeat constructor.
  - inversion Hx as [|? ? Hxy Hxl]; subst.
    destruct (0 <? byScore x y)%float eqn:E.
    + constructor; [now apply IH|].
      apply Forall_insertSorted; [|assumption].
      intros Htie. unfold byScore in E. rewrite sub_positive in E.
      rewrite (eqb_not_ltb _ _ Htie) in E. discriminate.
    + constructor; [now constructor|].
      eapply Forall_impl; [exact Hx|]. intros z Hz _. exact Hz.
Qed.

Lemma sort_ties (l : list Scored) :
  StronglySorted byIndex l -> StronglySorted tiesByIndex (sort byScore l).
Proof.
  induction 1 as [|x l _ IH Hx]; [constructor|].
  cbn [sort fold_right]. apply insertSorted_ties; [|exact IH].
  now apply Forall_sort.
Qed.

Lemma insertSorted_descending (threshold : float) (x : Scored)
    (l : list Scored) :
  atLeast threshold x -> Forall (atLeast threshold) l ->
  Sorted descending l -> Sorted descending (insertSorted byScore x l).
Proof.
  intros Hx Hl Hs. induction Hs as [|y l Hs IH Hy]; cbn [insertSorted].
  - repeat constructor.
  - inversion Hl as [|? ? Hty Htl]; subst.
    destruct (0 <? byScore x y)%float eqn:E;
      unfold byScore in E; rewrite sub_positive in E.
    + constructor; [now apply IH|].
      destruct Hy as [|z l Hyz]; cbn [insertSorted].
      * constructor. now apply ltb_leb.
      * destruct (0 <? byScore x z)%float; constructor;
          [exact Hyz | now apply ltb_leb].
    + constructor; [now constructor|]. constructor.
      now apply (not_ltb_leb threshold).
Qed.

Lemma sort_descending (threshold : float) (l : list Scored) :
  Forall (atLeast threshold) l -> Sorted descending (sort byScore l).
Proof.
  induction 1 as [|x l Hx Hl IH]; [constructor|].
  cbn [sort fold_right].
  apply (insertSorted_descending threshold); [assumption| |assumption].
  now apply Forall_sort.
Qed.

Lemma slice0_firstn {A} (k : Z) (l : list A) :
  exists n : nat, slice0 k l = firstn n l.
Proof. unfold slice0. eauto. Qed.

Lemma length_slice0 {A} (k : Z) (l : list A) :
  0 <= k -> Z.of_nat (length (slice0 k l)) <= k.
Proof.
  intros Hk. unfold slice0. rewrite (proj2 (Z.ltb_ge _ _) Hk).
  rewrite length_firstn. lia.
Qed.

Lemma Forall_firstn {A} (P : A -> Prop) (n : nat) (l : list A) :
  Forall P l -> Forall P (firstn n l).
Proof.
  intros H. apply List.Forall_forall. intros y Hy.
  apply (proj1 (List.Forall_forall P l) H).
  rewrite <- (firstn_skipn n l). apply in_or_app. now left.
Qed.

End RankingFacts.

Section RankingClaims.
Import Similarity.

(** C6: two entries of the result of [findTopKSimilar] that have equal
    scores come in the ascending order of their chunk indices. *)
Theorem findTopKSimilar_ties_keep_index_order :
  forall (queryEmbedding : list float) (chunks : list (list float))
         (k : Z) (threshold : float) (out : list Scored),
    findTopKSimilar queryEmbedding chunks k threshold = Returns out ->
    forall (i j : nat) (a b : Scored),
      (i < j)%nat ->
      nth_error out i = Some a -> nth_error out j = Some b ->
      (score a =? score b)%float = true ->
      index a < index b.
Proof.
  intros q chunks k threshold out E i j a b Hij Ha Hb.
  unfold findTopKSimilar in E.
  destruct (scoresFrom 0 q chunks) as [scores|] eqn:Es; [|discriminate].
  injection E as <-.
  destruct (scoresFrom_indices q chunks 0 scores Es) as (Hs & _ & _).
  destruct (slice0_firstn k
              (sort byScore
                 (List.filter (fun item => (threshold <=? score item)%float)
                    scores))) as [n En].
  rewrite En in Ha, Hb.
  apply (StronglySorted_nth tiesByIndex _
           (StronglySorted_firstn _ n _
              (sort_ties _ (StronglySorted_filter _ _ _ Hs)))
           i j a b Hij Ha Hb).
Qed.

Lemma findTopKSimilar_ties_keep_index_order_witness :
  let out := [ {| index := 1; score := 1 |}; {| index := 2; score := 1 |};
               {| index := 0; score := 0 |}; {| index := 3; score := 0 |} ]%float in
  findTopKSimilar [1; 0; 0]%float
    [[0; 1; 0]; [1; 0; 0]; [2; 0; 0]; [0; 3; 0]]%float 10 0%float
  = Returns out
  /\ (0 < 1)%nat
  /\ nth_error out 0 = Some {| index := 1; score := 1 |}
  /\ nth_error out 1 = Some {| index := 2; score := 1 |}
  /\ (1 =? 1)%float = true
  /\ 1 < 2.
Proof.
  intros out.
  assert (E : findTopKSimilar [1; 0; 0]%float
                [[0; 1; 0]; [1; 0; 0]; [2; 0; 0]; [0; 3; 0]]%float 10 0%float
              = Returns out) by (vm_compute; reflexivity).
  assert (Hij : (0 < 1)%nat) by lia.
  assert (Ha : nth_error out 0 = Some {| index := 1; score := 1 |})
    by reflexivity.
  assert (Hb : nth_error out 1 = Some {| index := 2; score := 1 |})
    by reflexivity.
  assert (Ht : (1 =? 1)%float = true) by reflexivity.
  split; [exact E|]. split; [exact Hij|]. split; [exact Ha|].
  split; [exact Hb|]. split; [exact Ht|].
  exact (findTopKSimilar_ties_keep_index_order _ _ _ _ _ E 0%nat 1%nat
           _ _ Hij Ha Hb Ht).
Defined.

(** C8.  For a query, chunks whose embeddings all have the length of the
    query, a threshold and a count [k] (the number of entries asked for,
    [0 <= k]), [findTopKSimilar] returns, without an error, entries whose
    scores are all [>= threshold] and do not increase along the result, at
    most [k] of them; no chunk, or no score that passes the threshold,
    gives the empty list. *)
Theorem findTopKSimilar_thresholded_sorted_capped :
  forall (queryEmbedding : list float) (chunks : list (list float))
         (k : Z) (threshold : float),
    Forall (fun embedding => length embedding = length queryEmbedding) chunks ->
    0 <= k ->
    exists scores out : list Scored,
      scoresFrom 0 queryEmbedding chunks = Returns scores
      /\ findTopKSimilar queryEmbedding chunks k threshold = Returns out
      /\ Forall (fun item => (threshold <=? score item)%float = true) out
      /\ (forall (i : nat) (a b : Scored),
             nth_error out i = Some a -> nth_error out (S i) = Some b ->
             (score b <=? score a)%float = true)
      /\ Z.of_nat (length out) <= k
      /\ (chunks = [] -> out = [])
      /\ (List.filter (fun item => (threshold <=? score item)%float) scores = []
          -> out = []).
Proof.
  intros q chunks k threshold Hlen Hk.
  destruct (scoresFrom_returns q chunks Hlen 0) as [scores Es].
  unfold findTopKSimilar. rewrite Es.
  set (kept := List.filter (fun item => (threshold <=? score item)%float) scores).
  exists scores, (slice0 k (sort byScore kept)).
  assert (Hkept : Forall (atLeast threshold) kept).
  { apply List.Forall_forall. intros item Hin.
    now apply filter_In in Hin as [_ Hin]. }
  destruct (slice0_firstn k (sort byScore kept)) as [n En].
  split; [reflexivity|]. split; [reflexivity|]. split; [|split; [|split]].
  - rewrite En. now apply Forall_firstn, Forall_sort.
  - rewrite En. apply (Sorted_adjacent descending).
    apply Sorted_firstn. now apply (sort_descending threshold).
  - now apply length_slice0.
  - split.
    + intros ->. injection Es as <-. subst kept. rewrite En.
      simpl. now rewrite firstn_nil.
    + intros E. rewrite En. unfold kept. rewrite E. simpl.
      now rewrite firstn_nil.
Qed.

Lemma findTopKSimilar_thresholded_sorted_capped_witness :
  let chunks := [[1; 0; 0]; [0; 1; 0]; [1; 1; 0]; [-1; 0; 0]]%float in
  Forall (fun embedding => length embedding = length [1; 0; 0]%float) chunks
  /\ 0 <= 2
  /\ exists scores out : list Scored,
       scoresFrom 0 [1; 0; 0]%float chunks = Returns scores
       /\ findTopKSimilar [1; 0; 0]%float chunks 2 0.5%float = Returns out
       /\ Forall (fun item => (0.5 <=? score item)%float = true) out
       /\ (forall (i : nat) (a b : Scored),
              nth_error out i = Some a -> nth_error out (S i) = Some b ->
              (score b <=? score a)%float = true)
       /\ Z.of_nat (length out) <= 2
       /\ (chunks = [] -> out = [])
       /\ (List.filter (fun item => (0.5 <=? score item)%float) scores = []
           -> out = []).
Proof.
  intros chunks.
  assert (H1 : Forall (fun embedding =>
                         length embedding = length [1; 0; 0]%float) chunks)
    by (repeat constructor).
  assert (H2 : 0 <= 2) by lia.
  split; [exact H1|]. split; [exact H2|].
  exact (findTopKSimilar_thresholded_sorted_capped
           [1; 0; 0]%float chunks 2 0.5%float H1 H2).
Defined.

End RankingClaims.

(** ** The cases of the test suites, on the embedding *)

Section TestCases.
Import JsString Dom Types TextChunker Similarity Highlighter Samples.

(** The tests of [chunkText]: a single text node gives one chunk with
    its text. *)
Example test_chunkText_single_node :
  map Types.text
    (chunkText (fun _ => 1700000000000) 0
       [ {| tn_text := "Single text node"; tn_node := 1;
            tn_startOffset := 0 |} ] 200)
  = ["Single text node"].
Proof. reflexivity. Qed.

(** The tests of [chunkText]: texts that exceed the target size are
    split into several chunks, between the fragments. *)
Example test_chunkText_splits_long_texts :
  map Types.text
    (chunkText (fun _ => 1700000000000) 0
       [ {| tn_text := "This is a very long text"; tn_node := 1;
            tn_startOffset := 0 |};
         {| tn_text := "that should be split into multiple chunks";
            tn_node := 2; tn_startOffset := 25 |};
         {| tn_text := "because it exceeds the target size"; tn_node := 3;
            tn_startOffset := 67 |};
         {| tn_text := "significantly and needs processing"; tn_node := 4;
            tn_startOffset := 102 |} ] 50)
  = [ "This is a very long text";
      "that should be split into multiple chunks";
      "because it exceeds the target size";
      "significantly and needs processing" ].
Proof. reflexivity. Qed.

(** The tests of [findTopKSimilar]: the three best of five chunks. *)
Example test_findTopKSimilar_top3 :
  exists s2 s3 : float,
    findTopKSimilar [1; 0; 0]%float
      [[1; 0; 0]; [0; 1; 0]; [0.5; 0.5; 0]; [0.25; 0.75; 0]; [-1; 0; 0]]%float
      3 0%float
    = Returns [ {| index := 0; score := 1 |}; {| index := 2; score := s2 |};
                {| index := 3; score := s3 |} ].
Proof. eexists. eexists. vm_compute. reflexivity. Qed.

(** The tests of [findTopKSimilar]: a query orthogonal to every chunk,
    with the threshold 0.5, gives no result. *)
Example test_findTopKSimilar_orthogonal :
  findTopKSimilar [0; 0; 1]%float
    [[1; 0; 0]; [0; 1; 0]; [0.5; 0.5; 0]; [-1; 0; 0]]%float 3 0.5%float
  = Returns [].
Proof. vm_compute. reflexivity. Qed.

(** tests/highlighter.test.ts: a phrase of the paragraph is highlighted,
    with either backend, and the count becomes 1. *)
Example test_highlightText_match :
  let d := page [Elem (element 3 "P")
                   [Text 4 "This is a test paragraph with some content"]] in
  forall api : bool,
    fst (highlightText api (initialPage ∅ d) "chunk-1" "test paragraph with")
    = true
    /\ getHighlightCount
         (snd (highlightText api (initialPage ∅ d) "chunk-1"
                 "test paragraph with")) = 1.
Proof. intros d [|]; split; vm_compute; reflexivity. Qed.

(** tests/highlighter.test.ts: after [clearAllHighlights] no span is left
    and the count is 0. *)
Example test_clearAllHighlights :
  let p1 := snd (highlightText false (initialPage ∅ twoParagraphs)
                   "chunk-1" "first test content") in
  let p2 := snd (highlightText false p1 "chunk-2" "second test content") in
  getHighlightCount p2 = 2
  /\ getHighlightCount (clearAllHighlights false p2) = 0
  /\ anyElement (hasClass "semantic-find-highlight")
       (documentElement (document p2)) = true
  /\ anyElement (hasClass "semantic-find-highlight")
       (documentElement (document (clearAllHighlights false p2))) = false.
Proof. intros p1 p2. repeat split; vm_compute; reflexivity. Qed.

End TestCases.

(** ** More on binary64 numbers: products and the order of the scores *)

Section FloatOrderFacts.

Lemma SFmul_comm (x y : spec_float) :
  SFmul prec emax x y = SFmul prec emax y x.
Proof.
  destruct x as [sx | sx | | sx mx ex], y as [sy | sy | | sy my ey];
    cbn [SFmul]; try reflexivity; try (rewrite xorb_comm; reflexivity).
  rewrite xorb_comm, Pos.mul_comm, Z.add_comm. reflexivity.
Qed.

Lemma mul_comm (a b : float) : (a * b = b * a)%float.
Proof.
  rewrite <- (SF2Prim_Prim2SF (a * b)), <- (SF2Prim_Prim2SF (b * a)).
  rewrite !FloatAxioms.mul_spec, SFmul_comm. reflexivity.
Qed.

Lemma SFleb_trans (x y z : spec_float) :
  SFleb x y = true -> SFleb y z = true -> SFleb x z = true.
Proof.
  unfold SFleb.
  destruct x as [sx | sx | | sx mx ex], y as [sy | sy | | sy my ey],
    z as [sz | sz | | sz mz ez];
    repeat match goal with s : bool |- _ => destruct s end;
    cbn [SFcompare]; try reflexivity; try discriminate.
  all: destruct (Z.compare_spec ex ey), (Z.compare_spec ey ez),
         (Z.compare_spec ex ez); try lia; try reflexivity; try discriminate;
       subst;
       repeat match goal with
         | |- context [PosDef.Pos.compare_cont Eq ?a ?b] =>
             change (PosDef.Pos.compare_cont Eq a b) with (Pos.compare a b)
         end;
       destruct (Pos.compare_spec mx my), (Pos.compare_spec my mz),
         (Pos.compare_spec mx mz); try lia; try reflexivity; try discriminate.
Qed.

Lemma leb_trans (a b c : float) :
  (a <=? b)%float = true -> (b <=? c)%float = true -> (a <=? c)%float = true.
Proof. rewrite !FloatAxioms.leb_spec. apply SFleb_trans. Qed.

End FloatOrderFacts.

(** ** cosineSimilarity and findTopKSimilar: errors, entries and the top *)

Section SimilarityMore.
Import Similarity.
Local Open Scope float_scope.

Lemma sums_swap (a : list float) :
  forall (b : list float) (d na nb : float),
    sums b a (d, nb, na) =
    let '(d', na', nb') := sums a b (d, na, nb) in (d', nb', na').
Proof.
  induction a as [|x a IH]; intros [|y b] d na nb; try reflexivity.
  cbn [sums]. rewrite (mul_comm y x). apply IH.
Qed.

(** X1.  [cosineSimilarity(a, b)] and [cosineSimilarity(b, a)] are the same
    call: they throw together, and they return the same number, bit for
    bit. *)
Theorem cosineSimilarity_symmetric (a b : list float) :
  cosineSimilarity a b = cosineSimilarity b a.
Proof.
  unfold cosineSimilarity.
  rewrite (Nat.eqb_sym (length b) (length a)).
  destruct (negb (length a =? length b)%nat); [reflexivity|].
  rewrite (sums_swap a b 0 0 0).
  destruct (sums a b (0, 0, 0)) as [[d na] nb].
  rewrite (orb_comm (sqrt nb =? 0)), (mul_comm (sqrt nb)). reflexivity.
Qed.

Lemma cosineSimilarity_throws (a b : list float) (m : string) :
  cosineSimilarity a b = Throws m ->
  length a <> length b /\ m = "Vectors must have the same length"%string.
Proof.
  unfold cosineSimilarity.
  destruct (length a =? length b)%nat eqn:E; cbn [negb].
  - destruct (sums a b (0, 0, 0)) as [[d na] nb].
    destruct (_ || _); discriminate.
  - apply Nat.eqb_neq in E. intros [= <-]. now split.
Qed.

Lemma cosineSimilarity_mismatch (a b : list float) :
  length a <> length b ->
  cosineSimilarity a b = Throws "Vectors must have the same length".
Proof.
  intros H. unfold cosineSimilarity.
  now rewrite (proj2 (Nat.eqb_neq _ _) H).
Qed.

Lemma scoresFrom_throws (queryEmbedding : list float)
    (chunks : list (list float)) :
  Exists (fun e => length e <> length queryEmbedding) chunks ->
  forall i : Z,
    scoresFrom i queryEmbedding chunks =
    Throws "Vectors must have the same length".
Proof.
  induction 1 as [e rest H | e rest _ IH]; intros i; cbn [scoresFrom].
  - rewrite cosineSimilarity_mismatch by congruence. reflexivity.
  - destruct (cosineSimilarity queryEmbedding e) as [s | m] eqn:E.
    + now rewrite IH.
    + now apply cosineSimilarity_throws in E as [_ ->].
Qed.

(** X2.  [findTopKSimilar] throws exactly when some chunk's embedding has
    another length than the query's, whatever [k] and the threshold are,
    and then with the message of [cosineSimilarity]; otherwise it
    returns. *)
Theorem findTopKSimilar_throws_iff_mismatch (queryEmbedding : list float)
    (chunks : list (list float)) (k : Z) (threshold : float) :
  (Exists (fun e => length e <> length queryEmbedding) chunks <->
   findTopKSimilar queryEmbedding chunks k threshold =
   Throws "Vectors must have the same length")
  /\ (Forall (fun e => length e = length queryEmbedding) chunks <->
      exists out, findTopKSimilar queryEmbedding chunks k threshold =
                  Returns out).
Proof.
  assert (Hdec : Exists (fun e => length e <> length queryEmbedding) chunks
                 \/ Forall (fun e => length e = length queryEmbedding) chunks).
  { induction chunks as [|e rest [IH | IH]].
    - right. constructor.
    - left. now apply Exists_cons_tl.
    - destruct (Nat.eq_dec (length e) (length queryEmbedding)) as [E | E].
      + right. now constructor.
      + left. now apply Exists_cons_hd. }
  assert (Hthrows :
            Exists (fun e => length e <> length queryEmbedding) chunks ->
            findTopKSimilar queryEmbedding chunks k threshold =
            Throws "Vectors must have the same length").
  { intros H. unfold findTopKSimilar. now rewrite scoresFrom_throws. }
  assert (Hreturns :
            Forall (fun e => length e = length queryEmbedding) chunks ->
            exists out, findTopKSimilar queryEmbedding chunks k threshold =
                        Returns out).
  { intros H. unfold findTopKSimilar.
    destruct (scoresFrom_returns queryEmbedding chunks H 0) as [scores ->].
    eexists. reflexivity. }
  split; split; auto.
  - intros E. destruct Hdec as [H | H]; [exact H|].
    destruct (Hreturns H) as [out E']. congruence.
  - intros [out E]. destruct Hdec as [H | H]; [|exact H].
    rewrite (Hthrows H) in E. discriminate.
Qed.

End SimilarityMore.

Section RankingMore.
Import Similarity.
Local Open Scope float_scope.

Lemma Forall_filter_list {A} (P : A -> Prop) (f : A -> bool) (l : list A) :
  Forall P l -> Forall P (List.filter f l).
Proof.
  intros H. apply List.Forall_forall. intros x Hin.
  apply filter_In in Hin as [Hin _].
  now apply (proj1 (List.Forall_forall P l) H).
Qed.

Lemma In_sort {A} (compare : A -> A -> float) (x : A) (l : list A) :
  In x (sort compare l) <-> In x l.
Proof.
  induction l as [|y l IH]; [reflexivity|].
  unfold sort in *. cbn [fold_right]. rewrite In_insertSorted. cbn [In].
  rewrite IH. intuition congruence.
Qed.

Lemma Permutation_insertSorted {A} (compare : A -> A -> float) (x : A)
    (l : list A) :
  Permutation (insertSorted compare x l) (x :: l).
Proof.
  induction l as [|y l IH]; cbn [insertSorted]; [reflexivity|].
  destruct (0 <? compare x y); [|reflexivity].
  rewrite IH. apply perm_swap.
Qed.

Lemma Permutation_sort {A} (compare : A -> A -> float) (l : list A) :
  Permutation (sort compare l) l.
Proof.
  induction l as [|y l IH]; [reflexivity|].
  unfold sort in *. cbn [fold_right].
  rewrite Permutation_insertSorted. now apply perm_skip.
Qed.

Lemma NoDup_firstn_list {A} (n : nat) (l : list A) :
  List.NoDup l -> List.NoDup (firstn n l).
Proof.
  intros H. rewrite <- (firstn_skipn n l) in H.
  now apply NoDup_app_remove_r in H.
Qed.

Lemma StronglySorted_app_inv {A} (R : A -> A -> Prop) (l1 l2 : list A) :
  StronglySorted R (l1 ++ l2) ->
  forall a b : A, In a l1 -> In b l2 -> R a b.
Proof.
  induction l1 as [|x l1 IH]; intros H a b Ha Hb; [destruct Ha|].
  cbn [app] in H. apply StronglySorted_inv in H as [H Hx].
  destruct Ha as [<- | Ha].
  - apply (proj1 (List.Forall_forall _ _) Hx). apply in_or_app. now right.
  - now apply IH.
Qed.

Lemma byIndex_NoDup (l : list Scored) :
  StronglySorted byIndex l -> List.NoDup (map index l).
Proof.
  induction 1 as [|x l _ IH Hx]; cbn [map]; constructor; [|exact IH].
  intros Hin. apply in_map_iff in Hin as (y & E & Hy).
  apply (proj1 (List.Forall_forall _ _) Hx) in Hy. unfold byIndex in Hy. lia.
Qed.

(** The entry of a chunk in [scores]: its position and its similarity. *)
Lemma scoresFrom_entries (queryEmbedding : list float)
    (chunks : list (list float)) :
  forall (i : Z) (scores : list Scored),
    scoresFrom i queryEmbedding chunks = Returns scores ->
    Forall (fun item =>
              (i <= index item)%Z
              /\ exists e,
                   nth_error chunks (Z.to_nat (index item - i)) = Some e
                   /\ cosineSimilarity queryEmbedding e
                      = Returns (score item)) scores.
Proof.
  induction chunks as [|e rest IH]; intros i scores H; cbn [scoresFrom] in H.
  - injection H as <-. constructor.
  - destruct (cosineSimilarity queryEmbedding e) as [s | m] eqn:E;
      [|discriminate].
    destruct (scoresFrom (i + 1) queryEmbedding rest) as [l | m] eqn:El;
      [|discriminate].
    injection H as <-. constructor.
    + cbn [index score]. split; [lia|]. exists e.
      rewrite Z.sub_diag. now split.
    + specialize (IH _ _ El). eapply List.Forall_impl; [|exact IH].
      intros item (Hi & e' & Hn & Hc). split; [lia|]. exists e'.
      split; [|exact Hc].
      replace (Z.to_nat (index item - i))
        with (S (Z.to_nat (index item - (i + 1)))) by lia.
      exact Hn.
Qed.

Lemma scoresFrom_complete (queryEmbedding : list float)
    (chunks : list (list float)) :
  forall (i : Z) (scores : list Scored) (j : nat) (e : list float) (s : float),
    scoresFrom i queryEmbedding chunks = Returns scores ->
    nth_error chunks j = Some e ->
    cosineSimilarity queryEmbedding e = Returns s ->
    In {| index := i + Z.of_nat j; score := s |} scores.
Proof.
  induction chunks as [|e0 rest IH]; intros i scores j e s H Hn Hc;
    [destruct j; discriminate|].
  cbn [scoresFrom] in H.
  destruct (cosineSimilarity queryEmbedding e0) as [s0 | m] eqn:E;
    [|discriminate].
  destruct (scoresFrom (i + 1) queryEmbedding rest) as [l | m] eqn:El;
    [|discriminate].
  injection H as <-. destruct j as [|j]; cbn [nth_error] in Hn.
  - injection Hn as ->. left. rewrite Z.add_0_r. congruence.
  - right. specialize (IH _ _ _ _ _ El Hn Hc).
    replace (i + Z.of_nat (S j))%Z with (i + 1 + Z.of_nat j)%Z by lia.
    exact IH.
Qed.

Lemma descending_trans (a b c : Scored) :
  descending a b -> descending b c -> descending a c.
Proof. unfold descending. intros H1 H2. exact (leb_trans _ _ _ H2 H1). Qed.

Lemma sort_strongly_descending (threshold : float) (l : list Scored) :
  Forall (atLeast threshold) l -> StronglySorted descending (sort byScore l).
Proof.
  intros H. apply Sorted_StronglySorted.
  - intros a b c. apply descending_trans.
  - now apply (sort_descending threshold).
Qed.

(** X3.  Every entry that [findTopKSimilar] returns is the entry of a
    chunk: its index is a position of [chunks], its score is the
    similarity of the query and that chunk's embedding, and no chunk is
    returned twice. *)
Theorem findTopKSimilar_entries (queryEmbedding : list float)
    (chunks : list (list float)) (k : Z) (threshold : float)
    (out : list Scored) :
  findTopKSimilar queryEmbedding chunks k threshold = Returns out ->
  Forall (fun item =>
            (0 <= index item < Z.of_nat (length chunks))%Z
            /\ exists e,
                 nth_error chunks (Z.to_nat (index item)) = Some e
                 /\ cosineSimilarity queryEmbedding e = Returns (score item))
         out
  /\ List.NoDup (map index out).
Proof.
  unfold findTopKSimilar.
  destruct (scoresFrom 0 queryEmbedding chunks) as [scores | m] eqn:Es;
    [|discriminate].
  intros [= <-].
  destruct (slice0_firstn k
              (sort byScore
                 (List.filter (fun item => threshold <=? score item) scores)))
    as [n ->].
  split.
  - apply Forall_firstn, Forall_sort, Forall_filter_list.
    eapply List.Forall_impl; [|exact (scoresFrom_entries _ _ _ _ Es)].
    intros item (Hi & e & Hn & Hc). rewrite Z.sub_0_r in Hn. split; [|eauto].
    assert (Z.to_nat (index item) < length chunks)%nat
      by (apply nth_error_Some; congruence).
    lia.
  - rewrite <- firstn_map. apply NoDup_firstn_list.
    apply (Permutation_NoDup
             (l := map index
                     (List.filter (fun item => threshold <=? score item)
                        scores))).
    + apply Permutation_map, Permutation_sym, Permutation_sort.
    + apply byIndex_NoDup, StronglySorted_filter.
      now destruct (scoresFrom_indices _ _ _ _ Es) as [H _].
Qed.

Lemma findTopKSimilar_entries_witness :
  findTopKSimilar [1; 0; 0] [[1; 0; 0]; [0; 1; 0]; [1; 1; 0]] 2 0.5
  = Returns [ {| index := 0; score := 1 |};
              {| index := 2; score := 0x1.6a09e667f3bccp-1 |} ]
  /\ Forall (fun item =>
               (0 <= index item < 3)%Z
               /\ exists e,
                    nth_error [[1; 0; 0]; [0; 1; 0]; [1; 1; 0]]
                      (Z.to_nat (index item)) = Some e
                    /\ cosineSimilarity [1; 0; 0] e = Returns (score item))
            [ {| index := 0; score := 1 |};
              {| index := 2; score := 0x1.6a09e667f3bccp-1 |} ]
     /\ List.NoDup [0; 2]%Z.
Proof.
  assert (H : findTopKSimilar [1; 0; 0] [[1; 0; 0]; [0; 1; 0]; [1; 1; 0]]
                2 0.5
              = Returns [ {| index := 0; score := 1 |};
                          {| index := 2; score := 0x1.6a09e667f3bccp-1 |} ])
    by (vm_compute; reflexivity).
  split; [exact H|].
  exact (findTopKSimilar_entries _ _ _ _ _ H).
Defined.

(** X4.  The entries that [findTopKSimilar] returns are the best ones: a
    chunk that passes the threshold is returned, or else [k] entries were
    returned and each of them scores at least as much as that chunk. *)
Theorem findTopKSimilar_returns_the_best (queryEmbedding : list float)
    (chunks : list (list float)) (k : Z) (threshold : float)
    (out : list Scored) (j : nat) (e : list float) (s : float) :
  findTopKSimilar queryEmbedding chunks k threshold = Returns out ->
  nth_error chunks j = Some e ->
  cosineSimilarity queryEmbedding e = Returns s ->
  (threshold <=? s) = true ->
  In {| index := Z.of_nat j; score := s |} out
  \/ ((k <= Z.of_nat (length out))%Z
      /\ Forall (fun item => (s <=? score item) = true) out).
Proof.
  unfold findTopKSimilar.
  destruct (scoresFrom 0 queryEmbedding chunks) as [scores | m] eqn:Es;
    [|discriminate].
  intros [= <-] Hn Hc Hs.
  set (kept := List.filter (fun item => threshold <=? score item) scores).
  assert (Hkept : Forall (atLeast threshold) kept).
  { apply List.Forall_forall. intros item Hin.
    now apply filter_In in Hin as [_ Hin]. }
  assert (Hin : In {| index := Z.of_nat j; score := s |}
                  (sort byScore kept)).
  { apply In_sort, filter_In. split; [|exact Hs].
    exact (scoresFrom_complete _ _ _ _ _ _ _ Es Hn Hc). }
  pose proof (sort_strongly_descending threshold kept Hkept) as Hsorted.
  unfold slice0.
  set (n := Z.to_nat
              (if (k <? 0)%Z
               then Z.max (Z.of_nat (length (sort byScore kept)) + k) 0
               else Z.min k (Z.of_nat (length (sort byScore kept))))).
  rewrite <- (firstn_skipn n (sort byScore kept)) in Hin, Hsorted.
  apply in_app_or in Hin as [Hin | Hin]; [now left|]. right. split.
  - assert (n < length (sort byScore kept))%nat as Hlt.
    { destruct (Nat.lt_ge_cases n (length (sort byScore kept))) as [H | H];
        [exact H|].
      rewrite skipn_all2 in Hin by exact H. destruct Hin. }
    rewrite length_firstn. subst n.
    destruct (k <? 0)%Z eqn:Ek; lia.
  - apply List.Forall_forall. intros item Hitem.
    exact (StronglySorted_app_inv _ _ _ Hsorted _ _ Hitem Hin).
Qed.

Lemma findTopKSimilar_returns_the_best_witness :
  findTopKSimilar [1; 0; 0] [[1; 0; 0]; [1; 1; 0]; [1; 0; 0]] 2 0.5
  = Returns [ {| index := 0; score := 1 |}; {| index := 2; score := 1 |} ]
  /\ nth_error [[1; 0; 0]; [1; 1; 0]; [1; 0; 0]] 1 = Some [1; 1; 0]
  /\ cosineSimilarity [1; 0; 0] [1; 1; 0] = Returns 0x1.6a09e667f3bccp-1
  /\ (0.5 <=? 0x1.6a09e667f3bccp-1) = true
  /\ (In {| index := 1; score := 0x1.6a09e667f3bccp-1 |}
        [ {| index := 0; score := 1 |}; {| index := 2; score := 1 |} ]
      \/ ((2 <= 2)%Z
          /\ Forall (fun item => (0x1.6a09e667f3bccp-1 <=? score item) = true)
               [ {| index := 0; score := 1 |};
                 {| index := 2; score := 1 |} ])).
Proof.
  assert (H1 : findTopKSimilar [1; 0; 0] [[1; 0; 0]; [1; 1; 0]; [1; 0; 0]]
                 2 0.5
               = Returns [ {| index := 0; score := 1 |};
                           {| index := 2; score := 1 |} ])
    by (vm_compute; reflexivity).
  assert (H2 : nth_error [[1; 0; 0]; [1; 1; 0]; [1; 0; 0]] 1
               = Some [1; 1; 0]) by reflexivity.
  assert (H3 : cosineSimilarity [1; 0; 0] [1; 1; 0]
               = Returns 0x1.6a09e667f3bccp-1) by (vm_compute; reflexivity).
  assert (H4 : (0.5 <=? 0x1.6a09e667f3bccp-1) = true)
    by (vm_compute; reflexivity).
  split; [exact H1|]. split; [exact H2|]. split; [exact H3|].
  split; [exact H4|].
  exact (findTopKSimilar_returns_the_best _ _ _ _ _ 1%nat _ _ H1 H2 H3 H4).
Defined.

End RankingMore.

(** ** handleSearchQuery and handleGetEmbeddings *)

Section ServiceWorkerFacts.
Import Types Similarity Messages ServiceWorker.
Local Open Scope float_scope.

Lemma Forall2_filter_list {A B} (P : A -> B -> Prop) (f : A -> bool)
    (g : B -> bool) (l1 : list A) (l2 : list B) :
  (forall a b, P a b -> f a = g b) ->
  Forall2 P l1 l2 -> Forall2 P (List.filter f l1) (List.filter g l2).
Proof.
  intros Hfg. induction 1 as [|a b l1 l2 Hab _ IH]; cbn [List.filter];
    [constructor|].
  rewrite (Hfg a b Hab). destruct (g b); [constructor|]; assumption.
Qed.

Lemma Forall2_insertSorted {A B} (P : A -> B -> Prop)
    (c1 : A -> A -> float) (c2 : B -> B -> float) :
  (forall a b a' b', P a b -> P a' b' -> c1 a a' = c2 b b') ->
  forall (x : A) (y : B) (l1 : list A) (l2 : list B),
    P x y -> Forall2 P l1 l2 ->
    Forall2 P (insertSorted c1 x l1) (insertSorted c2 y l2).
Proof.
  intros Hc x y l1 l2 Hxy. induction 1 as [|a b l1 l2 Hab Hl IH];
    cbn [insertSorted]; [repeat constructor; assumption|].
  rewrite (Hc x y a b Hxy Hab).
  destruct (0 <? c2 y b); repeat constructor; assumption.
Qed.

Lemma Forall2_sort {A B} (P : A -> B -> Prop)
    (c1 : A -> A -> float) (c2 : B -> B -> float) (l1 : list A)
    (l2 : list B) :
  (forall a b a' b', P a b -> P a' b' -> c1 a a' = c2 b b') ->
  Forall2 P l1 l2 -> Forall2 P (sort c1 l1) (sort c2 l2).
Proof.
  intros Hc. induction 1 as [|a b l1 l2 Hab _ IH]; [constructor|].
  unfold sort in *. cbn [fold_right]. now apply Forall2_insertSorted.
Qed.

Lemma Forall2_same_length {A B} (P : A -> B -> Prop) (l1 : list A)
    (l2 : list B) :
  Forall2 P l1 l2 -> length l1 = length l2.
Proof. induction 1; cbn [length]; congruence. Qed.

Lemma Forall2_firstn {A B} (P : A -> B -> Prop) (n : nat) (l1 : list A)
    (l2 : list B) :
  Forall2 P l1 l2 -> Forall2 P (firstn n l1) (firstn n l2).
Proof.
  intros H. revert n. induction H as [|a b l1 l2 Hab _ IH]; intros [|n];
    cbn [firstn]; constructor; auto.
Qed.

Lemma Forall2_slice0 {A B} (P : A -> B -> Prop) (k : Z) (l1 : list A)
    (l2 : list B) :
  Forall2 P l1 l2 -> Forall2 P (slice0 k l1) (slice0 k l2).
Proof.
  intros H. unfold slice0. rewrite (Forall2_same_length P l1 l2 H).
  now apply Forall2_firstn.
Qed.

Lemma Forall2_nth_error_l {A B} (P : A -> B -> Prop) (l1 : list A)
    (l2 : list B) :
  Forall2 P l1 l2 ->
  forall (i : nat) (a : A),
    nth_error l1 i = Some a -> exists b, nth_error l2 i = Some b /\ P a b.
Proof.
  induction 1 as [|a0 b0 l1 l2 Hab _ IH]; intros [|i] a E;
    cbn [nth_error] in *; try discriminate.
  - injection E as <-. eauto.
  - now apply IH.
Qed.

Lemma Forall2_Forall_l {A B} (P : A -> B -> Prop) (Q : A -> Prop)
    (l1 : list A) (l2 : list B) :
  (forall a b, P a b -> Q a) -> Forall2 P l1 l2 -> Forall Q l1.
Proof. intros H. induction 1; constructor; eauto. Qed.

(** The scores of the chunks that have an embedding, beside the scores
    that [findTopKSimilar] computes for these embeddings. *)
Lemma scored_scoresFrom (queryEmbedding : list float)
    (l : list (TextChunk * list float)) :
  forall i : Z,
    match scoresFrom i queryEmbedding (map snd l) with
    | Throws m => scored queryEmbedding l = Throws m
    | Returns scores =>
        exists results,
          scored queryEmbedding l = Returns results
          /\ Forall2 (fun result item =>
                        (i <= index item)%Z
                        /\ nth_error (map fst l) (Z.to_nat (index item - i))
                           = Some (chunk result)
                        /\ Messages.score result = Similarity.score item
                        /\ highlighted result = false)
               results scores
    end.
Proof.
  induction l as [|[c e] l IH]; intros i; cbn [map snd scoresFrom scored].
  - exists []. split; [reflexivity | constructor].
  - destruct (cosineSimilarity queryEmbedding e) as [s | m]; [|reflexivity].
    specialize (IH (i + 1)%Z).
    destruct (scoresFrom (i + 1) queryEmbedding (map snd l)) as [scores | m].
    + destruct IH as (results & -> & H). eexists. split; [reflexivity|].
      constructor.
      * cbn [index chunk Messages.score Similarity.score highlighted fst].
        rewrite Z.sub_diag. repeat split. lia.
      * eapply Forall2_impl; [exact H|].
        intros result item (Hi & Hn & Hs & Hh). repeat split; try assumption;
          [lia|].
        replace (Z.to_nat (index item - i))
          with (S (Z.to_nat (index item - (i + 1)))) by lia.
        exact Hn.
    + now rewrite IH.
Qed.

Lemma rank_findTopKSimilar (queryEmbedding : list float)
    (settings : Settings) (chunks : list TextChunk) :
  match findTopKSimilar queryEmbedding (map snd (withEmbedding chunks)) 20
          (similarityThreshold settings) with
  | Throws m => rank queryEmbedding settings chunks = Throws m
  | Returns out =>
      exists results,
        rank queryEmbedding settings chunks = Returns results
        /\ Forall2 (ranked (map fst (withEmbedding chunks))) results out
  end.
Proof.
  unfold findTopKSimilar, rank.
  pose proof (scored_scoresFrom queryEmbedding (withEmbedding chunks) 0) as H.
  destruct (scoresFrom 0 queryEmbedding (map snd (withEmbedding chunks)))
    as [scores | m]; [|now rewrite H].
  destruct H as (results & -> & H). eexists. split; [reflexivity|].
  assert (H' : Forall2 (ranked (map fst (withEmbedding chunks)))
                 results scores).
  { eapply Forall2_impl; [exact H|].
    intros result item (_ & Hn & Hs & Hh). rewrite Z.sub_0_r in Hn.
    now repeat split. }
  apply Forall2_slice0, Forall2_sort.
  - intros a b a' b' (_ & Ha & _) (_ & Ha' & _).
    unfold ServiceWorker.byScore, Similarity.byScore. now rewrite Ha, Ha'.
  - apply Forall2_filter_list; [|exact H'].
    intros a b (_ & Ha & _). now rewrite Ha.
Qed.

Lemma withEmbedding_In (chunks : list TextChunk) (c : TextChunk)
    (e : list float) :
  In (c, e) (withEmbedding chunks) <-> In c chunks /\ embedding c = Some e.
Proof.
  induction chunks as [|c0 chunks IH]; cbn [withEmbedding In]; [tauto|].
  destruct (embedding c0) as [e0|] eqn:E; cbn [In]; rewrite IH; split.
  - intros [[= <- <-] | [H1 H2]]; auto.
  - intros [[<- | H1] H2]; [left | right]; auto; congruence.
  - intros [H1 H2]; auto.
  - intros [[<- | H1] H2]; auto; congruence.
Qed.

Lemma withEmbedding_mismatched (queryEmbedding : list float)
    (chunks : list TextChunk) :
  Exists (fun e => length e <> length queryEmbedding)
    (map snd (withEmbedding chunks))
  <-> Exists (mismatched queryEmbedding) chunks.
Proof.
  rewrite !List.Exists_exists. split.
  - intros (e & Hin & Hlen). apply in_map_iff in Hin as ([c e'] & <- & Hin).
    apply withEmbedding_In in Hin as [Hin E]. exists c. split; [exact Hin|].
    exists e'. now split.
  - intros (c & Hin & e & E & Hlen). exists e. split; [|exact Hlen].
    apply in_map_iff. exists (c, e). split; [reflexivity|].
    now apply withEmbedding_In.
Qed.

Lemma Forall_or_Exists_mismatch (queryEmbedding : list float)
    (l : list (list float)) :
  Forall (fun e => length e = length queryEmbedding) l
  \/ Exists (fun e => length e <> length queryEmbedding) l.
Proof.
  induction l as [|e l [IH | IH]].
  - left. constructor.
  - destruct (Nat.eq_dec (length e) (length queryEmbedding)) as [E | E].
    + left. now constructor.
    + right. now apply Exists_cons_hd.
  - right. now apply Exists_cons_tl.
Qed.

(** The shape of what [findTopKSimilar] returns. *)
Lemma findTopKSimilar_shape (queryEmbedding : list float)
    (chunks : list (list float)) (k : Z) (threshold : float)
    (out : list Scored) :
  findTopKSimilar queryEmbedding chunks k threshold = Returns out ->
  exists (scores : list Scored) (n : nat),
    scoresFrom 0 queryEmbedding chunks = Returns scores
    /\ out = firstn n
               (sort Similarity.byScore
                  (List.filter
                     (fun item => threshold <=? Similarity.score item)
                     scores))
    /\ ((0 <= k)%Z -> (Z.of_nat (length out) <= k)%Z).
Proof.
  unfold findTopKSimilar.
  destruct (scoresFrom 0 queryEmbedding chunks) as [scores | m];
    [|discriminate].
  intros [= <-].
  destruct (slice0_firstn k
              (sort Similarity.byScore
                 (List.filter
                    (fun item => threshold <=? Similarity.score item)
                    scores))) as [n En].
  exists scores, n. split; [reflexivity|]. split; [exact En|].
  apply length_slice0.
Qed.

(** X5.  The ranking of [handleSearchQuery] is [findTopKSimilar] on the
    chunks that have an embedding, with [k] = 20 and the threshold of the
    settings: the two fail together, with the same message, and otherwise
    give the same chunks with the same scores in the same order. *)
Theorem handleSearchQuery_ranks_like_findTopKSimilar
    (queryEmbedding : list float) (settings : Settings)
    (chunks : list TextChunk) :
  match findTopKSimilar queryEmbedding (map snd (withEmbedding chunks)) 20
          (similarityThreshold settings) with
  | Throws m =>
      handleSearchQuery (Returns (Some queryEmbedding)) settings chunks
      = Failure (errorString m)
  | Returns out =>
      exists results,
        handleSearchQuery (Returns (Some queryEmbedding)) settings chunks
        = Success results
        /\ Forall2 (ranked (map fst (withEmbedding chunks))) results out
  end.
Proof.
  pose proof (rank_findTopKSimilar queryEmbedding settings chunks) as H.
  cbn [handleSearchQuery].
  destruct (findTopKSimilar _ _ _ _) as [out | m].
  - destruct H as (results & -> & H). now exists results.
  - now rewrite H.
Qed.

(** X6.  What a successful [handleSearchQuery] answers: at most 20
    results, each a chunk of the request that has an embedding, with the
    similarity of the query and this embedding as its score, a score that
    reaches the threshold of the settings, and [highlighted] false; the
    scores never increase along the results. *)
Theorem handleSearchQuery_results
    (offscreen : Outcome (option (list float))) (settings : Settings)
    (chunks : list TextChunk) (results : list SearchResult) :
  handleSearchQuery offscreen settings chunks = Success results ->
  exists queryEmbedding,
    offscreen = Returns (Some queryEmbedding)
    /\ (length results <= 20)%nat
    /\ Forall (fun result =>
                 In (chunk result) chunks
                 /\ (exists e,
                        embedding (chunk result) = Some e
                        /\ cosineSimilarity queryEmbedding e
                           = Returns (Messages.score result))
                 /\ (similarityThreshold settings <=? Messages.score result)
                    = true
                 /\ highlighted result = false) results
    /\ (forall (i : nat) (a b : SearchResult),
           nth_error results i = Some a ->
           nth_error results (S i) = Some b ->
           (Messages.score b <=? Messages.score a) = true).
Proof.
  destruct offscreen as [[queryEmbedding|] | m]; cbn [handleSearchQuery];
    try discriminate.
  pose proof (rank_findTopKSimilar queryEmbedding settings chunks) as H.
  destruct (rank queryEmbedding settings chunks) as [results' | m] eqn:Er;
    [|discriminate].
  intros [= ->]. exists queryEmbedding. split; [reflexivity|].
  destruct (findTopKSimilar _ _ _ _) as [out | m] eqn:Eo; [|discriminate].
  destruct H as (results' & [= <-] & H).
  destruct (findTopKSimilar_shape _ _ _ _ _ Eo) as (scores & n & Es & En & Hk).
  set (kept := List.filter
                 (fun item =>
                    similarityThreshold settings <=? Similarity.score item)
                 scores) in En.
  assert (Hkept : Forall (atLeast (similarityThreshold settings)) kept).
  { apply List.Forall_forall. intros item Hin.
    now apply filter_In in Hin as [_ Hin]. }
  assert (Hout : Forall
                   (fun item =>
                      atLeast (similarityThreshold settings) item
                      /\ exists e,
                           nth_error (map snd (withEmbedding chunks))
                             (Z.to_nat (index item)) = Some e
                           /\ cosineSimilarity queryEmbedding e
                              = Returns (Similarity.score item)) out).
  { rewrite En. apply Forall_firstn, Forall_sort.
    apply List.Forall_forall. intros item Hin. split.
    - exact (proj1 (List.Forall_forall _ _) Hkept item Hin).
    - apply filter_In in Hin as [Hin _].
      pose proof (scoresFrom_entries _ _ _ _ Es) as He.
      destruct (proj1 (List.Forall_forall _ _) He item Hin)
        as (_ & e & Hn & Hc).
      rewrite Z.sub_0_r in Hn. eauto. }
  split; [|split].
  - rewrite (Forall2_same_length _ _ _ H). specialize (Hk ltac:(lia)). lia.
  - clear Eo Er En Hk. induction H as [|result item results out Hri _ IH];
      [constructor|].
    inversion Hout as [|? ? (Hat & e & Hn & Hc) Hout']; subst.
    constructor; [|now apply IH].
    destruct Hri as (Hn' & Hs & Hh).
    assert (Hin : In (chunk result, e) (withEmbedding chunks)).
    { apply (nth_error_In _ (Z.to_nat (index item))).
      revert Hn Hn'. generalize (Z.to_nat (index item)).
      generalize (withEmbedding chunks).
      induction l as [|[c0 e0] l IHl]; intros [|j]; cbn [map nth_error];
        try discriminate.
      - now intros [= ->] [= ->].
      - apply IHl. }
    apply withEmbedding_In in Hin as [Hin He].
    split; [exact Hin|]. split; [|split].
    + exists e. rewrite Hs. now split.
    + rewrite Hs. exact Hat.
    + exact Hh.
  - intros i a b Ha Hb.
    destruct (Forall2_nth_error_l _ _ _ H _ _ Ha) as (a' & Ha' & _ & Hsa & _).
    destruct (Forall2_nth_error_l _ _ _ H _ _ Hb) as (b' & Hb' & _ & Hsb & _).
    rewrite Hsa, Hsb.
    apply (Sorted_adjacent descending out) with (i := i); try assumption.
    rewrite En. apply Sorted_firstn.
    now apply (sort_descending (similarityThreshold settings)).
Qed.

Lemma handleSearchQuery_results_witness :
  let chunks :=
    [ {| id := "chunk-1-0"; text := "alpha"; startOffset := 0%Z;
         endOffset := 5%Z; embedding := Some [1; 0] |};
      {| id := "chunk-1-1"; text := "beta"; startOffset := 6%Z;
         endOffset := 10%Z; embedding := None |};
      {| id := "chunk-1-2"; text := "gamma"; startOffset := 11%Z;
         endOffset := 16%Z; embedding := Some [0; 1] |} ] in
  let results :=
    [ {| chunk := {| id := "chunk-1-0"; text := "alpha"; startOffset := 0%Z;
                     endOffset := 5%Z; embedding := Some [1; 0] |};
         Messages.score := 1; highlighted := false |} ] in
  handleSearchQuery (Returns (Some [1; 0])) DEFAULT_SETTINGS chunks
  = Success results
  /\ exists queryEmbedding,
       Returns (Some [1; 0]) = Returns (Some queryEmbedding)
       /\ (length results <= 20)%nat
       /\ Forall (fun result =>
                    In (chunk result) chunks
                    /\ (exists e,
                           embedding (chunk result) = Some e
                           /\ cosineSimilarity queryEmbedding e
                              = Returns (Messages.score result))
                    /\ (similarityThreshold DEFAULT_SETTINGS
                        <=? Messages.score result) = true
                    /\ highlighted result = false) results
       /\ (forall (i : nat) (a b : SearchResult),
              nth_error results i = Some a ->
              nth_error results (S i) = Some b ->
              (Messages.score b <=? Messages.score a) = true).
Proof.
  intros chunks results.
  assert (H : handleSearchQuery (Returns (Some [1; 0])) DEFAULT_SETTINGS
                chunks = Success results) by (vm_compute; reflexivity).
  split; [exact H|].
  exact (handleSearchQuery_results _ _ _ _ H).
Defined.

(** X7.  [handleSearchQuery] fails for three reasons only: the message to
    the offscreen document fails, the offscreen document has no embedding
    for the query, or a chunk carries an embedding of another length than
    the query's.  A chunk with no embedding never makes it fail. *)
Theorem handleSearchQuery_fails_iff
    (offscreen : Outcome (option (list float))) (settings : Settings)
    (chunks : list TextChunk) :
  (exists error, handleSearchQuery offscreen settings chunks = Failure error)
  <-> (exists m, offscreen = Throws m)
      \/ offscreen = Returns None
      \/ exists queryEmbedding,
           offscreen = Returns (Some queryEmbedding)
           /\ Exists (mismatched queryEmbedding) chunks.
Proof.
  destruct offscreen as [[queryEmbedding|] | m]; cbn [handleSearchQuery].
  - unfold rank.
    destruct (Forall_or_Exists_mismatch queryEmbedding
                (map snd (withEmbedding chunks))) as [H | H].
    + pose proof (scored_scoresFrom queryEmbedding (withEmbedding chunks) 0)
        as Hs.
      destruct (scoresFrom_returns _ _ H 0) as [scores Es].
      rewrite Es in Hs. destruct Hs as (results & -> & _). split.
      * intros [error E]. discriminate.
      * intros [[m E] | [E | (q & [= <-] & Hex)]]; try discriminate.
        apply withEmbedding_mismatched in Hex.
        apply List.Exists_exists in Hex as (e & Hin & Hne).
        now apply (proj1 (List.Forall_forall _ _) H) in Hin.
    + pose proof (scored_scoresFrom queryEmbedding (withEmbedding chunks) 0)
        as Hs.
      rewrite (scoresFrom_throws _ _ H) in Hs. rewrite Hs. split.
      * intros _. right. right. exists queryEmbedding.
        split; [reflexivity|]. now apply withEmbedding_mismatched.
      * intros _. eexists. reflexivity.
  - split; [auto|]. intros _. eexists. reflexivity.
  - split; [eauto|]. intros _. eexists. reflexivity.
Qed.

Lemma textsMatch_texts (chunks cached : list TextChunk) :
  length cached = length chunks -> textsMatch chunks cached = true ->
  map text cached = map text chunks.
Proof.
  revert cached. induction chunks as [|c chunks IH]; intros [|c' cached] Hl;
    try discriminate; [reflexivity|].
  cbn [textsMatch map]. intros H. apply andb_prop in H as [H1 H2].
  apply String.eqb_eq in H1. injection Hl as Hl.
  rewrite (IH cached Hl H2). congruence.
Qed.

Lemma attach_fields (chunks : list TextChunk) :
  forall embeddings : list (option (list float)),
    map text (attach chunks embeddings) = map text chunks
    /\ map id (attach chunks embeddings) = map id chunks
    /\ map startOffset (attach chunks embeddings) = map startOffset chunks
    /\ map endOffset (attach chunks embeddings) = map endOffset chunks
    /\ forall i : nat,
         (i < length chunks)%nat ->
         option_map embedding (nth_error (attach chunks embeddings) i)
         = Some (match nth_error embeddings i with
                 | Some e => e
                 | None => None
                 end).
Proof.
  induction chunks as [|c chunks IH]; intros embeddings.
  - repeat split; try reflexivity. intros i Hi. cbn [length] in Hi. lia.
  - destruct (IH (tl embeddings)) as (H1 & H2 & H3 & H4 & H5).
    cbn [attach map]. rewrite H1, H2, H3, H4.
    repeat split; try reflexivity.
    intros [|i] Hi; cbn [nth_error option_map embedding].
    + now destruct embeddings.
    + cbn [length] in Hi. rewrite H5 by lia.
      destruct embeddings; [destruct i|]; reflexivity.
Qed.

(** X8.  The chunks that a successful [handleGetEmbeddings] answers with
    carry the texts of the request, one for one, whether they come from
    the cache or from the offscreen document.  The chunks of the cache are
    answered as they were stored; the others are the chunks of the request
    with their ids and offsets, each with the embedding at its position
    ([undefined] where there is none), and they are what is stored. *)
Theorem handleGetEmbeddings_answers_request
    (cached : Outcome (option (list TextChunk)))
    (offscreen : Outcome (list (option (list float))))
    (stored : Outcome unit) (chunks answer : list TextChunk) :
  fst (handleGetEmbeddings cached offscreen stored chunks) = Success answer ->
  map text answer = map text chunks
  /\ (cached = Returns (Some answer)
      \/ exists embeddings,
           offscreen = Returns embeddings
           /\ snd (handleGetEmbeddings cached offscreen stored chunks)
              = Some answer
           /\ map id answer = map id chunks
           /\ map startOffset answer = map startOffset chunks
           /\ map endOffset answer = map endOffset chunks
           /\ forall i : nat,
                (i < length chunks)%nat ->
                option_map embedding (nth_error answer i)
                = Some (match nth_error embeddings i with
                        | Some e => e
                        | None => None
                        end)).
Proof.
  unfold handleGetEmbeddings.
  destruct cached as [cache | m]; [|discriminate].
  assert (Hmiss :
            fst (match offscreen with
                 | Returns embeddings =>
                     match stored with
                     | Returns _ =>
                         (Success (attach chunks embeddings),
                          Some (attach chunks embeddings))
                     | Throws m =>
                         (Failure (errorString m),
                          Some (attach chunks embeddings))
                     end
                 | Throws m => (Failure (errorString m), None)
                 end) = Success answer ->
            map text answer = map text chunks
            /\ exists embeddings,
                 offscreen = Returns embeddings
                 /\ snd (match offscreen with
                         | Returns embeddings =>
                             match stored with
                             | Returns _ =>
                                 (Success (attach chunks embeddings),
                                  Some (attach chunks embeddings))
                             | Throws m =>
                                 (Failure (errorString m),
                                  Some (attach chunks embeddings))
                             end
                         | Throws m => (Failure (errorString m), None)
                         end) = Some answer
                 /\ map id answer = map id chunks
                 /\ map startOffset answer = map startOffset chunks
                 /\ map endOffset answer = map endOffset chunks
                 /\ forall i : nat,
                      (i < length chunks)%nat ->
                      option_map embedding (nth_error answer i)
                      = Some (match nth_error embeddings i with
                              | Some e => e
                              | None => None
                              end)).
  { destruct offscreen as [embeddings | m]; [|discriminate].
    destruct stored as [u | m]; [|discriminate].
    cbn [fst snd]. intros [= <-].
    destruct (attach_fields chunks embeddings) as (H1 & H2 & H3 & H4 & H5).
    split; [exact H1|]. exists embeddings. repeat split; assumption. }
  destruct cache as [cached|].
  - destruct ((length cached =? length chunks)%nat && textsMatch chunks cached)
      eqn:E.
    + cbn [fst]. intros [= <-]. apply andb_prop in E as [E1 E2].
      apply Nat.eqb_eq in E1. split; [|now left].
      now apply textsMatch_texts.
    + intros H. destruct (Hmiss H) as [H1 H2]. split; [exact H1 | now right].
  - intros H. destruct (Hmiss H) as [H1 H2]. split; [exact H1 | now right].
Qed.

Lemma handleGetEmbeddings_answers_request_witness :
  let chunks :=
    [ {| id := "chunk-2-0"; text := "alpha"; startOffset := 0%Z;
         endOffset := 5%Z; embedding := None |};
      {| id := "chunk-2-1"; text := "beta"; startOffset := 6%Z;
         endOffset := 10%Z; embedding := None |} ] in
  let stale :=
    [ {| id := "chunk-1-0"; text := "alpha"; startOffset := 0%Z;
         endOffset := 5%Z; embedding := Some [1; 0] |} ] in
  let answer :=
    [ {| id := "chunk-2-0"; text := "alpha"; startOffset := 0%Z;
         endOffset := 5%Z; embedding := Some [0; 1] |};
      {| id := "chunk-2-1"; text := "beta"; startOffset := 6%Z;
         endOffset := 10%Z; embedding := None |} ] in
  fst (handleGetEmbeddings (Returns (Some stale)) (Returns [Some [0; 1]])
         (Returns tt) chunks) = Success answer
  /\ map text answer = map text chunks
  /\ (Returns (Some stale) = Returns (Some answer)
      \/ exists embeddings,
           Returns [Some [0; 1]] = Returns embeddings
           /\ snd (handleGetEmbeddings (Returns (Some stale))
                     (Returns [Some [0; 1]]) (Returns tt) chunks)
              = Some answer
           /\ map id answer = map id chunks
           /\ map startOffset answer = map startOffset chunks
           /\ map endOffset answer = map endOffset chunks
           /\ forall i : nat,
                (i < length chunks)%nat ->
                option_map embedding (nth_error answer i)
                = Some (match nth_error embeddings i with
                        | Some e => e
                        | None => None
                        end)).
Proof.
  intros chunks stale answer.
  assert (H : fst (handleGetEmbeddings (Returns (Some stale))
                     (Returns [Some [0; 1]]) (Returns tt) chunks)
              = Success answer) by reflexivity.
  split; [exact H|].
  exact (handleGetEmbeddings_answers_request _ _ _ _ _ H).
Defined.

End ServiceWorkerFacts.

(** ** chunkText: offsets, sizes and ids of the chunks *)

Section ChunkerLayoutFacts.
Import JsString Types TextChunker.

Variable now : nat -> Z.
Variable targetSize : Z.

Lemma endOf_snoc (g : list TextNode) (n : TextNode) :
  endOf (g ++ [n]) = tn_startOffset n + len (tn_text n).
Proof.
  induction g as [|x g IH]; [reflexivity|].
  destruct g as [|y g]; [reflexivity|]. exact IH.
Qed.

Lemma startOf_snoc (g : list TextNode) (n : TextNode) :
  g <> [] -> startOf (g ++ [n]) = startOf g.
Proof. destruct g; [congruence | reflexivity]. Qed.

Lemma idsFrom_snoc (counter count : nat) :
  idsFrom now counter (S count)
  = idsFrom now counter count
    ++ [fst (generateChunkId now (counter + count))].
Proof. unfold idsFrom. now rewrite seq_S, map_app. Qed.

Lemma Sorted_snoc {A} (R : A -> A -> Prop) (l : list A) (x y : A) :
  Sorted R (l ++ [x]) -> R x y -> Sorted R ((l ++ [x]) ++ [y]).
Proof.
  intros H Hxy. induction l as [|a l IH]; cbn [app] in *.
  - repeat constructor. exact Hxy.
  - apply Sorted_inv in H as [H Ha]. constructor; [now apply IH|].
    destruct l as [|b l]; cbn [app] in *; constructor;
      now apply HdRel_inv in Ha.
Qed.

Lemma Sorted_last {A} (R : A -> A -> Prop) (l : list A) (x y : A) :
  (forall a, R a x -> R a y) ->
  Sorted R (l ++ [x]) -> Sorted R (l ++ [y]).
Proof.
  intros Hxy H. induction l as [|a l IH]; cbn [app] in *.
  - repeat constructor.
  - apply Sorted_inv in H as [H Ha]. constructor; [now apply IH|].
    destruct l as [|b l]; cbn [app] in *; constructor;
      apply HdRel_inv in Ha; auto.
Qed.

Lemma closes_snoc (g next : list TextNode) (n : TextNode) :
  next <> [] -> closes targetSize g next ->
  closes targetSize g (next ++ [n]).
Proof. destruct next; [congruence | auto]. Qed.

Lemma pushChunk_fields (st : ChunkLoop) :
  chunks (pushChunk now st)
  = chunks st
    ++ [ {| id := fst (generateChunkId now (chunkIdCounter st));
            text := trim (currentChunkText st);
            startOffset := currentChunkStart st;
            endOffset := lastOffset st;
            embedding := None |} ]
  /\ chunkIdCounter (pushChunk now st) = S (chunkIdCounter st)
  /\ lastOffset (pushChunk now st) = lastOffset st.
Proof. repeat split. Qed.

Lemma chunkStep_closing (st : ChunkLoop) (n : TextNode) :
  (0 <? len (currentChunkText st)) = true ->
  (targetSize <? len (currentChunkText st) + len (tn_text n)) = true ->
  chunkStep now targetSize st n
  = {| chunks := chunks (pushChunk now st);
       currentChunkText := tn_text n;
       currentChunkStart := tn_startOffset n;
       lastOffset := tn_startOffset n + len (tn_text n);
       chunkIdCounter := chunkIdCounter (pushChunk now st) |}.
Proof.
  intros H1 H2. unfold chunkStep. rewrite H1, H2.
  cbv beta iota delta [andb currentChunkText currentChunkStart chunks
                       chunkIdCounter].
  change (len "") with 0. cbn [Z.eqb Z.ltb Z.compare].
  now rewrite append_nil_l, append_nil_l.
Qed.

Lemma chunkStep_joining (st : ChunkLoop) (n : TextNode) :
  (0 <? len (currentChunkText st)) = true ->
  (targetSize <? len (currentChunkText st) + len (tn_text n)) = false ->
  chunkStep now targetSize st n
  = {| chunks := chunks st;
       currentChunkText := currentChunkText st +:+ " " +:+ tn_text n;
       currentChunkStart := currentChunkStart st;
       lastOffset := tn_startOffset n + len (tn_text n);
       chunkIdCounter := chunkIdCounter st |}.
Proof.
  intros H1 H2. unfold chunkStep. rewrite H1, H2. cbn [andb].
  rewrite H1. apply Z.ltb_lt in H1.
  now rewrite (proj2 (Z.eqb_neq _ _)) by lia.
Qed.

Lemma chunkStep_opening (st : ChunkLoop) (n : TextNode) :
  currentChunkText st = "" ->
  chunkStep now targetSize st n
  = {| chunks := chunks st;
       currentChunkText := tn_text n;
       currentChunkStart := tn_startOffset n;
       lastOffset := tn_startOffset n + len (tn_text n);
       chunkIdCounter := chunkIdCounter st |}.
Proof.
  intros H. unfold chunkStep. rewrite H. change (len "") with 0.
  cbn [Z.eqb Z.ltb Z.compare andb]. rewrite H. change (len "") with 0.
  cbn [Z.eqb Z.ltb Z.compare]. now rewrite append_nil_l, append_nil_l.
Qed.

Lemma laidOut_step (counter : nat) (processed : list TextNode)
    (st : ChunkLoop) (n : TextNode) :
  Forall cleanNode processed ->
  laidOut now targetSize counter processed st ->
  laidOut now targetSize counter (processed ++ [n])
    (chunkStep now targetSize st n).
Proof.
  intros Hclean
    (gs & g & Hne & HP & Hgs & Hch & Hid & Hcnt & Hcur & Hst & Hlast
     & Hfits & Hsorted).
  assert (Hg : Forall cleanNode g)
    by (rewrite HP in Hclean; now apply Forall_app in Hclean as [_ ?]).
  assert (Hc : cleanText (currentChunkText st) = true)
    by (rewrite Hcur; now apply joinTexts_clean).
  assert (Hpos : (0 <? len (currentChunkText st)) = true).
  { rewrite len_pos. apply cleanText_nonempty, String.eqb_neq in Hc.
    now rewrite Hc. }
  destruct (targetSize <? len (currentChunkText st) + len (tn_text n))
    eqn:Hclose.
  - (* the open chunk is closed, [n] opens the next one *)
    rewrite (chunkStep_closing st n Hpos Hclose).
    destruct (pushChunk_fields st) as (Epush & Ecnt & _).
    exists (gs ++ [g]), [n].
    cbn [chunks currentChunkText currentChunkStart lastOffset chunkIdCounter].
    rewrite Epush, Ecnt, length_app. cbn [length].
    split; [discriminate|]. split.
    { rewrite concat_app. cbn [concat]. now rewrite app_nil_r, HP. }
    split. { apply Forall_app. split; [assumption | now constructor]. }
    split.
    { apply Forall2_app; [exact Hch|]. constructor; [|constructor].
      unfold holds. cbn [text startOffset endOffset embedding].
      rewrite (trim_clean _ Hc). auto. }
    split.
    { rewrite map_app, Hid. cbn [map id]. rewrite Nat.add_1_r, idsFrom_snoc.
      now rewrite Hcnt. }
    split; [lia|]. split; [reflexivity|]. split; [reflexivity|].
    split; [reflexivity|]. split.
    { apply Forall_app. split; [exact Hfits|]. constructor; [|constructor].
      left. now exists n. }
    apply Sorted_snoc; [exact Hsorted|]. cbn [closes]. rewrite <- Hcur.
    now apply Z.ltb_lt.
  - (* [n] joins the open chunk *)
    rewrite (chunkStep_joining st n Hpos Hclose).
    exists gs, (g ++ [n]).
    cbn [chunks currentChunkText currentChunkStart lastOffset chunkIdCounter].
    split; [now destruct g|]. split; [now rewrite HP, app_assoc|].
    split; [exact Hgs|]. split; [exact Hch|]. split; [exact Hid|].
    split; [exact Hcnt|]. split.
    { now rewrite joinTexts_snoc, Hcur by exact Hne. }
    split; [now rewrite startOf_snoc|]. split; [now rewrite endOf_snoc|].
    split.
    { apply Forall_app in Hfits as [Hfits _]. apply Forall_app.
      split; [exact Hfits|]. constructor; [|constructor]. right.
      rewrite joinTexts_snoc by exact Hne. rewrite <- Hcur.
      rewrite !len_append. change (len " ") with 1.
      apply Z.ltb_ge in Hclose. lia. }
    apply (Sorted_last _ gs g); [|exact Hsorted].
    intros a. now apply closes_snoc.
Qed.

Lemma laidOut_fold (counter : nat) (l processed : list TextNode)
    (st : ChunkLoop) :
  Forall cleanNode (processed ++ l) ->
  laidOut now targetSize counter processed st ->
  laidOut now targetSize counter (processed ++ l)
    (fold_left (chunkStep now targetSize) l st).
Proof.
  revert processed st. induction l as [|n l IH]; intros processed st Hc Hl.
  - now rewrite app_nil_r.
  - cbn [fold_left].
    replace (processed ++ n :: l) with ((processed ++ [n]) ++ l) in *
      by now rewrite <- app_assoc.
    apply IH; [assumption|]. apply laidOut_step; [|assumption].
    apply Forall_app in Hc as [Hc _]. now apply Forall_app in Hc as [Hc _].
Qed.

(** The chunks of [chunkText] and the counter afterwards, for fragments
    that are trimmed and not empty. *)
Lemma chunkTextFrom_layout (counter : nat) (textNodes : list TextNode) :
  Forall cleanNode textNodes ->
  exists groups : list (list TextNode),
    concat groups = textNodes
    /\ Forall (fun g => g <> []) groups
    /\ Forall2 holds (fst (chunkTextFrom now counter textNodes targetSize))
         groups
    /\ map id (fst (chunkTextFrom now counter textNodes targetSize))
       = idsFrom now counter (length groups)
    /\ snd (chunkTextFrom now counter textNodes targetSize)
       = (counter + length groups)%nat
    /\ Forall (fits targetSize) groups
    /\ Sorted (closes targetSize) groups.
Proof.
  intros Hclean. destruct textNodes as [|n textNodes].
  - exists []. cbn. rewrite Nat.add_0_r. repeat split; constructor.
  - unfold chunkTextFrom. cbn [fold_left].
    set (st0 := {| chunks := []; currentChunkText := "";
                   currentChunkStart := 0; lastOffset := 0;
                   chunkIdCounter := counter |}).
    assert (H1 : laidOut now targetSize counter [n]
                   (chunkStep now targetSize st0 n)).
    { rewrite (chunkStep_opening st0 n eq_refl). exists [], [n].
      cbn [chunks currentChunkText currentChunkStart lastOffset
           chunkIdCounter st0 length app concat].
      rewrite Nat.add_0_r.
      split; [discriminate|]. split; [reflexivity|]. split; [constructor|].
      split; [constructor|]. split; [reflexivity|]. split; [reflexivity|].
      split; [reflexivity|]. split; [reflexivity|]. split; [reflexivity|].
      split; [|repeat constructor].
      constructor; [left; now exists n | constructor]. }
    pose proof (laidOut_fold counter textNodes [n] _ Hclean H1)
      as (gs & g & Hne & HP & Hgs & Hch & Hid & Hcnt & Hcur & Hst & Hlast
          & Hfits & Hsorted).
    cbn [app] in HP.
    set (st := fold_left (chunkStep now targetSize) textNodes
                 (chunkStep now targetSize st0 n)) in *.
    assert (Hg : Forall cleanNode g)
      by (rewrite HP in Hclean; now apply Forall_app in Hclean as [_ ?]).
    assert (Hc : cleanText (currentChunkText st) = true)
      by (rewrite Hcur; now apply joinTexts_clean).
    rewrite (trim_clean _ Hc), len_pos.
    pose proof Hc as Hnonempty.
    apply cleanText_nonempty, String.eqb_neq in Hnonempty.
    rewrite Hnonempty. cbn [negb fst snd].
    destruct (pushChunk_fields st) as (Epush & Ecnt & _).
    rewrite Epush, Ecnt.
    exists (gs ++ [g]). rewrite length_app. cbn [length].
    split. { rewrite concat_app. cbn [concat]. now rewrite app_nil_r, HP. }
    split. { apply Forall_app. split; [assumption | now constructor]. }
    split.
    { apply Forall2_app; [exact Hch|]. constructor; [|constructor].
      unfold holds. cbn [text startOffset endOffset embedding].
      rewrite (trim_clean _ Hc). auto. }
    split.
    { rewrite map_app, Hid. cbn [map id]. rewrite Nat.add_1_r, idsFrom_snoc.
      now rewrite Hcnt. }
    split; [lia|]. split; assumption.
Qed.

End ChunkerLayoutFacts.

(** ** The ids of the chunks *)

Section ChunkIdFacts.
Import JsString Types TextChunker.

Lemma ofZ_inj (a b : Z) : ofZ a = ofZ b -> a = b.
Proof.
  intros H. apply DecimalZ.to_int_inj.
  assert (Hparse : forall n : Z,
             NilZero.int_of_string (ofZ n) = Some (Z.to_int n)).
  { intros n. apply NilZero.isi; destruct n as [|p|p]; try discriminate;
      cbn [Z.to_int]; intros [= E];
      now apply DecimalPos.Unsigned.to_uint_nonnil in E. }
  pose proof (Hparse a) as Ha. rewrite H, Hparse in Ha. congruence.
Qed.

Lemma occurs_append (c : ascii) (a b : string) :
  occurs c (a +:+ b) = occurs c a || occurs c b.
Proof.
  induction a as [|x a IH]; [reflexivity|].
  rewrite append_cons. cbn [occurs]. now rewrite IH, orb_assoc.
Qed.

Lemma string_of_uint_digits (d : Decimal.uint) :
  occurs "-" (NilEmpty.string_of_uint d) = false.
Proof. induction d; cbn [NilEmpty.string_of_uint occurs]; auto. Qed.

Lemma ofZ_nonneg (n : Z) : 0 <= n -> occurs "-" (ofZ n) = false.
Proof.
  intros H. unfold ofZ. destruct n as [|p|p]; [reflexivity| |lia].
  cbn [Z.to_int NilZero.string_of_int NilZero.string_of_uint].
  destruct (Pos.to_uint p) eqn:E; try apply string_of_uint_digits.
  reflexivity.
Qed.

(** The text behind the last ["-"] of a string. *)
Lemma append_dash_inj (a1 a2 d1 d2 : string) :
  occurs "-" d1 = false -> occurs "-" d2 = false ->
  a1 +:+ "-" +:+ d1 = a2 +:+ "-" +:+ d2 -> d1 = d2.
Proof.
  intros H1 H2. revert a2.
  induction a1 as [|x a1 IH]; intros [|y a2];
    repeat (rewrite append_nil_l || rewrite append_cons); intros E.
  - now injection E.
  - injection E as _ E. subst d1. rewrite occurs_append in H1.
    cbn [occurs] in H1. rewrite orb_true_r in H1. discriminate.
  - injection E as _ E. subst d2. rewrite occurs_append in H2.
    cbn [occurs] in H2. rewrite orb_true_r in H2. discriminate.
  - injection E as _ E. apply (IH a2).
    now repeat (rewrite append_nil_l || rewrite append_cons).
Qed.

Lemma generateChunkId_inj (now : nat -> Z) (i j : nat) :
  fst (generateChunkId now i) = fst (generateChunkId now j) -> i = j.
Proof.
  unfold generateChunkId. cbn [fst]. intros H.
  rewrite <- (append_assoc "chunk-" (ofZ (now i))),
    <- (append_assoc "chunk-" (ofZ (now j))) in H.
  apply append_dash_inj in H; try (apply ofZ_nonneg; lia).
  apply ofZ_inj in H. lia.
Qed.

Lemma idsFrom_app (now : nat -> Z) (counter n m : nat) :
  idsFrom now counter (n + m)
  = idsFrom now counter n ++ idsFrom now (counter + n) m.
Proof. unfold idsFrom. now rewrite seq_app, map_app. Qed.

Lemma idsFrom_NoDup (now : nat -> Z) (counter n : nat) :
  List.NoDup (idsFrom now counter n).
Proof.
  unfold idsFrom. generalize (seq_NoDup n counter).
  induction (seq counter n) as [|i l IH]; intros H; cbn [map];
    [constructor|].
  apply List.NoDup_cons_iff in H as [Hi Hl].
  constructor; [|now apply IH].
  intros Hin. apply in_map_iff in Hin as (j & E & Hj).
  apply generateChunkId_inj in E. now subst.
Qed.

Lemma numbered_pushChunk (now : nat -> Z) (counter : nat) (st : ChunkLoop) :
  numbered now counter st -> numbered now counter (pushChunk now st).
Proof.
  intros [Hid Hcnt]. unfold numbered, pushChunk, generateChunkId.
  cbn [chunks chunkIdCounter fst snd].
  rewrite map_app, length_app, Hid. cbn [map id length].
  rewrite Nat.add_1_r, idsFrom_snoc. unfold generateChunkId. cbn [fst].
  rewrite Hcnt. split; [reflexivity | lia].
Qed.

Lemma numbered_chunkStep (now : nat -> Z) (targetSize : Z) (counter : nat)
    (st : ChunkLoop) (n : TextNode) :
  numbered now counter st ->
  numbered now counter (chunkStep now targetSize st n).
Proof.
  intros H. unfold chunkStep.
  destruct ((0 <? len (currentChunkText st))
            && (targetSize <? len (currentChunkText st) + len (tn_text n))).
  - exact (numbered_pushChunk now counter st H).
  - exact H.
Qed.

Lemma chunkTextFrom_numbered (now : nat -> Z) (counter : nat)
    (textNodes : list TextNode) (targetSize : Z) :
  map id (fst (chunkTextFrom now counter textNodes targetSize))
  = idsFrom now counter
      (length (fst (chunkTextFrom now counter textNodes targetSize)))
  /\ snd (chunkTextFrom now counter textNodes targetSize)
     = (counter
        + length (fst (chunkTextFrom now counter textNodes targetSize)))%nat.
Proof.
  unfold chunkTextFrom.
  set (st0 := {| chunks := []; currentChunkText := "";
                 currentChunkStart := 0; lastOffset := 0;
                 chunkIdCounter := counter |}).
  assert (H0 : numbered now counter st0).
  { split; [reflexivity|]. cbn. lia. }
  assert (H : numbered now counter
                (fold_left (chunkStep now targetSize) textNodes st0)).
  { generalize st0 H0. induction textNodes as [|n l IH]; intros st Hst;
      [exact Hst|].
    cbn [fold_left]. apply IH. now apply numbered_chunkStep. }
  destruct (0 <? len (trim (currentChunkText _))); cbn [fst snd].
  - now apply numbered_pushChunk.
  - exact H.
Qed.

(** X12.  The ids of the chunks never repeat, within one call of
    [chunkText] and from one call to the next, whatever the clock reads:
    the counter moves on by one with each chunk, and the id ends with the
    counter. *)
Theorem chunkText_ids_unique (now : nat -> Z) (counter : nat)
    (textNodes1 textNodes2 : list TextNode) (targetSize1 targetSize2 : Z) :
  let first := chunkTextFrom now counter textNodes1 targetSize1 in
  let second := chunkTextFrom now (snd first) textNodes2 targetSize2 in
  snd first = (counter + length (fst first))%nat
  /\ snd second = (counter + length (fst first ++ fst second))%nat
  /\ List.NoDup (map id (fst first ++ fst second)).
Proof.
  intros first second.
  destruct (chunkTextFrom_numbered now counter textNodes1 targetSize1)
    as [Hid1 Hcnt1].
  destruct (chunkTextFrom_numbered now (snd first) textNodes2 targetSize2)
    as [Hid2 Hcnt2].
  fold first in Hid1, Hcnt1. fold second in Hid2, Hcnt2.
  split; [exact Hcnt1|]. split.
  - rewrite Hcnt2, Hcnt1, length_app. lia.
  - rewrite map_app, Hid1, Hid2, Hcnt1, <- idsFrom_app.
    apply idsFrom_NoDup.
Qed.

End ChunkIdFacts.

Section ChunkerLayoutProperties.
Import JsString Types TextChunker.

(** X9.  The offsets of a chunk are those of its fragments: a chunk
    starts where the first fragment of its group starts and ends where the
    last one ends, for fragments that are trimmed and not empty.  A chunk
    comes without an embedding. *)
Theorem chunkText_offsets (now : nat -> Z) (counter : nat)
    (textNodes : list TextNode) (targetSize : Z) :
  Forall (fun n => cleanText (tn_text n) = true) textNodes ->
  exists groups : list (list TextNode),
    concat groups = textNodes
    /\ Forall2 (fun c g =>
                  g <> []
                  /\ text c = join (map tn_text g)
                  /\ startOffset c = startOf g
                  /\ endOffset c = endOf g
                  /\ embedding c = None)
         (chunkText now counter textNodes targetSize) groups.
Proof.
  intros Hclean.
  destruct (chunkTextFrom_layout now targetSize counter textNodes Hclean)
    as (groups & Hcat & Hne & Hholds & _).
  exists groups. split; [exact Hcat|]. unfold chunkText. clear Hcat.
  induction Hholds as [|c g cs gs (H1 & H2 & H3 & H4) _ IH]; [constructor|].
  inversion Hne; subst. constructor; [now repeat split|].
  now apply IH.
Qed.

Lemma chunkText_offsets_witness :
  let textNodes :=
    [ {| tn_text := "Hello"; tn_node := 1; tn_startOffset := 0 |};
      {| tn_text := "beautiful"; tn_node := 2; tn_startOffset := 6 |};
      {| tn_text := "world"; tn_node := 3; tn_startOffset := 16 |} ] in
  Forall (fun n => cleanText (tn_text n) = true) textNodes
  /\ exists groups : list (list TextNode),
       concat groups = textNodes
       /\ Forall2 (fun c g =>
                     g <> []
                     /\ text c = join (map tn_text g)
                     /\ startOffset c = startOf g
                     /\ endOffset c = endOf g
                     /\ embedding c = None)
            (chunkText (fun _ => 0) 0 textNodes 15) groups.
Proof.
  intros textNodes.
  assert (H : Forall (fun n => cleanText (tn_text n) = true) textNodes)
    by (repeat constructor).
  split; [exact H|].
  exact (chunkText_offsets (fun _ => 0) 0 textNodes 15 H).
Defined.

(** X10.  The size of a chunk: a chunk that joins two fragments or more
    has at most [targetSize + 1] code units, since the space between two
    fragments is not counted when a fragment is added; a longer chunk is
    one fragment alone. *)
Theorem chunkText_soft_size (now : nat -> Z) (counter : nat)
    (textNodes : list TextNode) (targetSize : Z) :
  Forall (fun n => cleanText (tn_text n) = true) textNodes ->
  Forall (fun c =>
            len (text c) <= targetSize + 1
            \/ exists n, In n textNodes /\ text c = tn_text n)
    (chunkText now counter textNodes targetSize).
Proof.
  intros Hclean.
  destruct (chunkTextFrom_layout now targetSize counter textNodes Hclean)
    as (groups & Hcat & _ & Hholds & _ & _ & Hfits & _).
  unfold chunkText. subst textNodes. clear Hclean.
  induction Hholds as [|c g cs gs (H1 & _) _ IH]; [constructor|].
  inversion Hfits as [|? ? Hg Hgs]; subst. constructor.
  - destruct Hg as [[n ->] | Hg].
    + right. exists n. split; [now left | exact H1].
    + left. now rewrite H1.
  - eapply List.Forall_impl; [|exact (IH Hgs)].
    intros c' [H | (n & Hin & H)]; [now left|]. right. exists n.
    split; [|exact H]. cbn [concat]. apply in_or_app. now right.
Qed.

Lemma chunkText_soft_size_witness :
  let textNodes :=
    [ {| tn_text := "Hello"; tn_node := 1; tn_startOffset := 0 |};
      {| tn_text := "beautiful"; tn_node := 2; tn_startOffset := 6 |};
      {| tn_text := "world"; tn_node := 3; tn_startOffset := 16 |} ] in
  Forall (fun n => cleanText (tn_text n) = true) textNodes
  /\ Forall (fun c =>
               len (text c) <= 14 + 1
               \/ exists n, In n textNodes /\ text c = tn_text n)
       (chunkText (fun _ => 0) 0 textNodes 14).
Proof.
  intros textNodes.
  assert (H : Forall (fun n => cleanText (tn_text n) = true) textNodes)
    by (repeat constructor).
  split; [exact H|].
  exact (chunkText_soft_size (fun _ => 0) 0 textNodes 14 H).
Defined.

(** X11.  [chunkText] packs greedily: a chunk is closed only in front of
    a fragment that does not fit, that is, the text of a chunk and the
    first fragment of the next chunk have more than [targetSize] code
    units together. *)
Theorem chunkText_greedy (now : nat -> Z) (counter : nat)
    (textNodes : list TextNode) (targetSize : Z) :
  Forall (fun n => cleanText (tn_text n) = true) textNodes ->
  exists groups : list (list TextNode),
    concat groups = textNodes
    /\ map text (chunkText now counter textNodes targetSize)
       = map (fun g => join (map tn_text g)) groups
    /\ forall (i : nat) (c : TextChunk) (n : TextNode) (rest : list TextNode),
         nth_error (chunkText now counter textNodes targetSize) i = Some c ->
         nth_error groups (S i) = Some (n :: rest) ->
         targetSize < len (text c) + len (tn_text n).
Proof.
  intros Hclean.
  destruct (chunkTextFrom_layout now targetSize counter textNodes Hclean)
    as (groups & Hcat & _ & Hholds & _ & _ & _ & Hsorted).
  exists groups. split; [exact Hcat|]. unfold chunkText.
  set (cs := fst (chunkTextFrom now counter textNodes targetSize)) in *.
  split.
  - clearbody cs. clear Hsorted Hcat.
    induction Hholds as [|c g cs gs (H1 & _) _ IH]; [reflexivity|].
    cbn [map]. now rewrite H1, IH.
  - intros i c n rest Hc Hnext.
    destruct (Forall2_nth_error_l _ _ _ Hholds _ _ Hc) as (g & Hg & H1 & _).
    pose proof (Sorted_adjacent _ _ Hsorted i g (n :: rest) Hg Hnext) as H.
    cbn [closes] in H. now rewrite H1.
Qed.

Lemma chunkText_greedy_witness :
  let textNodes :=
    [ {| tn_text := "Hello"; tn_node := 1; tn_startOffset := 0 |};
      {| tn_text := "beautiful"; tn_node := 2; tn_startOffset := 6 |};
      {| tn_text := "world"; tn_node := 3; tn_startOffset := 16 |} ] in
  Forall (fun n => cleanText (tn_text n) = true) textNodes
  /\ exists groups : list (list TextNode),
       concat groups = textNodes
       /\ map text (chunkText (fun _ => 0) 0 textNodes 15)
          = map (fun g => join (map tn_text g)) groups
       /\ forall (i : nat) (c : TextChunk) (n : TextNode)
                 (rest : list TextNode),
            nth_error (chunkText (fun _ => 0) 0 textNodes 15) i = Some c ->
            nth_error groups (S i) = Some (n :: rest) ->
            15 < len (text c) + len (tn_text n).
Proof.
  intros textNodes.
  assert (H : Forall (fun n => cleanText (tn_text n) = true) textNodes)
    by (repeat constructor).
  split; [exact H|].
  exact (chunkText_greedy (fun _ => 0) 0 textNodes 15 H).
Defined.

End ChunkerLayoutProperties.

(** ** Offsets into the full text of the page *)

Section OffsetFacts.
Import JsString Dom Types TextChunker.

Lemma substring_skip (a b : string) (k m : nat) :
  String.substring (String.length a + k) m (a +:+ b) = String.substring k m b.
Proof.
  induction a as [|c a IH]; [now rewrite append_nil_l|].
  rewrite append_cons. exact IH.
Qed.

Lemma substring_prefix (t r : string) :
  String.substring 0 (String.length t) (t +:+ r) = t.
Proof.
  induction t as [|c t IH].
  - rewrite append_nil_l. now destruct r.
  - rewrite append_cons. cbn [String.length String.substring]. now rewrite IH.
Qed.

Lemma join_cons (x y : string) (l : list string) :
  join (x :: y :: l) = x +:+ " " +:+ join (y :: l).
Proof. reflexivity. Qed.

Lemma length_append (a b : string) :
  String.length (a +:+ b) = (String.length a + String.length b)%nat.
Proof.
  induction a as [|c a IH]; [now rewrite append_nil_l|].
  rewrite append_cons. cbn [String.length]. now rewrite IH.
Qed.

Lemma length_join_app (P G : list string) :
  G <> [] ->
  String.length (join (P ++ G))
  = (widthOf P + String.length (join G))%nat.
Proof.
  intros HG. induction P as [|x P IH]; [reflexivity|].
  cbn [app widthOf]. destruct (P ++ G) as [|y l] eqn:E.
  - destruct P; [cbn [app] in E; congruence | discriminate].
  - rewrite join_cons, !length_append, IH. cbn [String.length]. lia.
Qed.

Lemma length_join_prefix (G Q : list string) :
  G <> [] -> (String.length (join G) <= String.length (join (G ++ Q)))%nat.
Proof.
  intros HG. destruct Q as [|q Q]; [now rewrite app_nil_r|].
  rewrite join_app by (assumption || discriminate).
  rewrite !length_append. lia.
Qed.

(** A run of texts sits in the joined text behind the texts before it. *)
Lemma substring_join (P G Q : list string) :
  G <> [] ->
  String.substring (widthOf P) (String.length (join G)) (join (P ++ G ++ Q))
  = join G.
Proof.
  intros HG. induction P as [|x P IH]; cbn [app widthOf].
  - destruct Q as [|q Q]; [rewrite app_nil_r|].
    + rewrite <- (append_nil_r (join G)) at 2. apply substring_prefix.
    + unfold join. rewrite join_app by (destruct G; congruence || discriminate).
      apply substring_prefix.
  - destruct (P ++ G ++ Q) as [|y l] eqn:E.
    + destruct P, G; cbn [app] in E; congruence.
    + rewrite join_cons.
      replace (String.length x + 1 + widthOf P)%nat
        with (String.length x + (String.length " " + widthOf P))%nat
        by (cbn [String.length]; lia).
      now rewrite !substring_skip.
Qed.

Lemma trimStart_start (s : string) : startsWithSpace (trimStart s) = false.
Proof.
  induction s as [|c s IH]; [reflexivity|]. cbn [trimStart].
  destruct (isSpace c) eqn:E; [exact IH|]. cbn [startsWithSpace]. exact E.
Qed.

Lemma trimEnd_end (s : string) : endsWithSpace (trimEnd s) = false.
Proof.
  induction s as [|c s IH]; [reflexivity|]. cbn [trimEnd].
  destruct (trimEnd s) as [|c' t] eqn:E.
  - destruct (isSpace c) eqn:Ec; [reflexivity|]. cbn [endsWithSpace].
    exact Ec.
  - exact IH.
Qed.

Lemma trimEnd_start (s : string) :
  trimEnd s <> "" -> startsWithSpace (trimEnd s) = startsWithSpace s.
Proof.
  destruct s as [|c s]; [reflexivity|]. cbn [trimEnd].
  destruct (trimEnd s) as [|c' t]; [|reflexivity].
  destruct (isSpace c) eqn:Ec; [congruence|]. cbn [startsWithSpace].
  now rewrite Ec.
Qed.

Lemma trim_cleanText (s : string) :
  trim s <> "" -> cleanText (trim s) = true.
Proof.
  intros H. unfold cleanText.
  rewrite (proj2 (String.eqb_neq _ _) H). unfold trim in *.
  now rewrite trimEnd_start, trimStart_start, trimEnd_end.
Qed.

Lemma collectFrom_clean (nodes : list TextEntry) :
  forall offset : Z, Forall cleanNode (collectFrom offset nodes).
Proof.
  induction nodes as [|n nodes IH]; intros offset; cbn [collectFrom];
    [constructor|].
  destruct (String.eqb (trim (t_data n)) "") eqn:E; [apply IH|].
  constructor; [|apply IH]. apply trim_cleanText. now apply String.eqb_neq.
Qed.

Lemma collectFrom_contiguous (nodes : list TextEntry) :
  forall offset : Z, contiguous offset (collectFrom offset nodes).
Proof.
  induction nodes as [|n nodes IH]; intros offset; cbn [collectFrom];
    [exact I|].
  destruct (String.eqb (trim (t_data n)) ""); [apply IH|].
  cbn [contiguous tn_startOffset tn_text]. split; [reflexivity | apply IH].
Qed.

Lemma collectFrom_long (nodes : list TextEntry) :
  Forall (fun t => 3 <= len (trim (t_data t))) nodes ->
  forall offset : Z,
    Forall (fun n => 3 <= len (tn_text n)) (collectFrom offset nodes).
Proof.
  induction 1 as [|n nodes Hn _ IH]; intros offset; cbn [collectFrom];
    [constructor|].
  destruct (String.eqb (trim (t_data n)) ""); [apply IH|].
  constructor; [exact Hn | apply IH].
Qed.

Lemma contiguous_app (a b : list TextNode) :
  forall offset : Z,
    contiguous offset (a ++ b) ->
    contiguous offset a
    /\ contiguous (offset + Z.of_nat (widthOf (map tn_text a))) b.
Proof.
  induction a as [|n a IH]; intros offset H; cbn [app map widthOf] in *.
  - now rewrite Z.add_0_r.
  - destruct H as [H1 H2]. destruct (IH _ H2) as [H3 H4].
    cbn [contiguous]. repeat split; try assumption.
    replace (offset + Z.of_nat (String.length (tn_text n) + 1
                                 + widthOf (map tn_text a)))
      with (offset + len (tn_text n) + 1
            + Z.of_nat (widthOf (map tn_text a)))
      by (unfold len; lia).
    exact H4.
Qed.

Lemma contiguous_group (g : list TextNode) :
  g <> [] ->
  forall offset : Z,
    contiguous offset g ->
    startOf g = offset /\ endOf g = offset + len (joinTexts g).
Proof.
  induction g as [|n g IH]; [congruence|]. intros _ offset [H1 H2].
  split; [exact H1|]. destruct g as [|m g].
  - cbn [endOf]. now rewrite H1.
  - destruct (IH ltac:(discriminate) _ H2) as [_ IH'].
    change (endOf (n :: m :: g)) with (endOf (m :: g)). rewrite IH'.
    unfold joinTexts. cbn [map]. rewrite join_cons, !len_append.
    change (len " ") with 1. lia.
Qed.

Lemma Forall2_In_split {A B} (P : A -> B -> Prop) (l1 : list A)
    (l2 : list B) (a : A) :
  Forall2 P l1 l2 -> In a l1 ->
  exists (pre : list B) (b : B) (post : list B),
    l2 = pre ++ b :: post /\ P a b.
Proof.
  induction 1 as [|x y l1 l2 Hxy _ IH]; intros Hin; [destruct Hin|].
  destruct Hin as [<- | Hin].
  - now exists [], y, l2.
  - destruct (IH Hin) as (pre & b & post & -> & Hab).
    now exists (y :: pre), b, post.
Qed.

(** A group of fragments of a contiguous list, in the joined text. *)
Lemma group_in_full_text (pre g post : list TextNode) :
  g <> [] ->
  contiguous 0 (pre ++ g ++ post) ->
  0 <= startOf g <= endOf g
  /\ endOf g <= len (joinTexts (pre ++ g ++ post))
  /\ textBetween (startOf g) (endOf g) (joinTexts (pre ++ g ++ post))
     = joinTexts g.
Proof.
  intros Hg H. apply contiguous_app in H as [_ H].
  apply contiguous_app in H as [H _].
  destruct (contiguous_group g Hg _ H) as [-> ->].
  pose proof (len_nonneg (joinTexts g)) as Hlen.
  split; [lia|]. split.
  - unfold joinTexts, len. rewrite !map_app.
    assert (HG : map tn_text g <> [])
      by (destruct g; [congruence | discriminate]).
    rewrite length_join_app by (destruct (map tn_text g); [congruence | discriminate]).
    pose proof (length_join_prefix (map tn_text g) (map tn_text post) HG).
    lia.
  - unfold textBetween, joinTexts. rewrite !map_app.
    replace (Z.to_nat (0 + Z.of_nat (widthOf (map tn_text pre))))
      with (widthOf (map tn_text pre)) by lia.
    replace (Z.to_nat (0 + Z.of_nat (widthOf (map tn_text pre))
                       + len (join (map tn_text g))
                       - (0 + Z.of_nat (widthOf (map tn_text pre)))))
      with (String.length (join (map tn_text g))) by (unfold len; lia).
    apply substring_join. destruct g; [congruence | discriminate].
Qed.

Lemma acceptNode_long (t : TextEntry) :
  TextChunker.acceptNode t = true -> 3 <= len (trim (t_data t)).
Proof.
  unfold TextChunker.acceptNode. destruct (t_ancestors t); [discriminate|].
  destruct (_ || _); [discriminate|].
  destruct (shouldSkipElement _); [discriminate|].
  destruct (String.eqb _ _); [discriminate|].
  destruct (len (trim (t_data t)) <? 3) eqn:E; [discriminate|].
  intros _. now apply Z.ltb_ge in E.
Qed.

(** X13.  The fragments of [extractPageText] are trimmed, have three code
    units or more, and carry their offsets in the text of
    [getFullPageText]: the first one starts at 0, each next one starts one
    code unit behind the end of the one before, and each one occurs in the
    full text at its offset. *)
Theorem extractPageText_offsets (d : Document) :
  contiguous 0 (extractPageText d)
  /\ Forall (fun n =>
               cleanText (tn_text n) = true
               /\ 3 <= len (tn_text n)
               /\ occursAt (tn_startOffset n) (tn_text n) (getFullPageText d))
       (extractPageText d).
Proof.
  unfold getFullPageText, extractPageText.
  pose proof (collectFrom_contiguous (acceptedTextNodes d) 0) as Hcont.
  pose proof (collectFrom_clean (acceptedTextNodes d) 0) as Hclean.
  assert (Hlong : Forall (fun n => 3 <= len (tn_text n))
                    (collectFrom 0 (acceptedTextNodes d))).
  { apply collectFrom_long. unfold acceptedTextNodes.
    destruct (searchRoot d) as [[root anc] cs].
    apply List.Forall_forall. intros t Hin.
    apply filter_In in Hin as [_ Hin]. now apply acceptNode_long. }
  split; [exact Hcont|].
  set (l := collectFrom 0 (acceptedTextNodes d)) in *.
  apply List.Forall_forall. intros n Hin.
  split; [exact (proj1 (List.Forall_forall _ _) Hclean n Hin)|].
  split; [exact (proj1 (List.Forall_forall _ _) Hlong n Hin)|].
  apply in_split in Hin as (pre & post & E).
  assert (Hne : [n] <> []) by discriminate.
  change (pre ++ n :: post) with (pre ++ [n] ++ post) in E.
  rewrite E in Hcont.
  destruct (group_in_full_text pre [n] post Hne Hcont) as (H1 & _ & H2).
  cbn [startOf endOf] in H1, H2. unfold occursAt.
  split; [lia|]. fold (joinTexts l). rewrite E. exact H2.
Qed.

(** X14.  The offsets of a chunk are positions of the text of
    [getFullPageText]: the text of a chunk of the fragments of
    [extractPageText] is the full text between the chunk's [startOffset]
    and its [endOffset], whatever the target size is. *)
Theorem chunkText_texts_in_full_text (d : Document) (now : nat -> Z)
    (counter : nat) (targetSize : Z) :
  Forall (fun c =>
            0 <= startOffset c <= endOffset c
            /\ endOffset c <= len (getFullPageText d)
            /\ textBetween (startOffset c) (endOffset c) (getFullPageText d)
               = text c)
    (chunkText now counter (extractPageText d) targetSize).
Proof.
  unfold getFullPageText, extractPageText.
  pose proof (collectFrom_contiguous (acceptedTextNodes d) 0) as Hcont.
  pose proof (collectFrom_clean (acceptedTextNodes d) 0) as Hclean.
  set (l := collectFrom 0 (acceptedTextNodes d)) in *.
  destruct (chunkTextFrom_layout now targetSize counter l Hclean)
    as (groups & Hcat & Hne & Hholds & _).
  unfold chunkText. apply List.Forall_forall. intros c Hin.
  destruct (Forall2_In_split _ _ _ _ Hholds Hin)
    as (gpre & g & gpost & -> & H1 & H2 & H3 & _).
  rewrite concat_app in Hcat. cbn [concat] in Hcat.
  apply Forall_app in Hne as [_ Hne]. inversion Hne as [|? ? Hg _]; subst.
  fold (joinTexts l). clearbody l. subst l.
  destruct (group_in_full_text _ _ _ Hg Hcont) as (H4 & H5 & H6).
  rewrite H1, H2, H3. now repeat split.
Qed.

End OffsetFacts.

(** ** indexOf and findChunkInDOM *)

Section IndexOfFacts.
Import JsString Dom Highlighter ChunkLocation.

Lemma length_substring (s : string) :
  forall k n : nat,
    (k <= String.length s)%nat ->
    (String.length (String.substring k n s) + k <= String.length s)%nat.
Proof.
  induction s as [|c s IH]; intros k n Hk.
  - cbn [String.length] in *. destruct k, n; cbn; lia.
  - destruct k as [|k].
    + destruct n as [|n]; cbn [String.substring String.length]; [lia|].
      specialize (IH 0%nat n ltac:(lia)). lia.
    + cbn [String.length] in Hk. specialize (IH k n ltac:(lia)).
      destruct n; cbn [String.substring String.length] in *; lia.
Qed.

(** What [indexOfFrom] returns: the first position of [s] at which [t]
    occurs, counted from [i], or -1 when [t] occurs nowhere. *)
Lemma indexOfFrom_spec (t s : string) :
  forall i : Z,
    (indexOfFrom i s t = -1
     /\ forall j : nat, String.substring j (String.length t) s <> t)
    \/ exists k : nat,
         indexOfFrom i s t = i + Z.of_nat k
         /\ (k + String.length t <= String.length s)%nat
         /\ String.substring k (String.length t) s = t
         /\ forall j : nat,
              (j < k)%nat -> String.substring j (String.length t) s <> t.
Proof.
  induction s as [|c s IH]; intros i.
  - cbn [indexOfFrom]. destruct (String.prefix t "") eqn:E.
    + right. exists 0%nat. apply String.prefix_correct in E.
      rewrite Z.add_0_r. split; [reflexivity|]. split.
      * destruct t; [cbn; lia | discriminate].
      * split; [exact E | intros j Hj; lia].
    + left. split; [reflexivity|]. intros j Hj.
      assert (Ht : t = "") by (destruct j, t; cbn in Hj; congruence).
      subst t. discriminate.
  - cbn [indexOfFrom]. destruct (String.prefix t (String c s)) eqn:E.
    + right. exists 0%nat. apply String.prefix_correct in E.
      rewrite Z.add_0_r. split; [reflexivity|]. split.
      * pose proof (length_substring (String c s) 0 (String.length t)
                      ltac:(lia)) as H.
        rewrite E in H. lia.
      * split; [exact E | intros j Hj; lia].
    + assert (E0 : String.substring 0 (String.length t) (String c s) <> t).
      { intros H. apply String.prefix_correct in H. congruence. }
      destruct (IH (i + 1)) as [[H1 H2] | (k & H1 & H2 & H3 & H4)].
      * left. split; [exact H1|]. intros [|j]; [exact E0|].
        exact (H2 j).
      * right. exists (S k). split; [rewrite H1; lia|].
        split; [cbn [String.length]; lia|]. split; [exact H3|].
        intros [|j] Hj; [exact E0|]. apply (H4 j). lia.
Qed.

Lemma occursAt_substring (i : Z) (t s : string) :
  occursAt i t s
  <-> 0 <= i /\ String.substring (Z.to_nat i) (String.length t) s = t.
Proof.
  unfold occursAt, textBetween, len.
  replace (Z.to_nat (i + Z.of_nat (String.length t) - i))
    with (String.length t) by lia.
  reflexivity.
Qed.

Lemma findChunkIn_spec (chunkText searchText : string)
    (nodes : list TextEntry) :
  match findChunkIn chunkText searchText nodes with
  | Some r =>
      exists (pre : list TextEntry) (node : TextEntry) (post : list TextEntry),
        nodes = pre ++ node :: post
        /\ Forall (fun t => ~ containsText searchText t) pre
        /\ startContainer r = t_node node
        /\ endContainer r = t_node node
        /\ occursAt (startOffset r) searchText (t_data node)
        /\ (forall i, occursAt i searchText (t_data node) ->
                      startOffset r <= i)
        /\ startOffset r + len searchText <= len (t_data node)
        /\ endOffset r
           = Z.min (startOffset r + len chunkText) (len (t_data node))
  | None => Forall (fun t => ~ containsText searchText t) nodes
  end.
Proof.
  induction nodes as [|node nodes IH]; cbn [findChunkIn]; [constructor|].
  unfold indexOf.
  destruct (indexOfFrom_spec searchText (t_data node) 0)
    as [[H1 H2] | (k & H1 & H2 & H3 & H4)]; rewrite H1.
  - cbn [Z.eqb negb].
    assert (Hnot : ~ containsText searchText node).
    { intros [i Hi]. apply occursAt_substring in Hi as [_ Hi].
      exact (H2 _ Hi). }
    destruct (findChunkIn chunkText searchText nodes) as [r|].
    + destruct IH as (pre & n & post & -> & Hpre & IH).
      exists (node :: pre), n, post. split; [reflexivity|].
      split; [now constructor | exact IH].
    + now constructor.
  - rewrite (proj2 (Z.eqb_neq _ _)) by lia. cbn [negb].
    exists [], node, nodes.
    cbn [startContainer endContainer Highlighter.startOffset
         Highlighter.endOffset app].
    split; [reflexivity|]. split; [constructor|]. split; [reflexivity|].
    split; [reflexivity|]. split.
    { apply occursAt_substring. split; [lia|].
      now replace (Z.to_nat (0 + Z.of_nat k)) with k by lia. }
    split.
    { intros i Hi. apply occursAt_substring in Hi as [Hi0 Hi].
      destruct (Z.lt_ge_cases i (0 + Z.of_nat k)) as [Hlt | Hge]; [|lia].
      exfalso. apply (H4 (Z.to_nat i)); [lia | exact Hi]. }
    split; [unfold len; lia | reflexivity].
Qed.

(** X15.  [findChunkInDOM] returns a range inside the first text node of
    the body, in document order, whose data contains the first 50 code
    units of the chunk: the range starts at the first occurrence, it ends
    at most [chunkText.length] code units later and inside the node, and
    the answer is [null] exactly when no text node contains these code
    units. *)
Theorem findChunkInDOM_first_occurrence (d : Document) (chunkText : string) :
  match findChunkInDOM d chunkText with
  | Some r =>
      exists (pre : list TextEntry) (node : TextEntry) (post : list TextEntry),
        bodyTextNodes d = pre ++ node :: post
        /\ Forall (fun t => ~ containsText (take 50 chunkText) t) pre
        /\ startContainer r = t_node node
        /\ endContainer r = t_node node
        /\ occursAt (Highlighter.startOffset r) (take 50 chunkText)
             (t_data node)
        /\ (forall i, occursAt i (take 50 chunkText) (t_data node) ->
                      Highlighter.startOffset r <= i)
        /\ 0 <= Highlighter.startOffset r <= Highlighter.endOffset r
        /\ Highlighter.endOffset r <= len (t_data node)
        /\ Highlighter.endOffset r - Highlighter.startOffset r
           <= len chunkText
  | None =>
      Forall (fun t => ~ containsText (take 50 chunkText) t) (bodyTextNodes d)
  end.
Proof.
  unfold findChunkInDOM.
  pose proof (findChunkIn_spec chunkText (take 50 chunkText)
                (bodyTextNodes d)) as H.
  destruct (findChunkIn chunkText (take 50 chunkText) (bodyTextNodes d))
    as [r|]; [|exact H].
  destruct H as (pre & node & post & E & Hpre & Hs & He & Hocc & Hfirst
                 & Hfit & Hend).
  exists pre, node, post. repeat (split; [assumption|]).
  pose proof (len_nonneg chunkText) as Hc.
  pose proof (len_nonneg (take 50 chunkText)) as Ht.
  destruct Hocc as [H0 _]. lia.
Qed.

End IndexOfFacts.

(** ** What CSS.highlights shows *)

Section RenderingFacts.
Import JsString Dom Highlighter.

Lemma names_differ : HIGHLIGHT_NAME <> ACTIVE_HIGHLIGHT_NAME.
Proof. discriminate. Qed.

Lemma In_entries (m : gmap string (list Range)) (f : string -> bool)
    (r : Range) :
  In r (flat_map snd (List.filter (fun kv => f (fst kv)) (map_to_list m)))
  <-> exists (chunkId : string) (l : list Range),
        m !! chunkId = Some l /\ f chunkId = true /\ In r l.
Proof.
  rewrite in_flat_map. split.
  - intros ([chunkId l] & Hin & Hr). apply filter_In in Hin as [Hin Hf].
    apply list_elem_of_In, elem_of_map_to_list in Hin. now exists chunkId, l.
  - intros (chunkId & l & Hm & Hf & Hr). exists (chunkId, l).
    split; [|exact Hr]. apply filter_In. split; [|exact Hf].
    now apply list_elem_of_In, elem_of_map_to_list.
Qed.

Lemma rendered_ext (p p' : Page) :
  highlightedChunks p' = highlightedChunks p ->
  activeHighlightId p' = activeHighlightId p ->
  highlights p' = highlights p ->
  rendered p -> rendered p'.
Proof.
  unfold rendered, shown, registered, isActive. intros -> -> ->. auto.
Qed.

Lemma registered_lookup (l : list Range) :
  (if (0 <? length l)%nat then Some l else None) <> Some [].
Proof. destruct l; cbn [length Nat.ltb Nat.leb]; congruence. Qed.

Lemma updateHighlights_lookup (p : Page) :
  let entries := map_to_list (highlightedChunks p) in
  let allRanges :=
    flat_map snd
      (List.filter (fun kv => negb (isActive p (fst kv))) entries) in
  let activeRanges :=
    flat_map snd (List.filter (fun kv => isActive p (fst kv)) entries) in
  highlights (updateHighlights true p) !! HIGHLIGHT_NAME
  = (if (0 <? length allRanges)%nat then Some allRanges else None)
  /\ highlights (updateHighlights true p) !! ACTIVE_HIGHLIGHT_NAME
     = (if (0 <? length activeRanges)%nat then Some activeRanges else None)
  /\ forall name : string,
       name <> HIGHLIGHT_NAME -> name <> ACTIVE_HIGHLIGHT_NAME ->
       highlights (updateHighlights true p) !! name = highlights p !! name.
Proof.
  intros entries allRanges activeRanges. unfold updateHighlights.
  cbn [negb highlights withHighlights].
  fold entries. fold allRanges. fold activeRanges.
  pose proof names_differ as Hne.
  destruct (0 <? length allRanges)%nat, (0 <? length activeRanges)%nat;
    repeat split;
    try (intros name H1 H2);
    rewrite ?lookup_insert_eq;
    rewrite ?lookup_insert_ne by congruence;
    rewrite ?lookup_insert_eq;
    rewrite ?lookup_delete_eq;
    rewrite ?lookup_delete_ne by congruence;
    rewrite ?lookup_delete_eq;
    rewrite ?lookup_delete_ne by congruence;
    reflexivity.
Qed.

Lemma shown_lookup (name : string) (p : Page) (l : list Range) (r : Range) :
  highlights p !! name = (if (0 <? length l)%nat then Some l else None) ->
  shown name p r <-> In r l.
Proof.
  intros E. unfold shown. rewrite E. destruct l as [|x l];
    cbn [length Nat.ltb Nat.leb]; split.
  - now intros (l' & [=] & _).
  - intros [].
  - now intros (l' & [= <-] & H).
  - intros H. eauto.
Qed.

Lemma updateHighlights_rendered (p : Page) :
  rendered (updateHighlights true p).
Proof.
  destruct (updateHighlights_lookup p) as (HH & HA & _).
  destruct (updateHighlights_same true p) as (Hc & Ha & _).
  split; [|rewrite HH, HA; split; apply registered_lookup].
  intros r. rewrite (shown_lookup _ _ _ r HH), (shown_lookup _ _ _ r HA).
  rewrite (In_entries (highlightedChunks p)
             (fun chunkId => negb (isActive p chunkId)) r).
  rewrite (In_entries (highlightedChunks p) (isActive p) r).
  unfold registered, isActive. rewrite Hc, Ha. fold (isActive p).
  split; split; intros (chunkId & l & H1 & H2 & H3); exists chunkId, l;
    repeat split; try assumption.
  - now apply negb_true_iff in H2.
  - now apply negb_true_iff.
Qed.

Lemma highlightText_rendered (p : Page) (chunkId searchText : string) :
  rendered (snd (highlightText true p chunkId searchText)).
Proof.
  unfold highlightText. cbn [negb].
  set (p1 := removeHighlight true p chunkId).
  destruct (injectHighlightStyles_same p1) as (Hc & Ha & Hh & _).
  destruct (length (findTextRanges _ searchText) =? 0)%nat; cbn [snd].
  - apply (rendered_ext p1); try assumption.
    apply updateHighlights_rendered.
  - apply updateHighlights_rendered.
Qed.

Lemma setActiveHighlight_rendered (p : Page) (chunkId : string) :
  rendered (setActiveHighlight true p chunkId).
Proof.
  unfold setActiveHighlight.
  pose proof (updateHighlights_rendered (withActive p (Some chunkId))) as H.
  destruct (highlightedChunks _ !! chunkId) as [[|range l]|]; try exact H.
  destruct (parentElement _ _); exact H.
Qed.

Lemma clearAllHighlights_rendered (p : Page) :
  rendered (clearAllHighlights true p).
Proof.
  unfold rendered, shown, registered, clearAllHighlights.
  cbn [highlights highlightedChunks withHighlights withActive withChunks].
  pose proof names_differ as Hne.
  rewrite lookup_delete_ne, !lookup_delete_eq by congruence.
  split; [|split; discriminate].
  intros r. split; split; try (intros (l & [=] & _)).
  - intros (chunkId & l & H & _). now rewrite lookup_empty in H.
  - intros (chunkId & l & H & _). now rewrite lookup_empty in H.
Qed.

Lemma run_rendered (p : Page) (c : Call) :
  isOperation c = true -> rendered (run true p c).
Proof.
  destruct c as [chunkId searchText | chunkId | chunkId | | d];
    cbn [run isOperation]; intros H.
  - apply highlightText_rendered.
  - apply updateHighlights_rendered.
  - apply setActiveHighlight_rendered.
  - apply clearAllHighlights_rendered.
  - discriminate.
Qed.

Lemma runAll_rendered (calls : list Call) :
  forall p : Page, rendered p -> rendered (runAll true p calls).
Proof.
  induction calls as [|c calls IH]; intros p Hp; [exact Hp|].
  unfold runAll in *. cbn [fold_left]. apply IH.
  destruct (isOperation c) eqn:E; [now apply run_rendered|].
  destruct c; try discriminate. cbn [run]. now apply (rendered_ext p).
Qed.

(** X16.  With the CSS Custom Highlight API, [CSS.highlights] shows the
    registry after every call of the module, and a change of the page
    does not alter that: the active highlight holds the ranges of the
    active entry, the other highlight holds the ranges of all other
    entries, and a highlight with no range is not registered, also when
    the page had registered one under a name of the module before the
    first call. *)
Theorem highlights_show_registry (p : Page) (calls : list Call) :
  rendered p
  \/ (exists c rest, calls = c :: rest /\ isOperation c = true) ->
  rendered (runAll true p calls).
Proof.
  intros [H | (c & rest & -> & H)].
  - now apply runAll_rendered.
  - unfold runAll. cbn [fold_left]. apply (runAll_rendered rest).
    now apply run_rendered.
Qed.

Lemma highlights_show_registry_witness :
  let p := initialPage {[ HIGHLIGHT_NAME := [] ]} Samples.helloWorld in
  let calls := [HighlightText "chunk-1" "Hello world";
                SetActiveHighlight "chunk-1"] in
  (rendered p
   \/ (exists c rest, calls = c :: rest /\ isOperation c = true))
  /\ highlights p !! HIGHLIGHT_NAME = Some []
  /\ rendered (runAll true p calls).
Proof.
  intros p calls.
  assert (H : rendered p
              \/ (exists c rest, calls = c :: rest /\ isOperation c = true)).
  { right. exists (HighlightText "chunk-1" "Hello world"),
                  [SetActiveHighlight "chunk-1"].
    split; reflexivity. }
  split; [exact H|]. split; [reflexivity|].
  exact (highlights_show_registry p calls H).
Defined.

Lemma run_other_highlights (api : bool) (p : Page) (c : Call)
    (name : string) :
  name <> HIGHLIGHT_NAME -> name <> ACTIVE_HIGHLIGHT_NAME ->
  highlights (run api p c) !! name = highlights p !! name.
Proof.
  intros H1 H2.
  assert (Hupdate : forall q : Page,
             highlights (updateHighlights api q) !! name
             = highlights q !! name).
  { intros q. destruct api; [|reflexivity].
    destruct (updateHighlights_lookup q) as (_ & _ & H). now apply H. }
  destruct c as [chunkId searchText | chunkId | chunkId | | d]; cbn [run].
  - unfold highlightText.
    set (p1 := removeHighlight api p chunkId).
    assert (E1 : highlights p1 !! name = highlights p !! name).
    { unfold p1, removeHighlight. rewrite Hupdate.
      destruct (isActive _ chunkId); reflexivity. }
    destruct api; cbn [negb].
    + destruct (injectHighlightStyles_same p1) as (_ & _ & Hh & _).
      destruct (length (findTextRanges _ searchText) =? 0)%nat; cbn [snd].
      * now rewrite Hh.
      * rewrite Hupdate. cbn [highlights withChunks]. now rewrite Hh.
    + destruct (highlightTextFallback_registry p1 chunkId searchText)
        as (_ & Hh & _).
      cbv zeta in Hh. now rewrite Hh.
  - unfold removeHighlight. rewrite Hupdate.
    destruct (isActive _ chunkId); reflexivity.
  - unfold setActiveHighlight.
    pose proof (Hupdate (withActive p (Some chunkId))) as H.
    destruct (highlightedChunks _ !! chunkId) as [[|range l]|];
      try exact H.
    destruct (parentElement _ _); exact H.
  - unfold clearAllHighlights. destruct api; [|reflexivity].
    cbn [highlights withHighlights withActive withChunks].
    now rewrite !lookup_delete_ne by congruence.
  - reflexivity.
Qed.

(** X17.  The module owns two names of [CSS.highlights] and touches no
    other: whatever is registered under another name stays as it is,
    through every sequence of calls and with either backend. *)
Theorem other_highlights_untouched (api : bool) (p : Page)
    (calls : list Call) (name : string) :
  name <> HIGHLIGHT_NAME -> name <> ACTIVE_HIGHLIGHT_NAME ->
  highlights (runAll api p calls) !! name = highlights p !! name.
Proof.
  intros H1 H2. revert p. induction calls as [|c calls IH]; intros p;
    [reflexivity|].
  unfold runAll in *. cbn [fold_left]. rewrite IH.
  now apply run_other_highlights.
Qed.

Lemma other_highlights_untouched_witness :
  let range := {| startContainer := 4; startOffset := 0;
                  endContainer := 4; endOffset := 5 |} in
  let p := initialPage {[ "spelling" := [range] ]} Samples.helloWorld in
  let calls := [HighlightText "chunk-1" "Hello world";
                SetActiveHighlight "chunk-1"; ClearAllHighlights] in
  "spelling" <> HIGHLIGHT_NAME
  /\ "spelling" <> ACTIVE_HIGHLIGHT_NAME
  /\ highlights (runAll true p calls) !! "spelling"
     = highlights p !! "spelling".
Proof.
  intros range p calls.
  assert (H1 : "spelling" <> HIGHLIGHT_NAME) by discriminate.
  assert (H2 : "spelling" <> ACTIVE_HIGHLIGHT_NAME) by discriminate.
  split; [exact H1|]. split; [exact H2|].
  exact (other_highlights_untouched true p calls "spelling" H1 H2).
Defined.

End RenderingFacts.

(** ** The document under the two backends *)

Section DocumentFacts.
Import JsString Dom Highlighter.

Lemma Node_induction (P : Node -> Prop) :
  (forall (nid : nat) (data : string), P (Text nid data)) ->
  (forall (e : Element) (cs : list Node), Forall P cs -> P (Elem e cs)) ->
  forall n : Node, P n.
Proof.
  intros HT HE. fix IH 1. intros [nid data | e cs].
  - apply HT.
  - apply HE. induction cs as [|c cs IHcs]; constructor;
      [apply IH | exact IHcs].
Qed.

Lemma injectHighlightStyles_document (p : Page) :
  document (injectHighlightStyles p) = document p
  \/ (anyElement
        (fun e => String.eqb (idAttr e) "semantic-find-highlight-styles")
        (documentElement (document p)) = false
      /\ html (document (injectHighlightStyles p)) = html (document p)
      /\ head (document (injectHighlightStyles p)) = head (document p)
      /\ body (document (injectHighlightStyles p)) = body (document p)
      /\ bodyChildren (document (injectHighlightStyles p))
         = bodyChildren (document p)
      /\ exists style,
           headChildren (document (injectHighlightStyles p))
           = headChildren (document p) ++ [style]
           /\ isHighlightStyle style).
Proof.
  unfold injectHighlightStyles.
  destruct (anyElement _ (documentElement (document p))) eqn:E;
    [now left|].
  right. cbn [document withDocument html head body bodyChildren headChildren].
  repeat (split; [reflexivity|]). eexists. split; [reflexivity|].
  cbn [isHighlightStyle tagName idAttr]. auto.
Qed.

Lemma injectHighlightStyles_found (p : Page) :
  anyElement
    (fun e => String.eqb (idAttr e) "semantic-find-highlight-styles")
    (documentElement (document (injectHighlightStyles p))) = true.
Proof.
  unfold injectHighlightStyles.
  destruct (anyElement _ (documentElement (document p))) eqn:E;
    [exact E|].
  cbn [document withDocument documentElement anyElement html head body
       headChildren bodyChildren existsb].
  rewrite existsb_app. cbn [existsb anyElement idAttr].
  rewrite String.eqb_refl. cbn [orb]. now rewrite !orb_true_r.
Qed.

Lemma run_api_document (p : Page) (c : Call) :
  isOperation c = true ->
  document (run true p c) = document p
  \/ document (run true p c) = document (injectHighlightStyles p).
Proof.
  destruct c as [chunkId searchText | chunkId | chunkId | | d];
    cbn [run isOperation]; intros H; try discriminate.
  - right. unfold highlightText. cbn [negb].
    destruct (removeHighlight_registry true p chunkId) as (_ & _ & Hd & _).
    set (p1 := removeHighlight true p chunkId) in *.
    assert (E : document (injectHighlightStyles p1)
                = document (injectHighlightStyles p)).
    { unfold injectHighlightStyles. rewrite Hd.
      destruct (anyElement _ _); [exact Hd | reflexivity]. }
    destruct (length (findTextRanges _ searchText) =? 0)%nat; cbn [snd].
    + exact E.
    + destruct (updateHighlights_same true
                  (withChunks (injectHighlightStyles p1)
                     (<[chunkId := findTextRanges
                                     (document (injectHighlightStyles p1))
                                     searchText]>
                        (highlightedChunks (injectHighlightStyles p1)))))
        as (_ & _ & Hd' & _).
      rewrite Hd'. exact E.
  - left. now destruct (removeHighlight_registry true p chunkId)
      as (_ & _ & Hd & _).
  - left. unfold setActiveHighlight.
    destruct (updateHighlights_same true (withActive p (Some chunkId)))
      as (_ & _ & Hd & _).
    destruct (highlightedChunks _ !! chunkId) as [[|range l]|];
      try exact Hd.
    destruct (parentElement _ _); exact Hd.
  - left. reflexivity.
Qed.

Lemma sameButStyle_refl (d : Document) : sameButStyle d d.
Proof. unfold sameButStyle. auto 10. Qed.

Lemma sameButStyle_found (d d' : Document) :
  sameButStyle d d' ->
  headChildren d' <> headChildren d ->
  anyElement
    (fun e => String.eqb (idAttr e) "semantic-find-highlight-styles")
    (documentElement d') = true.
Proof.
  intros (_ & _ & _ & _ & [H | (style & H & Hs)]) Hne; [congruence|].
  unfold documentElement. cbn [anyElement existsb]. rewrite H, existsb_app.
  destruct style as [|e [|[nid data|] []]]; try destruct Hs.
  destruct H1 as [H1 _]. cbn [existsb anyElement]. rewrite H1.
  rewrite String.eqb_refl. cbn [orb]. now rewrite !orb_true_r.
Qed.

Lemma sameButStyle_step (d0 : Document) (p : Page) :
  sameButStyle d0 (document p) ->
  sameButStyle d0 (document (injectHighlightStyles p)).
Proof.
  intros H.
  destruct (injectHighlightStyles_document p)
    as [E | (Habsent & E1 & E2 & E3 & E4 & style & E5 & Hs)];
    [now rewrite E|].
  pose proof H as (H1 & H2 & H3 & H4 & H5).
  unfold sameButStyle. rewrite E1, E2, E3, E4, E5.
  repeat (split; [assumption|]).
  destruct H5 as [H5 | H5].
  - right. exists style. now rewrite H5.
  - exfalso. assert (Hne : headChildren (document p) <> headChildren d0).
    { destruct H5 as (style0 & H5 & _). rewrite H5. intros E.
      apply (f_equal (@length Node)) in E. rewrite length_app in E.
      cbn [length] in E. lia. }
    rewrite (sameButStyle_found d0 (document p) H Hne) in Habsent.
    discriminate.
Qed.

(** X18.  With the CSS Custom Highlight API the module leaves the
    document alone: through every sequence of calls the children of
    [<body>] stay as they are, and [<head>] gains at most one element, the
    [<style>] element with the rules of the two highlights. *)
Theorem api_backend_keeps_document (p : Page) (calls : list Call) :
  Forall (fun c => isOperation c = true) calls ->
  sameButStyle (document p) (document (runAll true p calls)).
Proof.
  intros H. generalize (sameButStyle_refl (document p)).
  generalize (document p) at 1 3. revert p.
  induction H as [|c calls Hc _ IH]; intros p d0 H0; [exact H0|].
  unfold runAll in *. cbn [fold_left]. apply IH.
  destruct (run_api_document p c Hc) as [E | E]; rewrite E;
    [exact H0 | now apply sameButStyle_step].
Qed.

Lemma api_backend_keeps_document_witness :
  let p := initialPage ∅ Samples.helloWorld in
  let calls := [HighlightText "chunk-1" "Hello world";
                HighlightText "chunk-2" "world";
                SetActiveHighlight "chunk-1"; ClearAllHighlights] in
  Forall (fun c => isOperation c = true) calls
  /\ sameButStyle (document p) (document (runAll true p calls)).
Proof.
  intros p calls.
  assert (H : Forall (fun c => isOperation c = true) calls)
    by (repeat constructor).
  split; [exact H|].
  exact (api_backend_keeps_document p calls H).
Defined.

Lemma run_fallback_highlights (p : Page) (c : Call) :
  highlights (run false p c) = highlights p.
Proof.
  destruct c as [chunkId searchText | chunkId | chunkId | | d]; cbn [run].
  - unfold highlightText. cbn [negb].
    destruct (highlightTextFallback_registry
                (removeHighlight false p chunkId) chunkId searchText)
      as (_ & Hh & _).
    cbv zeta in Hh. rewrite Hh. unfold removeHighlight.
    now destruct (isActive _ chunkId).
  - unfold removeHighlight. now destruct (isActive _ chunkId).
  - unfold setActiveHighlight. cbn [updateHighlights negb].
    destruct (highlightedChunks _ !! chunkId) as [[|range l]|];
      try reflexivity.
    now destruct (parentElement _ _).
  - reflexivity.
  - reflexivity.
Qed.

(** X19.  Without the CSS Custom Highlight API the module never touches
    [CSS.highlights]: the registry of the page is the same after every
    sequence of calls. *)
Theorem fallback_leaves_css_highlights (p : Page) (calls : list Call) :
  highlights (runAll false p calls) = highlights p.
Proof.
  revert p. induction calls as [|c calls IH]; intros p; [reflexivity|].
  unfold runAll in *. cbn [fold_left]. rewrite IH.
  apply run_fallback_highlights.
Qed.

Lemma textOf_app (a b : list Node) : textOf (a ++ b) = textOf a +:+ textOf b.
Proof.
  induction a as [|n a IH]; cbn [app textOf fold_right].
  - now rewrite append_nil_l.
  - fold (textOf (a ++ b)). fold (textOf a). now rewrite IH, append_assoc.
Qed.

Lemma textOf_flat_map (f : Node -> list Node) (l : list Node) :
  Forall (fun n => textOf (f n) = textContent n) l ->
  textOf (flat_map f l) = textOf l.
Proof.
  induction 1 as [|n l Hn _ IH]; [reflexivity|].
  cbn [flat_map]. rewrite textOf_app, Hn, IH. reflexivity.
Qed.






End DocumentFacts.

(** ** The registry after a successful highlightText, and removeHighlight *)

Section RegistryMore.
Import JsString Dom Highlighter.

Lemma firstFound_length (d : Document) (l : list string) :
  (length (firstFound d l) <= 1)%nat.
Proof.
  induction l as [|s l IH]; cbn [firstFound length]; [lia|].
  destruct (String.eqb s "" || (len s <? 3)); [exact IH|].
  destruct (findRangeForText d s); [cbn [length]; lia | exact IH].
Qed.

Lemma findTextRanges_length (d : Document) (searchText : string) :
  (length (findTextRanges d searchText) <= 1)%nat.
Proof.
  unfold findTextRanges.
  destruct (len (normalizeText searchText) <? 3); [cbn [length]; lia|].
  apply firstFound_length.
Qed.

Lemma highlightTextFallback_success (p : Page) (chunkId searchText : string) :
  fst (highlightTextFallback p chunkId searchText) = true ->
  exists ranges,
    ranges <> []
    /\ highlightedChunks (snd (highlightTextFallback p chunkId searchText))
       = <[chunkId := ranges]> (highlightedChunks p).
Proof.
  unfold highlightTextFallback.
  destruct (findRangeForText (document p) (normalizeText searchText))
    as [range|]; [|discriminate].
  destruct (startContainer range =? endContainer range)%nat.
  - destruct (surroundContents _ _ _) as [[d wrapped]|]; [|discriminate].
    intros _. exists [wrapped]. split; [discriminate | reflexivity].
  - destruct (wrapPieces chunkId (document p) []
                (getTextNodesInRange (document p) range)) as [d ranges].
    destruct ranges as [|r ranges]; [discriminate|].
    intros _. exists (r :: ranges). split; [discriminate | reflexivity].
Qed.

(** X21.  After a successful [highlightText(id, text)] the registry has
    an entry for [id] with at least one range (exactly one with the CSS
    Custom Highlight API), every other id has an entry exactly when it had
    one, with as many ranges as before, the count grows by one unless [id]
    had an entry, and [id] is no longer the active id if it was.  With the
    CSS Custom Highlight API, which leaves the children of [<body>] alone,
    the ranges of the other entries also keep their boundary points; the
    fallback inserts spans, which moves the live ranges that are stored
    for the same parent, and nothing is said of their boundary points. *)
Theorem highlightText_success (api : bool) (p : Page)
    (chunkId searchText : string) :
  fst (highlightText api p chunkId searchText) = true ->
  let p' := snd (highlightText api p chunkId searchText) in
  exists ranges,
    ranges <> []
    /\ (if api then length ranges = 1%nat else True)
    /\ highlightedChunks p' !! chunkId = Some ranges
    /\ (forall other, other <> chunkId ->
          option_map (@length Range) (highlightedChunks p' !! other)
          = option_map (@length Range) (highlightedChunks p !! other))
    /\ (api = true ->
        forall other, other <> chunkId ->
          highlightedChunks p' !! other = highlightedChunks p !! other)
    /\ getHighlightCount p'
       = match highlightedChunks p !! chunkId with
         | Some _ => getHighlightCount p
         | None => getHighlightCount p + 1
         end
    /\ activeHighlightId p'
       = (if isActive p chunkId then None else activeHighlightId p).
Proof.
  intros Hok p'.
  destruct (highlightText_registry api p chunkId searchText) as (Ha & _ & _).
  cbv zeta in Ha. fold p' in Ha.
  assert (H : exists ranges,
             ranges <> []
             /\ (if api then length ranges = 1%nat else True)
             /\ highlightedChunks p'
                = <[chunkId := ranges]> (delete chunkId (highlightedChunks p))).
  { unfold p'. clear p' Ha. revert Hok. unfold highlightText.
    destruct (removeHighlight_registry api p chunkId) as (Hc & _).
    set (p1 := removeHighlight api p chunkId) in *.
    destruct api; cbn [negb].
    - destruct (injectHighlightStyles_same p1) as (Hc2 & _).
      set (p2 := injectHighlightStyles p1) in *.
      pose proof (findTextRanges_length (document p2) searchText) as Hlen.
      destruct (findTextRanges (document p2) searchText) as [|r ranges] eqn:E;
        [discriminate|].
      cbn [length Nat.eqb fst snd]. intros _. exists (r :: ranges).
      split; [discriminate|]. split; [cbn [length] in *; lia|].
      destruct (updateHighlights_same true
                  (withChunks p2
                     (<[chunkId := r :: ranges]> (highlightedChunks p2))))
        as (Hc3 & _).
      rewrite Hc3. cbn [highlightedChunks withChunks]. now rewrite Hc2, Hc.
    - intros Hok.
      destruct (highlightTextFallback_success p1 chunkId searchText Hok)
        as (ranges & Hne & E).
      exists ranges. split; [exact Hne|]. split; [exact I|].
      now rewrite E, Hc. }
  destruct H as (ranges & Hne & Hlen & E). exists ranges.
  split; [exact Hne|]. split; [exact Hlen|]. rewrite E. split.
  { apply lookup_insert_eq. }
  assert (Hothers : forall other, other <> chunkId ->
             <[chunkId := ranges]> (delete chunkId (highlightedChunks p))
               !! other
             = highlightedChunks p !! other).
  { intros other Hother.
    rewrite lookup_insert_ne, lookup_delete_ne by congruence. reflexivity. }
  split; [intros other Hother; now rewrite Hothers|].
  split; [intros _; exact Hothers|].
  split; [|exact Ha].
  unfold getHighlightCount. rewrite E, insert_delete_eq, map_size_insert.
  destruct (highlightedChunks p !! chunkId); cbn [id]; lia.
Qed.

Lemma highlightText_success_witness :
  let p := initialPage ∅ Samples.twoParagraphs in
  fst (highlightText true p "chunk-1" "Second test content") = true
  /\ let p' := snd (highlightText true p "chunk-1" "Second test content") in
     exists ranges,
       ranges <> []
       /\ length ranges = 1%nat
       /\ highlightedChunks p' !! "chunk-1" = Some ranges
       /\ (forall other, other <> "chunk-1" ->
             option_map (@length Range) (highlightedChunks p' !! other)
             = option_map (@length Range) (highlightedChunks p !! other))
       /\ (true = true ->
           forall other, other <> "chunk-1" ->
             highlightedChunks p' !! other = highlightedChunks p !! other)
       /\ getHighlightCount p'
          = match highlightedChunks p !! "chunk-1" with
            | Some _ => getHighlightCount p
            | None => getHighlightCount p + 1
            end
       /\ activeHighlightId p'
          = (if isActive p "chunk-1" then None else activeHighlightId p).
Proof.
  intros p.
  assert (H : fst (highlightText true p "chunk-1" "Second test content")
              = true) by (vm_compute; reflexivity).
  split; [exact H|].
  exact (highlightText_success true p "chunk-1" "Second test content" H).
Defined.

Lemma render_again (h : gmap string (list Range))
    (allRanges activeRanges : list Range) :
  let h0 := delete ACTIVE_HIGHLIGHT_NAME (delete HIGHLIGHT_NAME h) in
  let h1 := if (0 <? length allRanges)%nat
            then <[HIGHLIGHT_NAME := allRanges]> h0 else h0 in
  let h2 := if (0 <? length activeRanges)%nat
            then <[ACTIVE_HIGHLIGHT_NAME := activeRanges]> h1 else h1 in
  delete ACTIVE_HIGHLIGHT_NAME (delete HIGHLIGHT_NAME h2) = h0.
Proof.
  intros h0 h1 h2. pose proof names_differ as Hne.
  apply map_eq. intros name. subst h0 h1 h2.
  destruct (decide (name = ACTIVE_HIGHLIGHT_NAME)) as [-> | H1];
    [now rewrite !lookup_delete_eq|].
  rewrite !(lookup_delete_ne _ ACTIVE_HIGHLIGHT_NAME name) by congruence.
  destruct (decide (name = HIGHLIGHT_NAME)) as [-> | H2];
    [now rewrite !lookup_delete_eq|].
  rewrite !(lookup_delete_ne _ HIGHLIGHT_NAME name) by congruence.
  destruct (0 <? length activeRanges)%nat, (0 <? length allRanges)%nat;
    rewrite ?lookup_insert_ne by congruence;
    rewrite ?lookup_insert_ne by congruence;
    now rewrite !lookup_delete_ne by congruence.
Qed.

Lemma updateHighlights_idempotent (api : bool) (p : Page) :
  updateHighlights api (updateHighlights api p) = updateHighlights api p.
Proof.
  destruct api; [|reflexivity]. destruct p as [m a h d s].
  unfold updateHighlights, withHighlights, isActive.
  cbn [negb highlightedChunks activeHighlightId highlights document scrolls].
  f_equal. now rewrite render_again.
Qed.

(** X22.  [removeHighlight(id)] removes the entry of [id] and nothing
    else, resets the active id when it is [id], and leaves the document
    alone; a second call changes nothing any more. *)
Theorem removeHighlight_once (api : bool) (p : Page) (chunkId : string) :
  let p' := removeHighlight api p chunkId in
  highlightedChunks p' !! chunkId = None
  /\ (forall other, other <> chunkId ->
        highlightedChunks p' !! other = highlightedChunks p !! other)
  /\ activeHighlightId p' <> Some chunkId
  /\ (activeHighlightId p <> Some chunkId ->
      activeHighlightId p' = activeHighlightId p)
  /\ document p' = document p
  /\ removeHighlight api p' chunkId = p'.
Proof.
  destruct (removeHighlight_registry api p chunkId) as (Hc & Ha & Hd & _).
  cbv zeta. rewrite Hc, Ha, Hd.
  split; [apply lookup_delete_eq|].
  split; [intros other H; now apply lookup_delete_ne|].
  split.
  { destruct (isActive p chunkId) eqn:E; [discriminate|].
    intros H. apply isActive_true in H. congruence. }
  split.
  { intros H. destruct (isActive p chunkId) eqn:E; [|reflexivity].
    apply isActive_true in E. congruence. }
  split; [reflexivity|].
  unfold removeHighlight at 1.
  assert (Hinactive : isActive (removeHighlight api p chunkId) chunkId
                      = false).
  { unfold isActive. rewrite Ha.
    destruct (isActive p chunkId) eqn:E; [reflexivity|].
    unfold isActive in E. exact E. }
  assert (E : withChunks (removeHighlight api p chunkId)
                (delete chunkId
                   (highlightedChunks (removeHighlight api p chunkId)))
              = removeHighlight api p chunkId).
  { rewrite Hc.
    replace (delete chunkId (delete chunkId (highlightedChunks p)))
      with (delete chunkId (highlightedChunks p)).
    - rewrite <- Hc. now destruct (removeHighlight api p chunkId).
    - apply map_eq. intros name.
      destruct (decide (name = chunkId)) as [-> | H];
        [now rewrite !lookup_delete_eq|].
      now rewrite !lookup_delete_ne by congruence. }
  cbv zeta.
  replace (isActive
             (withChunks (removeHighlight api p chunkId)
                (delete chunkId
                   (highlightedChunks (removeHighlight api p chunkId))))
             chunkId) with false by (now rewrite E, Hinactive).
  rewrite E. unfold removeHighlight. apply updateHighlights_idempotent.
Qed.

End RegistryMore.

(** ** mapNormalizedToActual against the collapsing of white space *)

Section MappingFacts.
Import JsString Dom Highlighter.

Lemma take_cons (n : nat) (c : ascii) (s : string) :
  take (S n) (String c s) = String c (take n s).
Proof. reflexivity. Qed.

(** The loop of [mapNormalizedToActual], from a position [i] at which
    [normIndex] code units of the collapsed text have been counted. *)
Lemma mapLoop_collapsed (text : string) (normalizedPos : Z) (rest : string) :
  forall (i normIndex : Z) (inWhitespace : bool),
    i + len rest = len text ->
    normIndex <= normalizedPos ->
    let r := mapLoop text normalizedPos i normIndex inWhitespace rest in
    i <= r <= len text
    /\ normIndex
       + len (replaceSpaceRuns inWhitespace (take (Z.to_nat (r - i)) rest))
       = Z.min normalizedPos
           (normIndex + len (replaceSpaceRuns inWhitespace rest))
    /\ forall j : Z,
         i <= j < r ->
         normIndex
         + len (replaceSpaceRuns inWhitespace (take (Z.to_nat (j - i)) rest))
         < normalizedPos.
Proof.
  induction rest as [|c rest IH]; intros i normIndex inWhitespace Hlen Hk r.
  - subst r. cbn [mapLoop]. change (len "") with 0 in *.
    replace (take (Z.to_nat (len text - i)) "") with ""
      by (now destruct (Z.to_nat (len text - i))).
    cbn [replaceSpaceRuns]. change (len "") with 0. repeat split; lia.
  - rewrite len_cons in Hlen. pose proof (len_nonneg rest) as Hrest.
    subst r. cbn [mapLoop].
    destruct (normalizedPos <=? normIndex) eqn:Hdone.
    + apply Z.leb_le in Hdone. rewrite Z.sub_diag.
      change (take (Z.to_nat 0) (String c rest)) with "".
      change (replaceSpaceRuns inWhitespace "") with "".
      change (len "") with 0.
      pose proof (len_nonneg (replaceSpaceRuns inWhitespace (String c rest))).
      repeat split; lia.
    + apply Z.leb_gt in Hdone.
      assert (Hcase :
                forall (k : Z) (w : bool),
                  k <= normalizedPos ->
                  (forall t : string,
                      normIndex
                      + len (replaceSpaceRuns inWhitespace (String c t))
                      = k + len (replaceSpaceRuns w t)) ->
                  let r := mapLoop text normalizedPos (i + 1) k w rest in
                  i <= r <= len text
                  /\ normIndex
                     + len (replaceSpaceRuns inWhitespace
                              (take (Z.to_nat (r - i)) (String c rest)))
                     = Z.min normalizedPos
                         (normIndex
                          + len (replaceSpaceRuns inWhitespace
                                   (String c rest)))
                  /\ forall j : Z,
                       i <= j < r ->
                       normIndex
                       + len (replaceSpaceRuns inWhitespace
                                (take (Z.to_nat (j - i)) (String c rest)))
                       < normalizedPos).
      { intros k w Hkw Hcount r.
        destruct (IH (i + 1) k w ltac:(lia) Hkw) as (H1 & H2 & H3).
        fold r in H1, H2, H3. split; [lia|]. split.
        - replace (Z.to_nat (r - i)) with (S (Z.to_nat (r - (i + 1))))
            by lia.
          rewrite take_cons, !Hcount. exact H2.
        - intros j Hj. destruct (Z.eq_dec j i) as [-> | Hne].
          + rewrite Z.sub_diag.
            change (take (Z.to_nat 0) (String c rest)) with "".
            change (replaceSpaceRuns inWhitespace "") with "".
            change (len "") with 0. lia.
          + replace (Z.to_nat (j - i)) with (S (Z.to_nat (j - (i + 1))))
              by lia.
            rewrite take_cons, Hcount. apply H3. lia. }
      destruct (isSpace c) eqn:Hc; [destruct inWhitespace; cbn [negb]|].
      * apply Hcase; [lia|]. intros t. cbn [replaceSpaceRuns].
        now rewrite Hc.
      * apply Hcase; [lia|]. intros t. cbn [replaceSpaceRuns].
        rewrite Hc, len_cons. lia.
      * apply Hcase; [lia|]. intros t. cbn [replaceSpaceRuns].
        rewrite Hc, len_cons. lia.
Qed.

Lemma mapLoop_monotone (text : string) (n m : Z) (rest : string) :
  n <= m ->
  forall (i normIndex : Z) (inWhitespace : bool),
    i + len rest = len text ->
    mapLoop text n i normIndex inWhitespace rest
    <= mapLoop text m i normIndex inWhitespace rest.
Proof.
  intros Hnm. induction rest as [|c rest IH];
    intros i normIndex inWhitespace Hlen; cbn [mapLoop]; [lia|].
  rewrite len_cons in Hlen.
  destruct (n <=? normIndex) eqn:Hn.
  - destruct (m <=? normIndex) eqn:Hm; [lia|]. apply Z.leb_gt in Hm.
    destruct (isSpace c); [destruct (negb inWhitespace)|];
      match goal with
      | |- _ <= mapLoop _ _ ?i' ?k ?w _ =>
          destruct (mapLoop_collapsed text m rest i' k w
                      ltac:(lia) ltac:(lia)) as [H _]
      end; lia.
  - apply Z.leb_gt in Hn. rewrite (proj2 (Z.leb_gt m normIndex)) by lia.
    destruct (isSpace c); [destruct (negb inWhitespace)|]; apply IH; lia.
Qed.

(** X23.  [mapNormalizedToActual(text, n)] is the shortest prefix of
    [text] that collapses to [n] code units, when every run of white space
    counts for one: the prefix of that length collapses to [n] code units
    (to all of them when the text has fewer), no shorter prefix does, and
    a greater [n] never gives a smaller position.  White space at the
    start of the text is counted, although [normalizeText] trims it. *)
Theorem mapNormalizedToActual_collapsed_prefix (text : string) (n : Z) :
  0 <= n ->
  let r := mapNormalizedToActual text n in
  len (replaceSpaceRuns false (take (Z.to_nat r) text))
  = Z.min n (len (replaceSpaceRuns false text))
  /\ (forall j : Z,
         0 <= j < r ->
         len (replaceSpaceRuns false (take (Z.to_nat j) text)) < n)
  /\ (forall m : Z, n <= m -> r <= mapNormalizedToActual text m).
Proof.
  intros Hn r. unfold mapNormalizedToActual in *.
  destruct (mapLoop_collapsed text n text 0 0 false ltac:(lia) Hn)
    as (_ & H2 & H3).
  fold r in H2, H3. rewrite Z.sub_0_r in H2. split; [exact H2|]. split.
  - intros j Hj. specialize (H3 j Hj). now rewrite Z.sub_0_r in H3.
  - intros m Hm. apply mapLoop_monotone; [exact Hm | lia].
Qed.

Lemma mapNormalizedToActual_collapsed_prefix_witness :
  0 <= 3
  /\ let r := mapNormalizedToActual " a  b" 3 in
     len (replaceSpaceRuns false (take (Z.to_nat r) " a  b"))
     = Z.min 3 (len (replaceSpaceRuns false " a  b"))
     /\ (forall j : Z,
            0 <= j < r ->
            len (replaceSpaceRuns false (take (Z.to_nat j) " a  b")) < 3)
     /\ (forall m : Z, 3 <= m -> r <= mapNormalizedToActual " a  b" m).
Proof.
  assert (H : 0 <= 3) by lia.
  split; [exact H|].
  exact (mapNormalizedToActual_collapsed_prefix " a  b" 3 H).
Defined.

End MappingFacts.

(** ** The overlay: the index and the count *)

Section OverlayFacts.
Import JsString Types Messages SummaryPanel Overlay.

Lemma inRange_results (o o' : State) :
  currentResults o' = currentResults o ->
  currentIndex o' = currentIndex o ->
  inRange o -> inRange o'.
Proof. unfold inRange. now intros -> ->. Qed.


Lemma updateResults_state (o : State) (results : list SearchResult) :
  let o' := fst (updateResults o results) in
  currentResults o' = results
  /\ currentIndex o' = 0
  /\ overlay o' = overlay o
  /\ onNavigate o' = onNavigate o
  /\ resultCount o'
     = (if overlay o
        then (if 0 <? Z.of_nat (length results)
              then countText 1 (Z.of_nat (length results)) else "")
        else resultCount o).
Proof.
  unfold updateResults. cbv zeta.
  cbn [settings onRequestSummary overlay inputValue summaryPanel onNavigate].
  destruct (_ && _ && onRequestSummary o);
    [destruct (negb (String.eqb _ ""))|]; cbn; repeat split; reflexivity.
Qed.

Lemma updateResults_inRange (o : State) (results : list SearchResult) :
  inRange (fst (updateResults o results)).
Proof.
  destruct (updateResults_state o results) as (Hr & Hi & _).
  cbv zeta in Hr, Hi. unfold inRange. rewrite Hr, Hi.
  destruct (Z.of_nat (length results) =? 0) eqn:E; [reflexivity|].
  apply Z.eqb_neq in E. lia.
Qed.


Lemma rem_next (i n : Z) : 0 <= i < n -> 0 <= Z.rem (i + 1) n < n.
Proof.
  intros H. rewrite Z.rem_mod_nonneg by lia. apply Z.mod_pos_bound. lia.
Qed.

Lemma rem_prev (i n : Z) : 0 <= i < n -> 0 <= Z.rem (i - 1 + n) n < n.
Proof.
  intros H. rewrite Z.rem_mod_nonneg by lia. apply Z.mod_pos_bound. lia.
Qed.



Lemma navigate_state (o : State) (index : Z) :
  let n := Z.of_nat (length (currentResults o)) in
  (n =? 0) = false ->
  let o' := updateNavigationUI (withIndex o index) in
  currentResults o' = currentResults o
  /\ currentIndex o' = index
  /\ overlay o' = overlay o
  /\ onNavigate o' = onNavigate o
  /\ resultCount o'
     = (if overlay o then countText (index + 1) n else resultCount o).
Proof.
  intros n Hn o'. subst o'. unfold updateNavigationUI, withIndex, withCount.
  cbn [currentResults currentIndex overlay onNavigate resultCount].
  fold n. apply Z.eqb_neq in Hn.
  rewrite (proj2 (Z.ltb_lt 0 n)) by lia.
  destruct (overlay o); cbn; repeat split; reflexivity.
Qed.



Lemma hide_state (o : State) :
  currentResults (fst (hide o)) = currentResults o
  /\ currentIndex (fst (hide o)) = currentIndex o
  /\ resultCount (fst (hide o)) = resultCount o
  /\ overlay (fst (hide o)) = overlay o.
Proof.
  unfold hide. destruct (overlay o) eqn:E; cbn; rewrite ?E; repeat split;
    reflexivity.
Qed.







End OverlayFacts.

(** ** The content script: the highlights and the results *)

Section SessionFacts.
Import JsString Dom Types Messages Highlighter ContentScript.

Variable api : bool.
Variable now : nat -> Z.

Lemma consistent_ext (s s' : State) :
  highlightedChunks (page s') = highlightedChunks (page s) ->
  activeHighlightId (page s') = activeHighlightId (page s) ->
  currentResults s' = currentResults s ->
  Overlay.currentResults (ui s') = Overlay.currentResults (ui s) ->
  Overlay.currentIndex (ui s') = Overlay.currentIndex (ui s) ->
  consistent s -> consistent s'.
Proof.
  unfold consistent, inRange. intros -> -> -> -> ->. auto.
Qed.

Lemma setActiveHighlight_keeps (p : Page) (chunkId : string) :
  highlightedChunks (setActiveHighlight api p chunkId) = highlightedChunks p
  /\ activeHighlightId (setActiveHighlight api p chunkId) = Some chunkId.
Proof.
  unfold setActiveHighlight.
  destruct (updateHighlights_same api (withActive p (Some chunkId)))
    as (Hc & Ha & _).
  destruct (highlightedChunks _ !! chunkId) as [[|range l]|];
    [auto | | auto].
  destruct (parentElement _ _); auto.
Qed.

Lemma highlightAll_registry (results : list SearchResult) :
  forall p : Page,
    (forall chunkId : string,
        is_Some (highlightedChunks (highlightAll api p results) !! chunkId) ->
        is_Some (highlightedChunks p !! chunkId)
        \/ In chunkId (resultIds results))
    /\ (activeHighlightId p = None ->
        activeHighlightId (highlightAll api p results) = None).
Proof.
  induction results as [|r results IH]; intros p; [cbn; auto|].
  unfold highlightAll in *. cbn [fold_left].
  destruct (highlightText_registry api p (id (chunk r))
              (Types.text (chunk r))) as (Ha & _ & Hc).
  cbv zeta in Ha, Hc.
  set (p1 := snd (highlightText api p (id (chunk r))
                    (Types.text (chunk r)))) in *.
  destruct (IH p1) as [IH1 IH2]. split.
  - intros chunkId H. destruct (IH1 chunkId H) as [H1 | H1];
      [|right; now right].
    destruct (decide (chunkId = id (chunk r))) as [-> | Hne];
      [right; now left|].
    left. destruct (fst (highlightText api p _ _)).
    + destruct Hc as [ranges Hc]. rewrite Hc in H1.
      now rewrite lookup_insert_ne, lookup_delete_ne in H1 by congruence.
    + rewrite Hc in H1. now rewrite lookup_delete_ne in H1 by congruence.
  - intros H. apply IH2. rewrite Ha, H. now destruct (isActive p _).
Qed.

Lemma handleNavigate_consistent (s : State) (index : Z) :
  consistent s -> consistent (handleNavigate api s index).
Proof.
  intros H. unfold handleNavigate.
  destruct ((index <? 0) || _); [exact H|].
  destruct (nth_error (currentResults s) (Z.to_nat index)) as [result|] eqn:E;
    [|exact H].
  destruct (setActiveHighlight_keeps (page s) (id (chunk result)))
    as [Hc Ha].
  destruct H as (H1 & H2 & H3 & H4). unfold consistent.
  cbn [page withPage currentResults ui]. rewrite Hc, Ha.
  split; [exact H1|]. split; [|now split].
  intros a [= <-]. apply in_map_iff. exists result. split; [reflexivity|].
  now apply nth_error_In in E.
Qed.

Lemma handleClose_consistent (s : State) :
  consistent s -> consistent (handleClose api s).
Proof.
  intros (_ & _ & H3 & H4). unfold consistent, handleClose, clearAllHighlights.
  cbn [page withPage currentResults ui].
  split; [|split; [|now split]].
  - intros chunkId. destruct api;
      cbn [highlightedChunks withHighlights withDocument withActive withChunks];
      rewrite lookup_empty; now intros [x Hx].
  - intros a. now destruct api.
Qed.

Lemma handleRequestSummary_consistent (s : State) (query : string)
    (results : list SearchResult) :
  consistent s -> consistent (handleRequestSummary s query results).
Proof.
  intros H. unfold handleRequestSummary.
  destruct (settings s) as [st|]; [|exact H].
  destruct (aiSummaryEnabled st); [|exact H].
  now apply (consistent_ext s).
Qed.

Lemma afterUpdate_consistent (callbacks : list Overlay.Callback) :
  forall s : State,
    consistent s -> consistent (fold_left (afterUpdate api) callbacks s).
Proof.
  induction callbacks as [|c callbacks IH]; intros s H; [exact H|].
  cbn [fold_left]. apply IH. destruct c; cbn [afterUpdate]; try exact H.
  - now apply handleNavigate_consistent.
  - now apply handleRequestSummary_consistent.
Qed.

(** [updateResults] with the results of the content script, or with
    none. *)
Lemma updateResults_consistent (s : State) (results : list SearchResult) :
  (forall chunkId : string,
      is_Some (highlightedChunks (page s) !! chunkId) ->
      In chunkId (resultIds (currentResults s))) ->
  (forall a : string,
      activeHighlightId (page s) = Some a ->
      In a (resultIds (currentResults s))) ->
  results = [] \/ results = currentResults s ->
  consistent (updateResults api s results).
Proof.
  intros H1 H2 H3. unfold updateResults.
  destruct (updateResults_state (ui s) results) as (Hr & Hi & _).
  pose proof (updateResults_inRange (ui s) results) as Hrange.
  destruct (Overlay.updateResults (ui s) results) as [o callbacks].
  cbn [fst] in Hr, Hi, Hrange. apply afterUpdate_consistent.
  unfold consistent. cbn [page withUi currentResults ui].
  rewrite Hr. auto.
Qed.

Lemma setStatus_consistent (s : State) (text : string) :
  consistent s -> consistent (setStatus s text).
Proof.
  intros H. apply (consistent_ext s); try reflexivity; try exact H;
    unfold setStatus, Overlay.setStatus; cbn [ui withUi];
    now destruct (Overlay.overlay (ui s)).
Qed.

Lemma updateResults_none_consistent (s : State) :
  consistent s -> consistent (updateResults api s []).
Proof.
  intros (H1 & H2 & _). apply updateResults_consistent; auto.
Qed.

Lemma sendQuery_consistent (s : State) (query : string) :
  consistent s -> consistent (sendQuery s query).
Proof.
  intros H. unfold sendQuery.
  apply (consistent_ext (setStatus s "Searching..."));
    try reflexivity. now apply setStatus_consistent.
Qed.

Lemma indexed_consistent (s : State) (result : bool)
    (query : option string) :
  consistent s -> consistent (indexed api s result query).
Proof.
  intros H. unfold indexed. destruct query as [q|]; [|exact H].
  destruct result;
    [now apply sendQuery_consistent | now apply updateResults_none_consistent].
Qed.

Lemma indexPage_consistent (s : State) (query : option string) :
  consistent s -> consistent (indexPage api now s query).
Proof.
  intros H. unfold indexPage.
  destruct (isIndexed s && _); [now apply indexed_consistent|].
  destruct (TextChunker.chunkTextFrom now _ _ _) as [chunks counter].
  assert (H' : consistent
                 {| pageChunks := chunks;
                    isIndexed := isIndexed (setStatus s "Indexing...");
                    currentResults :=
                      currentResults (setStatus s "Indexing...");
                    settings := settings (setStatus s "Indexing...");
                    ui := ui (setStatus s "Indexing...");
                    page := page (setStatus s "Indexing...");
                    chunkIdCounter := counter;
                    pending := pending (setStatus s "Indexing...") |}).
  { apply (consistent_ext (setStatus s "Indexing...")); try reflexivity.
    now apply setStatus_consistent. }
  destruct (length chunks =? 0)%nat.
  - now apply indexed_consistent, setStatus_consistent.
  - now apply (consistent_ext _ _ eq_refl eq_refl eq_refl eq_refl eq_refl).
Qed.

Lemma embeddingsAnswered_consistent (s : State)
    (response : Similarity.Outcome (Response (list TextChunk)))
    (query : option string) :
  consistent s -> consistent (embeddingsAnswered api s response query).
Proof.
  intros H. unfold embeddingsAnswered.
  destruct response as [[chunks | error] | m];
    apply indexed_consistent, setStatus_consistent; exact H.
Qed.

Lemma handleSearch_consistent (s : State) (query : string) :
  consistent s -> consistent (handleSearch api now s query).
Proof.
  intros H. unfold handleSearch. destruct (negb (isIndexed s)).
  - now apply indexPage_consistent.
  - now apply sendQuery_consistent.
Qed.

Lemma searchAnswered_consistent (s : State)
    (response : Similarity.Outcome (Response (list SearchResult))) :
  consistent s -> consistent (searchAnswered api s response).
Proof.
  intros H. unfold searchAnswered.
  destruct response as [[results | error] | m];
    try (now apply updateResults_none_consistent, setStatus_consistent).
  destruct (highlightAll_registry results
              (clearAllHighlights api (page s))) as [H1 H2].
  assert (Hempty : highlightedChunks (clearAllHighlights api (page s)) = ∅
                   /\ activeHighlightId (clearAllHighlights api (page s))
                      = None).
  { unfold clearAllHighlights. now destruct api. }
  destruct Hempty as [He Ha].
  apply updateResults_consistent;
    unfold setStatus; cbn [page withUi currentResults].
  - intros chunkId Hc. destruct (H1 chunkId Hc) as [H' | H']; [|exact H'].
    rewrite He, lookup_empty in H'. now destruct H'.
  - intros a Hact. rewrite (H2 Ha) in Hact. discriminate.
  - now right.
Qed.

Lemma summaryAnswered_consistent (s : State)
    (response : Similarity.Outcome (Response string)) :
  consistent s -> consistent (summaryAnswered s response).
Proof.
  intros H. unfold summaryAnswered.
  destruct response as [[summary | error] | m]; try exact H.
  destruct (String.eqb summary ""); [exact H|].
  now apply (consistent_ext s).
Qed.

Lemma callback_consistent (callbacks : list Overlay.Callback) :
  forall s : State,
    consistent s -> consistent (fold_left (callback api now) callbacks s).
Proof.
  induction callbacks as [|c callbacks IH]; intros s H; [exact H|].
  cbn [fold_left]. apply IH. destruct c; cbn [callback].
  - now apply handleSearch_consistent.
  - now apply handleNavigate_consistent.
  - now apply handleClose_consistent.
  - now apply handleRequestSummary_consistent.
Qed.

Lemma withUi_consistent (s : State) (o : Overlay.State) :
  Overlay.currentResults o = Overlay.currentResults (ui s) ->
  Overlay.currentIndex o = Overlay.currentIndex (ui s) ->
  consistent s -> consistent (withUi s o).
Proof. intros H1 H2. now apply consistent_ext. Qed.

Lemma createOverlay_same (o : Overlay.State) :
  Overlay.currentResults (Overlay.createOverlay o) = Overlay.currentResults o
  /\ Overlay.currentIndex (Overlay.createOverlay o) = Overlay.currentIndex o.
Proof. unfold Overlay.createOverlay. now destruct (Overlay.overlay o). Qed.

Lemma init_consistent (s : State) (st : Settings) :
  consistent s -> consistent (init s st).
Proof.
  destruct (createOverlay_same (ui s)) as [H1 H2].
  now apply consistent_ext.
Qed.

Lemma toggle_same (o : Overlay.State) :
  Overlay.currentResults (fst (Overlay.toggle o)) = Overlay.currentResults o
  /\ Overlay.currentIndex (fst (Overlay.toggle o)) = Overlay.currentIndex o.
Proof.
  unfold Overlay.toggle. destruct (Overlay.isVisible o).
  - now destruct (hide_state o) as (H1 & H2 & _).
  - unfold Overlay.show. destruct (Overlay.overlay o); [now split|].
    apply createOverlay_same.
Qed.

Lemma toggleOverlay_consistent (s : State) :
  consistent s -> consistent (toggleOverlay api now s).
Proof.
  intros H. unfold toggleOverlay.
  destruct (toggle_same (ui s)) as [H1 H2].
  destruct (Overlay.toggle (ui s)) as [o callbacks]. cbn [fst] in H1, H2.
  assert (H' : consistent (fold_left (callback api now) callbacks
                             (withUi s o)))
    by now apply callback_consistent, withUi_consistent.
  destruct (Overlay.overlay _ && Overlay.isVisible _); [|exact H'].
  now apply indexPage_consistent.
Qed.

Lemma navigate_consistent (s : State) (index : Z) :
  consistent s ->
  let n := Z.of_nat (length (Overlay.currentResults (ui s))) in
  (n =? 0) = false ->
  0 <= index < n ->
  consistent
    (withUi s (Overlay.updateNavigationUI (Overlay.withIndex (ui s) index))).
Proof.
  intros (H1 & H2 & H3 & H4) n Hn Hi.
  destruct (navigate_state (ui s) index Hn) as (Hr & Hx & _).
  cbv zeta in Hr, Hx. unfold consistent, inRange.
  cbn [page withUi currentResults ui]. rewrite Hr, Hx. fold n. rewrite Hn.
  auto.
Qed.

Lemma act_consistent (s : State) (a : Overlay.Action) :
  consistent s ->
  consistent (withUi s (fst (Overlay.act (ui s) a))).
Proof.
  intros H. pose proof H as (H1 & H2 & H3 & H4). unfold inRange in H4.
  cbv zeta in H4.
  assert (Hhide : consistent (withUi s (fst (Overlay.hide (ui s))))).
  { destruct (hide_state (ui s)) as (Hr & Hi & _).
    now apply withUi_consistent. }
  assert (Hnext : consistent (withUi s (fst (Overlay.navigateNext (ui s))))).
  { unfold Overlay.navigateNext.
    destruct (_ =? 0) eqn:E; cbn [fst]; [now apply withUi_consistent|].
    apply navigate_consistent; try assumption. now apply rem_next. }
  assert (Hprev : consistent (withUi s (fst (Overlay.navigatePrev (ui s))))).
  { unfold Overlay.navigatePrev.
    destruct (_ =? 0) eqn:E; cbn [fst]; [now apply withUi_consistent|].
    apply navigate_consistent; try assumption. now apply rem_prev. }
  unfold Overlay.act. destruct (negb (Overlay.overlay (ui s)));
    [now apply withUi_consistent|].
  destruct a as [value | | shiftKey | | | |]; try assumption.
  - destruct (_ && Overlay.onSearch (ui s));
      [cbn [fst]; now apply withUi_consistent|].
    destruct (len _ <? 2); [|cbn [fst]; now apply withUi_consistent].
    destruct (updateResults_state (ui s) []) as (Hr & Hi & _).
    cbv zeta in Hr, Hi. unfold consistent, inRange.
    cbn [page withUi currentResults ui]. rewrite Hr, Hi.
    split; [exact H1|]. split; [exact H2|]. split; [now left | reflexivity].
  - now destruct shiftKey.
Qed.

Lemma step_consistent (s : State) (e : Event) :
  consistent s -> consistent (step api now s e).
Proof.
  intros H.
  destruct e as [st | a | | i response | i response | i response | d];
    cbn [step].
  - now apply init_consistent.
  - pose proof (act_consistent s a H) as H'.
    destruct (Overlay.act (ui s) a) as [o callbacks]. cbn [fst] in H'.
    now apply callback_consistent.
  - now apply toggleOverlay_consistent.
  - destruct (nth_error (pending s) i) as [[query | query | query top]|];
      try exact H.
    apply embeddingsAnswered_consistent. now apply (consistent_ext s).
  - destruct (nth_error (pending s) i) as [[query | query | query top]|];
      try exact H.
    apply searchAnswered_consistent. now apply (consistent_ext s).
  - destruct (nth_error (pending s) i) as [[query | query | query top]|];
      try exact H.
    apply summaryAnswered_consistent. now apply (consistent_ext s).
  - now apply (consistent_ext s).
Qed.

Lemma steps_consistent (h : gmap string (list Range)) (d : Document)
    (events : list Event) :
  consistent (steps api now (loaded h d) events).
Proof.
  assert (H0 : consistent (loaded h d)).
  { unfold consistent, loaded, inRange.
    cbn [page currentResults ui highlightedChunks activeHighlightId
         initialPage Overlay.initial Overlay.currentResults
         Overlay.currentIndex length].
    split; [|split; [discriminate | split; [now left | reflexivity]]].
    intros chunkId [x Hx]. now rewrite lookup_empty in Hx. }
  unfold steps. generalize (loaded h d) H0. clear H0.
  induction events as [|e events IH]; intros s H; [exact H|].
  cbn [fold_left]. apply IH. now apply step_consistent.
Qed.

(** X26.  The highlights of the page always belong to the results of the
    last search that succeeded, whatever the user does and in whatever
    order the answers of the service worker arrive: every entry of the
    registry and the active id are ids of these results, the overlay holds
    these results or none, and its index is a position of them. *)
Theorem session_highlights_belong_to_results
    (h : gmap string (list Range)) (d : Document) (events : list Event) :
  let s := steps api now (loaded h d) events in
  (forall chunkId : string,
      is_Some (highlightedChunks (page s) !! chunkId)
      \/ activeHighlightId (page s) = Some chunkId ->
      exists result : SearchResult,
        In result (currentResults s) /\ id (chunk result) = chunkId)
  /\ (Overlay.currentResults (ui s) = []
      \/ Overlay.currentResults (ui s) = currentResults s)
  /\ 0 <= Overlay.currentIndex (ui s)
  /\ (Overlay.currentResults (ui s) <> [] ->
      Overlay.currentIndex (ui s)
      < Z.of_nat (length (Overlay.currentResults (ui s)))).
Proof.
  intros s. destruct (steps_consistent h d events) as (H1 & H2 & H3 & H4).
  fold s in H1, H2, H3, H4. unfold inRange in H4. cbv zeta in H4.
  split; [|split; [exact H3|]].
  - intros chunkId [H | H]; [apply H1 in H | apply H2 in H];
      apply in_map_iff in H as (result & E & Hin); eauto.
  - destruct (Z.of_nat (length (Overlay.currentResults (ui s))) =? 0) eqn:E.
    + split; [lia|]. intros Hne. apply Z.eqb_eq in E.
      destruct (Overlay.currentResults (ui s)); [congruence|].
      cbn [length] in E. lia.
    + split; [lia|]. intros _. lia.
Qed.

Lemma navigate_activates (s : State) (index : Z) :
  consistent s ->
  Overlay.onNavigate (ui s) = true ->
  let n := Z.of_nat (length (Overlay.currentResults (ui s))) in
  (n =? 0) = false ->
  0 <= index < n ->
  let o' := Overlay.updateNavigationUI (Overlay.withIndex (ui s) index) in
  let s' :=
    fold_left (callback api now)
      (if Overlay.onNavigate o'
       then [Overlay.Navigate (Overlay.currentIndex o')] else [])
      (withUi s o') in
  exists result : SearchResult,
    nth_error (currentResults s') (Z.to_nat (Overlay.currentIndex (ui s')))
    = Some result
    /\ activeHighlightId (page s') = Some (id (chunk result))
    /\ highlightedChunks (page s') = highlightedChunks (page s)
    /\ Overlay.currentResults (ui s') = currentResults s'.
Proof.
  intros (_ & _ & H3 & _) Hnav n Hn Hi o' s'.
  destruct (navigate_state (ui s) index Hn) as (Hr & Hx & _ & Hnav' & _).
  cbv zeta in Hr, Hx, Hnav'. fold o' in Hr, Hx, Hnav'.
  assert (Hsame : Overlay.currentResults (ui s) = currentResults s).
  { destruct H3 as [H3 | H3]; [|exact H3].
    subst n. rewrite H3 in Hn. discriminate. }
  subst s'. rewrite Hnav', Hnav, Hx. cbn [fold_left callback].
  unfold handleNavigate. cbn [currentResults withUi page ui].
  assert (Hlen : Z.of_nat (length (currentResults s)) = n)
    by (subst n; now rewrite Hsame).
  rewrite Hlen.
  rewrite (proj2 (Z.ltb_ge index 0)), (proj2 (Z.leb_gt n index)) by lia.
  cbn [orb].
  destruct (nth_error (currentResults s) (Z.to_nat index)) as [result|] eqn:E.
  - destruct (setActiveHighlight_keeps (page s) (id (chunk result)))
      as [Hc Ha].
    exists result. cbn [currentResults withPage page ui withUi].
    rewrite Hx, Hr. auto.
  - apply nth_error_None in E. lia.
Qed.

(** X27.  Moving to another result makes it the active one: in every
    state that the content script can reach, when the overlay holds
    results and the callbacks are registered, a click on next or previous
    (or Enter) leaves the registry as it is and makes the id of the result
    at the new index of the overlay the active id. *)
Theorem session_navigation_activates
    (h : gmap string (list Range)) (d : Document) (events : list Event)
    (a : Overlay.Action) :
  let s := steps api now (loaded h d) events in
  moves a = true ->
  Overlay.overlay (ui s) = true ->
  Overlay.onNavigate (ui s) = true ->
  Overlay.currentResults (ui s) <> [] ->
  let s' := step api now s (User a) in
  exists result : SearchResult,
    nth_error (currentResults s') (Z.to_nat (Overlay.currentIndex (ui s')))
    = Some result
    /\ activeHighlightId (page s') = Some (id (chunk result))
    /\ highlightedChunks (page s') = highlightedChunks (page s)
    /\ Overlay.currentResults (ui s') = currentResults s'.
Proof.
  intros s Ha Ho Hnav Hne s'.
  assert (H : consistent s) by apply steps_consistent.
  pose proof H as (_ & _ & _ & H4). unfold inRange in H4. cbv zeta in H4.
  assert (Hn : (Z.of_nat (length (Overlay.currentResults (ui s))) =? 0)
               = false).
  { apply Z.eqb_neq. destruct (Overlay.currentResults (ui s));
      [congruence | cbn [length]; lia]. }
  rewrite Hn in H4.
  assert (Hnext : let s' := fold_left (callback api now)
                              (snd (Overlay.navigateNext (ui s)))
                              (withUi s (fst (Overlay.navigateNext (ui s)))) in
                  exists result : SearchResult,
                    nth_error (currentResults s')
                      (Z.to_nat (Overlay.currentIndex (ui s'))) = Some result
                    /\ activeHighlightId (page s') = Some (id (chunk result))
                    /\ highlightedChunks (page s') = highlightedChunks (page s)
                    /\ Overlay.currentResults (ui s') = currentResults s').
  { unfold Overlay.navigateNext. rewrite Hn. cbn [fst snd].
    apply navigate_activates; try assumption. now apply rem_next. }
  assert (Hprev : let s' := fold_left (callback api now)
                              (snd (Overlay.navigatePrev (ui s)))
                              (withUi s (fst (Overlay.navigatePrev (ui s)))) in
                  exists result : SearchResult,
                    nth_error (currentResults s')
                      (Z.to_nat (Overlay.currentIndex (ui s'))) = Some result
                    /\ activeHighlightId (page s') = Some (id (chunk result))
                    /\ highlightedChunks (page s') = highlightedChunks (page s)
                    /\ Overlay.currentResults (ui s') = currentResults s').
  { unfold Overlay.navigatePrev. rewrite Hn. cbn [fst snd].
    apply navigate_activates; try assumption. now apply rem_prev. }
  subst s'. cbn [step]. unfold Overlay.act. rewrite Ho. cbn [negb].
  destruct a as [value | | shiftKey | | | |]; try discriminate.
  - destruct shiftKey.
    + destruct (Overlay.navigatePrev (ui s)); exact Hprev.
    + destruct (Overlay.navigateNext (ui s)); exact Hnext.
  - destruct (Overlay.navigatePrev (ui s)); exact Hprev.
  - destruct (Overlay.navigateNext (ui s)); exact Hnext.
Qed.

End SessionFacts.

Section SessionExamples.
Import JsString Dom Types Messages ContentScript.

Lemma session_navigation_activates_witness :
  let chunk1 := {| id := "chunk-0-0"; text := "First test content here";
                   startOffset := 0; endOffset := 23;
                   embedding := Some [1%float] |} in
  let chunk2 := {| id := "chunk-0-1"; text := "Second test content here";
                   startOffset := 24; endOffset := 48;
                   embedding := Some [1%float] |} in
  let results := [ {| chunk := chunk1; score := 1%float;
                      highlighted := false |};
                   {| chunk := chunk2; score := 1%float;
                      highlighted := false |} ] in
  let events :=
    [ SettingsAnswer DEFAULT_SETTINGS;
      User (Overlay.TypeText "test content");
      User Overlay.InputSettles;
      EmbeddingsAnswer 0 (Similarity.Returns (Success [chunk1; chunk2]));
      SearchAnswer 0 (Similarity.Returns (Success results)) ] in
  let s := steps true (fun _ => 0) (loaded ∅ Samples.twoParagraphs) events in
  let s' := step true (fun _ => 0) s (User Overlay.ClickNext) in
  moves Overlay.ClickNext = true
  /\ Overlay.overlay (ui s) = true
  /\ Overlay.onNavigate (ui s) = true
  /\ Overlay.currentResults (ui s) <> []
  /\ Highlighter.activeHighlightId (page s) = Some "chunk-0-0"
  /\ Highlighter.activeHighlightId (page s') = Some "chunk-0-1"
  /\ exists result : SearchResult,
       nth_error (currentResults s') (Z.to_nat (Overlay.currentIndex (ui s')))
       = Some result
       /\ Highlighter.activeHighlightId (page s') = Some (id (chunk result))
       /\ Highlighter.highlightedChunks (page s') = Highlighter.highlightedChunks (page s)
       /\ Overlay.currentResults (ui s') = currentResults s'.
Proof.
  intros chunk1 chunk2 results events s s'.
  assert (H1 : moves Overlay.ClickNext = true) by reflexivity.
  assert (H2 : Overlay.overlay (ui s) = true) by (vm_compute; reflexivity).
  assert (H3 : Overlay.onNavigate (ui s) = true) by (vm_compute; reflexivity).
  assert (H4 : Overlay.currentResults (ui s) <> [])
    by (vm_compute; discriminate).
  split; [exact H1|]. split; [exact H2|]. split; [exact H3|].
  split; [exact H4|]. split; [vm_compute; reflexivity|].
  split; [vm_compute; reflexivity|].
  exact (session_navigation_activates true (fun _ => 0) ∅
           Samples.twoParagraphs events Overlay.ClickNext H1 H2 H3 H4).
Defined.

End SessionExamples.

(** ** The fallback: the spans keep the text of the document *)

Section FallbackFacts.
Import JsString Dom Highlighter.

Lemma substring_rest (data : string) :
  String.substring 0 (String.length data) data = data.
Proof.
  induction data as [|c data IH]; [reflexivity|].
  cbn [String.length String.substring]. now rewrite IH.
Qed.

(** The three parts that [surroundContents] makes of the data of a text
    node. *)
Lemma split_data (data : string) :
  forall s e : nat,
    (s <= e)%nat ->
    take s data +:+ String.substring s (e - s) data
    +:+ String.substring e (String.length data - e) data = data.
Proof.
  induction data as [|c data IH]; intros s e Hse.
  - destruct s, e; reflexivity.
  - destruct s as [|s].
    + change (take 0 (String c data)) with "". rewrite append_nil_l.
      destruct e as [|e].
      * change (String.substring 0 (0 - 0) (String c data)) with "".
        rewrite append_nil_l, Nat.sub_0_r. apply substring_rest.
      * rewrite Nat.sub_0_r.
        change (String.substring 0 (S e) (String c data))
          with (String c (String.substring 0 e data)).
        change (String.substring (S e) (String.length (String c data) - S e)
                  (String c data))
          with (String.substring e (String.length data - e) data).
        rewrite append_cons. f_equal.
        specialize (IH 0%nat e ltac:(lia)).
        change (take 0 data) with "" in IH.
        now rewrite append_nil_l, Nat.sub_0_r in IH.
    + destruct e as [|e]; [lia|].
      change (take (S s) (String c data)) with (String c (take s data)).
      change (String.substring (S s) (S e - S s) (String c data))
        with (String.substring s (e - s) data).
      change (String.substring (S e) (String.length (String c data) - S e)
                (String c data))
        with (String.substring e (String.length data - e) data).
      rewrite append_cons. f_equal. apply IH. lia.
Qed.

Lemma surroundIn_text (target s e : nat) (span : Element) (n : Node) :
  (s <= e)%nat ->
  textOf (surroundIn target s e span n) = textContent n.
Proof.
  intros Hse. induction n as [nid data | el cs IH] using Node_induction.
  - cbn [surroundIn]. destruct (nid =? target)%nat.
    + cbn [textOf fold_right textContent].
      rewrite !append_nil_r. now apply split_data.
    + cbn. now rewrite append_nil_r.
  - cbn [surroundIn textOf fold_right textContent].
    fold (flat_map (surroundIn target s e span) cs).
    fold (textOf (flat_map (surroundIn target s e span) cs)).
    fold (textOf cs).
    now rewrite append_nil_r, (textOf_flat_map _ cs IH).
Qed.

Lemma surroundContents_text (d d' : Document) (range wrapped : Range)
    (span : Element) :
  startOffset range <= endOffset range ->
  surroundContents d range span = Some (d', wrapped) ->
  documentText d' = documentText d.
Proof.
  intros Hse. unfold surroundContents.
  destruct (locateText _ _) as [[parent k]|]; [|discriminate].
  intros [= <- _]. unfold documentText, documentElement.
  cbn [html head body headChildren bodyChildren textContent fold_right].
  assert (H : forall l : list Node,
             textOf (flat_map
                       (surroundIn (startContainer range)
                          (Z.to_nat (startOffset range))
                          (Z.to_nat (endOffset range)) span) l)
             = textOf l).
  { intros l. apply textOf_flat_map, List.Forall_forall. intros n _.
    apply surroundIn_text. lia. }
  pose proof (H (headChildren d)) as H1. pose proof (H (bodyChildren d)) as H2.
  unfold textOf in H1, H2. now rewrite H1, H2.
Qed.

Lemma pieces_ordered (range : Range) (first last : nat) (root : Element)
    (l : list TextEntry) :
  forall k : nat,
    Forall (fun piece => p_start piece < p_end piece)
      (pieces range first last root k l).
Proof.
  induction l as [|t l IH]; intros k; cbn [pieces]; [constructor|].
  destruct (existsb _ _ && _ && _); [|apply IH].
  destruct (_ <? _) eqn:E; [|apply IH].
  constructor; [|apply IH]. cbn [p_start p_end]. now apply Z.ltb_lt.
Qed.

Lemma wrapPieces_text (chunkId : string) (l : list Piece) :
  Forall (fun piece => p_start piece < p_end piece) l ->
  forall (d : Document) (ranges : list Range),
    documentText (fst (wrapPieces chunkId d ranges l)) = documentText d.
Proof.
  induction 1 as [|piece l Hp _ IH]; intros d ranges; [reflexivity|].
  cbn [wrapPieces].
  destruct (surroundContents d _ (createSpan d chunkId))
    as [[d' wrapped]|] eqn:E; [|apply IH].
  rewrite IH. apply (surroundContents_text _ _ _ _ _) in E; [exact E|].
  cbn [startOffset endOffset]. lia.
Qed.

Lemma getTextNodesInRange_ordered (d : Document) (range : Range) :
  Forall (fun piece => p_start piece < p_end piece)
    (getTextNodesInRange d range).
Proof.
  unfold getTextNodesInRange.
  destruct (positionOf (startContainer range) 0 _) as [first|];
    [|constructor].
  destruct (positionOf (endContainer range) 0 _) as [last|]; [|constructor].
  destruct (nth_error _ first) as [a|]; [|constructor].
  destruct (nth_error _ last) as [b|]; [|constructor].
  destruct (commonAncestor a b) as [root|]; [|constructor].
  apply pieces_ordered.
Qed.

Lemma mapNormalizedToActual_monotone (text : string) (n m : Z) :
  n <= m -> mapNormalizedToActual text n <= mapNormalizedToActual text m.
Proof.
  intros H. unfold mapNormalizedToActual. apply mapLoop_monotone; [exact H|].
  lia.
Qed.

(** Once the start of the match has its node, the loop keeps it, and the
    node of the end is one of the nodes that are left. *)
Lemma anchor_started (matchIndex matchEnd : Z) (textNodes : list Located) :
  forall (s0 : Located) (startOffset normalizedPos : Z),
    let a := anchor matchIndex matchEnd (Some s0) startOffset normalizedPos
               textNodes in
    startNode a = Some s0
    /\ forall en : Located, endNode a = Some en -> In en textNodes.
Proof.
  induction textNodes as [|n rest IH]; intros s0 startOffset normalizedPos.
  - cbn. split; [reflexivity | discriminate].
  - cbn [anchor isSome negb andb].
    destruct ((normalizedPos <? matchEnd) && _).
    + cbn. split; [reflexivity|]. intros en [= <-]. now left.
    + destruct (matchEnd =? _).
      * cbn. split; [reflexivity|]. intros en [= <-]. now left.
      * destruct (IH s0 startOffset
                    (normalizedPos + len (normalizeText (text n)) + 1))
          as [H1 H2].
        split; [exact H1|]. intros en H. right. now apply H2.
Qed.

(** A match that starts and ends in one text node has its start before
    its end, when no two text nodes are the same node. *)
Lemma anchor_same_node (matchIndex matchEnd : Z) (textNodes : list Located) :
  matchIndex <= matchEnd ->
  List.NoDup (map node textNodes) ->
  forall (startOffset normalizedPos : Z),
    let a := anchor matchIndex matchEnd None startOffset normalizedPos
               textNodes in
    forall sn en : Located,
      startNode a = Some sn -> endNode a = Some en -> node sn = node en ->
      Z.min (a_startOffset a) (len (text sn))
      <= Z.min (a_endOffset a) (len (text en)).
Proof.
  intros Hm. induction textNodes as [|n rest IH];
    intros Hnodup startOffset normalizedPos.
  - cbn. discriminate.
  - cbn [map] in Hnodup. apply List.NoDup_cons_iff in Hnodup as [Hn Hrest].
    cbn [anchor isSome negb andb].
    pose proof (mapNormalizedToActual_monotone (text n)
                  (matchIndex - normalizedPos) (matchEnd - normalizedPos)
                  ltac:(lia)) as Hmono.
    pose proof (mapNormalizedToActual_bounds (text n)
                  (matchIndex - normalizedPos)) as Hb.
    destruct ((normalizedPos <=? matchIndex) && _).
    + cbn [isSome andb].
      destruct ((normalizedPos <? matchEnd) && _).
      * cbn. intros sn en [= <-] [= <-] _. lia.
      * destruct (matchEnd =? _).
        -- cbn. intros sn en [= <-] [= <-] _. lia.
        -- destruct (anchor_started matchIndex matchEnd rest n
                       (mapNormalizedToActual (text n)
                          (matchIndex - normalizedPos))
                       (normalizedPos + len (normalizeText (text n)) + 1))
             as [H1 H2].
           cbv zeta. intros sn en Hs He Hsame. rewrite H1 in Hs.
           injection Hs as <-. exfalso. apply Hn. rewrite Hsame.
           apply in_map. now apply H2.
    + cbn [isSome andb]. now apply IH.
Qed.

Lemma NoDup_map_filter {A B} (f : A -> B) (g : A -> bool) (l : list A) :
  List.NoDup (map f l) -> List.NoDup (map f (List.filter g l)).
Proof.
  induction l as [|x l IH]; cbn [map List.filter]; [constructor|].
  intros H. apply List.NoDup_cons_iff in H as [Hx Hl].
  destruct (g x); [|now apply IH]. cbn [map]. constructor; [|now apply IH].
  intros Hin. apply Hx. apply in_map_iff in Hin as (y & E & Hy).
  apply filter_In in Hy as [Hy _]. apply in_map_iff. now exists y.
Qed.

Lemma findRangeForText_ordered (d : Document) (searchText : string)
    (range : Range) :
  List.NoDup (map t_node (bodyTextNodes d)) ->
  findRangeForText d searchText = Some range ->
  startContainer range = endContainer range ->
  startOffset range <= endOffset range.
Proof.
  intros Hnodup. unfold findRangeForText, boundaryPoints.
  pose proof (flattened_nodes d) as Hnodes.
  destruct (flattened d) as [textNodes fullText]. cbn [fst] in Hnodes.
  assert (Hnd : List.NoDup (map node textNodes)).
  { rewrite Hnodes. unfold locatorNodes.
    now apply NoDup_map_filter, NoDup_map_filter. }
  destruct (indexOf _ searchText =? -1); [discriminate|].
  pose proof (anchor_same_node (indexOf (normalizeText fullText) searchText)
                (indexOf (normalizeText fullText) searchText + len searchText)
                textNodes
                ltac:(pose proof (len_nonneg searchText); lia) Hnd 0 0) as H.
  cbv zeta in H.
  destruct (startNode _) as [sn|]; [|discriminate].
  destruct (endNode _) as [en|]; [|discriminate].
  destruct (validOffset sn _ && validOffset en _); [|discriminate].
  intros [= <-]. cbn [startContainer endContainer startOffset endOffset].
  now apply H.
Qed.

(** X28.  Without the CSS Custom Highlight API, [highlightText] wraps
    text in spans and keeps the text of the document: the data of the text
    nodes, read in document order, is the same after the call, whether the
    text is found in one node or across several, when no two text nodes of
    the body are the same node. *)
Theorem highlightText_fallback_keeps_text (p : Page)
    (chunkId searchText : string) :
  List.NoDup (map t_node (bodyTextNodes (document p))) ->
  documentText (document (snd (highlightText false p chunkId searchText)))
  = documentText (document p).
Proof.
  intros Hnodup. unfold highlightText. cbn [negb].
  destruct (removeHighlight_registry false p chunkId) as (_ & _ & Hd & _).
  set (p1 := removeHighlight false p chunkId) in *.
  rewrite <- Hd in Hnodup |- *. clearbody p1. clear Hd.
  unfold highlightTextFallback.
  destruct (findRangeForText (document p1) (normalizeText searchText))
    as [range|] eqn:E; [|reflexivity].
  destruct (startContainer range =? endContainer range)%nat eqn:Esame.
  - apply Nat.eqb_eq in Esame.
    pose proof (findRangeForText_ordered _ _ _ Hnodup E Esame) as Hle.
    destruct (surroundContents _ _ _) as [[d wrapped]|] eqn:Es;
      [|reflexivity].
    cbn [snd document withChunks withDocument].
    exact (surroundContents_text _ _ _ _ _ Hle Es).
  - pose proof (wrapPieces_text chunkId _
                  (getTextNodesInRange_ordered (document p1) range)
                  (document p1) []) as H.
    destruct (wrapPieces chunkId (document p1) [] _) as [d ranges].
    cbn [fst] in H.
    destruct (0 <? length ranges)%nat;
      cbn [snd document withChunks withDocument]; exact H.
Qed.

Lemma highlightText_fallback_keeps_text_witness :
  let p := initialPage ∅ Samples.mixedParagraph in
  List.NoDup (map t_node (bodyTextNodes (document p)))
  /\ fst (highlightText false p "chunk-1" "paragraph with some") = true
  /\ documentText
       (document (snd (highlightText false p "chunk-1" "paragraph with some")))
     = "This is a  test paragraph with some content"
  /\ documentText
       (document (snd (highlightText false p "chunk-1" "paragraph with some")))
     = documentText (document p).
Proof.
  intros p.
  assert (H : List.NoDup (map t_node (bodyTextNodes (document p)))).
  { cbn. repeat constructor; cbn; intuition discriminate. }
  split; [exact H|]. split; [vm_compute; reflexivity|].
  split; [vm_compute; reflexivity|].
  exact (highlightText_fallback_keeps_text p "chunk-1" "paragraph with some" H).
Defined.

End FallbackFacts.

(** ** The cache of the embeddings *)

Section CacheFacts.
Import Types EmbeddingCache.
Import Similarity (Outcome, Returns, Throws).

Lemma openDB_open (opens : Outcome unit) (d : Database) :
  db d = true -> openDB opens d = (Returns tt, d).
Proof. unfold openDB. now intros ->. Qed.

(** [openDB] resolves or rejects, leaves the store as it is, and sets [db]
    when it resolves. *)
Lemma openDB_cases (opens : Outcome unit) (d : Database) :
  (exists d', openDB opens d = (Returns tt, d')
              /\ db d' = true /\ pageEmbeddings d' = pageEmbeddings d)
  \/ (exists error, openDB opens d = (Throws error, d)
                    /\ db d = false /\ opens = Throws error).
Proof.
  unfold openDB. destruct (db d) eqn:E.
  - left. now exists d.
  - destruct opens as [[]|error].
    + left. eexists. split; [reflexivity|]. now split.
    + right. now exists error.
Qed.

(** X29.  The cache serves an entry for 24 hours, when the database
    works.  If the database opens and the request of [cacheEmbeddings]
    succeeds at the time [t0], then [getCachedEmbeddings] at the time [t1]
    rejects exactly when its request fails, answers the chunks exactly
    when the request succeeds and [t1 - t0] is at most [CACHE_MAX_AGE],
    and otherwise answers [null]; the entry is gone afterwards exactly
    when it is expired and the request of [deleteCache] succeeds.
    [clearOldCache] keeps the entry only while its age is less than
    [CACHE_MAX_AGE], so that an entry of exactly that age is still served
    by the one and removed by the other; when its request fails it rejects
    and removes nothing.  The entries of other URLs are not touched by the
    first two, and the sweep keeps exactly those that are younger than
    [CACHE_MAX_AGE].  If the database does not open, nothing is thrown:
    [getCachedEmbeddings] answers [null], the other two resolve, and the
    database is as before; if the request of [cacheEmbeddings] fails, the
    promise is rejected and nothing is stored. *)
Theorem cache_serves_for_a_day (d : Database)
    (opens request deletes sweeps : Outcome unit) (t0 t1 : Z) (u : string)
    (cs : list TextChunk) :
  (fst (openDB opens d) = Returns tt ->
   let put := cacheEmbeddings opens (Returns tt) d t0 u cs in
   let stored := snd put in
   let get := getCachedEmbeddings opens request deletes stored t1 u in
   let sweep := clearOldCache opens sweeps stored t1 in
   fst put = Returns tt
   /\ (fst get = Returns (Some cs)
       <-> request = Returns tt /\ t1 - t0 <= CACHE_MAX_AGE)
   /\ (fst get = Returns None
       <-> request = Returns tt /\ CACHE_MAX_AGE < t1 - t0)
   /\ (forall error, fst get = Throws error <-> request = Throws error)
   /\ (pageEmbeddings (snd get) !! u = None
       <-> request = Returns tt /\ CACHE_MAX_AGE < t1 - t0
           /\ deletes = Returns tt)
   /\ (forall other : string,
          other <> u ->
          pageEmbeddings (snd get) !! other = pageEmbeddings d !! other)
   /\ (sweeps = Returns tt ->
       fst sweep = Returns tt
       /\ (is_Some (pageEmbeddings (snd sweep) !! u)
           <-> t1 - t0 < CACHE_MAX_AGE)
       /\ forall (other : string) (entry : PageCache),
            other <> u ->
            pageEmbeddings (snd sweep) !! other = Some entry
            <-> pageEmbeddings d !! other = Some entry
                /\ t1 - timestamp entry < CACHE_MAX_AGE)
   /\ (forall error,
          sweeps = Throws error ->
          fst sweep = Throws error /\ snd sweep = stored))
  /\ (forall error,
         fst (openDB opens d) = Throws error ->
         cacheEmbeddings opens request d t0 u cs = (Returns tt, d)
         /\ getCachedEmbeddings opens request deletes d t1 u
            = (Returns None, d)
         /\ clearOldCache opens sweeps d t1 = (Returns tt, d))
  /\ (forall error,
         fst (openDB opens d) = Returns tt ->
         let put := cacheEmbeddings opens (Throws error) d t0 u cs in
         fst put = Throws error
         /\ pageEmbeddings (snd put) = pageEmbeddings d).
Proof.
  destruct (openDB_cases opens d)
    as [(d1 & Ho & Hdb & Hstore) | (error0 & Ho & _ & _)].
  2:{ split; [rewrite Ho; discriminate|]. split.
      - intros error _.
        unfold cacheEmbeddings, getCachedEmbeddings, clearOldCache.
        now rewrite Ho.
      - intros error. rewrite Ho. discriminate. }
  split; [|split].
  2:{ intros error. rewrite Ho. discriminate. }
  2:{ intros error _. unfold cacheEmbeddings. rewrite Ho. cbn [fst snd].
      now split. }
  intros _ put stored get sweep.
  set (entry := {| url := u; timestamp := t0; chunks := cs |}).
  assert (Hput : put = (Returns tt,
                        withStore d1 (<[u := entry]> (pageEmbeddings d1)))).
  { unfold put, cacheEmbeddings. now rewrite Ho. }
  assert (Hs : stored = withStore d1 (<[u := entry]> (pageEmbeddings d1)))
    by (unfold stored; now rewrite Hput).
  assert (Hopen : openDB opens stored = (Returns tt, stored)).
  { apply openDB_open. now rewrite Hs. }
  assert (Hu : pageEmbeddings stored !! u = Some entry).
  { rewrite Hs. cbn [pageEmbeddings withStore]. apply lookup_insert_eq. }
  assert (Hget : get
                 = match request with
                   | Throws error => (Throws error, stored)
                   | Returns _ =>
                       if CACHE_MAX_AGE <? t1 - t0
                       then (Returns None,
                             match deletes with
                             | Throws _ => stored
                             | Returns _ =>
                                 withStore stored
                                   (delete u (pageEmbeddings stored))
                             end)
                       else (Returns (Some cs), stored)
                   end).
  { unfold get, getCachedEmbeddings. rewrite Hopen.
    destruct request as [[]|error]; [|reflexivity]. rewrite Hu.
    cbn [timestamp chunks entry]. unfold deleteCache. rewrite Hopen.
    now destruct deletes. }
  assert (Hsweep : sweep
                   = match sweeps with
                     | Throws error => (Throws error, stored)
                     | Returns _ =>
                         (Returns tt,
                          withStore stored
                            (filter (fun e => ~ timestamp (snd e)
                                                <= t1 - CACHE_MAX_AGE)
                               (pageEmbeddings stored)))
                     end).
  { unfold sweep, clearOldCache. now rewrite Hopen. }
  split; [now rewrite Hput|].
  split; [|split; [|split; [|split; [|split; [|split]]]]].
  - rewrite Hget. destruct request as [[]|error].
    + destruct (CACHE_MAX_AGE <? t1 - t0) eqn:E; cbn [fst].
      * apply Z.ltb_lt in E. split; [discriminate | lia].
      * apply Z.ltb_ge in E. split; [now split | reflexivity].
    + cbn [fst]. split; [discriminate | now intros [? _]].
  - rewrite Hget. destruct request as [[]|error].
    + destruct (CACHE_MAX_AGE <? t1 - t0) eqn:E; cbn [fst].
      * apply Z.ltb_lt in E. now split.
      * apply Z.ltb_ge in E. split; [discriminate | lia].
    + cbn [fst]. split; [discriminate | now intros [? _]].
  - intros error. rewrite Hget. destruct request as [[]|error'].
    + destruct (CACHE_MAX_AGE <? t1 - t0); cbn [fst]; split; discriminate.
    + cbn [fst]. split; congruence.
  - rewrite Hget. destruct request as [[]|error].
    + destruct (CACHE_MAX_AGE <? t1 - t0) eqn:E; cbn [snd].
      * apply Z.ltb_lt in E. destruct deletes as [[]|error].
        -- cbn [pageEmbeddings withStore]. rewrite lookup_delete_eq.
           now split.
        -- rewrite Hu. split; [discriminate | now intros (_ & _ & ?)].
      * apply Z.ltb_ge in E. rewrite Hu. split; [discriminate | lia].
    + cbn [snd]. rewrite Hu. split; [discriminate | now intros [? _]].
  - intros other Hne.
    assert (Ho' : pageEmbeddings stored !! other = pageEmbeddings d !! other).
    { rewrite Hs. cbn [pageEmbeddings withStore].
      now rewrite lookup_insert_ne, Hstore by congruence. }
    rewrite Hget. destruct request as [[]|error]; [|exact Ho'].
    destruct (CACHE_MAX_AGE <? t1 - t0); cbn [snd]; [|exact Ho'].
    destruct deletes as [[]|error]; [|exact Ho'].
    cbn [pageEmbeddings withStore].
    now rewrite lookup_delete_ne by congruence.
  - intros ->. rewrite Hsweep. cbn [fst snd pageEmbeddings withStore].
    split; [reflexivity|]. split; [split|].
    + intros [e H]. apply map_lookup_filter_Some in H as [H1 H2].
      rewrite Hu in H1. injection H1 as <-. cbn [snd timestamp entry] in H2.
      lia.
    + intros H. exists entry. apply map_lookup_filter_Some.
      split; [exact Hu|]. cbn [snd timestamp entry]. lia.
    + intros other e Hne. rewrite map_lookup_filter_Some. cbn [snd].
      rewrite Hs. cbn [pageEmbeddings withStore].
      rewrite lookup_insert_ne, Hstore by congruence. split.
      * intros [H1 H2]. split; [exact H1 | lia].
      * intros [H1 H2]. split; [exact H1 | lia].
  - intros error ->. rewrite Hsweep. now split.
Qed.

Lemma cache_serves_for_a_day_witness :
  let d := {| db := false; pageEmbeddings := ∅ |} in
  let entry := {| Types.id := "chunk-1-0"; text := "Hello world";
                  startOffset := 0; endOffset := 11; embedding := None |} in
  let stored :=
    snd (cacheEmbeddings (Returns tt) (Returns tt) d 0 "https://example.org/"
           [entry]) in
  fst (openDB (Returns tt) d) = Returns tt
  /\ fst (getCachedEmbeddings (Returns tt) (Returns tt) (Returns tt) stored
            CACHE_MAX_AGE "https://example.org/")
     = Returns (Some [entry])
  /\ pageEmbeddings
       (snd (clearOldCache (Returns tt) (Returns tt) stored CACHE_MAX_AGE))
       !! "https://example.org/" = None.
Proof.
  intros d entry stored.
  assert (H : fst (openDB (Returns tt) d) = Returns tt) by reflexivity.
  destruct (proj1 (cache_serves_for_a_day d (Returns tt) (Returns tt)
                     (Returns tt) (Returns tt) 0 CACHE_MAX_AGE
                     "https://example.org/" [entry]) H)
    as (_ & Hget & _ & _ & _ & _ & Hsweep & _).
  split; [exact H|]. split.
  - apply Hget. split; [reflexivity | unfold CACHE_MAX_AGE; lia].
  - destruct (Hsweep eq_refl) as (_ & Hkept & _).
    destruct (pageEmbeddings _ !! "https://example.org/") eqn:E;
      [|reflexivity].
    exfalso. assert (Hs : is_Some (Some p)) by eauto.
    apply Hkept in Hs. unfold CACHE_MAX_AGE in Hs. lia.
Defined.

End CacheFacts.

(** ** Normalized texts *)

Section NormalizeFacts.
Import JsString Dom Highlighter.

Lemma trimEnd_cons (c : ascii) (x : string) :
  isSpace c = false -> trimEnd (String c x) = String c (trimEnd x).
Proof. intros E. cbn [trimEnd]. rewrite E. now destruct (trimEnd x). Qed.

Lemma trimEnd_cons_text (c : ascii) (x : string) :
  trimEnd x <> "" -> trimEnd (String c x) = String c (trimEnd x).
Proof. intros E. cbn [trimEnd]. destruct (trimEnd x); congruence. Qed.

Lemma trimEnd_cons_blank (c : ascii) (x : string) :
  isSpace c = true -> trimEnd x = "" -> trimEnd (String c x) = "".
Proof. intros E H. cbn [trimEnd]. now rewrite H, E. Qed.

Lemma trimEnd_blank (x : string) : trimEnd x = "" <-> allSpaces x = true.
Proof.
  induction x as [|c x IH]; [easy|]. cbn [trimEnd allSpaces].
  destruct (trimEnd x) as [|c' t].
  - destruct (isSpace c); cbn [andb]; [|easy].
    split; intros _; [now apply IH | reflexivity].
  - split; [discriminate|]. intros H. apply andb_true_iff in H.
    destruct H as [_ H]. apply IH in H. discriminate.
Qed.

Lemma blank_trimStart (s : string) : allSpaces (trimStart s) = allSpaces s.
Proof.
  induction s as [|c s IH]; [reflexivity|]. cbn [trimStart allSpaces].
  destruct (isSpace c) eqn:E; [exact IH|]. cbn [allSpaces]. now rewrite E.
Qed.

Lemma blank_collapsed (s : string) :
  forall inRun : bool, allSpaces (replaceSpaceRuns inRun s) = allSpaces s.
Proof.
  induction s as [|c s IH]; intros inRun; [reflexivity|].
  cbn [replaceSpaceRuns allSpaces].
  destruct (isSpace c) eqn:E; cbn [andb].
  - destruct inRun; [apply IH|]. cbn [allSpaces]. now rewrite IH.
  - cbn [allSpaces]. now rewrite E.
Qed.

Lemma isSpace_toLowerChar (c : ascii) : isSpace (toLowerChar c) = isSpace c.
Proof. destruct c as [[] [] [] [] [] [] [] []]; reflexivity. Qed.

Lemma blank_toLowerCase (s : string) : allSpaces (toLowerCase s) = allSpaces s.
Proof.
  induction s as [|c s IH]; [reflexivity|]. cbn [toLowerCase allSpaces].
  now rewrite isSpace_toLowerChar, IH.
Qed.

Lemma trim_blank (s : string) : trim s = "" <-> allSpaces s = true.
Proof. unfold trim. now rewrite trimEnd_blank, blank_trimStart. Qed.

Lemma normalizeText_blank (s : string) :
  normalizeText s = "" <-> allSpaces s = true.
Proof.
  unfold normalizeText.
  now rewrite trim_blank, blank_collapsed, blank_toLowerCase.
Qed.

Lemma trimStart_same (s : string) :
  startsWithSpace s = false -> trimStart s = s.
Proof. destruct s as [|c s]; [reflexivity|]. cbn. now intros ->. Qed.

Lemma collapsed_start (s : string) :
  startsWithSpace (replaceSpaceRuns true s) = false.
Proof.
  induction s as [|c s IH]; [reflexivity|]. cbn [replaceSpaceRuns].
  destruct (isSpace c) eqn:E; [exact IH|]. cbn. exact E.
Qed.

Lemma collapsed_trimStart (s : string) :
  trimStart (replaceSpaceRuns false s) = replaceSpaceRuns true s.
Proof.
  destruct s as [|c s]; [reflexivity|]. cbn [replaceSpaceRuns].
  destruct (isSpace c) eqn:E.
  - change (trimStart (String " " (replaceSpaceRuns true s)))
      with (trimStart (replaceSpaceRuns true s)).
    apply trimStart_same, collapsed_start.
  - cbn [trimStart]. now rewrite E.
Qed.

Lemma normalizeText_collapsed (s : string) :
  normalizeText s = trimEnd (replaceSpaceRuns true (toLowerCase s)).
Proof. unfold normalizeText, trim. now rewrite collapsed_trimStart. Qed.

Lemma collapsed_cut (a b : string) :
  forall inRun : bool,
    replaceSpaceRuns inRun (a +:+ " " +:+ b)
    = replaceSpaceRuns inRun (a +:+ " ") +:+ replaceSpaceRuns true b.
Proof.
  induction a as [|c a IH]; intros inRun.
  - rewrite !append_nil_l.
    change (" " +:+ b) with (String " " b).
    cbn [replaceSpaceRuns].
    change (isSpace " ") with true. cbv iota.
    destruct inRun; [now rewrite append_nil_l|].
    now rewrite append_cons, append_nil_l.
  - rewrite !append_cons. cbn [replaceSpaceRuns].
    destruct (isSpace c); [destruct inRun|]; rewrite ?append_cons, IH;
      reflexivity.
Qed.

Lemma trimEnd_append (x y : string) :
  trimEnd y <> "" -> trimEnd (x +:+ y) = x +:+ trimEnd y.
Proof.
  intros H. induction x as [|c x IH]; [now rewrite !append_nil_l|].
  rewrite !append_cons, trimEnd_cons_text; rewrite IH; [reflexivity|].
  destruct x; [now rewrite append_nil_l | now rewrite append_cons].
Qed.

Lemma collapsed_blank_space (a : string) :
  allSpaces a = true ->
  forall inRun : bool,
    replaceSpaceRuns inRun (a +:+ " ") = if inRun then "" else " ".
Proof.
  induction a as [|c a IH]; intros H inRun.
  - rewrite append_nil_l. now destruct inRun.
  - cbn [allSpaces] in H. apply andb_true_iff in H. destruct H as [Hc Ha].
    rewrite append_cons. cbn [replaceSpaceRuns]. rewrite Hc.
    destruct inRun; now rewrite (IH Ha true).
Qed.

Lemma collapsed_space_end (a : string) :
  forall inRun : bool,
    trimEnd (replaceSpaceRuns inRun a) <> "" ->
    replaceSpaceRuns inRun (a +:+ " ")
    = trimEnd (replaceSpaceRuns inRun a) +:+ " ".
Proof.
  induction a as [|c a IH]; intros inRun H; [now destruct inRun|].
  rewrite append_cons. cbn [replaceSpaceRuns] in *.
  destruct (isSpace c) eqn:E.
  - destruct inRun; [now apply IH|].
    destruct (trimEnd (replaceSpaceRuns true a)) as [|c' t] eqn:Et.
    + exfalso. apply H. now apply trimEnd_cons_blank.
    + rewrite trimEnd_cons_text, Et by (rewrite Et; discriminate).
      rewrite append_cons, <- Et. f_equal. apply IH. rewrite Et. discriminate.
  - rewrite trimEnd_cons by exact E. rewrite append_cons. f_equal.
    destruct (trimEnd (replaceSpaceRuns false a)) as [|c' t] eqn:Et.
    + rewrite append_nil_l. apply (collapsed_blank_space a).
      rewrite <- (blank_collapsed a false). now apply trimEnd_blank.
    + rewrite <- Et. apply IH. rewrite Et. discriminate.
Qed.

Lemma trimEnd_space (x : string) : trimEnd (x +:+ " ") = trimEnd x.
Proof.
  induction x as [|c x IH]; [reflexivity|].
  rewrite append_cons. cbn [trimEnd]. now rewrite IH.
Qed.

Lemma trimEnd_again (x : string) : trimEnd (trimEnd x) = trimEnd x.
Proof.
  destruct (trimEnd x) as [|c t] eqn:E; [reflexivity|]. rewrite <- E.
  apply trimEnd_clean; [rewrite E; discriminate | apply trimEnd_end].
Qed.

Lemma toLowerCase_append (a b : string) :
  toLowerCase (a +:+ b) = toLowerCase a +:+ toLowerCase b.
Proof.
  induction a as [|c a IH]; [now rewrite !append_nil_l|].
  rewrite append_cons. cbn [toLowerCase]. now rewrite append_cons, IH.
Qed.

(** Normalizing commutes with putting texts one behind the other. *)
Lemma normalizeText_space (a : string) :
  normalizeText a <> "" -> normalizeText (a +:+ " ") = normalizeText a.
Proof.
  rewrite !normalizeText_collapsed, toLowerCase_append. intros H.
  change (toLowerCase " ") with " "%string.
  rewrite collapsed_space_end by exact H.
  now rewrite trimEnd_space, trimEnd_again.
Qed.

Lemma normalizeText_glue (a b : string) :
  normalizeText a <> "" -> normalizeText b <> "" ->
  normalizeText (a +:+ " " +:+ b)
  = normalizeText a +:+ " " +:+ normalizeText b.
Proof.
  rewrite !normalizeText_collapsed, !toLowerCase_append. intros Ha Hb.
  change (toLowerCase " ") with " "%string.
  rewrite collapsed_cut, trimEnd_append by exact Hb.
  rewrite collapsed_space_end by exact Ha. now rewrite <- append_assoc.
Qed.

Lemma join_text (x : string) (l : list string) :
  x <> "" -> join (x :: l) <> "".
Proof.
  intros H. destruct l as [|y l]; [exact H|]. rewrite join_cons.
  destruct x; [congruence|]. now rewrite append_cons.
Qed.

Lemma normalizeText_spaced (l : list string) :
  Forall (fun t => normalizeText t <> "") l ->
  normalizeText (spaced l) = join (map normalizeText l).
Proof.
  induction 1 as [|x l Hx Hl IH]; [reflexivity|].
  cbn [spaced map]. destruct l as [|y l].
  - cbn [spaced]. rewrite append_nil_r. now apply normalizeText_space.
  - cbn [map] in *. rewrite join_cons, <- IH.
    apply normalizeText_glue; [exact Hx|]. rewrite IH.
    apply join_text. now inversion Hl.
Qed.

Lemma toLowerCase_trimStart (s : string) :
  toLowerCase (trimStart s) = trimStart (toLowerCase s).
Proof.
  induction s as [|c s IH]; [reflexivity|]. cbn [trimStart toLowerCase].
  rewrite isSpace_toLowerChar. now destruct (isSpace c).
Qed.

Lemma toLowerCase_trimEnd (s : string) :
  toLowerCase (trimEnd s) = trimEnd (toLowerCase s).
Proof.
  induction s as [|c s IH]; [reflexivity|]. cbn [trimEnd toLowerCase].
  rewrite <- IH, isSpace_toLowerChar.
  destruct (trimEnd s); [now destruct (isSpace c) | reflexivity].
Qed.

Lemma collapsed_skip (s : string) :
  replaceSpaceRuns true (trimStart s) = replaceSpaceRuns true s.
Proof.
  induction s as [|c s IH]; [reflexivity|]. cbn [trimStart].
  destruct (isSpace c) eqn:E; [|reflexivity].
  cbn [replaceSpaceRuns]. now rewrite E.
Qed.

Lemma collapsed_trimEnd (s : string) :
  forall inRun : bool,
    trimEnd (replaceSpaceRuns inRun (trimEnd s))
    = trimEnd (replaceSpaceRuns inRun s).
Proof.
  induction s as [|c s IH]; intros inRun; [reflexivity|].
  assert (Hcase : trimEnd s = "" \/ trimEnd s <> "")
    by (destruct (trimEnd s); [now left | now right]).
  destruct Hcase as [Et | Et].
  - assert (Hb : forall w, trimEnd (replaceSpaceRuns w s) = "").
    { intros w. apply trimEnd_blank. rewrite blank_collapsed.
      now apply trimEnd_blank. }
    cbn [trimEnd]. rewrite Et. cbn [replaceSpaceRuns].
    destruct (isSpace c) eqn:E.
    + destruct inRun; cbn [replaceSpaceRuns];
        [now rewrite Hb | now rewrite trimEnd_cons_blank].
    + cbn [replaceSpaceRuns]. rewrite E, !trimEnd_cons by exact E.
      now rewrite Hb.
  - rewrite trimEnd_cons_text by exact Et.
    cbn [replaceSpaceRuns]. destruct (isSpace c) eqn:E.
    + destruct inRun; [apply IH|]. cbn [trimEnd]. now rewrite IH.
    + rewrite !trimEnd_cons by exact E. now rewrite IH.
Qed.

(** Trimming before normalizing changes nothing. *)
Lemma normalizeText_trim (s : string) :
  normalizeText (trim s) = normalizeText s.
Proof.
  rewrite !normalizeText_collapsed. unfold trim.
  now rewrite toLowerCase_trimEnd, toLowerCase_trimStart, collapsed_trimEnd,
    collapsed_skip.
Qed.

Lemma endsWithSpace_text (s : string) :
  s <> "" -> endsWithSpace s = false -> allSpaces s = false.
Proof.
  induction s as [|c s IH]; [congruence|]. intros _ H. cbn [allSpaces].
  destruct s as [|c' s]; [cbn in H; now rewrite H|].
  rewrite IH; [apply andb_false_r | discriminate | exact H].
Qed.

Lemma collapsed_text (s : string) (inRun : bool) :
  s <> "" -> endsWithSpace s = false ->
  trimEnd (replaceSpaceRuns inRun s) <> "".
Proof.
  intros Hs He H. apply trimEnd_blank in H. rewrite blank_collapsed in H.
  now rewrite endsWithSpace_text in H.
Qed.

Lemma length_toLowerCase (s : string) :
  String.length (toLowerCase s) = String.length s.
Proof. induction s as [|c s IH]; [reflexivity|]. cbn. now rewrite IH. Qed.

Lemma endsWithSpace_toLowerCase (s : string) :
  endsWithSpace (toLowerCase s) = endsWithSpace s.
Proof.
  induction s as [|c s IH]; [reflexivity|].
  destruct s as [|c' s]; [apply isSpace_toLowerChar | exact IH].
Qed.

(** A trimmed text of three code units or more keeps three code units or
    more when it is normalized. *)
Lemma normalizeText_long (s : string) :
  cleanText s = true -> 3 <= len s -> 3 <= len (normalizeText s).
Proof.
  unfold cleanText. intros Hc Hl.
  apply andb_true_iff in Hc. destruct Hc as [Hc He].
  apply andb_true_iff in Hc. destruct Hc as [_ Hs].
  apply negb_true_iff in Hs, He.
  rewrite normalizeText_collapsed.
  rewrite <- endsWithSpace_toLowerCase in He.
  assert (Hl' : 3 <= len (toLowerCase s))
    by (unfold len in *; now rewrite length_toLowerCase).
  destruct s as [|c1 s]; [change (len "") with 0 in Hl; lia|].
  cbn [startsWithSpace] in Hs. rewrite <- isSpace_toLowerChar in Hs.
  cbn [toLowerCase] in *.
  set (x := toLowerChar c1) in *. set (v := toLowerCase s) in *.
  clearbody x v. clear Hl c1 s.
  cbn [replaceSpaceRuns]. rewrite Hs, trimEnd_cons, len_cons by exact Hs.
  rewrite len_cons in Hl'.
  destruct v as [|c2 v]; [change (len "") with 0 in Hl'; lia|].
  rewrite len_cons in Hl'.
  destruct v as [|c3 v]; [change (len "") with 0 in Hl'; lia|].
  assert (Hv : trimEnd (replaceSpaceRuns (isSpace c2) (String c3 v)) <> "").
  { apply collapsed_text; [discriminate | exact He]. }
  cbn [replaceSpaceRuns]. destruct (isSpace c2) eqn:E2.
  - rewrite trimEnd_cons_text, len_cons by exact Hv.
    destruct (trimEnd _); [congruence|]. rewrite len_cons.
    pose proof (len_nonneg s). lia.
  - rewrite trimEnd_cons, len_cons by exact E2.
    destruct (trimEnd _); [congruence|]. rewrite len_cons.
    pose proof (len_nonneg s). lia.
Qed.

End NormalizeFacts.

(** ** The location algorithm finds the text that occurs in the page *)

Section CompletenessFacts.
Import JsString Dom Types Highlighter.

(** The two results of the first loop of [findRangeForText]: the texts of
    the array are the data of the nodes that are not allSpaces, and the full
    text is these texts, each with a space behind it. *)
Lemma flatten_texts (nodes : list TextEntry) :
  forall (textNodes : list Located) (fullText : string),
    let texts :=
      map t_data
        (List.filter (fun t => negb (len (trim (t_data t)) =? 0)) nodes) in
    map text (fst (flatten nodes textNodes fullText))
    = map text textNodes ++ texts
    /\ snd (flatten nodes textNodes fullText) = fullText +:+ spaced texts.
Proof.
  induction nodes as [|n rest IH]; intros textNodes fullText.
  - cbn. now rewrite app_nil_r, append_nil_r.
  - cbn [flatten List.filter].
    destruct (len (trim (t_data n)) =? 0); cbn [negb]; [apply IH|].
    destruct (IH (textNodes ++
                  [ {| node := t_node n; start := len fullText;
                       text := t_data n |} ])
                 (fullText +:+ t_data n +:+ " ")) as [E1 E2].
    cbv zeta. rewrite E1, E2. cbn [map spaced]. split.
    + rewrite map_app, <- app_assoc. reflexivity.
    + now rewrite <- !append_assoc.
Qed.

Lemma flattened_texts (d : Document) :
  map text (fst (flattened d)) = map t_data (locatorNodes d)
  /\ snd (flattened d) = spaced (map t_data (locatorNodes d)).
Proof.
  unfold flattened, locatorNodes.
  destruct (flatten_texts (List.filter acceptNode (bodyTextNodes d)) [] "")
    as [E1 E2].
  split; [exact E1|]. now rewrite E2, append_nil_l.
Qed.

Lemma locatorNodes_text (d : Document) :
  Forall (fun t => normalizeText (t_data t) <> "") (locatorNodes d).
Proof.
  apply List.Forall_forall. intros t Ht. unfold locatorNodes in Ht.
  apply filter_In in Ht. destruct Ht as [_ Ht].
  apply negb_true_iff, Z.eqb_neq in Ht. rewrite len_zero in Ht.
  rewrite normalizeText_blank. rewrite trim_blank in Ht. exact Ht.
Qed.

(** What [findRangeForText] searches is the normalized text of the page. *)
Lemma normalizedFull_page (d : Document) :
  normalizeText (snd (flattened d)) = normalizedPage d
  /\ normalizedPage d
     = join (map (fun n => normalizeText (text n)) (fst (flattened d))).
Proof.
  destruct (flattened_texts d) as [E1 E2]. unfold normalizedPage. split.
  - rewrite E2, normalizeText_spaced, map_map; [reflexivity|].
    apply Forall_map. exact (locatorNodes_text d).
  - rewrite <- (map_map t_data normalizeText), <- E1, map_map. reflexivity.
Qed.

Lemma get_length (s : string) :
  forall (n : nat) (c : ascii),
    String.get n s = Some c -> (n < String.length s)%nat.
Proof.
  induction s as [|x s IH]; intros n c H; [discriminate|].
  destruct n as [|n]; cbn [String.length]; [lia|].
  cbn [String.get] in H. apply IH in H. lia.
Qed.

Lemma nonSpaceAt_bound (q : Z) (s : string) : nonSpaceAt q s -> q < len s.
Proof.
  intros [Hq (c & Hc & _)]. apply get_length in Hc. unfold len. lia.
Qed.

(** A code unit of joined texts that is not white space lies in the first
    text or behind the space that follows it. *)
Lemma nonSpaceAt_join (q : Z) (x y : string) (l : list string) :
  nonSpaceAt q (join (x :: y :: l)) ->
  q < len x
  \/ (len x < q /\ nonSpaceAt (q - len x - 1) (join (y :: l))).
Proof.
  rewrite join_cons. intros [Hq (c & Hc & Hs)].
  destruct (Z.lt_trichotomy q (len x)) as [H | [H | H]]; [now left | |].
  - exfalso.
    replace (Z.to_nat q) with (0 + String.length x)%nat in Hc
      by (unfold len in H; lia).
    rewrite <- String.append_correct2 in Hc. cbn in Hc.
    injection Hc as <-. discriminate.
  - right. split; [exact H|]. split; [lia|]. exists c. split; [|exact Hs].
    replace (Z.to_nat q)
      with (S (Z.to_nat (q - len x - 1)) + String.length x)%nat in Hc
      by (unfold len in *; lia).
    rewrite <- String.append_correct2 in Hc. exact Hc.
Qed.

(** The second loop of [findRangeForText] finds the end of a match whose
    last code unit is not white space, once it has the start. *)
Lemma anchor_end_found (matchIndex matchEnd : Z) (textNodes : list Located) :
  forall (s0 : Located) (startOffset normalizedPos : Z),
    Forall (fun n => normalizeText (text n) <> "") textNodes ->
    nonSpaceAt (matchEnd - 1 - normalizedPos)
      (join (map (fun n => normalizeText (text n)) textNodes)) ->
    isSome (endNode (anchor matchIndex matchEnd (Some s0) startOffset
                       normalizedPos textNodes)) = true.
Proof.
  induction textNodes as [|n rest IH];
    intros s0 startOffset normalizedPos Hall Hend.
  - destruct Hend as [_ (c & Hc & _)]. discriminate.
  - cbn [anchor isSome negb andb].
    destruct ((normalizedPos <? matchEnd)
              && (matchEnd <=? normalizedPos + len (normalizeText (text n))))
      eqn:E1; [reflexivity|].
    assert (Hq : ~ matchEnd - 1 - normalizedPos < len (normalizeText (text n))).
    { intros H. destruct Hend as [H0 _].
      apply andb_false_iff in E1.
      destruct E1 as [E1 | E1]; [apply Z.ltb_ge in E1 | apply Z.leb_gt in E1];
        lia. }
    destruct rest as [|m rest].
    + apply nonSpaceAt_bound in Hend. cbn in Hend. contradiction.
    + cbn [map] in Hend. apply nonSpaceAt_join in Hend.
      destruct Hend as [H | [H Hend]]; [contradiction|].
      destruct (matchEnd =? _) eqn:E2; [reflexivity|].
      apply IH; [now inversion Hall|].
      replace (matchEnd - 1 - (normalizedPos + len (normalizeText (text n)) + 1))
        with (matchEnd - 1 - normalizedPos - len (normalizeText (text n)) - 1)
        by lia.
      exact Hend.
Qed.

(** The second loop finds both ends of a match that starts and ends with a
    code unit that is not white space. *)
Lemma anchor_complete (matchIndex matchEnd : Z) (textNodes : list Located) :
  forall startOffset normalizedPos : Z,
    Forall (fun n => normalizeText (text n) <> "") textNodes ->
    matchIndex < matchEnd ->
    nonSpaceAt (matchIndex - normalizedPos)
      (join (map (fun n => normalizeText (text n)) textNodes)) ->
    nonSpaceAt (matchEnd - 1 - normalizedPos)
      (join (map (fun n => normalizeText (text n)) textNodes)) ->
    let a := anchor matchIndex matchEnd None startOffset normalizedPos
               textNodes in
    isSome (startNode a) = true /\ isSome (endNode a) = true.
Proof.
  induction textNodes as [|n rest IH];
    intros startOffset normalizedPos Hall Hlt Hstart Hend.
  - destruct Hend as [_ (c & Hc & _)]. discriminate.
  - cbn [anchor isSome negb andb].
    set (L := len (normalizeText (text n))).
    assert (H0 : 0 <= matchIndex - normalizedPos) by apply Hstart.
    destruct (Z.lt_ge_cases (matchIndex - normalizedPos) L) as [Hin | Hout].
    + rewrite (proj2 (Z.leb_le normalizedPos matchIndex)) by lia.
      rewrite (proj2 (Z.ltb_lt matchIndex (normalizedPos + L))) by lia.
      cbn [andb isSome].
      destruct ((normalizedPos <? matchEnd) && (matchEnd <=? normalizedPos + L))
        eqn:E1; [now split|].
      destruct (matchEnd =? normalizedPos + L) eqn:E2; [now split|].
      destruct (anchor_started matchIndex matchEnd rest n
                  (mapNormalizedToActual (text n) (matchIndex - normalizedPos))
                  (normalizedPos + L + 1)) as [Hs _].
      cbv zeta in Hs. rewrite Hs. split; [reflexivity|].
      assert (Hq : ~ matchEnd - 1 - normalizedPos < L).
      { intros H. apply andb_false_iff in E1.
        destruct E1 as [E1 | E1];
          [apply Z.ltb_ge in E1 | apply Z.leb_gt in E1]; lia. }
      destruct rest as [|m rest].
      * apply nonSpaceAt_bound in Hend. cbn in Hend. contradiction.
      * cbn [map] in Hend. apply nonSpaceAt_join in Hend.
        destruct Hend as [H | [H Hend]]; [contradiction|].
        apply anchor_end_found; [now inversion Hall|].
        replace (matchEnd - 1 - (normalizedPos + L + 1))
          with (matchEnd - 1 - normalizedPos - L - 1) by lia.
        exact Hend.
    + destruct rest as [|m rest].
      * apply nonSpaceAt_bound in Hstart. cbn in Hstart. fold L in Hstart. lia.
      * cbn [map] in Hstart, Hend.
        apply nonSpaceAt_join in Hstart. fold L in Hstart.
        destruct Hstart as [H | [H Hstart]]; [lia|].
        apply nonSpaceAt_join in Hend. fold L in Hend.
        destruct Hend as [H' | [H' Hend]]; [lia|].
        rewrite (proj2 (Z.ltb_ge matchIndex (normalizedPos + L))) by lia.
        rewrite andb_false_r. cbn [isSome andb].
        apply IH; [now inversion Hall | exact Hlt | |].
        -- replace (matchIndex - (normalizedPos + L + 1))
             with (matchIndex - normalizedPos - L - 1) by lia.
           exact Hstart.
        -- replace (matchEnd - 1 - (normalizedPos + L + 1))
             with (matchEnd - 1 - normalizedPos - L - 1) by lia.
           exact Hend.
Qed.

Lemma endsWithSpace_last (t : string) :
  t <> "" -> endsWithSpace t = false ->
  nonSpaceAt (len t - 1) t.
Proof.
  induction t as [|c t IH]; [congruence|]. intros _ H.
  rewrite len_cons. pose proof (len_nonneg t) as Hl.
  split; [lia|]. destruct t as [|c' t].
  - exists c. split; [reflexivity | exact H].
  - destruct (IH ltac:(discriminate) H) as [_ (x & Hx & Hs)].
    exists x. split; [|exact Hs].
    replace (Z.to_nat (len (String c' t) + 1 - 1))
      with (S (Z.to_nat (len (String c' t) - 1)))
      by (rewrite len_cons in *; pose proof (len_nonneg t); lia).
    exact Hx.
Qed.

(** Where a clean text occurs, its first and its last code unit are not
    white space. *)
Lemma occursAt_ends (i : Z) (t s : string) :
  cleanText t = true -> occursAt i t s ->
  nonSpaceAt i s /\ nonSpaceAt (i + len t - 1) s.
Proof.
  intros Hc Ho. apply occursAt_substring in Ho. destruct Ho as [Hi Ho].
  unfold cleanText in Hc. apply andb_true_iff in Hc. destruct Hc as [Hc He].
  apply andb_true_iff in Hc. destruct Hc as [Hn Hs].
  apply negb_true_iff in Hn, Hs, He. apply String.eqb_neq in Hn.
  destruct (endsWithSpace_last t Hn He) as [Hl (x & Hx & Hxs)].
  assert (Hpos : (0 < String.length t)%nat) by (unfold len in Hl; lia).
  split; (split; [lia|]).
  - destruct t as [|c t]; [congruence|]. exists c. split; [|exact Hs].
    pose proof (String.substring_correct1 s (Z.to_nat i)
                  (String.length (String c t)) 0 Hpos) as G.
    rewrite Ho in G. symmetry. exact G.
  - exists x. split; [|exact Hxs].
    assert (Hp : (Z.to_nat (len t - 1) < String.length t)%nat)
      by (unfold len; lia).
    pose proof (String.substring_correct1 s (Z.to_nat i) (String.length t)
                  (Z.to_nat (len t - 1)) Hp) as G.
    rewrite Ho, Hx in G.
    replace (Z.to_nat (i + len t - 1))
      with (Z.to_nat (len t - 1) + Z.to_nat i)%nat by lia.
    symmetry. exact G.
Qed.

Lemma indexOf_occursAt (s t : string) :
  (indexOf s t = -1 /\ forall i : Z, ~ occursAt i t s)
  \/ (occursAt (indexOf s t) t s
      /\ forall i : Z, occursAt i t s -> indexOf s t <= i).
Proof.
  unfold indexOf.
  destruct (indexOfFrom_spec t s 0) as [[H1 H2] | (k & H1 & H2 & H3 & H4)].
  - left. split; [exact H1|]. intros i Hi.
    apply occursAt_substring in Hi. exact (H2 _ (proj2 Hi)).
  - right. rewrite H1, Z.add_0_l. split.
    + apply occursAt_substring. split; [lia|]. now rewrite Nat2Z.id.
    + intros i Hi. apply occursAt_substring in Hi. destruct Hi as [Hi Ho].
      destruct (Z.le_gt_cases (Z.of_nat k) i) as [|Hlt]; [assumption|].
      exfalso. apply (H4 (Z.to_nat i)); [lia | exact Ho].
Qed.

(** A clean text that occurs in the normalized text of the page has its
    two boundary points. *)
Lemma boundaryPoints_complete (d : Document) (searchText : string) (i : Z) :
  cleanText searchText = true ->
  occursAt i searchText (normalizedPage d) ->
  exists points, boundaryPoints d searchText = Some points.
Proof.
  intros Hc Ho. unfold boundaryPoints.
  destruct (normalizedFull_page d) as [E1 E2].
  destruct (flattened d) as [textNodes fullText] eqn:Ef.
  cbn [fst snd] in E1, E2. rewrite E1.
  destruct (indexOf_occursAt (normalizedPage d) searchText)
    as [[_ Hno] | [Hk _]]; [now apply Hno in Ho|].
  set (k := indexOf (normalizedPage d) searchText) in *.
  assert (Hk0 : 0 <= k) by apply Hk.
  destruct (k =? -1) eqn:Ek; [apply Z.eqb_eq in Ek; lia|].
  destruct (occursAt_ends k searchText _ Hc Hk) as [Hs He].
  assert (Hlen : 0 < len searchText).
  { apply cleanText_nonempty in Hc. rewrite <- len_zero in Hc.
    pose proof (len_nonneg searchText). lia. }
  rewrite E2 in Hs, He.
  destruct (anchor_complete k (k + len searchText) textNodes 0 0) as [Ha Hb].
  - assert (H := locatorNodes_text d).
    destruct (flattened_texts d) as [Et _]. rewrite Ef in Et. cbn [fst] in Et.
    apply List.Forall_forall. intros n Hn.
    rewrite List.Forall_forall in H.
    apply (in_map text) in Hn. rewrite Et in Hn. apply in_map_iff in Hn.
    destruct Hn as (t & <- & Ht). now apply H.
  - lia.
  - now rewrite Z.sub_0_r.
  - now rewrite Z.sub_0_r.
  - cbv zeta in Ha, Hb.
    destruct (startNode (anchor k (k + len searchText) None 0 0 textNodes));
      [|discriminate].
    destruct (endNode (anchor k (k + len searchText) None 0 0 textNodes));
      [|discriminate].
    eexists. reflexivity.
Qed.

Lemma findRangeForText_complete (d : Document) (searchText : string) :
  cleanText searchText = true ->
  (exists i : Z, occursAt i searchText (normalizedPage d))
  <-> exists range, findRangeForText d searchText = Some range.
Proof.
  intros Hc. split.
  - intros [i Ho].
    destruct (boundaryPoints_complete d searchText i Hc Ho)
      as ([[[sn so] en] eo] & E).
    eexists. exact (findRangeForText_boundaryPoints _ _ _ _ _ _ E).
  - intros [range E]. unfold findRangeForText, boundaryPoints in E.
    destruct (normalizedFull_page d) as [E1 _].
    destruct (flattened d) as [textNodes fullText].
    cbn [snd] in E1. rewrite E1 in E.
    destruct (indexOf_occursAt (normalizedPage d) searchText)
      as [[Hno _] | [Hk _]]; [now rewrite Hno in E|].
    eexists. exact Hk.
Qed.

(** The normalized data of a text node of the locator occurs in the
    normalized text of the page. *)
Lemma locatorNode_occurs (d : Document) (t : TextEntry) :
  In t (locatorNodes d) ->
  exists i : Z, occursAt i (normalizeText (t_data t)) (normalizedPage d).
Proof.
  intros H. apply in_split in H. destruct H as (P & Q & E).
  unfold normalizedPage. rewrite E, map_app. cbn [map].
  set (f := fun t => normalizeText (t_data t)).
  exists (Z.of_nat (widthOf (map f P))). apply occursAt_substring.
  split; [lia|]. rewrite Nat2Z.id.
  exact (substring_join (map f P) [f t] (map f Q) ltac:(discriminate)).
Qed.

Lemma collectFrom_texts (nodes : list TextEntry) :
  forall (offset : Z) (n : TextChunker.TextNode),
    In n (TextChunker.collectFrom offset nodes) ->
    exists t, In t nodes /\ TextChunker.tn_text n = trim (t_data t).
Proof.
  induction nodes as [|t nodes IH]; intros offset n H; [destruct H|].
  cbn [TextChunker.collectFrom] in H.
  destruct (String.eqb (trim (t_data t)) "").
  - destruct (IH _ _ H) as (t' & Ht & E). exists t'. split; [now right | exact E].
  - destruct H as [<- | H]; [exists t; split; [now left | reflexivity]|].
    destruct (IH _ _ H) as (t' & Ht & E). exists t'. split; [now right | exact E].
Qed.

(** With the CSS Custom Highlight API, a text that occurs in the
    normalized text of the page is highlighted. *)
Lemma highlightText_occurring (p : Page) (chunkId searchText : string) :
  3 <= len (normalizeText searchText) ->
  (exists i : Z,
      occursAt i (normalizeText searchText) (normalizedPage (document p))) ->
  fst (highlightText true p chunkId searchText) = true.
Proof.
  intros Hl Ho. unfold highlightText. cbn [negb]. cbv zeta.
  destruct (removeHighlight_registry true p chunkId) as (_ & _ & Hd & _).
  destruct (injectHighlightStyles_same (removeHighlight true p chunkId))
    as (_ & _ & _ & _ & Hf).
  rewrite (findTextRanges_flattened _ _ searchText Hf), Hd.
  assert (Hne : normalizeText searchText <> "").
  { intros E. rewrite E in Hl. change (len "") with 0 in Hl. lia. }
  assert (Hc : cleanText (normalizeText searchText) = true)
    by (apply trim_cleanText, Hne).
  apply (findRangeForText_complete (document p) _ Hc) in Ho.
  destruct Ho as [range Hr].
  unfold findTextRanges. rewrite (proj2 (Z.ltb_ge _ _) Hl).
  cbn [firstFound].
  rewrite (proj2 (String.eqb_neq _ _) Hne), (proj2 (Z.ltb_ge _ _) Hl), Hr.
  reflexivity.
Qed.

(** X30.  The location algorithm is complete for a text that has no white
    space at its ends: [findRangeForText] returns a range exactly when the
    text occurs in the normalized text of the page, that is, in the
    normalized data of the text nodes that the locator accepts, joined by
    one space; the match may lie in one node or run across several.
    Hence, with the CSS Custom Highlight API, [highlightText] succeeds for
    every search text whose normalized form has three code units or more
    and occurs there, and for the text of every fragment of
    [extractPageText] when the nodes that the extractor reads lie below
    [<body>]. *)
Theorem highlightText_finds_page_text (p : Page) (chunkId : string) :
  let d := document p in
  (forall t : string,
      cleanText t = true ->
      (exists i : Z, occursAt i t (normalizedPage d))
      <-> exists range, findRangeForText d t = Some range)
  /\ (forall searchText : string,
         3 <= len (normalizeText searchText) ->
         (exists i : Z,
             occursAt i (normalizeText searchText) (normalizedPage d)) ->
         fst (highlightText true p chunkId searchText) = true)
  /\ (incl (TextChunker.acceptedTextNodes d) (bodyTextNodes d) ->
      Forall (fun n =>
                fst (highlightText true p chunkId (TextChunker.tn_text n))
                = true)
        (TextChunker.extractPageText d)).
Proof.
  intros d. split; [exact (findRangeForText_complete d)|].
  split; [intros searchText; apply highlightText_occurring|].
  intros Hbody. apply List.Forall_forall. intros n Hn.
  destruct (collectFrom_texts _ _ _ Hn) as (t & Ht & E).
  assert (Hacc : TextChunker.acceptNode t = true).
  { unfold TextChunker.acceptedTextNodes in Ht.
    destruct (TextChunker.searchRoot d) as [[root anc] cs].
    now apply filter_In in Ht. }
  destruct (acceptNode_weaker t Hacc) as [Hloc Hblank].
  assert (Hlong := acceptNode_long t Hacc).
  assert (Hin : In t (locatorNodes d)).
  { unfold locatorNodes. apply filter_In. split; [|exact Hblank].
    apply filter_In. split; [now apply Hbody | exact Hloc]. }
  assert (Hclean : cleanText (trim (t_data t)) = true).
  { apply trim_cleanText. intros E0. rewrite E0 in Hlong.
    change (len "") with 0 in Hlong. lia. }
  rewrite E. apply highlightText_occurring.
  - now apply normalizeText_long.
  - rewrite normalizeText_trim. now apply locatorNode_occurs.
Qed.

Lemma highlightText_finds_page_text_witness :
  let p := initialPage ∅ Samples.mixedParagraph in
  3 <= len (normalizeText "Test  paragraph with SOME")
  /\ occursAt 10 (normalizeText "Test  paragraph with SOME")
       (normalizedPage (document p))
  /\ fst (highlightText true p "chunk-1" "Test  paragraph with SOME") = true
  /\ incl (TextChunker.acceptedTextNodes (document p))
        (bodyTextNodes (document p))
  /\ Forall (fun n =>
               fst (highlightText true p "chunk-1" (TextChunker.tn_text n))
               = true)
        (TextChunker.extractPageText (document p)).
Proof.
  intros p.
  assert (H1 : 3 <= len (normalizeText "Test  paragraph with SOME"))
    by (apply Z.leb_le; vm_compute; reflexivity).
  assert (H2 : occursAt 10 (normalizeText "Test  paragraph with SOME")
                 (normalizedPage (document p)))
    by (split; [lia | vm_compute; reflexivity]).
  assert (H3 : incl (TextChunker.acceptedTextNodes (document p))
                 (bodyTextNodes (document p)))
    by (intros t Ht; vm_compute in Ht; vm_compute; exact Ht).
  split; [exact H1|]. split; [exact H2|]. split.
  - exact (proj1 (proj2 (highlightText_finds_page_text p "chunk-1"))
             "Test  paragraph with SOME" H1 (ex_intro _ 10 H2)).
  - split; [exact H3|].
    exact (proj2 (proj2 (highlightText_finds_page_text p "chunk-1")) H3).
Defined.

End CompletenessFacts.
